(** * Cache stages of the TensorIR schedule: cache_read, cache_write, reindex

    A shallow embedding of [src/tir/schedule/primitive/cache_read_write.cc]
    and the properties its specification states about it.

    Heap objects whose address the code compares ([Var], [Buffer], [For] and
    [Block] nodes: [same_as], [ObjectPtrEqual], [block == sref->stmt]) carry
    that address in the field [*_addr]; constructing such an object draws a
    fresh address from the heap counter threaded by the monad [M]. *)

From stdpp Require Import gmap strings list pretty.

Set Warnings "-register-all".
Open Scope string_scope.
Open Scope list_scope.

(** ** The IR nodes this file reads and produces *)

Definition addr := nat.

Inductive DataType := DInt (bits : nat) | DUInt (bits : nat) | DFloat (bits : nat) | DHandle.
Definition DBool : DataType := DUInt 1.

Record Var := mkVar { var_name : string; var_dtype : DataType; var_addr : addr }.

Inductive BinOp := OpAdd | OpSub | OpMul | OpFloorDiv | OpFloorMod | OpMin | OpMax
                 | OpLT | OpLE | OpEQ | OpAnd | OpOr.

Inductive PrimExpr :=
| IntImm (dtype : DataType) (value : Z)
| EVar (v : Var)
| Bin (op : BinOp) (a b : PrimExpr)
| BufferLoad (buffer : Buffer) (indices : list PrimExpr)
| Call (dtype : DataType) (op : string) (args : list PrimExpr)
with Buffer :=
| mkBuffer (data : Var) (dtype : DataType) (shape : list PrimExpr)
           (strides : list PrimExpr) (name : string) (scope : string)
           (buffer_addr : addr).

Definition buf_data (b : Buffer) := let 'mkBuffer d _ _ _ _ _ _ := b in d.
Definition buf_dtype (b : Buffer) := let 'mkBuffer _ t _ _ _ _ _ := b in t.
Definition buf_shape (b : Buffer) := let 'mkBuffer _ _ s _ _ _ _ := b in s.
Definition buf_strides (b : Buffer) := let 'mkBuffer _ _ _ s _ _ _ := b in s.
Definition buf_name (b : Buffer) := let 'mkBuffer _ _ _ _ n _ _ := b in n.
Definition buf_scope (b : Buffer) := let 'mkBuffer _ _ _ _ _ s _ := b in s.
Definition buf_addr (b : Buffer) := let 'mkBuffer _ _ _ _ _ _ a := b in a.

Abbreviation Add := (Bin OpAdd).
Abbreviation Sub := (Bin OpSub).
Abbreviation Min := (Bin OpMin).
Abbreviation Max := (Bin OpMax).

(** [a.same_as(b)] and [ObjectPtrEqual]: equality of addresses. *)
Definition buffer_same_as (a b : Buffer) : bool := Nat.eqb (buf_addr a) (buf_addr b).
Definition var_same_as (a b : Var) : bool := Nat.eqb (var_addr a) (var_addr b).

Definition is_compare (op : BinOp) : bool :=
  match op with
  | OpLT | OpLE | OpEQ | OpAnd | OpOr => true
  | _ => false
  end.

(** [e.dtype()]. *)
Definition dtype_of (e : PrimExpr) : DataType :=
  match e with
  | IntImm t _ => t
  | EVar v => var_dtype v
  | Bin op a _ =>
      if is_compare op then DBool
      else match a with
           | IntImm t _ => t
           | EVar v => var_dtype v
           | BufferLoad b _ => buf_dtype b
           | Call t _ _ => t
           | Bin _ _ _ => DInt 32
           end
  | BufferLoad b _ => buf_dtype b
  | Call t _ _ => t
  end.

Definition make_const (t : DataType) (v : Z) : PrimExpr := IntImm t v.
Definition make_zero (t : DataType) : PrimExpr := make_const t 0.
Definition const_true : PrimExpr := make_const DBool 1.

Record Range := mkRange { range_min : PrimExpr; range_extent : PrimExpr }.
Definition FromMinExtent (min extent : PrimExpr) : Range := mkRange min extent.

Definition Region := list Range.

Record BufferRegion := mkBufferRegion { br_buffer : Buffer; br_region : Region }.

(** [BufferRegion::FullRegion], from the IR library:
    [Range::FromMinExtent(0, extent)] for every extent of the shape. *)
Definition FullRegion (buffer : Buffer) : BufferRegion :=
  mkBufferRegion buffer
    (map (fun dim => FromMinExtent (IntImm (DInt 32) 0) dim) (buf_shape buffer)).

(** [BufferRegion::FromPoint]: the unit cell at the given indices. *)
Definition point_region (indices : list PrimExpr) : Region :=
  map (fun index => FromMinExtent index (make_const (dtype_of index) 1)) indices.
Definition FromPoint (buffer : Buffer) (indices : list PrimExpr) : BufferRegion :=
  mkBufferRegion buffer (point_region indices).

Record MatchBufferRegion := mkMatchBufferRegion { mb_buffer : Buffer; mb_source : BufferRegion }.

Inductive IterVarType := kDataPar | kCommReduce | kOrdered | kOpaque.

Record IterVar := mkIterVar { iv_dom : Range; iv_var : Var; iv_type : IterVarType }.

Inductive ForKind := kSerial | kParallel | kVectorized | kUnrolled | kThreadBinding.

Inductive Stmt :=
| BufferStore (buffer : Buffer) (value : PrimExpr) (indices : list PrimExpr)
| Evaluate (value : PrimExpr)
| SeqStmt (seq : list Stmt)
| IfThenElse (condition : PrimExpr) (then_case : Stmt) (else_case : option Stmt)
| For (for_addr : addr) (loop_var : Var) (min extent : PrimExpr) (kind : ForKind) (body : Stmt)
| BlockRealize (iter_values : list PrimExpr) (predicate : PrimExpr) (block : Block)
| BlockStmt (block : Block)
with Block :=
| mkBlock (block_addr : addr) (iter_vars : list IterVar)
          (reads writes : list BufferRegion) (name_hint : string)
          (body : Stmt) (init : option Stmt)
          (alloc_buffers : list Buffer) (match_buffers : list MatchBufferRegion).

Definition block_addr (b : Block) := let 'mkBlock a _ _ _ _ _ _ _ _ := b in a.
Definition block_iter_vars (b : Block) := let 'mkBlock _ i _ _ _ _ _ _ _ := b in i.
Definition block_reads (b : Block) := let 'mkBlock _ _ r _ _ _ _ _ _ := b in r.
Definition block_writes (b : Block) := let 'mkBlock _ _ _ w _ _ _ _ _ := b in w.
Definition block_name_hint (b : Block) := let 'mkBlock _ _ _ _ n _ _ _ _ := b in n.
Definition block_body (b : Block) := let 'mkBlock _ _ _ _ _ s _ _ _ := b in s.
Definition block_init (b : Block) := let 'mkBlock _ _ _ _ _ _ i _ _ := b in i.
Definition block_alloc_buffers (b : Block) := let 'mkBlock _ _ _ _ _ _ _ a _ := b in a.
Definition block_match_buffers (b : Block) := let 'mkBlock _ _ _ _ _ _ _ _ m := b in m.

(** ** Errors and the state-and-error monad *)

(** The module a schedule state belongs to: an opaque handle here. *)
Definition IRModule := nat.

Inductive ErrorKind := kNoAccess | kNonUniqueAccess | kOpaqueAccess.

(** How a call ends when it does not return.  [InternalError] is a failed
    [ICHECK] or a [LOG(FATAL)]; [ExternalError] is whatever a collaborator
    outside this file throws.  [UndefinedBehavior] is no exception at all: it
    marks the places where the C++ dereferences a null pointer or inserts
    outside a sequence.  The program has no defined outcome there (it
    typically crashes), and the model stops with this mark. *)
Inductive Error :=
| NotSingleWriteBlock (mod_ : IRModule) (buffer_ : Buffer) (write_blocks_ : list Block)
| NotLeafBlockError (mod_ : IRModule) (block_ : Block)
| InvalidBufferAccessError (mod_ : IRModule) (buffer_ : Buffer) (block_ : Block)
                           (kind_ : ErrorKind)
| NotRegionCoverError (mod_ : IRModule) (block_ : Block)
| InternalError (msg : string)
| ExternalError (msg : string)
| UndefinedBehavior (what : string).

Definition LocationsOfInterest (e : Error) : list Block :=
  match e with
  | NotSingleWriteBlock _ _ write_blocks_ => write_blocks_
  | NotLeafBlockError _ block_ => [block_]
  | InvalidBufferAccessError _ _ block_ _ => [block_]
  | NotRegionCoverError _ block_ => [block_]
  | InternalError _ | ExternalError _ | UndefinedBehavior _ => []
  end.

Inductive Res (A : Type) := Ok (a : A) | Err (e : Error).
Arguments Ok {A} a.
Arguments Err {A} e.

Definition M (S A : Type) : Type := S -> Res A * S.

Definition ret {S A} (a : A) : M S A := fun s => (Ok a, s).
Definition throw {S A} (e : Error) : M S A := fun s => (Err e, s).
Definition bind {S A B} (m : M S A) (k : A -> M S B) : M S B :=
  fun s => match m s with
           | (Ok a, s') => k a s'
           | (Err e, s') => (Err e, s')
           end.
Definition get {S} : M S S := fun s => (Ok s, s).
Definition put {S} (s : S) : M S unit := fun _ => (Ok tt, s).
Definition modify {S} (f : S -> S) : M S unit := fun s => (Ok tt, f s).
Definition lift_res {S A} (r : Res A) : M S A := fun s => (r, s).

Notation "'let*' p ':=' m 'in' k" := (bind m (fun p => k))
  (at level 10, p pattern, m at level 200, k at level 200).
Notation "m ;;; k" := (bind m (fun _ => k))
  (at level 100, right associativity).

Definition ICHECK {S} (b : bool) (msg : string) : M S unit :=
  if b then ret tt else throw (InternalError msg).

Definition mapM {S A B} (f : A -> M S B) : list A -> M S (list B) :=
  fix go l :=
    match l with
    | [] => ret []
    | x :: r => let* y := f x in let* ys := go r in ret (y :: ys)
    end.

Definition foldM {S A B} (f : B -> A -> M S B) : list A -> B -> M S B :=
  fix go l acc :=
    match l with
    | [] => ret acc
    | x :: r => let* acc' := f acc x in go r acc'
    end.

(** Runs a computation on a component of a larger state. *)
Definition zoom {S T A} (proj : T -> S) (upd : S -> T -> T) (m : M S A) : M T A :=
  fun t => let '(r, s') := m (proj t) in (r, upd s' t).

(** The heap: only the next free address matters. *)
Definition Heap := addr.
Definition new_addr : M Heap addr := fun h => (Ok h, S h).

(** ** The rewrite plan *)

(** A structural reference: the node it mirrors, its parent reference and
    its position in the parent's sequence ([-1] when the parent's body is not a
    sequence). *)
Inductive StmtSRef :=
| mkSRef (stmt : Stmt) (parent : option StmtSRef) (seq_index : Z).

Definition sref_stmt (r : StmtSRef) := let 'mkSRef s _ _ := r in s.
Definition sref_parent (r : StmtSRef) := let 'mkSRef _ p _ := r in p.
Definition sref_seq_index (r : StmtSRef) := let 'mkSRef _ _ i := r in i.

(** The address of the node behind a statement pointer; only loops and
    blocks have structural references. *)
Inductive StmtPtr := PtrFor (a : addr) | PtrBlock (a : addr) | PtrOther.

Definition stmt_ptr (s : Stmt) : StmtPtr :=
  match s with
  | For a _ _ _ _ _ => PtrFor a
  | BlockStmt b => PtrBlock (block_addr b)
  | _ => PtrOther
  end.

Definition ptr_eqb (p q : StmtPtr) : bool :=
  match p, q with
  | PtrFor a, PtrFor b => Nat.eqb a b
  | PtrBlock a, PtrBlock b => Nat.eqb a b
  | _, _ => false
  end.

Record CacheStageInfo := mkInfo {
  read_buffer : Buffer;
  write_buffer : Buffer;
  alloc : Buffer;
  loc_sref : option StmtSRef;
  loc_pos : Z;
  cache_stage : option Stmt;
  block_reuse : list (Block * Block);
  consumer_blocks : list StmtSRef
}.

Definition set_cache_stage (s : Stmt) (i : CacheStageInfo) : CacheStageInfo :=
  mkInfo (read_buffer i) (write_buffer i) (alloc i) (loc_sref i) (loc_pos i)
         (Some s) (block_reuse i) (consumer_blocks i).
Definition set_loc (r : option StmtSRef) (p : Z) (i : CacheStageInfo) : CacheStageInfo :=
  mkInfo (read_buffer i) (write_buffer i) (alloc i) r p
         (cache_stage i) (block_reuse i) (consumer_blocks i).
Definition block_reuse_Set (old new : Block) (i : CacheStageInfo) : CacheStageInfo :=
  mkInfo (read_buffer i) (write_buffer i) (alloc i) (loc_sref i) (loc_pos i)
         (cache_stage i)
         ((old, new) :: filter (fun kv => negb (Nat.eqb (block_addr (fst kv)) (block_addr old)))
                               (block_reuse i))
         (consumer_blocks i).

(** ** GetBufferRegionFromBuffer *)

(** The loop stops at the failed check: once the result is an error it stays
    so. *)
Definition GetBufferRegionFromBuffer (buffer_regions : list BufferRegion) (buffer : Buffer)
  : Res (option BufferRegion) :=
  foldl (fun res region =>
           match res with
           | Err e => Err e
           | Ok res =>
               if buffer_same_as (br_buffer region) buffer then
                 if bool_decide (is_Some res) then Err (InternalError "!res.defined()")
                 else Ok (Some region)
               else Ok res
           end)
        (Ok None) buffer_regions.

(** ** Sums of expressions *)

(** [a + b] on [PrimExpr], from the IR library ([operator+] is not in this
    file): it folds constants before it builds a node.  Two integer constants
    give the constant of their sum, in the type of the left one; a constant 0
    on either side gives the other operand; anything else is an [Add] node. *)
Definition op_add (a b : PrimExpr) : PrimExpr :=
  match a, b with
  | IntImm t x, IntImm _ y => IntImm t (x + y)%Z
  | IntImm _ x, _ => if (x =? 0)%Z then b else Add a b
  | _, IntImm _ y => if (y =? 0)%Z then a else Add a b
  | _, _ => Add a b
  end.

(** ** MakeCacheStage *)

Definition new_Var (name : string) (t : DataType) : M Heap Var :=
  let* a := new_addr in ret (mkVar name t a).

Definition new_Block (iter_vars : list IterVar) (reads writes : list BufferRegion)
    (name_hint : string) (body : Stmt) (init : option Stmt)
    (alloc_buffers : list Buffer) (match_buffers : list MatchBufferRegion) : M Heap Block :=
  let* a := new_addr in
  ret (mkBlock a iter_vars reads writes name_hint body init alloc_buffers match_buffers).

Definition new_For (loop_var : Var) (min extent : PrimExpr) (kind : ForKind) (body : Stmt)
  : M Heap Stmt :=
  let* a := new_addr in ret (For a loop_var min extent kind body).

(** A chain of loops built from the innermost outwards: the loop of the last
    element is allocated first and ends up innermost. *)
Definition make_loops {A} (mk : A -> Stmt -> M Heap Stmt) (loops : list A) (body : Stmt)
  : M Heap Stmt :=
  foldM (fun body l => mk l body) (rev loops) body.

(** The binding of one block variable of a cache stage:
    [axis_range->min + loop_var]. *)
Definition cache_binding (axis_range : Range) (loop_var : Var) : PrimExpr :=
  op_add (range_min axis_range) (EVar loop_var).

(** Body of the loop over [cache_region->region]. *)
Definition cache_loop_var_step
  : list Var * list PrimExpr -> Range -> M Heap (list Var * list PrimExpr) :=
  fun '(loop_vars, iter_values) axis_range =>
    let* loop_var := new_Var ("ax" +:+ pretty (length loop_vars))
                             (dtype_of (range_extent axis_range)) in
    ret (loop_vars ++ [loop_var],
         iter_values ++ [cache_binding axis_range loop_var]).

Definition cache_iter_var (dim : PrimExpr) (var : Var) : IterVar :=
  mkIterVar (FromMinExtent (make_zero (dtype_of dim)) dim) var kDataPar.

(** Body of the loop over [cache_region->buffer->shape]. *)
Definition cache_block_var_step
  : list IterVar * list Range * list PrimExpr -> PrimExpr ->
    M Heap (list IterVar * list Range * list PrimExpr) :=
  fun '(block_vars, access_region, access_indices) dim =>
    let* var := new_Var ("v" +:+ pretty (length access_indices)) (dtype_of dim) in
    ret (block_vars ++ [cache_iter_var dim var],
         access_region ++ [FromMinExtent (EVar var) (make_const (var_dtype var) 1)],
         access_indices ++ [EVar var]).

(** One surrounding loop of a cache stage. *)
Definition cache_loop : Var * Range -> Stmt -> M Heap Stmt :=
  fun '(loop_var, axis_range) body =>
    new_For loop_var (IntImm (DInt 32) 0) (range_extent axis_range) kSerial body.

(** The loop variable, minimum and extent of that loop. *)
Definition cache_loop_header (lr : Var * Range) : Var * PrimExpr * PrimExpr :=
  (fst lr, IntImm (DInt 32) 0, range_extent (snd lr)).

Definition MakeCacheStage (cache_region : BufferRegion) (info : CacheStageInfo)
    (storage_scope : string) : M Heap (Block * CacheStageInfo) :=
  (* Create loop vars and block vars' binding_value *)
  let* (loop_vars, iter_values) :=
    foldM cache_loop_var_step (br_region cache_region) ([], []) in
  (* Create block vars, block's accessed region and accessing indices *)
  let* (block_vars, access_region, access_indices) :=
    foldM cache_block_var_step (buf_shape (br_buffer cache_region)) ([], [], []) in
  (* Create the body block *)
  let* block :=
    new_Block block_vars
              [mkBufferRegion (read_buffer info) access_region]
              [mkBufferRegion (write_buffer info) access_region]
              (buf_name (br_buffer cache_region) +:+ "_" +:+ storage_scope)
              (BufferStore (write_buffer info)
                           (BufferLoad (read_buffer info) access_indices)
                           access_indices)
              None [] [] in
  (* Create the block realize node *)
  let body := BlockRealize iter_values const_true block in
  (* Create surrounding loops: i runs from loop_vars.size() down to 1 and uses
     loop_vars[i - 1] with cache_region->region[i - 1] *)
  let* body := make_loops cache_loop (zip loop_vars (br_region cache_region)) body in
  ret (block, set_cache_stage body info).

(** The loops around a statement, outermost first, and what they enclose. *)
Fixpoint peel_loops (s : Stmt) : list (Var * PrimExpr * PrimExpr) * Stmt :=
  match s with
  | For _ v mn ext _ body => let '(l, inner) := peel_loops body in ((v, mn, ext) :: l, inner)
  | _ => ([], s)
  end.

(** ** MakeReIndexStage and CreateReindexBuffer *)

Inductive BufferIndexType := kRead | kWrite.

(** The variables a reindexed access covers: a set of [Var] objects. *)
Definition covered_count (covered : gset addr) (v : Var) : bool :=
  bool_decide (var_addr v ∈ covered).

(** [Substitute(index, vmap)], from the IR library: replaces the variables the
    map knows. *)
Fixpoint Substitute (vmap : gmap addr PrimExpr) (e : PrimExpr) : PrimExpr :=
  match e with
  | IntImm _ _ => e
  | EVar v => default e (vmap !! var_addr v)
  | Bin op a b => Bin op (Substitute vmap a) (Substitute vmap b)
  | BufferLoad b idx => BufferLoad b (map (Substitute vmap) idx)
  | Call t op args => Call t op (map (Substitute vmap) args)
  end.

(** Step 1 of [MakeReIndexStage], for the block iter at index [i]. *)
Definition reindex_iter_step (covered : gset addr)
  : list IterVar * gset nat * list PrimExpr * gmap addr PrimExpr -> nat * IterVar ->
    M Heap (list IterVar * gset nat * list PrimExpr * gmap addr PrimExpr) :=
  fun '(new_block_iters, skipped_block_iters, reindex_indices, block_var_replace_map)
      '(i, iter) =>
    let* var := new_Var ("v" +:+ pretty (length new_block_iters)) (var_dtype (iv_var iter)) in
    let used := covered_count covered (iv_var iter) in
    let '(new_block_iters, skipped_block_iters) :=
      if used
      then (new_block_iters ++ [mkIterVar (iv_dom iter) var kDataPar], skipped_block_iters)
      else (new_block_iters, {[i]} ∪ skipped_block_iters) in
    let reindex_indices := if used then reindex_indices ++ [EVar var] else reindex_indices in
    ret (new_block_iters, skipped_block_iters, reindex_indices,
         <[var_addr (iv_var iter) := EVar var]> block_var_replace_map).

(** Step 4 of [MakeReIndexStage], for the block iter at index [i]. *)
Definition reindex_loop_var_step (skipped_block_iters : gset nat)
  : list Var * list PrimExpr -> nat * IterVar -> M Heap (list Var * list PrimExpr) :=
  fun '(loop_vars, iter_values) '(i, iter) =>
    if bool_decide (i ∈ skipped_block_iters) then ret (loop_vars, iter_values)
    else
      let* loop_var := new_Var ("ax" +:+ pretty (length loop_vars)) (var_dtype (iv_var iter)) in
      ret (loop_vars ++ [loop_var], iter_values ++ [EVar loop_var]).

(** One surrounding loop of a reindex stage. *)
Definition reindex_loop : Var * IterVar -> Stmt -> M Heap Stmt :=
  fun '(loop_var, new_block_iter) body =>
    new_For loop_var (range_min (iv_dom new_block_iter))
            (range_extent (iv_dom new_block_iter)) kSerial body.

(** The block iters the access covers. *)
Definition covered_iters (covered : gset addr) (iters : list IterVar) : list IterVar :=
  filter (fun iter => covered_count covered (iv_var iter) = true) iters.

Definition enumerate {A} (l : list A) : list (nat * A) := zip (seq 0 (length l)) l.

Definition MakeReIndexStage (block : Block) (info : CacheStageInfo) (covered : gset addr)
    (original_indices : list PrimExpr) (buffer_index : Z)
    (buffer_index_type : BufferIndexType) : M Heap (Block * CacheStageInfo) :=
  (* Step 1: Create block iters, access regions of the reindex block, and
     accessing indices to the reindex buffer. *)
  let* (new_block_iters, skipped_block_iters, reindex_indices, block_var_replace_map) :=
    foldM (reindex_iter_step covered) (enumerate (block_iter_vars block)) ([], ∅, [], ∅) in
  (* Step 2: Replace the original block iters with the new block iters *)
  let target_indices := map (Substitute block_var_replace_map) original_indices in
  (* Step 3: Create the reindex block *)
  let '(src_indices, dst_indices) :=
    match buffer_index_type with
    | kWrite => (reindex_indices, target_indices)
    | kRead => (target_indices, reindex_indices)
    end in
  let* new_block :=
    new_Block new_block_iters
              [FromPoint (read_buffer info) src_indices]
              [FromPoint (write_buffer info) dst_indices]
              (buf_name (write_buffer info) +:+ "_reindex")
              (BufferStore (write_buffer info)
                           (BufferLoad (read_buffer info) src_indices)
                           dst_indices)
              None [] [] in
  (* Step 4: Create surrounding loops *)
  let* (loop_vars, iter_values) :=
    foldM (reindex_loop_var_step skipped_block_iters) (enumerate (block_iter_vars block))
          ([], []) in
  let body := BlockRealize iter_values const_true new_block in
  (* i runs from new_block_iters.size() - 1 down to 0 and uses loop_vars[i]
     with new_block_iters[i] *)
  let* body := make_loops reindex_loop (zip loop_vars new_block_iters) body in
  ret (new_block, set_cache_stage body info).

Definition copy_with_suffix (v : Var) (suffix : string) : M Heap Var :=
  new_Var (var_name v +:+ suffix) (var_dtype v).

(** One dimension of the reindex buffer: [iter->dom->min + iter->dom->extent]. *)
Definition reindex_dim (iter : IterVar) : PrimExpr :=
  op_add (range_min (iv_dom iter)) (range_extent (iv_dom iter)).

Definition CreateReindexBuffer (buffer : Buffer) (block_iters : list IterVar)
    (covered : gset addr) : M Heap Buffer :=
  let* new_buffer_addr := new_addr in
  (* new_var: a copy of the data variable the function never uses *)
  let* _ := new_addr in
  let new_shape := map reindex_dim (covered_iters covered block_iters) in
  let new_strides := [] in
  let* data := copy_with_suffix (buf_data buffer) "_reindex" in
  ret (mkBuffer data (buf_dtype buffer) new_shape new_strides
                (buf_name buffer +:+ "_reindex") (buf_scope buffer) new_buffer_addr).

(** The [Var] objects of an expression, as [PreOrderVisit] meets them. *)
Fixpoint CollectVars (e : PrimExpr) : gset addr :=
  match e with
  | IntImm _ _ => ∅
  | EVar v => {[var_addr v]}
  | Bin _ a b => CollectVars a ∪ CollectVars b
  | BufferLoad b idx => {[var_addr (buf_data b)]} ∪ ⋃ (map CollectVars idx)
  | Call _ _ args => ⋃ (map CollectVars args)
  end.

(** ** Structural references and the schedule state *)

(** [a == b] on statement pointers held by structural references. *)
Definition stmt_same (s t : Stmt) : bool := ptr_eqb (stmt_ptr s) (stmt_ptr t).
Definition sref_points_to_block (r : StmtSRef) (b : Block) : bool :=
  ptr_eqb (stmt_ptr (sref_stmt r)) (PtrBlock (block_addr b)).
Definition sref_points_to_for (r : StmtSRef) (a : addr) : bool :=
  ptr_eqb (stmt_ptr (sref_stmt r)) (PtrFor a).

(** A structural reference is one object per loop or block ([stmt2ref] is
    one-to-one), so the tables keyed by references are keyed here by the
    address of the node the reference mirrors. *)
Definition sref_key (r : StmtSRef) : addr :=
  match stmt_ptr (sref_stmt r) with
  | PtrFor a | PtrBlock a => a
  | PtrOther => 0
  end.
Definition sref_same (r q : StmtSRef) : bool := stmt_same (sref_stmt r) (sref_stmt q).

Inductive DepKind := kRAW | kWAW | kWAR | kOpaqueDep.
Definition DepKind_eqb (a b : DepKind) : bool :=
  match a, b with
  | kRAW, kRAW | kWAW, kWAW | kWAR, kWAR | kOpaqueDep, kOpaqueDep => true
  | _, _ => false
  end.

Record Dependency := mkDependency { dep_src : StmtSRef; dep_dst : StmtSRef; dep_kind : DepKind }.

Record BlockScope := mkBlockScope {
  src2deps : gmap addr (list Dependency);
  dst2deps : gmap addr (list Dependency);
  buffer_writers : gmap addr (list StmtSRef);
  stage_pipeline : bool
}.

Definition GetDepsBySrc (scope : BlockScope) (block_sref : StmtSRef) : list Dependency :=
  default [] (src2deps scope !! sref_key block_sref).

Record BlockInfo := mkBlockInfo {
  bi_scope : BlockScope;
  affine_binding : bool;
  region_cover : bool
}.

Record ScheduleState := mkScheduleState {
  st_mod : IRModule;
  block_info : gmap addr BlockInfo;
  stmt2ref : gmap addr StmtSRef
}.

(** [TVM_SREF_TO_BLOCK]: the block behind a reference, checked. *)
Definition TVM_SREF_TO_BLOCK {S} (sref : StmtSRef) : M S Block :=
  match sref_stmt sref with
  | BlockStmt b => ret b
  | _ => throw (InternalError "TypeError: Expects StmtSRef to point to Block")
  end.

(** [self->stmt2ref.at(stmt)] and [self->block_info.at(sref)]. *)
Definition stmt2ref_at {S} (self : ScheduleState) (a : addr) : M S StmtSRef :=
  match stmt2ref self !! a with
  | Some r => ret r
  | None => throw (InternalError "stmt2ref.at: key not found")
  end.
Definition block_info_at {S} (self : ScheduleState) (sref : StmtSRef) : M S BlockInfo :=
  match block_info self !! sref_key sref with
  | Some i => ret i
  | None => throw (InternalError "block_info.at: key not found")
  end.

Definition GetBlockScope {S} (self : ScheduleState) (scope_sref : StmtSRef) : M S BlockScope :=
  let* i := block_info_at self scope_sref in ret (bi_scope i).

(** ** NotSingleWriteBlock and GetOnlyWriteBlock *)

(** The constructor of the error: it checks that there is more than one
    writer and stores the block of each. *)
Definition make_NotSingleWriteBlock {S} (mod_ : IRModule) (buffer : Buffer)
    (write_blocks : list StmtSRef) : M S Error :=
  ICHECK (bool_decide (1 < length write_blocks)) "write_blocks.size() > 1" ;;;
  let* blocks := mapM TVM_SREF_TO_BLOCK write_blocks in
  ret (NotSingleWriteBlock mod_ buffer blocks).

Definition GetOnlyWriteBlock {S} (self : ScheduleState) (scope_sref : StmtSRef) (buffer : Buffer)
  : M S (option StmtSRef) :=
  let* scope := GetBlockScope self scope_sref in
  match buffer_writers scope !! buf_addr buffer with
  | None => ret None
  | Some block_srefs =>
      ICHECK (negb (bool_decide (block_srefs = []))) "!block_srefs.empty()" ;;;
      if bool_decide (1 < length block_srefs) then
        let* e := make_NotSingleWriteBlock (st_mod self) buffer block_srefs in
        throw e
      else
        match block_srefs with
        | r :: _ => ret (Some r)
        | [] => throw (InternalError "block_srefs[0]")
        end
  end.

(** ** InsertCacheStage *)

(** Conversions between the [int] position of the detector, the [size_t]
    field of the plan and the [int] parameter of [InsertCacheStage]. *)
Definition to_size_t (z : Z) : Z := z mod 2 ^ 64.
Definition to_int (z : Z) : Z := (z + 2 ^ 31) mod 2 ^ 32 - 2 ^ 31.

(** [seq.insert(seq.begin() + pos, stage)]; a position outside [0, size] is
    undefined behaviour in the C++. *)
Definition seq_insert {S} (seq : list Stmt) (pos : Z) (stage : Stmt) : M S (list Stmt) :=
  if bool_decide (0 ≤ pos ≤ Z.of_nat (length seq))%Z
  then ret (take (Z.to_nat pos) seq ++ stage :: drop (Z.to_nat pos) seq)
  else throw (UndefinedBehavior "insert position out of range").

Definition InsertCacheStage {S} (stmt : Stmt) (pos : Z) (stage : Stmt) : M S Stmt :=
  match stmt with
  | SeqStmt seq => let* result := seq_insert seq pos stage in ret (SeqStmt result)
  | _ =>
      if (pos =? 0)%Z then ret (SeqStmt [stage; stmt])
      else
        ICHECK (pos =? 1)%Z "pos == 1" ;;;
        ret (SeqStmt [stmt; stage])
  end.

(** ** CacheLocDetector *)

Record DetectorState := mkDetector {
  visited_block_ : bool;
  visited_related_ : bool;
  loc_sref_ : option StmtSRef;
  loc_pos_ : Z
}.

Definition set_visited_block (b : bool) (d : DetectorState) : DetectorState :=
  mkDetector b (visited_related_ d) (loc_sref_ d) (loc_pos_ d).
Definition set_visited_related (b : bool) (d : DetectorState) : DetectorState :=
  mkDetector (visited_block_ d) b (loc_sref_ d) (loc_pos_ d).
Definition set_loc_sref_ (r : StmtSRef) (d : DetectorState) : DetectorState :=
  mkDetector (visited_block_ d) (visited_related_ d) (Some r) (loc_pos_ d).
Definition set_loc_pos_ (p : Z) (d : DetectorState) : DetectorState :=
  mkDetector (visited_block_ d) (visited_related_ d) (loc_sref_ d) p.

Section CacheLocDetector.

Variable self_ : ScheduleState.
Variable block_sref_ : StmtSRef.
Variable scope_sref_ : StmtSRef.
Variable related_blocks_ : list StmtSRef.

(** The loop of [VisitStmt_] on a [SeqStmtNode], from child [i] on. *)
Definition detector_seq_loop (VisitStmt : Stmt -> M DetectorState unit)
    (previous_visited_block : bool) : list Stmt -> Z -> M DetectorState unit :=
  fix loop (seq : list Stmt) (i : Z) : M DetectorState unit :=
    match seq with
    | [] => ret tt
    | s :: rest =>
        let* d := get in
        if negb (loc_pos_ d =? -1)%Z then ret tt
        else
          VisitStmt s ;;;
          let* d := get in
          (* `pos` can be assigned only once when we visited `block_sref` *)
          if visited_block_ d && visited_related_ d && (loc_pos_ d =? -1)%Z then
            put (set_loc_pos_ i d)
          else if visited_related_ d then
            (* If meet the target consumer, stop searching *)
            put (set_visited_block (visited_block_ d || previous_visited_block) d)
          else loop rest (i + 1)%Z
    end.

Fixpoint detector_VisitStmt (s : Stmt) : M DetectorState unit :=
  match s with
  | BufferStore _ _ _ => ret tt
  | Evaluate _ => ret tt
  | SeqStmt seq =>
      let* d := get in
      let previous_visited_block := visited_block_ d in
      put (set_visited_block false d) ;;;
      detector_seq_loop detector_VisitStmt previous_visited_block seq 0
  | IfThenElse _ then_case else_case =>
      detector_VisitStmt then_case ;;;
      match else_case with
      | Some e => detector_VisitStmt e
      | None => ret tt
      end
  | For a _ _ _ _ body =>
      detector_VisitStmt body ;;;
      let* d := get in
      if visited_block_ d && visited_related_ d
         && negb (bool_decide (is_Some (loc_sref_ d))) && negb (loc_pos_ d =? -1)%Z
      then let* r := stmt2ref_at self_ a in put (set_loc_sref_ r d)
      else ret tt
  | BlockRealize _ _ block => detector_VisitBlock block
  | BlockStmt block => detector_VisitBlock block
  end
with detector_VisitBlock (block : Block) : M DetectorState unit :=
  match block with
  | mkBlock a _ _ _ _ body init _ _ =>
      (* Only visit the current scope under buffer writer's parent block *)
      if ptr_eqb (PtrBlock a) (stmt_ptr (sref_stmt scope_sref_)) then
        (* The block vistied is the current parent scope *)
        match init with
        | Some i => detector_VisitStmt i
        | None => ret tt
        end ;;;
        detector_VisitStmt body ;;;
        let* d := get in
        (* Handling cases when insert outside any loop or cache_read for input buffer *)
        if visited_related_ d && negb (bool_decide (is_Some (loc_sref_ d))) then
          let* r := stmt2ref_at self_ a in
          put (set_loc_sref_ r d) ;;;
          (* Handling cache_read for input buffer *)
          if negb (visited_block_ d) && (loc_pos_ d =? -1)%Z
          then modify (set_loc_pos_ 0)
          else ret tt
        else ret tt
      (* Update `visited_block` *)
      else if ptr_eqb (stmt_ptr (sref_stmt block_sref_)) (PtrBlock a) then
        modify (set_visited_block true)
      (* Update `visited_related` *)
      else if existsb (fun related_block => ptr_eqb (stmt_ptr (sref_stmt related_block))
                                                    (PtrBlock a)) related_blocks_
      then modify (set_visited_related true)
      else ret tt
  end.

End CacheLocDetector.

(** [CacheLocDetector::Detect]. *)
Definition Detect {S} (self : ScheduleState) (block_sref scope_sref : StmtSRef)
    (info : CacheStageInfo) : M S CacheStageInfo :=
  (* If consumer is specified, skip detecting the others *)
  let* related_blocks :=
    if bool_decide (0 < length (consumer_blocks info)) then ret (consumer_blocks info)
    else
      let* scope := GetBlockScope self scope_sref in
      ret (map dep_dst (filter (fun def => DepKind_eqb (dep_kind def) kRAW = true)
                               (GetDepsBySrc scope block_sref))) in
  if negb (bool_decide (related_blocks = [])) then
    let '(r, detector) :=
      detector_VisitStmt self block_sref scope_sref related_blocks (sref_stmt scope_sref)
                         (mkDetector false false None (-1)) in
    let* _ := lift_res r in
    ret (set_loc (loc_sref_ detector) (to_size_t (loc_pos_ detector)) info)
  else
    let* scope_block := TVM_SREF_TO_BLOCK scope_sref in
    let loc_pos :=
      match block_body scope_block with
      | SeqStmt seq => Z.of_nat (length seq)
      | _ => 1%Z
      end in
    ret (set_loc (Some scope_sref) loc_pos info).

(** ** The rewriters *)

(** The state of a rewriter: the heap, the plan it updates ([block_reuse]) and
    its traversal flag ([current_block_consumes] of the cache_read rewriter,
    [under_writer_block_] of the cache_write rewriter). *)
Record RewriterState := mkRewriter {
  rw_heap : Heap;
  rw_info : CacheStageInfo;
  rw_flag : bool
}.

Definition set_rw_flag (b : bool) (s : RewriterState) : RewriterState :=
  mkRewriter (rw_heap s) (rw_info s) b.
Definition set_rw_info (i : CacheStageInfo) (s : RewriterState) : RewriterState :=
  mkRewriter (rw_heap s) i (rw_flag s).
Definition rw_alloc : M RewriterState addr :=
  zoom rw_heap (fun h s => mkRewriter h (rw_info s) (rw_flag s)) new_addr.

(** [ReplaceBuffer] on region lists and on match-buffer lists, from the
    schedule utilities: the regions of [source] move to [target]; the flag says
    whether the array changed ([!result.same_as(regions)]). *)
Definition ReplaceBuffer (regions : list BufferRegion) (source target : Buffer)
  : list BufferRegion * bool :=
  (map (fun region => if buffer_same_as (br_buffer region) source
                      then mkBufferRegion target (br_region region) else region) regions,
   existsb (fun region => buffer_same_as (br_buffer region) source) regions).

Definition ReplaceBuffer_match (match_buffers : list MatchBufferRegion) (source target : Buffer)
  : list MatchBufferRegion * bool :=
  (map (fun mb => if buffer_same_as (br_buffer (mb_source mb)) source
                  then mkMatchBufferRegion (mb_buffer mb)
                                           (mkBufferRegion target (br_region (mb_source mb)))
                  else mb) match_buffers,
   existsb (fun mb => buffer_same_as (br_buffer (mb_source mb)) source) match_buffers).

(** *** The inherited traversal

    Modelled from the spec: the generic mutators [StmtMutator] and
    [ExprMutator] are not in this file; they rewrite the children of a node
    bottom-up and return the node itself when no child changed (structural
    sharing).  A visit returns the new node and whether it is a different
    object from the one visited. *)

Section Mutate.

Variable VisitExpr : PrimExpr -> PrimExpr * bool.

Definition Mutate_exprs (l : list PrimExpr) : list PrimExpr * bool :=
  (map (fun e => fst (VisitExpr e)) l, existsb (fun e => snd (VisitExpr e)) l).

Definition Mutate_range (r : Range) : Range * bool :=
  let '(mn, c1) := VisitExpr (range_min r) in
  let '(ext, c2) := VisitExpr (range_extent r) in
  if c1 || c2 then (mkRange mn ext, true) else (r, false).

Definition Mutate_region (l : Region) : Region * bool :=
  (map (fun r => fst (Mutate_range r)) l, existsb (fun r => snd (Mutate_range r)) l).

Definition Mutate_buffer_region (br : BufferRegion) : BufferRegion * bool :=
  let '(region, c) := Mutate_region (br_region br) in
  if c then (mkBufferRegion (br_buffer br) region, true) else (br, false).

Definition Mutate_buffer_regions (l : list BufferRegion) : list BufferRegion * bool :=
  (map (fun r => fst (Mutate_buffer_region r)) l,
   existsb (fun r => snd (Mutate_buffer_region r)) l).

Definition Mutate_match_buffer (mb : MatchBufferRegion) : MatchBufferRegion * bool :=
  let '(source, c) := Mutate_buffer_region (mb_source mb) in
  if c then (mkMatchBufferRegion (mb_buffer mb) source, true) else (mb, false).

Definition Mutate_match_buffers (l : list MatchBufferRegion) : list MatchBufferRegion * bool :=
  (map (fun r => fst (Mutate_match_buffer r)) l,
   existsb (fun r => snd (Mutate_match_buffer r)) l).

Definition Mutate_iter_var (iv : IterVar) : IterVar * bool :=
  let '(dom, c) := Mutate_range (iv_dom iv) in
  if c then (mkIterVar dom (iv_var iv) (iv_type iv), true) else (iv, false).

Definition Mutate_iter_vars (l : list IterVar) : list IterVar * bool :=
  (map (fun r => fst (Mutate_iter_var r)) l, existsb (fun r => snd (Mutate_iter_var r)) l).

End Mutate.

(** The fields of a block a mutator has visited, and whether any changed. *)
Definition rebuild_block (old : Block) (iter_vars : list IterVar)
    (reads writes : list BufferRegion) (match_buffers : list MatchBufferRegion)
    (init : option Stmt) (body : Stmt) (changed : bool) : M RewriterState (Block * bool) :=
  if changed then
    let* a := rw_alloc in
    ret (mkBlock a iter_vars reads writes (block_name_hint old) body init
                 (block_alloc_buffers old) match_buffers, true)
  else ret (old, false).

(** A copy of [stmt] made by [make_object<BlockNode>], then assignments to
    its fields. *)
Definition with_addr (a : addr) (b : Block) : Block :=
  mkBlock a (block_iter_vars b) (block_reads b) (block_writes b) (block_name_hint b)
          (block_body b) (block_init b) (block_alloc_buffers b) (block_match_buffers b).
Definition copy_block (b : Block) (f : Block -> Block) : M RewriterState Block :=
  let* a := rw_alloc in ret (with_addr a (f b)).

Definition with_body (body : Stmt) (b : Block) : Block :=
  mkBlock (block_addr b) (block_iter_vars b) (block_reads b) (block_writes b)
          (block_name_hint b) body (block_init b) (block_alloc_buffers b)
          (block_match_buffers b).
Definition with_alloc_pushed (buffer : Buffer) (b : Block) : Block :=
  mkBlock (block_addr b) (block_iter_vars b) (block_reads b) (block_writes b)
          (block_name_hint b) (block_body b) (block_init b)
          (block_alloc_buffers b ++ [buffer]) (block_match_buffers b).
Definition with_reads_match (reads : list BufferRegion) (match_buffers : list MatchBufferRegion)
    (b : Block) : Block :=
  mkBlock (block_addr b) (block_iter_vars b) reads (block_writes b)
          (block_name_hint b) (block_body b) (block_init b) (block_alloc_buffers b)
          match_buffers.
Definition with_accesses (writes reads : list BufferRegion)
    (match_buffers : list MatchBufferRegion) (b : Block) : Block :=
  mkBlock (block_addr b) (block_iter_vars b) reads writes
          (block_name_hint b) (block_body b) (block_init b) (block_alloc_buffers b)
          match_buffers.

(** [info_->loc_sref->stmt] and [info_->cache_stage] as the rewriters use
    them.  The rewriters dereference [loc_sref] unchecked; it is null when the
    detector found no site.  The stage is set by [MakeCacheStage] or
    [MakeReIndexStage] before a rewriter runs; a rewriter run without one
    would work on a null statement. *)
Definition info_loc_stmt {S} (info : CacheStageInfo) : M S StmtPtr :=
  match loc_sref info with
  | Some r => ret (stmt_ptr (sref_stmt r))
  | None => throw (UndefinedBehavior "info->loc_sref is null")
  end.
Definition info_cache_stage {S} (info : CacheStageInfo) : M S Stmt :=
  match cache_stage info with
  | Some s => ret s
  | None => throw (UndefinedBehavior "info->cache_stage is null")
  end.

(** The check of the insertion point on a loop, shared by the cache_read and
    the cache_write rewriter: [stmt] is the loop after the inherited visit. *)
Definition insert_into_loop (a : addr) (stmt : Stmt * bool) : M RewriterState (Stmt * bool) :=
  let* st := get in
  let info := rw_info st in
  let* loc := info_loc_stmt info in
  if ptr_eqb (PtrFor a) loc then
    (* Insert cache stage into the loop if it is the right place *)
    match fst stmt with
    | For _ v mn ext kind body =>
        let* stage := info_cache_stage info in
        let* a' := rw_alloc in
        let* body' := InsertCacheStage body (to_int (loc_pos info)) stage in
        ret (For a' v mn ext kind body', true)
    | _ => throw (UndefinedBehavior "stmt.as<ForNode>() is null")
    end
  else ret stmt.

(** The check of the insertion point on a block. *)
Definition insert_into_block (a : addr) (stmt : Block * bool) : M RewriterState (Block * bool) :=
  let* st := get in
  let info := rw_info st in
  let* loc := info_loc_stmt info in
  if ptr_eqb (PtrBlock a) loc then
    (* Insert cache stage into the block if it is the right place *)
    let* stage := info_cache_stage info in
    let* body' := InsertCacheStage (block_body (fst stmt)) (to_int (loc_pos info)) stage in
    let* n := copy_block (fst stmt) (with_body body') in
    ret (n, true)
  else ret stmt.

Definition record_block_reuse (old_stmt : Block) (stmt : Block) : M RewriterState unit :=
  modify (fun st => set_rw_info (block_reuse_Set old_stmt stmt (rw_info st)) st).

(** *** CacheReadRewriter *)

Fixpoint CacheRead_VisitExpr (info : CacheStageInfo) (current_block_consumes : bool)
    (e : PrimExpr) : PrimExpr * bool :=
  match e with
  | IntImm _ _ => (e, false)
  | EVar op =>
      if var_same_as op (buf_data (read_buffer info))
      then (EVar (buf_data (write_buffer info)),
            negb (var_same_as op (buf_data (write_buffer info))))
      else (e, false)
  | Bin op a b =>
      let '(a', ca) := CacheRead_VisitExpr info current_block_consumes a in
      let '(b', cb) := CacheRead_VisitExpr info current_block_consumes b in
      if ca || cb then (Bin op a' b', true) else (e, false)
  | BufferLoad buffer indices =>
      if buffer_same_as buffer (read_buffer info) && current_block_consumes
      then (BufferLoad (write_buffer info) indices, true)
      else
        let '(indices', c) :=
          Mutate_exprs (CacheRead_VisitExpr info current_block_consumes) indices in
        if c then (BufferLoad buffer indices', true) else (e, false)
  | Call t op args =>
      let '(args', c) := Mutate_exprs (CacheRead_VisitExpr info current_block_consumes) args in
      if c then (Call t op args', true) else (e, false)
  end.

(** The expression visitor at the current traversal state. *)
Definition rw_expr (visit : CacheStageInfo -> bool -> PrimExpr -> PrimExpr * bool)
  : M RewriterState (PrimExpr -> PrimExpr * bool) :=
  let* st := get in ret (visit (rw_info st) (rw_flag st)).

(** Whether the block is one of the specified consumers; every block is when
    none is specified. *)
Definition CacheRead_is_consumer {S} (info : CacheStageInfo) (old_stmt : Block) : M S bool :=
  foldM (fun is_consumer consumer_sref =>
           let* consumer_block := TVM_SREF_TO_BLOCK consumer_sref in
           ret (if Nat.eqb (block_addr old_stmt) (block_addr consumer_block)
                then true else is_consumer))
        (consumer_blocks info)
        (bool_decide (consumer_blocks info = [])).

Section CacheReadRewriter.

Variable scope_sref_ : StmtSRef.

Fixpoint CacheRead_VisitStmt (s : Stmt) : M RewriterState (Stmt * bool) :=
  match s with
  | BufferStore buffer value indices =>
      let* f := rw_expr CacheRead_VisitExpr in
      let '(value', c1) := f value in
      let '(indices', c2) := Mutate_exprs f indices in
      ret (if c1 || c2 then (BufferStore buffer value' indices', true) else (s, false))
  | Evaluate value =>
      let* f := rw_expr CacheRead_VisitExpr in
      let '(value', c) := f value in
      ret (if c then (Evaluate value', true) else (s, false))
  | SeqStmt seq =>
      let* seq' := mapM CacheRead_VisitStmt seq in
      ret (if existsb snd seq' then (SeqStmt (map fst seq'), true) else (s, false))
  | IfThenElse condition then_case else_case =>
      let* f := rw_expr CacheRead_VisitExpr in
      let '(condition', c1) := f condition in
      let* (then_case', c2) := CacheRead_VisitStmt then_case in
      let* (else_case', c3) :=
        match else_case with
        | Some e => let* (e', c) := CacheRead_VisitStmt e in ret (Some e', c)
        | None => ret (None, false)
        end in
      ret (if c1 || c2 || c3 then (IfThenElse condition' then_case' else_case', true)
           else (s, false))
  | For a loop_var min extent kind body =>
      let* f := rw_expr CacheRead_VisitExpr in
      let '(min', c1) := f min in
      let '(extent', c2) := f extent in
      let* (body', c3) := CacheRead_VisitStmt body in
      let* stmt :=
        if c1 || c2 || c3 then
          let* a' := rw_alloc in ret (For a' loop_var min' extent' kind body', true)
        else ret (s, false) in
      (* Check the insertion point *)
      insert_into_loop a stmt
  | BlockRealize iter_values predicate block =>
      let* f := rw_expr CacheRead_VisitExpr in
      let '(iter_values', c1) := Mutate_exprs f iter_values in
      let '(predicate', c2) := f predicate in
      let* (block', c3) := CacheRead_VisitBlock block in
      ret (if c1 || c2 || c3 then (BlockRealize iter_values' predicate' block', true)
           else (s, false))
  | BlockStmt block =>
      let* (block', c) := CacheRead_VisitBlock block in
      ret (BlockStmt block', c)
  end
with CacheRead_VisitBlock (old_stmt : Block) : M RewriterState (Block * bool) :=
  match old_stmt with
  | mkBlock a iter_vars reads writes name_hint body init alloc_buffers match_buffers =>
      let* st := get in
      let info := rw_info st in
      (* Check if this block is one of the specified consumers. *)
      let* is_consumer := CacheRead_is_consumer info old_stmt in
      (* Keep track of this blocks status. We'll use this when rewriting loads. *)
      modify (set_rw_flag is_consumer) ;;;
      let is_scope := ptr_eqb (PtrBlock a) (stmt_ptr (sref_stmt scope_sref_)) in
      (* We don't mutate the block which generates info->read_buffer. *)
      let* generates :=
        if negb is_scope then
          let* res := lift_res (GetBufferRegionFromBuffer writes (read_buffer info)) in
          ret (bool_decide (is_Some res))
        else ret false in
      if generates then ret (old_stmt, false)
      else
        (* Mutate the body *)
        let* f := rw_expr CacheRead_VisitExpr in
        let '(iter_vars', c0) := Mutate_iter_vars f iter_vars in
        let '(reads', c1) := Mutate_buffer_regions f reads in
        let '(writes', c2) := Mutate_buffer_regions f writes in
        let '(match_buffers', c3) := Mutate_match_buffers f match_buffers in
        let* (init', c4) :=
          match init with
          | Some i => let* (i', c) := CacheRead_VisitStmt i in ret (Some i', c)
          | None => ret (None, false)
          end in
        let* (body', c5) := CacheRead_VisitStmt body in
        let* stmt := rebuild_block old_stmt iter_vars' reads' writes' match_buffers' init' body'
                                   (c0 || c1 || c2 || c3 || c4 || c5) in
        (* Check the insertion point *)
        let* stmt := insert_into_block a stmt in
        (* Check if it is the block corresponding to the parent scope *)
        let* stmt :=
          if is_scope then
            (* If so, put buffer allocation on the parent scope *)
            let* n := copy_block (fst stmt) (with_alloc_pushed (alloc info)) in
            ret (n, true)
          else if is_consumer then
            (* Otherwise, update read regions and match_buffers.  Only make
               this change if the block is one of the specified consumers. *)
            let '(new_reads, cr) := ReplaceBuffer reads (read_buffer info) (write_buffer info) in
            let '(new_match_buffers, cm) :=
              ReplaceBuffer_match match_buffers (read_buffer info) (write_buffer info) in
            if cr || cm then
              let* n := copy_block (fst stmt) (with_reads_match new_reads new_match_buffers) in
              ret (n, true)
            else ret stmt
          else ret stmt in
        record_block_reuse old_stmt (fst stmt) ;;;
        ret stmt
  end.

Definition CacheReadRewriter_Rewrite (info : CacheStageInfo)
  : M Heap (Stmt * CacheStageInfo) :=
  fun h =>
    (* current_block_consumes has no initial value; the first block visited
       sets it before any expression is rewritten *)
    let '(r, st) := CacheRead_VisitStmt (sref_stmt scope_sref_) (mkRewriter h info false) in
    match r with
    | Ok (stmt, _) => (Ok (stmt, rw_info st), rw_heap st)
    | Err e => (Err e, rw_heap st)
    end.

End CacheReadRewriter.

(** *** CacheWriteRewriter *)

(** The flag of the traversal state plays no part in the expressions of the
    cache_write rewriter. *)
Fixpoint CacheWrite_VisitExpr (info : CacheStageInfo) (under_writer_block_ : bool)
    (e : PrimExpr) : PrimExpr * bool :=
  match e with
  | IntImm _ _ => (e, false)
  | EVar op =>
      if var_same_as op (buf_data (write_buffer info))
      then (EVar (buf_data (read_buffer info)),
            negb (var_same_as op (buf_data (read_buffer info))))
      else (e, false)
  | Bin op a b =>
      let '(a', ca) := CacheWrite_VisitExpr info under_writer_block_ a in
      let '(b', cb) := CacheWrite_VisitExpr info under_writer_block_ b in
      if ca || cb then (Bin op a' b', true) else (e, false)
  | BufferLoad buffer indices =>
      if buffer_same_as buffer (write_buffer info)
      then (BufferLoad (read_buffer info) indices, true)
      else
        let '(indices', c) :=
          Mutate_exprs (CacheWrite_VisitExpr info under_writer_block_) indices in
        if c then (BufferLoad buffer indices', true) else (e, false)
  | Call t op args =>
      let '(args', c) := Mutate_exprs (CacheWrite_VisitExpr info under_writer_block_) args in
      if c then (Call t op args', true) else (e, false)
  end.

Section CacheWriteRewriter.

Variable scope_sref_ : StmtSRef.
Variable writer_block_sref_ : StmtSRef.

Fixpoint CacheWrite_VisitStmt (s : Stmt) : M RewriterState (Stmt * bool) :=
  match s with
  | BufferStore buffer value indices =>
      let* st := get in
      let info := rw_info st in
      let f := CacheWrite_VisitExpr info (rw_flag st) in
      let '(value', c1) := f value in
      let '(indices', c2) := Mutate_exprs f indices in
      let c := c1 || c2 in
      if buffer_same_as buffer (write_buffer info)
      then ret (BufferStore (read_buffer info) value' indices', true)
      else ret (if c then (BufferStore buffer value' indices', true) else (s, false))
  | Evaluate value =>
      let* f := rw_expr CacheWrite_VisitExpr in
      let '(value', c) := f value in
      ret (if c then (Evaluate value', true) else (s, false))
  | SeqStmt seq =>
      let* seq' := mapM CacheWrite_VisitStmt seq in
      ret (if existsb snd seq' then (SeqStmt (map fst seq'), true) else (s, false))
  | IfThenElse condition then_case else_case =>
      let* f := rw_expr CacheWrite_VisitExpr in
      let '(condition', c1) := f condition in
      let* (then_case', c2) := CacheWrite_VisitStmt then_case in
      let* (else_case', c3) :=
        match else_case with
        | Some e => let* (e', c) := CacheWrite_VisitStmt e in ret (Some e', c)
        | None => ret (None, false)
        end in
      ret (if c1 || c2 || c3 then (IfThenElse condition' then_case' else_case', true)
           else (s, false))
  | For a loop_var min extent kind body =>
      let* f := rw_expr CacheWrite_VisitExpr in
      let '(min', c1) := f min in
      let '(extent', c2) := f extent in
      let* (body', c3) := CacheWrite_VisitStmt body in
      let* stmt :=
        if c1 || c2 || c3 then
          let* a' := rw_alloc in ret (For a' loop_var min' extent' kind body', true)
        else ret (s, false) in
      (* Check the insertion point *)
      insert_into_loop a stmt
  | BlockRealize iter_values predicate block =>
      let* f := rw_expr CacheWrite_VisitExpr in
      let '(iter_values', c1) := Mutate_exprs f iter_values in
      let '(predicate', c2) := f predicate in
      let* (block', c3) := CacheWrite_VisitBlock block in
      ret (if c1 || c2 || c3 then (BlockRealize iter_values' predicate' block', true)
           else (s, false))
  | BlockStmt block =>
      let* (block', c) := CacheWrite_VisitBlock block in
      ret (BlockStmt block', c)
  end
with CacheWrite_VisitBlock (old_stmt : Block) : M RewriterState (Block * bool) :=
  match old_stmt with
  | mkBlock a iter_vars reads writes name_hint body init alloc_buffers match_buffers =>
      let* st := get in
      let info := rw_info st in
      let under_writer_block_ := rw_flag st in
      let is_writer := ptr_eqb (PtrBlock a) (stmt_ptr (sref_stmt writer_block_sref_)) in
      let is_scope := ptr_eqb (PtrBlock a) (stmt_ptr (sref_stmt scope_sref_)) in
      (* We only mutate the block which generates info->write_buffer *)
      if negb is_writer && negb is_scope && negb under_writer_block_ then ret (old_stmt, false)
      else
        (* Mutate the body *)
        let under_scope := under_writer_block_ || is_writer in
        modify (set_rw_flag under_scope) ;;;
        let* f := rw_expr CacheWrite_VisitExpr in
        let '(iter_vars', c0) := Mutate_iter_vars f iter_vars in
        let '(reads', c1) := Mutate_buffer_regions f reads in
        let '(writes', c2) := Mutate_buffer_regions f writes in
        let '(match_buffers', c3) := Mutate_match_buffers f match_buffers in
        let* (init', c4) :=
          match init with
          | Some i => let* (i', c) := CacheWrite_VisitStmt i in ret (Some i', c)
          | None => ret (None, false)
          end in
        let* (body', c5) := CacheWrite_VisitStmt body in
        let* stmt := rebuild_block old_stmt iter_vars' reads' writes' match_buffers' init' body'
                                   (c0 || c1 || c2 || c3 || c4 || c5) in
        modify (set_rw_flag under_writer_block_) ;;;
        (* Find the insertion point *)
        let* stmt := insert_into_block a stmt in
        let* stmt :=
          if is_scope then
            (* Put buffer allocation on the parent scope *)
            let* n := copy_block (fst stmt) (with_alloc_pushed (alloc info)) in
            ret (n, true)
          else
            (* Since cache_write changes the block, we need to update the
               buffer it writes *)
            let '(new_writes, cw) := ReplaceBuffer writes (write_buffer info) (read_buffer info) in
            let '(new_reads, cr) := ReplaceBuffer reads (write_buffer info) (read_buffer info) in
            let '(new_match_buffers, cm) :=
              ReplaceBuffer_match match_buffers (write_buffer info) (read_buffer info) in
            if cw || cr || cm then
              let* n := copy_block (fst stmt)
                                   (with_accesses new_writes new_reads new_match_buffers) in
              ret (n, true)
            else ret stmt in
        record_block_reuse old_stmt (fst stmt) ;;;
        ret stmt
  end.

Definition CacheWriteRewriter_Rewrite (info : CacheStageInfo)
  : M Heap (Stmt * CacheStageInfo) :=
  fun h =>
    let '(r, st) := CacheWrite_VisitStmt (sref_stmt scope_sref_) (mkRewriter h info false) in
    match r with
    | Ok (stmt, _) => (Ok (stmt, rw_info st), rw_heap st)
    | Err e => (Err e, rw_heap st)
    end.

End CacheWriteRewriter.

(** ** Region relaxation *)

(** *** What expressions and ranges denote

    Indices are read as unbounded integers; [env_load] and [env_call] give the
    values of buffer elements and of intrinsic calls. *)
Record Env := mkEnv {
  env_var : addr -> Z;
  env_load : addr -> list Z -> Z;
  env_call : string -> list Z -> Z
}.

Definition bool_Z (b : bool) : Z := if b then 1%Z else 0%Z.

Definition eval_binop (op : BinOp) (x y : Z) : Z :=
  match op with
  | OpAdd => x + y
  | OpSub => x - y
  | OpMul => x * y
  | OpFloorDiv => x `div` y
  | OpFloorMod => x `mod` y
  | OpMin => Z.min x y
  | OpMax => Z.max x y
  | OpLT => bool_Z (x <? y)
  | OpLE => bool_Z (x <=? y)
  | OpEQ => bool_Z (x =? y)
  | OpAnd => bool_Z (negb (x =? 0) && negb (y =? 0))
  | OpOr => bool_Z (negb (x =? 0) || negb (y =? 0))
  end%Z.

Fixpoint eval (env : Env) (e : PrimExpr) : Z :=
  match e with
  | IntImm _ v => v
  | EVar v => env_var env (var_addr v)
  | Bin op a b => eval_binop op (eval env a) (eval env b)
  | BufferLoad b idx => env_load env (buf_addr b) (map (eval env) idx)
  | Call _ op args => env_call env op (map (eval env) args)
  end.

(** [x] lies in the range: [min <= x < min + extent]. *)
Definition in_range (env : Env) (r : Range) (x : Z) : Prop :=
  (eval env (range_min r) ≤ x < eval env (range_min r) + eval env (range_extent r))%Z.

(** Modelled from the spec: the per-dimension interval the bound analysis
    returns ([arith::IntSet], not in this file), an interval with inclusive
    symbolic bounds, either of which may be missing (unbounded). *)
Record IntSet := mkIntSet {
  min_value : option PrimExpr;
  max_value : option PrimExpr
}.

Definition in_int_set (env : Env) (s : IntSet) (x : Z) : Prop :=
  (match min_value s with Some e => eval env e ≤ x | None => True end
   ∧ match max_value s with Some e => x ≤ eval env e | None => True end)%Z.

(** Modelled from the spec: [IntSet::CoverRange] is not in this file; the spec
    has the relaxed interval "clipped to [0, buffer_extent) per dimension", so
    the range returned is the interval cut down to [max_range]. *)
Definition CoverRange (s : IntSet) (max_range : Range) : Range :=
  let last := Sub (Add (range_min max_range) (range_extent max_range)) (IntImm (DInt 32) 1) in
  let lo := match min_value s with
            | Some e => Max e (range_min max_range)
            | None => range_min max_range
            end in
  let hi := match max_value s with
            | Some e => Min e last
            | None => last
            end in
  FromMinExtent lo (Add (Sub hi lo) (IntImm (DInt 32) 1)).

(** A block with its bindings, as [GetBlockRealize] returns it. *)
Record Realize := mkRealize {
  rl_iter_values : list PrimExpr;
  rl_predicate : PrimExpr;
  rl_block : Block
}.

(** [GetBindings], from the analysis utilities: block variable to bound
    value. *)
Definition GetBindings {S} (realize : Realize) : M S (gmap addr PrimExpr) :=
  let all_lhs := block_iter_vars (rl_block realize) in
  let all_rhs := rl_iter_values realize in
  ICHECK (Nat.eqb (length all_lhs) (length all_rhs)) "all_lhs.size() == all_rhs.size()" ;;;
  ret (foldl (fun result '(lhs, rhs) => <[var_addr (iv_var lhs) := rhs]> result)
             ∅ (zip all_lhs all_rhs)).

Definition Substitute_region (vmap : gmap addr PrimExpr) (region : Region) : Region :=
  map (fun r => FromMinExtent (Substitute vmap (range_min r)) (Substitute vmap (range_extent r)))
      region.

(** [array[i]] with its bounds check. *)
Definition Array_at {S A} (l : list A) (i : nat) : M S A :=
  match l !! i with
  | Some x => ret x
  | None => throw (InternalError "IndexError: indexing out of bound")
  end.

(** The collaborators of this file that stay outside it. *)
Section Externals.

(** [GetBlockRealize(self, block_sref)]. *)
Variable GetBlockRealize : ScheduleState -> StmtSRef -> Res Realize.

(** [AnalyzeRegionUpperBound(region, predicate, dom_low_inclusive,
    dom_high_exclusive, analyzer)]: the bound-analysis oracle. *)
Variable AnalyzeRegionUpperBound :
  BufferRegion -> PrimExpr -> StmtSRef -> option StmtSRef -> list IntSet.

Definition RelaxBufferRegion {S} (self : ScheduleState) (buffer_region : BufferRegion)
    (block_sref : StmtSRef) (dom_low_inclusive : StmtSRef)
    (dom_high_exclusive : option StmtSRef) : M S BufferRegion :=
  let* realize := lift_res (GetBlockRealize self block_sref) in
  let* binding := GetBindings realize in
  let buffer := br_buffer buffer_region in
  let subst_region :=
    mkBufferRegion buffer (Substitute_region binding (br_region buffer_region)) in
  let int_sets :=
    AnalyzeRegionUpperBound subst_region (rl_predicate realize)
                            dom_low_inclusive dom_high_exclusive in
  ICHECK (Nat.eqb (length (br_region buffer_region)) (length int_sets))
         "buffer_region->region.size() == int_sets.size()" ;;;
  let* region :=
    mapM (fun '(i, int_set) =>
            let* dim := Array_at (buf_shape buffer) i in
            ret (CoverRange int_set (FromMinExtent (IntImm (DInt 32) 0) dim)))
         (enumerate int_sets) in
  ret (mkBufferRegion buffer region).

End Externals.

(** ** CacheRead and CacheWrite *)

(** What a top-level call runs on: the heap and the schedule state. *)
Record World := mkWorld { w_heap : Heap; w_self : ScheduleState }.

Definition on_heap {A} (m : M Heap A) : M World A :=
  zoom w_heap (fun h w => mkWorld h (w_self w)) m.

(** Modelled from the spec: [WithScope] is not in this file; it derives the
    new buffer, "same shape/dtype, new identity, target storage scope". *)
Definition WithScope (buffer : Buffer) (scope : string) : M Heap Buffer :=
  let* new_buffer_addr := new_addr in
  let* data := new_Var (var_name (buf_data buffer) +:+ "_" +:+ scope)
                       (var_dtype (buf_data buffer)) in
  ret (mkBuffer data (buf_dtype buffer) (buf_shape buffer) (buf_strides buffer)
                (buf_name buffer +:+ "_" +:+ scope) scope new_buffer_addr).

(** Modelled from the spec: [GetNthAccessBuffer] is not in this file; it
    resolves "the nth declared access of the invoking block to a concrete
    buffer". *)
Definition GetNthAccessBuffer {S} (self : ScheduleState) (block : Block) (n : Z)
    (index_type : BufferIndexType) : M S Buffer :=
  let access_region :=
    match index_type with
    | kWrite => block_writes block
    | kRead => block_reads block
    end in
  if bool_decide (0 ≤ n < Z.of_nat (length access_region))%Z then
    let* region := Array_at access_region (Z.to_nat n) in ret (br_buffer region)
  else throw (ExternalError "BufferIndexOutOfRangeError").

Definition CheckRegionCover {S} (self : ScheduleState) (scope_root : StmtSRef) : M S unit :=
  let* scope := GetBlockScope self scope_root in
  foldM (fun _ kv =>
           let consumer_block_sref := fst kv in
           match block_info self !! consumer_block_sref with
           | None => throw (InternalError "block_info.at: key not found")
           | Some i =>
               if negb (region_cover i) then
                 let* block := TVM_SREF_TO_BLOCK scope_root in
                 throw (NotRegionCoverError (st_mod self) block)
               else ret tt
           end)
        (map_to_list (dst2deps scope)) tt.

(** [sref->parent] where the file takes it for a reference without a check:
    a null parent has no defined outcome further on. *)
Definition sref_parent_checked {S} (sref : StmtSRef) : M S StmtSRef :=
  match sref_parent sref with
  | Some p => ret p
  | None => throw (UndefinedBehavior "sref->parent is null")
  end.

Definition Optional_value {S A} (o : option A) : M S A :=
  match o with
  | Some x => ret x
  | None => throw (InternalError "Optional::value() on NullOpt")
  end.

Section Primitives.

Variable GetBlockRealize : ScheduleState -> StmtSRef -> Res Realize.
Variable AnalyzeRegionUpperBound :
  BufferRegion -> PrimExpr -> StmtSRef -> option StmtSRef -> list IntSet.
(** [CheckStorageScope(self, storage_scope)]. *)
Variable CheckStorageScope : ScheduleState -> string -> Res unit.
(** [GetScopeRoot(self, block_sref, require_stage_pipeline)]. *)
Variable GetScopeRoot : ScheduleState -> StmtSRef -> bool -> Res StmtSRef.
(** [self->Replace(scope_sref, new_scope, block_reuse)]. *)
Variable Replace : ScheduleState -> StmtSRef -> Stmt -> list (Block * Block) -> ScheduleState.
(** [IsAffineBinding(realize, LoopDomainOfSRefTreePath(parent_sref), analyzer)]. *)
Variable IsAffineBinding : Realize -> StmtSRef -> bool.

Definition CalculateAffineFlag {S} (self : ScheduleState) (block_sref : StmtSRef) : M S bool :=
  match sref_parent block_sref with
  | None => ret true
  | Some parent_sref =>
      let* realize := lift_res (GetBlockRealize self block_sref) in
      ret (IsAffineBinding realize parent_sref)
  end.

(** The last step of the three primitives: replacing and updating flags. *)
Definition ReplaceAndUpdateFlags (scope_sref : StmtSRef) (new_scope : Stmt)
    (info : CacheStageInfo) (stage : Block) : M World StmtSRef :=
  modify (fun w => mkWorld (w_heap w)
                           (Replace (w_self w) scope_sref new_scope (block_reuse info))) ;;;
  let* w := get in
  let self := w_self w in
  let* result_block_sref := stmt2ref_at self (block_addr stage) in
  let* info_of_result := block_info_at self result_block_sref in
  let* affine := CalculateAffineFlag self result_block_sref in
  let scope := bi_scope info_of_result in
  let scope' := mkBlockScope (src2deps scope) (dst2deps scope) (buffer_writers scope) true in
  put (mkWorld (w_heap w)
               (mkScheduleState (st_mod self)
                                (<[sref_key result_block_sref := mkBlockInfo scope' affine true]>
                                   (block_info self))
                                (stmt2ref self))) ;;;
  ret result_block_sref.

(** Step 3 of [CacheRead]: update cache stage info. *)
Definition CacheRead_update_info (self : ScheduleState) (scope_sref : StmtSRef)
    (scope_block : Block) (read_buffer : Buffer) (info : CacheStageInfo)
  : M World (CacheStageInfo * BufferRegion) :=
  let* _write_block_sref := GetOnlyWriteBlock self scope_sref read_buffer in
  match _write_block_sref with
  | Some write_block_sref =>
      (* Case 1. The buffer is written inside the block. *)
      let* write_block := TVM_SREF_TO_BLOCK write_block_sref in
      (* Find the producing region *)
      let* region_opt :=
        lift_res (GetBufferRegionFromBuffer (block_writes write_block) read_buffer) in
      let* region := Optional_value region_opt in
      let* parent_sref := sref_parent_checked write_block_sref in
      (* Detect insert position *)
      let* info := Detect self write_block_sref scope_sref info in
      let* cache_region :=
        RelaxBufferRegion GetBlockRealize AnalyzeRegionUpperBound self region
                          write_block_sref parent_sref (loc_sref info) in
      ret (info, cache_region)
  | None =>
      (* Case 2. The buffer is the input block for the scope. *)
      let info := set_loc (Some scope_sref) 0 info in
      let* region :=
        lift_res (GetBufferRegionFromBuffer (block_reads scope_block) read_buffer) in
      match region with
      | Some r => ret (info, r)
      | None => ret (info, FullRegion read_buffer)
      end
  end.

(** Steps 0 to 4 of [CacheRead]: everything before the commit.  It returns
    the scope, the block of the stage, the new scope subtree and the plan. *)
Definition CacheRead_build (block_sref : StmtSRef) (read_buffer_index : Z)
    (storage_scope : string) (consumer_blocks : list StmtSRef)
  : M World (StmtSRef * Block * Stmt * CacheStageInfo) :=
  let* w := get in
  let self := w_self w in
  (* Step 0. Check the input storage scope. *)
  lift_res (CheckStorageScope self storage_scope) ;;;
  (* Step 1. Check index, getting the target buffer and the parent scope *)
  let* block := TVM_SREF_TO_BLOCK block_sref in
  let* read_buffer := GetNthAccessBuffer self block read_buffer_index kRead in
  let* scope_sref := lift_res (GetScopeRoot self block_sref false) in
  (* Check required region cover for cache_read *)
  CheckRegionCover self scope_sref ;;;
  let* scope_block := TVM_SREF_TO_BLOCK scope_sref in
  (* Step 2. Create CacheStageInfo *)
  let* write_buffer := on_heap (WithScope read_buffer storage_scope) in
  let info := mkInfo read_buffer write_buffer write_buffer None 0 None [] consumer_blocks in
  (* Step 3. Update cache stage info. *)
  let* (info, cache_region) :=
    CacheRead_update_info self scope_sref scope_block read_buffer info in
  (* Step 4. Making new cache stage block and rewrite readers. *)
  let* (cache_read_stage, info) := on_heap (MakeCacheStage cache_region info storage_scope) in
  let* (new_scope, info) := on_heap (CacheReadRewriter_Rewrite scope_sref info) in
  ret (scope_sref, cache_read_stage, new_scope, info).

Definition CacheRead (block_sref : StmtSRef) (read_buffer_index : Z)
    (storage_scope : string) (consumer_blocks : list StmtSRef) : M World StmtSRef :=
  let* (scope_sref, cache_read_stage, new_scope, info) :=
    CacheRead_build block_sref read_buffer_index storage_scope consumer_blocks in
  (* Step 5. Replacing and updating flags. *)
  ReplaceAndUpdateFlags scope_sref new_scope info cache_read_stage.

(** Steps 0 to 5 of [CacheWrite]: everything before the commit. *)
Definition CacheWrite_build (block_sref : StmtSRef) (write_buffer_index : Z)
    (storage_scope : string) : M World (StmtSRef * Block * Stmt * CacheStageInfo) :=
  let* w := get in
  let self := w_self w in
  (* Step 0. Check the input storage scope. *)
  lift_res (CheckStorageScope self storage_scope) ;;;
  (* Step 1. Checking index, getting the target buffer and the parent scope *)
  let* block := TVM_SREF_TO_BLOCK block_sref in
  let* write_buffer := GetNthAccessBuffer self block write_buffer_index kWrite in
  let* scope_sref := lift_res (GetScopeRoot self block_sref false) in
  (* Step 2. Creating CacheStageInfo *)
  let* read_buffer := on_heap (WithScope write_buffer storage_scope) in
  let info := mkInfo read_buffer write_buffer read_buffer None 0 None [] [] in
  (* Step 3. Check the only writer block. *)
  let* only_writer := GetOnlyWriteBlock self scope_sref write_buffer in
  ICHECK (match only_writer with
          | Some w => sref_same block_sref w
          | None => false
          end) "block_sref.get() == GetOnlyWriteBlock(...).get()" ;;;
  (* Step 4. Find the producing region and insert position *)
  let* region_opt := lift_res (GetBufferRegionFromBuffer (block_writes block) write_buffer) in
  let* region := Optional_value region_opt in
  let* parent_sref := sref_parent_checked block_sref in
  (* Detect insert position *)
  let* info := Detect self block_sref scope_sref info in
  let* cache_region :=
    RelaxBufferRegion GetBlockRealize AnalyzeRegionUpperBound self region
                      block_sref parent_sref (loc_sref info) in
  (* Step 5. Making new cache stage block and rewrite readers. *)
  let* (cache_write_stage, info) := on_heap (MakeCacheStage cache_region info storage_scope) in
  let* (new_scope, info) := on_heap (CacheWriteRewriter_Rewrite scope_sref block_sref info) in
  ret (scope_sref, cache_write_stage, new_scope, info).

Definition CacheWrite (block_sref : StmtSRef) (write_buffer_index : Z)
    (storage_scope : string) : M World StmtSRef :=
  let* (scope_sref, cache_write_stage, new_scope, info) :=
    CacheWrite_build block_sref write_buffer_index storage_scope in
  (* Step 6. Replacing and updating flags. *)
  ReplaceAndUpdateFlags scope_sref new_scope info cache_write_stage.

End Primitives.

(** ** Paths of the sref tree *)

(** A reference and its ancestors, from the reference up to the root. *)
Fixpoint sref_chain (r : StmtSRef) : list StmtSRef :=
  match r with
  | mkSRef _ parent _ =>
      r :: match parent with
           | Some p => sref_chain p
           | None => []
           end
  end.

(** ** Reading a result *)

(** A loop of constant extent one among the loops around a stage. *)
Definition has_unit_loop (stage : Stmt) : Prop :=
  ∃ loop t, loop ∈ (peel_loops stage).1 ∧ loop.2 = IntImm t 1.

(** The regions of a list that are regions of the buffer. *)
Definition regions_of (buffer : Buffer) (buffer_regions : list BufferRegion) : list BufferRegion :=
  filter (fun region => buffer_same_as (br_buffer region) buffer = true) buffer_regions.

(** The children of a body: the elements of a sequence, or the statement
    alone. *)
Definition body_children (body : Stmt) : list Stmt :=
  match body with
  | SeqStmt seq => seq
  | _ => [body]
  end.

Definition is_SeqStmt (s : Stmt) : bool :=
  match s with
  | SeqStmt _ => true
  | _ => false
  end.

(** The blocks of a statement, at any depth, in the order of the traversal. *)
Fixpoint blocks_of (s : Stmt) : list Block :=
  match s with
  | BufferStore _ _ _ => []
  | Evaluate _ => []
  | SeqStmt seq => concat (map blocks_of seq)
  | IfThenElse _ t e => blocks_of t ++ match e with Some e' => blocks_of e' | None => [] end
  | For _ _ _ _ _ body => blocks_of body
  | BlockRealize _ _ b => blocks_of_block b
  | BlockStmt b => blocks_of_block b
  end
with blocks_of_block (b : Block) : list Block :=
  match b with
  | mkBlock _ _ _ _ _ body init _ _ =>
      b :: match init with Some i => blocks_of i | None => [] end ++ blocks_of body
  end.

(** The blocks a statement holds outside any other block, in the order of
    the traversal: for the body of a block, the blocks of its scope. *)
Fixpoint scope_blocks (s : Stmt) : list Block :=
  match s with
  | BufferStore _ _ _ => []
  | Evaluate _ => []
  | SeqStmt seq => concat (map scope_blocks seq)
  | IfThenElse _ t e =>
      scope_blocks t ++ match e with Some e' => scope_blocks e' | None => [] end
  | For _ _ _ _ _ body => scope_blocks body
  | BlockRealize _ _ b => [b]
  | BlockStmt b => [b]
  end.

(** The block realizes among them: bindings, predicate and block. *)
Fixpoint scope_realizes (s : Stmt) : list (list PrimExpr * PrimExpr * Block) :=
  match s with
  | BufferStore _ _ _ => []
  | Evaluate _ => []
  | SeqStmt seq => concat (map scope_realizes seq)
  | IfThenElse _ t e =>
      scope_realizes t ++ match e with Some e' => scope_realizes e' | None => [] end
  | For _ _ _ _ _ body => scope_realizes body
  | BlockRealize iter_values predicate b => [(iter_values, predicate, b)]
  | BlockStmt _ => []
  end.

(** Every consumer block of the scope has its region-cover flag set: what
    [CheckRegionCover] checks. *)
Definition region_cover_holds (self : ScheduleState) (scope : BlockScope) : Prop :=
  ∀ consumer deps,
    dst2deps scope !! consumer = Some deps →
    ∃ i, block_info self !! consumer = Some i ∧ region_cover i = true.

(** The [n]th declared access of the block is to [buffer]. *)
Definition nth_access_is (regions : list BufferRegion) (n : Z) (buffer : Buffer) : Prop :=
  (0 ≤ n)%Z ∧ br_buffer <$> regions !! Z.to_nat n = Some buffer.

(** The part of the plan a rewriter only reads. *)
Definition plan_of (i : CacheStageInfo) :=
  (read_buffer i, write_buffer i, alloc i, loc_sref i, loc_pos i, cache_stage i,
   consumer_blocks i).

(** A block other than the scope root whose write list has a region of the
    buffer: the block the cache_read rewriter takes for the producer. *)
Definition is_producer (scope_sref : StmtSRef) (buffer : Buffer) (b : Block) : Prop :=
  ptr_eqb (PtrBlock (block_addr b)) (stmt_ptr (sref_stmt scope_sref)) = false
  ∧ ∃ region, GetBufferRegionFromBuffer (block_writes b) buffer = Ok (Some region).

(** The blocks inside a block: those of its init statement and of its body. *)
Definition child_blocks (b : Block) : list Block :=
  match block_init b with Some i => blocks_of i | None => [] end ++ blocks_of (block_body b).

(** The blocks of a statement that are not the block at [writer] and do not
    lie inside it. *)
Fixpoint blocks_outside (writer : StmtPtr) (s : Stmt) : list Block :=
  match s with
  | BufferStore _ _ _ => []
  | Evaluate _ => []
  | SeqStmt seq => concat (map (blocks_outside writer) seq)
  | IfThenElse _ t e =>
      blocks_outside writer t
      ++ match e with Some e' => blocks_outside writer e' | None => [] end
  | For _ _ _ _ _ body => blocks_outside writer body
  | BlockRealize _ _ b => blocks_outside_block writer b
  | BlockStmt b => blocks_outside_block writer b
  end
with blocks_outside_block (writer : StmtPtr) (b : Block) : list Block :=
  match b with
  | mkBlock a _ _ _ _ body init _ _ =>
      if ptr_eqb (PtrBlock a) writer then []
      else b :: match init with Some i => blocks_outside writer i | None => [] end
             ++ blocks_outside writer body
  end.

(** The buffers the stores of a statement write, at any depth, in the order
    of the traversal. *)
Fixpoint store_targets (s : Stmt) : list Buffer :=
  match s with
  | BufferStore buffer _ _ => [buffer]
  | Evaluate _ => []
  | SeqStmt seq => concat (map store_targets seq)
  | IfThenElse _ t e =>
      store_targets t ++ match e with Some e' => store_targets e' | None => [] end
  | For _ _ _ _ _ body => store_targets body
  | BlockRealize _ _ b => store_targets_block b
  | BlockStmt b => store_targets_block b
  end
with store_targets_block (b : Block) : list Buffer :=
  match b with
  | mkBlock _ _ _ _ _ body init _ _ =>
      match init with Some i => store_targets i | None => [] end ++ store_targets body
  end.

(** Whether the loop or the block at [p] is a node of the statement. *)
Fixpoint contains_node (p : StmtPtr) (s : Stmt) : bool :=
  match s with
  | BufferStore _ _ _ => false
  | Evaluate _ => false
  | SeqStmt seq => existsb (contains_node p) seq
  | IfThenElse _ t e =>
      contains_node p t || match e with Some e' => contains_node p e' | None => false end
  | For a _ _ _ _ body => ptr_eqb (PtrFor a) p || contains_node p body
  | BlockRealize _ _ b => contains_node_block p b
  | BlockStmt b => contains_node_block p b
  end
with contains_node_block (p : StmtPtr) (b : Block) : bool :=
  match b with
  | mkBlock a _ _ _ _ body init _ _ =>
      ptr_eqb (PtrBlock a) p
      || match init with Some i => contains_node p i | None => false end
      || contains_node p body
  end.

(** The insertion site of the plan is no node of the statement. *)
Definition site_outside (info : CacheStageInfo) (s : Stmt) : Prop :=
  ∀ loc, loc_sref info = Some loc → contains_node (stmt_ptr (sref_stmt loc)) s = false.

(** What cache_write makes of the target of a store: the cache buffer for the
    buffer written, the target itself for any other. *)
Definition retarget (info : CacheStageInfo) (buffer : Buffer) : Buffer :=
  if buffer_same_as buffer (write_buffer info) then read_buffer info else buffer.

(** ** A concrete program: block [C] writes [B], block [D] reads it

    [[
    with block("root"):
      for i in range(16):
        with block("C"): vi = i;  B[vi] = A[vi] * 2
        with block("D"): vi = i;  E[vi] = B[vi] + 1
    ]] *)
Module Scenario.

Definition i32 : DataType := DInt 32.
Definition f32 : DataType := DFloat 32.
Definition c (n : Z) : PrimExpr := IntImm i32 n.

Definition A : Buffer := mkBuffer (mkVar "A" DHandle 1) f32 [c 16] [] "A" "global" 2.
Definition B : Buffer := mkBuffer (mkVar "B" DHandle 3) f32 [c 16] [] "B" "global" 4.
Definition E : Buffer := mkBuffer (mkVar "E" DHandle 5) f32 [c 16] [] "E" "global" 6.

Definition i : Var := mkVar "i" i32 10.
Definition vi_C : Var := mkVar "vi" i32 11.
Definition vi_D : Var := mkVar "vi" i32 12.
Definition dom16 : Range := mkRange (c 0) (c 16).

Definition C : Block :=
  mkBlock 21 [mkIterVar dom16 vi_C kDataPar]
          [FromPoint A [EVar vi_C]] [FromPoint B [EVar vi_C]] "C"
          (BufferStore B (Bin OpMul (BufferLoad A [EVar vi_C]) (IntImm f32 2)) [EVar vi_C])
          None [] [].
Definition D : Block :=
  mkBlock 22 [mkIterVar dom16 vi_D kDataPar]
          [FromPoint B [EVar vi_D]] [FromPoint E [EVar vi_D]] "D"
          (BufferStore E (Add (BufferLoad B [EVar vi_D]) (IntImm f32 1)) [EVar vi_D])
          None [] [].

Definition loop_body : Stmt :=
  SeqStmt [BlockRealize [EVar i] const_true C; BlockRealize [EVar i] const_true D].
Definition loop_i : Stmt := For 20 i (c 0) (c 16) kSerial loop_body.
Definition root : Block := mkBlock 19 [] [] [] "root" loop_i None [] [].

Definition root_sref : StmtSRef := mkSRef (BlockStmt root) None (-1).
Definition loop_sref : StmtSRef := mkSRef loop_i (Some root_sref) (-1).
Definition C_sref : StmtSRef := mkSRef (BlockStmt C) (Some loop_sref) 0.
Definition D_sref : StmtSRef := mkSRef (BlockStmt D) (Some loop_sref) 1.

Definition dep_C_D : Dependency := mkDependency C_sref D_sref kRAW.
Definition root_scope : BlockScope :=
  mkBlockScope {[21 := [dep_C_D]]} {[22 := [dep_C_D]]}
               {[buf_addr B := [C_sref]; buf_addr E := [D_sref]]} true.
Definition leaf_scope : BlockScope := mkBlockScope ∅ ∅ ∅ true.

Definition state : ScheduleState :=
  mkScheduleState 0
    {[19 := mkBlockInfo root_scope true true;
      21 := mkBlockInfo leaf_scope true true;
      22 := mkBlockInfo leaf_scope true true]}
    {[19 := root_sref; 20 := loop_sref; 21 := C_sref; 22 := D_sref]}.

(** Stand-ins for the collaborators. *)
Definition GetBlockRealize (self : ScheduleState) (sref : StmtSRef) : Res Realize :=
  match sref_stmt sref with
  | BlockStmt b => Ok (mkRealize (map (fun _ => EVar i) (block_iter_vars b)) const_true b)
  | _ => Err (ExternalError "not a block")
  end.
(** The analysis that bounds each dimension by the range itself. *)
Definition AnalyzeRegionUpperBound (region : BufferRegion) (predicate : PrimExpr)
    (low : StmtSRef) (high : option StmtSRef) : list IntSet :=
  map (fun r => mkIntSet (Some (range_min r))
                         (Some (Sub (Add (range_min r) (range_extent r)) (c 1))))
      (br_region region).
Definition CheckStorageScope (self : ScheduleState) (scope : string) : Res unit := Ok tt.
Definition GetScopeRoot (self : ScheduleState) (sref : StmtSRef) (b : bool) : Res StmtSRef :=
  Ok root_sref.
Definition Replace (self : ScheduleState) (scope_sref : StmtSRef) (new_scope : Stmt)
    (reuse : list (Block * Block)) : ScheduleState := self.
Definition IsAffineBinding (r : Realize) (parent : StmtSRef) : bool := true.

Definition world : World := mkWorld 100 state.

(** A plan for caching [B] in a buffer [B_local]. *)
Definition B_local : Buffer :=
  mkBuffer (mkVar "B_local" DHandle 7) f32 [c 16] [] "B_local" "local" 8.
Definition info_B : CacheStageInfo := mkInfo B B_local B_local None 0 None [] [].

(** The plan for [B] with its insertion site, behind the first child of the
    loop body, and with the stage [MakeCacheStage] builds for the element
    [B[i]]. *)
Definition plan_B : CacheStageInfo :=
  Eval vm_compute in
    match fst (MakeCacheStage (FromPoint B [EVar i]) (set_loc (Some loop_sref) 1 info_B)
                              "local" 100) with
    | Ok (_, info) => info
    | Err _ => info_B
    end.

(** A plan for caching the input [A] in a buffer [A_shared]. *)
Definition A_shared : Buffer :=
  mkBuffer (mkVar "A_shared" DHandle 13) f32 [c 16] [] "A_shared" "shared" 14.
Definition info_A : CacheStageInfo := mkInfo A A_shared A_shared None 0 None [] [].

End Scenario.

(** ** Two writers of one buffer

    The scenario above with a second block, [C2], that updates [B] in
    place, and with the region-cover flag of the consumer [D] either set or
    not. *)
Module TwoWriters.

Import Scenario.

Definition C2 : Block :=
  mkBlock 23 [mkIterVar dom16 vi_C kDataPar]
          [FromPoint B [EVar vi_C]] [FromPoint B [EVar vi_C]] "C2"
          (BufferStore B (Add (BufferLoad B [EVar vi_C]) (IntImm f32 1)) [EVar vi_C])
          None [] [].
Definition C2_sref : StmtSRef := mkSRef (BlockStmt C2) (Some loop_sref) 1.

Definition root_scope : BlockScope :=
  mkBlockScope {[21 := [dep_C_D]]} {[22 := [dep_C_D]]}
               {[buf_addr B := [C_sref; C2_sref]; buf_addr E := [D_sref]]} true.

Definition state (cover_D : bool) : ScheduleState :=
  mkScheduleState 0
    {[19 := mkBlockInfo root_scope true true;
      21 := mkBlockInfo leaf_scope true true;
      22 := mkBlockInfo leaf_scope true cover_D;
      23 := mkBlockInfo leaf_scope true true]}
    {[19 := root_sref; 20 := loop_sref; 21 := C_sref; 22 := D_sref; 23 := C2_sref]}.

Definition world (cover_D : bool) : World := mkWorld 100 (state cover_D).

End TwoWriters.

(** ** A scope root that declares what it reads

    The first scenario with a root block that declares a read of the first
    eight elements of the input [A]. *)
Module InputRegion.

Import Scenario.

Definition A_front : BufferRegion := mkBufferRegion A [mkRange (c 0) (c 8)].
Definition root : Block := mkBlock 19 [] [A_front] [] "root" loop_i None [] [].

Definition root_sref : StmtSRef := mkSRef (BlockStmt root) None (-1).
Definition loop_sref : StmtSRef := mkSRef loop_i (Some root_sref) (-1).
Definition C_sref : StmtSRef := mkSRef (BlockStmt C) (Some loop_sref) 0.
Definition D_sref : StmtSRef := mkSRef (BlockStmt D) (Some loop_sref) 1.

Definition dep_C_D : Dependency := mkDependency C_sref D_sref kRAW.
Definition root_scope : BlockScope :=
  mkBlockScope {[21 := [dep_C_D]]} {[22 := [dep_C_D]]}
               {[buf_addr B := [C_sref]; buf_addr E := [D_sref]]} true.

Definition state : ScheduleState :=
  mkScheduleState 0
    {[19 := mkBlockInfo root_scope true true;
      21 := mkBlockInfo leaf_scope true true;
      22 := mkBlockInfo leaf_scope true true]}
    {[19 := root_sref; 20 := loop_sref; 21 := C_sref; 22 := D_sref]}.

Definition GetScopeRoot (self : ScheduleState) (sref : StmtSRef) (b : bool) : Res StmtSRef :=
  Ok root_sref.

Definition world : World := mkWorld 100 state.

End InputRegion.

(** ** A consumer behind a guard

    The first scenario with a guard on the consumer: block [D] runs where
    [B[i]] is positive.  The guard is the predicate of the block realize of
    [D]; it stands outside the block [D] and outside the writer [C].

    [[
    with block("root"):
      for i in range(16):
        with block("C"): vi = i;  B[vi] = A[vi] * 2
        with block("D"): vi = i;  where 0 < B[i];  E[vi] = B[vi] + 1
    ]] *)
Module GuardedConsumer.

Import Scenario.

Definition guard : PrimExpr := Bin OpLT (IntImm f32 0) (BufferLoad B [EVar i]).

Definition loop_body : Stmt :=
  SeqStmt [BlockRealize [EVar i] const_true C; BlockRealize [EVar i] guard D].
Definition loop_i : Stmt := For 20 i (c 0) (c 16) kSerial loop_body.
Definition root : Block := mkBlock 19 [] [] [] "root" loop_i None [] [].

Definition root_sref : StmtSRef := mkSRef (BlockStmt root) None (-1).
Definition loop_sref : StmtSRef := mkSRef loop_i (Some root_sref) (-1).
Definition C_sref : StmtSRef := mkSRef (BlockStmt C) (Some loop_sref) 0.
Definition D_sref : StmtSRef := mkSRef (BlockStmt D) (Some loop_sref) 1.

Definition dep_C_D : Dependency := mkDependency C_sref D_sref kRAW.
Definition root_scope : BlockScope :=
  mkBlockScope {[21 := [dep_C_D]]} {[22 := [dep_C_D]]}
               {[buf_addr B := [C_sref]; buf_addr E := [D_sref]]} true.

Definition state : ScheduleState :=
  mkScheduleState 0
    {[19 := mkBlockInfo root_scope true true;
      21 := mkBlockInfo leaf_scope true true;
      22 := mkBlockInfo leaf_scope true true]}
    {[19 := root_sref; 20 := loop_sref; 21 := C_sref; 22 := D_sref]}.

Definition GetBlockRealize (self : ScheduleState) (sref : StmtSRef) : Res Realize :=
  match sref_stmt sref with
  | BlockStmt b =>
      Ok (mkRealize (map (fun _ => EVar i) (block_iter_vars b))
                    (if Nat.eqb (block_addr b) (block_addr D) then guard else const_true) b)
  | _ => Err (ExternalError "not a block")
  end.
Definition GetScopeRoot (self : ScheduleState) (sref : StmtSRef) (b : bool) : Res StmtSRef :=
  Ok root_sref.

Definition world : World := mkWorld 100 state.

End GuardedConsumer.

(** ** A block that writes [B[vi, 0]] under the iteration variables [vi], [vj] *)
Module ReindexScenario.

Import Scenario.

Definition B2 : Buffer := mkBuffer (mkVar "B" DHandle 3) f32 [c 16; c 1] [] "B" "global" 4.
Definition vi : Var := mkVar "vi" i32 11.
Definition vj : Var := mkVar "vj" i32 13.
Definition iter_i : IterVar := mkIterVar dom16 vi kDataPar.
Definition iter_j : IterVar := mkIterVar dom16 vj kDataPar.
Definition indices : list PrimExpr := [EVar vi; c 0].
Definition block : Block :=
  mkBlock 21 [iter_i; iter_j]
          [] [FromPoint B2 indices] "C"
          (BufferStore B2 (IntImm f32 1) indices) None [] [].

End ReindexScenario.

(** ** ReIndexCollector *)

Section ReIndexCollector.

(** [ExprDeepEqual], from the analysis library. *)
Variable ExprDeepEqual : PrimExpr -> PrimExpr -> bool.

Variable mod_ : IRModule.
Variable buffer_ : Buffer.
Variable block_ : Block.

(** [std::equal(first1, last1, first2, last2, ExprDeepEqual())]. *)
Fixpoint std_equal (a b : list PrimExpr) : bool :=
  match a, b with
  | [], [] => true
  | x :: a', y :: b' => ExprDeepEqual x y && std_equal a' b'
  | _, _ => false
  end.

(** The state of the collector is [buffer_access_indices_]. *)
Definition CheckAndUpdateBufferAccessIndices (indices : list PrimExpr)
  : M (option (list PrimExpr)) unit :=
  let* buffer_access_indices_ := get in
  match buffer_access_indices_ with
  | None => put (Some indices)
  | Some value =>
      if negb (std_equal value indices)
      then throw (InvalidBufferAccessError mod_ buffer_ block_ kNonUniqueAccess)
      else ret tt
  end.

(** The inherited visit of an expression goes through its operands from left
    to right; that of a load goes through its indices. *)
Fixpoint collector_VisitExpr (e : PrimExpr) : M (option (list PrimExpr)) unit :=
  match e with
  | IntImm _ _ => ret tt
  | EVar var =>
      if var_same_as var (buf_data buffer_)
      then throw (InvalidBufferAccessError mod_ buffer_ block_ kOpaqueAccess)
      else ret tt
  | Bin _ a b => collector_VisitExpr a ;;; collector_VisitExpr b
  | BufferLoad buffer indices =>
      mapM collector_VisitExpr indices ;;;
      if buffer_same_as buffer buffer_
      then CheckAndUpdateBufferAccessIndices indices
      else ret tt
  | Call _ _ args => mapM collector_VisitExpr args ;;; ret tt
  end.

(** The inherited visit of a statement goes through its expressions, then
    through its children. *)
Fixpoint collector_VisitStmt (s : Stmt) : M (option (list PrimExpr)) unit :=
  match s with
  | BufferStore buffer value indices =>
      collector_VisitExpr value ;;;
      mapM collector_VisitExpr indices ;;;
      if buffer_same_as buffer buffer_
      then CheckAndUpdateBufferAccessIndices indices
      else ret tt
  | Evaluate value => collector_VisitExpr value
  | SeqStmt seq => mapM collector_VisitStmt seq ;;; ret tt
  | IfThenElse condition then_case else_case =>
      collector_VisitExpr condition ;;;
      collector_VisitStmt then_case ;;;
      match else_case with
      | Some e => collector_VisitStmt e
      | None => ret tt
      end
  | For _ _ min extent _ body =>
      collector_VisitExpr min ;;;
      collector_VisitExpr extent ;;;
      collector_VisitStmt body
  | BlockRealize iter_values predicate _ =>
      mapM collector_VisitExpr iter_values ;;;
      collector_VisitExpr predicate ;;;
      (* no sub-blocks under this block *)
      throw (NotLeafBlockError mod_ block_)
  | BlockStmt _ =>
      (* no sub-blocks under this block *)
      throw (NotLeafBlockError mod_ block_)
  end.

Definition ReIndexCollector_Collect : Res (list PrimExpr) :=
  match collector_VisitStmt (block_body block_) None with
  | (Ok _, Some value) => Ok value
  | (Ok _, None) => Err (InvalidBufferAccessError mod_ buffer_ block_ kNoAccess)
  | (Err e, _) => Err e
  end.

End ReIndexCollector.

(** ** ReIndexRewriter *)

(** The traversal state of the reindex rewriter: the heap, [info_] and
    [is_scope_] in [ri_rw], then [indices_] and [region_]. *)
Record ReIndexState := mkReIndex {
  ri_rw : RewriterState;
  ri_indices : list PrimExpr;
  ri_region : Region
}.

Definition ri_lift {A} (m : M RewriterState A) : M ReIndexState A :=
  zoom ri_rw (fun rw st => mkReIndex rw (ri_indices st) (ri_region st)) m.

Definition set_ri_is_scope (b : bool) (st : ReIndexState) : ReIndexState :=
  mkReIndex (set_rw_flag b (ri_rw st)) (ri_indices st) (ri_region st).

(** One step of the loop that collects the updated indices and regions. *)
Definition reindex_push (covered : gset addr) (st : ReIndexState) (iter : IterVar)
  : ReIndexState :=
  if covered_count covered (iv_var iter)
  then mkReIndex (ri_rw st)
                 (ri_indices st ++ [EVar (iv_var iter)])
                 (ri_region st
                  ++ [FromMinExtent (EVar (iv_var iter)) (IntImm (var_dtype (iv_var iter)) 1)])
  else st.

Section ReIndexRewriter.

(** [ReplaceBufferRegion] on region lists and on match-buffer lists, from the
    schedule utilities, with whether the array returned is another array. *)
Variable ReplaceBufferRegion :
  list BufferRegion -> Buffer -> BufferRegion -> list BufferRegion * bool.
Variable ReplaceBufferRegion_match :
  list MatchBufferRegion -> Buffer -> BufferRegion -> list MatchBufferRegion * bool.

Variable block_sref_ : StmtSRef.
Variable covered_ : gset addr.
Variable old_buffer_ : Buffer.
Variable new_buffer_ : Buffer.

(** A load is visited as the inherited mutator does, then goes through
    [VisitBufferAccess]. *)
Fixpoint ReIndex_VisitExpr (indices_ : list PrimExpr) (e : PrimExpr) : PrimExpr * bool :=
  match e with
  | IntImm _ _ => (e, false)
  | EVar _ => (e, false)
  | Bin op a b =>
      let '(a', ca) := ReIndex_VisitExpr indices_ a in
      let '(b', cb) := ReIndex_VisitExpr indices_ b in
      if ca || cb then (Bin op a' b', true) else (e, false)
  | BufferLoad buffer indices =>
      let '(indices', c) := Mutate_exprs (ReIndex_VisitExpr indices_) indices in
      if buffer_same_as buffer old_buffer_
      then (BufferLoad new_buffer_ indices_, true)
      else if c then (BufferLoad buffer indices', true) else (e, false)
  | Call t op args =>
      let '(args', c) := Mutate_exprs (ReIndex_VisitExpr indices_) args in
      if c then (Call t op args', true) else (e, false)
  end.

(** The expression visitor at the current traversal state. *)
Definition ri_expr : M ReIndexState (PrimExpr -> PrimExpr * bool) :=
  let* st := get in ret (ReIndex_VisitExpr (ri_indices st)).

Fixpoint ReIndex_VisitStmt (s : Stmt) : M ReIndexState (Stmt * bool) :=
  match s with
  | BufferStore buffer value indices =>
      let* st := get in
      let f := ReIndex_VisitExpr (ri_indices st) in
      let '(value', c1) := f value in
      let '(indices', c2) := Mutate_exprs f indices in
      if buffer_same_as buffer old_buffer_
      then ret (BufferStore new_buffer_ value' (ri_indices st), true)
      else ret (if c1 || c2 then (BufferStore buffer value' indices', true) else (s, false))
  | Evaluate value =>
      let* f := ri_expr in
      let '(value', c) := f value in
      ret (if c then (Evaluate value', true) else (s, false))
  | SeqStmt seq =>
      let* seq' := mapM ReIndex_VisitStmt seq in
      ret (if existsb snd seq' then (SeqStmt (map fst seq'), true) else (s, false))
  | IfThenElse condition then_case else_case =>
      let* f := ri_expr in
      let '(condition', c1) := f condition in
      let* (then_case', c2) := ReIndex_VisitStmt then_case in
      let* (else_case', c3) :=
        match else_case with
        | Some e => let* (e', c) := ReIndex_VisitStmt e in ret (Some e', c)
        | None => ret (None, false)
        end in
      ret (if c1 || c2 || c3 then (IfThenElse condition' then_case' else_case', true)
           else (s, false))
  | For a loop_var min extent kind body =>
      let* f := ri_expr in
      let '(min', c1) := f min in
      let '(extent', c2) := f extent in
      let* (body', c3) := ReIndex_VisitStmt body in
      if c1 || c2 || c3 then
        let* a' := ri_lift rw_alloc in ret (For a' loop_var min' extent' kind body', true)
      else ret (s, false)
  | BlockRealize iter_values predicate block =>
      let* f := ri_expr in
      let '(iter_values', c1) := Mutate_exprs f iter_values in
      let '(predicate', c2) := f predicate in
      let* (block', c3) := ReIndex_VisitBlock block in
      ret (if c1 || c2 || c3 then (BlockRealize iter_values' predicate' block', true)
           else (s, false))
  | BlockStmt block =>
      let* (block', c) := ReIndex_VisitBlock block in
      ret (BlockStmt block', c)
  end
with ReIndex_VisitBlock (old_stmt : Block) : M ReIndexState (Block * bool) :=
  match old_stmt with
  | mkBlock a iter_vars reads writes name_hint body init alloc_buffers match_buffers =>
      (* The inherited visit of the block *)
      let inherited : M ReIndexState (Block * bool) :=
        let* f := ri_expr in
        let '(iter_vars', c0) := Mutate_iter_vars f iter_vars in
        let '(reads', c1) := Mutate_buffer_regions f reads in
        let '(writes', c2) := Mutate_buffer_regions f writes in
        let '(match_buffers', c3) := Mutate_match_buffers f match_buffers in
        let* (init', c4) :=
          match init with
          | Some i => let* (i', c) := ReIndex_VisitStmt i in ret (Some i', c)
          | None => ret (None, false)
          end in
        let* (body', c5) := ReIndex_VisitStmt body in
        ri_lift (rebuild_block old_stmt iter_vars' reads' writes' match_buffers' init' body'
                               (c0 || c1 || c2 || c3 || c4 || c5)) in
      let* st := get in
      let info := rw_info (ri_rw st) in
      let is_scope_ := rw_flag (ri_rw st) in
      if is_scope_ then
        modify (set_ri_is_scope false) ;;;
        let* stmt := inherited in
        (* Insert cache stage into the loop *)
        let* a' := ri_lift rw_alloc in
        let* stage := info_cache_stage info in
        let* body' := InsertCacheStage (block_body (fst stmt)) (to_int (loc_pos info)) stage in
        let n := with_addr a' (with_alloc_pushed (alloc info) (with_body body' (fst stmt))) in
        ri_lift (record_block_reuse old_stmt n) ;;;
        ret (n, true)
      else if ptr_eqb (PtrBlock a) (stmt_ptr (sref_stmt block_sref_)) then
        (* Visiting the block being reindexed:
           collect the updated indices and regions *)
        modify (fun st => foldl (reindex_push covered_) st iter_vars) ;;;
        let* stmt := inherited in
        (* Update block reads/writes to use the intermediate reindex buffer *)
        let* st := get in
        let target := mkBufferRegion new_buffer_ (ri_region st) in
        let '(new_writes, cw) := ReplaceBufferRegion writes old_buffer_ target in
        let '(new_reads, cr) := ReplaceBufferRegion reads old_buffer_ target in
        let '(new_match_buffers, cm) :=
          ReplaceBufferRegion_match match_buffers old_buffer_ target in
        let* stmt :=
          if cw || cr || cm then
            let* n := ri_lift (copy_block (fst stmt)
                                          (with_accesses new_writes new_reads new_match_buffers)) in
            ret (n, true)
          else ret stmt in
        ri_lift (record_block_reuse old_stmt (fst stmt)) ;;;
        ret stmt
      else ret (old_stmt, false)
  end.

End ReIndexRewriter.

Definition ReIndexRewriter_Rewrite
    (ReplaceBufferRegion :
       list BufferRegion -> Buffer -> BufferRegion -> list BufferRegion * bool)
    (ReplaceBufferRegion_match :
       list MatchBufferRegion -> Buffer -> BufferRegion -> list MatchBufferRegion * bool)
    (scope_sref block_sref : StmtSRef) (info : CacheStageInfo) (covered : gset addr)
  : M Heap (Stmt * CacheStageInfo) :=
  fun h =>
    let new_buffer_ := alloc info in
    let old_buffer_ :=
      if buffer_same_as (read_buffer info) new_buffer_
      then write_buffer info else read_buffer info in
    let '(r, st) :=
      ReIndex_VisitStmt ReplaceBufferRegion ReplaceBufferRegion_match block_sref covered
                        old_buffer_ new_buffer_ (sref_stmt scope_sref)
                        (mkReIndex (mkRewriter h info true) [] []) in
    match r with
    | Ok (stmt, _) => (Ok (stmt, rw_info (ri_rw st)), rw_heap (ri_rw st))
    | Err e => (Err e, rw_heap (ri_rw st))
    end.

(** ** ReIndex *)

Definition is_For (s : Stmt) : bool :=
  match s with
  | For _ _ _ _ _ _ => true
  | _ => false
  end.

(** [outer->body.get() == inner] for two loops. *)
Definition body_is (outer inner : Stmt) : bool :=
  match outer with
  | For _ _ _ _ _ body => stmt_same body inner
  | _ => false
  end.

(** The loop of step 3 of [ReIndex], from [loop] upwards.  [loop->parent] is
    dereferenced unchecked: on a reference without parent the C++ has no
    defined outcome. *)
Fixpoint ReIndex_chain {S} (scope_sref : StmtSRef) (loop : StmtSRef) : M S StmtSRef :=
  match loop with
  | mkSRef inner parent _ =>
      match parent with
      | None => throw (UndefinedBehavior "loop->parent is null")
      | Some loop_parent =>
          if negb (sref_same loop_parent scope_sref) then
            let outer := sref_stmt loop_parent in
            ICHECK (is_For outer && is_For inner) "outer != nullptr && inner != nullptr" ;;;
            ICHECK (body_is outer inner) "outer->body.get() == inner" ;;;
            ReIndex_chain scope_sref loop_parent
          else ret loop
      end
  end.

(** The insert location of step 3. *)
Definition ReIndex_loc_pos (loop : StmtSRef) (buffer_index_type : BufferIndexType) : Z :=
  let loc_pos := to_size_t (if (sref_seq_index loop =? -1)%Z then 0 else sref_seq_index loop) in
  match buffer_index_type with
  | kWrite => to_size_t (loc_pos + 1)
  | kRead => loc_pos
  end.

Section ReIndex.

Variable GetBlockRealize : ScheduleState -> StmtSRef -> Res Realize.
Variable GetScopeRoot : ScheduleState -> StmtSRef -> bool -> Res StmtSRef.
Variable Replace : ScheduleState -> StmtSRef -> Stmt -> list (Block * Block) -> ScheduleState.
Variable IsAffineBinding : Realize -> StmtSRef -> bool.
Variable ExprDeepEqual : PrimExpr -> PrimExpr -> bool.
(** [SimplifyNonTrivialExpr(expr, analyzer)], with the block iters the
    analyzer has bound to their domains. *)
Variable SimplifyNonTrivialExpr : list IterVar -> PrimExpr -> PrimExpr.
Variable ReplaceBufferRegion :
  list BufferRegion -> Buffer -> BufferRegion -> list BufferRegion * bool.
Variable ReplaceBufferRegion_match :
  list MatchBufferRegion -> Buffer -> BufferRegion -> list MatchBufferRegion * bool.

(** Steps 1 to 4 of [ReIndex]: everything before the commit.  It returns the
    scope, the block of the stage, the new scope subtree and the plan. *)
Definition ReIndex_build (block_sref : StmtSRef) (buffer_index : Z)
    (buffer_index_type : BufferIndexType)
  : M World (StmtSRef * Block * Stmt * CacheStageInfo) :=
  let* w := get in
  let self := w_self w in
  let* block := TVM_SREF_TO_BLOCK block_sref in
  let* buffer := GetNthAccessBuffer self block buffer_index buffer_index_type in
  let* scope_sref := lift_res (GetScopeRoot self block_sref true) in
  (* Step 1. Collect the original indices and check there's only single
     pattern of related Load/Store and the buffer is not accessed opaquely *)
  let* original_indices :=
    lift_res (ReIndexCollector_Collect ExprDeepEqual (st_mod self) buffer block) in
  (* Simplify the indices if possible *)
  let original_indices :=
    map (SimplifyNonTrivialExpr (block_iter_vars block)) original_indices in
  (* Collect block iters appearing in the original_indices *)
  let covered : gset addr := ⋃ (map CollectVars original_indices) in
  (* Step 2. Creating CacheStageInfo *)
  let* info :=
    match buffer_index_type with
    | kWrite =>
        let* reindex_buffer :=
          on_heap (CreateReindexBuffer buffer (block_iter_vars block) covered) in
        ret (mkInfo reindex_buffer buffer reindex_buffer None 0 None [] [])
    | kRead =>
        let* reindex_buffer :=
          on_heap (CreateReindexBuffer buffer (block_iter_vars block) covered) in
        ret (mkInfo buffer reindex_buffer reindex_buffer None 0 None [] [])
    end in
  (* Step 3. Check the block belongs to a chain loop nesting under the scope,
     and get the insert location *)
  let* loop := sref_parent_checked block_sref in
  let* loop := ReIndex_chain scope_sref loop in
  let info := set_loc (loc_sref info) (ReIndex_loc_pos loop buffer_index_type) info in
  (* Step 4. Making new reindex stage block and rewrite *)
  let* (reindex_stage, info) :=
    on_heap (MakeReIndexStage block info covered original_indices buffer_index
                              buffer_index_type) in
  let* (new_scope, info) :=
    on_heap (ReIndexRewriter_Rewrite ReplaceBufferRegion ReplaceBufferRegion_match
                                     scope_sref block_sref info covered) in
  ret (scope_sref, reindex_stage, new_scope, info).

Definition ReIndex (block_sref : StmtSRef) (buffer_index : Z)
    (buffer_index_type : BufferIndexType) : M World StmtSRef :=
  let* (scope_sref, reindex_stage, new_scope, info) :=
    ReIndex_build block_sref buffer_index buffer_index_type in
  (* Step 5. Replacing and updating flags *)
  ReplaceAndUpdateFlags GetBlockRealize Replace IsAffineBinding
                        scope_sref new_scope info reindex_stage.

End ReIndex.

(** ** Further notions used by the properties below *)

(** The keys of the reuse map: the addresses of the blocks it maps. *)
Definition reuse_keys (info : CacheStageInfo) : list addr :=
  map (fun kv => block_addr (fst kv)) (block_reuse info).

(** What a visit of the detector may do to its findings: a position or a
    site that was assigned stays as it is, and a related block that was seen
    stays seen. *)
Definition assigned_once (d d' : DetectorState) : Prop :=
  (loc_pos_ d ≠ (-1)%Z → loc_pos_ d' = loc_pos_ d)
  ∧ (is_Some (loc_sref_ d) → loc_sref_ d' = loc_sref_ d)
  ∧ (visited_related_ d = true → visited_related_ d' = true).

(** What a child of a sequence is to the detector: a block that is the
    block to cache, a block that is one of the related blocks, any other
    block, or the scope root; the detector does not look inside the first
    three. *)
Inductive DetectorRole := RoleScope | RoleBlock | RoleRelated | RolePlain.

Definition detector_role (block_sref scope_sref : StmtSRef) (related_blocks : list StmtSRef)
    (s : Stmt) : option DetectorRole :=
  let role (b : Block) :=
    if ptr_eqb (PtrBlock (block_addr b)) (stmt_ptr (sref_stmt scope_sref)) then RoleScope
    else if ptr_eqb (stmt_ptr (sref_stmt block_sref)) (PtrBlock (block_addr b)) then RoleBlock
    else if existsb (fun related_block =>
                       ptr_eqb (stmt_ptr (sref_stmt related_block)) (PtrBlock (block_addr b)))
                    related_blocks
         then RoleRelated
         else RolePlain in
  match s with
  | BlockRealize _ _ b => Some (role b)
  | BlockStmt b => Some (role b)
  | _ => None
  end.

(** The reuse map of the second state has every key of the first. *)
Definition keys_le (st st' : RewriterState) : Prop :=
  ∀ k, k ∈ reuse_keys (rw_info st) → k ∈ reuse_keys (rw_info st').

(** The index lists of the loads and stores of the buffer, in the order the
    collector of [ReIndex] meets them.  A statement stands for what the
    collector visits of it: of a block below, the bindings and the
    predicate. *)
Fixpoint expr_accesses (buffer : Buffer) (e : PrimExpr) : list (list PrimExpr) :=
  match e with
  | IntImm _ _ => []
  | EVar _ => []
  | Bin _ a b => expr_accesses buffer a ++ expr_accesses buffer b
  | BufferLoad b indices =>
      concat (map (expr_accesses buffer) indices)
      ++ (if buffer_same_as b buffer then [indices] else [])
  | Call _ _ args => concat (map (expr_accesses buffer) args)
  end.

Fixpoint stmt_accesses (buffer : Buffer) (s : Stmt) : list (list PrimExpr) :=
  match s with
  | BufferStore b value indices =>
      expr_accesses buffer value
      ++ concat (map (expr_accesses buffer) indices)
      ++ (if buffer_same_as b buffer then [indices] else [])
  | Evaluate value => expr_accesses buffer value
  | SeqStmt seq => concat (map (stmt_accesses buffer) seq)
  | IfThenElse c t e =>
      expr_accesses buffer c ++ stmt_accesses buffer t
      ++ match e with Some e' => stmt_accesses buffer e' | None => [] end
  | For _ _ mn ext _ body =>
      expr_accesses buffer mn ++ expr_accesses buffer ext ++ stmt_accesses buffer body
  | BlockRealize vals pred _ =>
      concat (map (expr_accesses buffer) vals) ++ expr_accesses buffer pred
  | BlockStmt _ => []
  end.

(** Whether the variable occurs as a variable of its own, outside the
    loads that name its buffer. *)
Fixpoint expr_mentions (data : Var) (e : PrimExpr) : bool :=
  match e with
  | IntImm _ _ => false
  | EVar v => var_same_as v data
  | Bin _ a b => expr_mentions data a || expr_mentions data b
  | BufferLoad _ indices => existsb (expr_mentions data) indices
  | Call _ _ args => existsb (expr_mentions data) args
  end.

Fixpoint stmt_mentions (data : Var) (s : Stmt) : bool :=
  match s with
  | BufferStore _ value indices =>
      expr_mentions data value || existsb (expr_mentions data) indices
  | Evaluate value => expr_mentions data value
  | SeqStmt seq => existsb (stmt_mentions data) seq
  | IfThenElse c t e =>
      expr_mentions data c || stmt_mentions data t
      || match e with Some e' => stmt_mentions data e' | None => false end
  | For _ _ mn ext _ body =>
      expr_mentions data mn || expr_mentions data ext || stmt_mentions data body
  | BlockRealize vals pred _ => existsb (expr_mentions data) vals || expr_mentions data pred
  | BlockStmt _ => false
  end.

(** The index list the collector holds after a run of accesses, when every
    one of them agrees with the first it held. *)
Fixpoint absorb (ExprDeepEqual : PrimExpr -> PrimExpr -> bool)
    (held : option (list PrimExpr)) (accesses : list (list PrimExpr))
  : option (option (list PrimExpr)) :=
  match accesses with
  | [] => Some held
  | indices :: rest =>
      match held with
      | None => absorb ExprDeepEqual (Some indices) rest
      | Some value =>
          if std_equal ExprDeepEqual value indices
          then absorb ExprDeepEqual held rest
          else None
      end
  end.

(** What a visit of the collector comes to, for a part of the program with
    the given occurrence of the data variable, accesses and blocks. *)
Definition collector_run {A} (ExprDeepEqual : PrimExpr -> PrimExpr -> bool)
    (mod_ : IRModule) (buffer : Buffer) (block : Block)
    (mentions : bool) (accesses : list (list PrimExpr)) (blocks : list Block)
    (m : M (option (list PrimExpr)) A) : Prop :=
  ∀ held,
    match m held with
    | (Ok _, held') =>
        mentions = false ∧ blocks = [] ∧ absorb ExprDeepEqual held accesses = Some held'
    | (Err e, _) =>
        (e = InvalidBufferAccessError mod_ buffer block kOpaqueAccess ∧ mentions = true)
        ∨ (e = InvalidBufferAccessError mod_ buffer block kNonUniqueAccess
           ∧ absorb ExprDeepEqual held accesses = None)
        ∨ (e = NotLeafBlockError mod_ block ∧ blocks ≠ [])
    end.

(** One step of the walk of [ReIndex] from a loop to the loop around it:
    both are loops, the outer one has the inner one for its body, and the
    outer one is not the scope. *)
Definition chain_step (scope_sref inner_sref : StmtSRef) : Prop :=
  exists outer_sref,
    sref_parent inner_sref = Some outer_sref
    /\ sref_same outer_sref scope_sref = false
    /\ is_For (sref_stmt outer_sref) = true
    /\ is_For (sref_stmt inner_sref) = true
    /\ body_is (sref_stmt outer_sref) (sref_stmt inner_sref) = true.


(** The block at the reference being reindexed. *)
Definition is_target (block_sref : StmtSRef) (B : Block) : Prop :=
  ptr_eqb (PtrBlock (block_addr B)) (stmt_ptr (sref_stmt block_sref)) = true.

(** The entries the second reuse map has beyond those of the first map the
    block being reindexed. *)
Definition entries_from_target (block_sref : StmtSRef) (st st' : ReIndexState) : Prop :=
  ∀ kv, kv ∈ block_reuse (rw_info (ri_rw st')) →
        kv ∈ block_reuse (rw_info (ri_rw st)) ∨ is_target block_sref kv.1.

(** What the rewriter of [ReIndex] makes of the accesses of a part of the
    block: of the accesses to the old and to the new buffer before and after,
    none to the old buffer is left, those to the new buffer are at the new
    indices when there was none before, and there is one when the part accessed
    the old buffer. *)
Definition retargeted (indices_ : list PrimExpr)
    (before after : list (list PrimExpr) * list (list PrimExpr)) : Prop :=
  after.1 = []
  ∧ (before.2 = [] → Forall (fun indices => indices = indices_) after.2)
  ∧ (before.1 ≠ [] → after.2 ≠ []).

(** No access of the list has an access to the buffer among its indices. *)
Definition flat_accesses (buffer : Buffer) (accesses : list (list PrimExpr)) : Prop :=
  Forall (fun indices => concat (map (expr_accesses buffer) indices) = []) accesses.

(** What the cache_read rewriter makes of the accesses of a part of a
    consumer block: of the accesses to the buffer read and to the cache buffer
    before and after, when the accesses to the buffer read are flat and the
    part has no access to the cache buffer, none to the buffer read is left and
    those to the cache buffer are the ones there were to the buffer read. *)
Definition redirected (read_buffer : Buffer)
    (before after : list (list PrimExpr) * list (list PrimExpr)) : Prop :=
  flat_accesses read_buffer before.1 → before.2 = [] →
  after.1 = [] ∧ after.2 = before.1.

(** ** Reindexing the write of [B] in block [C] *)
Module ReindexRun.

Import Scenario.

(** Stand-ins for the collaborators: a comparison of constants and
    variables, no simplification, and the replacement of the regions of a
    buffer. *)
Definition ExprDeepEqual (a b : PrimExpr) : bool :=
  match a, b with
  | IntImm _ x, IntImm _ y => (x =? y)%Z
  | EVar v, EVar w => var_same_as v w
  | _, _ => false
  end.
Definition SimplifyNonTrivialExpr (iters : list IterVar) (e : PrimExpr) : PrimExpr := e.
Definition ReplaceBufferRegion (regions : list BufferRegion) (source_buffer : Buffer)
    (target : BufferRegion) : list BufferRegion * bool :=
  (map (fun region => if buffer_same_as (br_buffer region) source_buffer
                      then target else region) regions,
   existsb (fun region => buffer_same_as (br_buffer region) source_buffer) regions).
Definition ReplaceBufferRegion_match (match_buffers : list MatchBufferRegion)
    (source_buffer : Buffer) (target : BufferRegion) : list MatchBufferRegion * bool :=
  (map (fun mb => if buffer_same_as (br_buffer (mb_source mb)) source_buffer
                  then mkMatchBufferRegion (mb_buffer mb) target else mb) match_buffers,
   existsb (fun mb => buffer_same_as (br_buffer (mb_source mb)) source_buffer) match_buffers).

(** The block of [ReindexScenario] under two loops:

    [[
    with block("root"):
      for i in range(16):
        for j in range(16):
          with block("C"): vi = i; vj = j;  B[vi, 0] = 1
    ]] *)
Definition j : Var := mkVar "j" i32 15.
Definition realize : Stmt :=
  BlockRealize [EVar i; EVar j] const_true ReindexScenario.block.
Definition loop_j : Stmt := For 31 j (c 0) (c 16) kSerial realize.
Definition loop_i : Stmt := For 30 i (c 0) (c 16) kSerial loop_j.
Definition root : Block := mkBlock 19 [] [] [] "root" loop_i None [] [].

Definition root_sref : StmtSRef := mkSRef (BlockStmt root) None (-1).
Definition loop_i_sref : StmtSRef := mkSRef loop_i (Some root_sref) (-1).
Definition loop_j_sref : StmtSRef := mkSRef loop_j (Some loop_i_sref) (-1).
Definition block_sref : StmtSRef :=
  mkSRef (BlockStmt ReindexScenario.block) (Some loop_j_sref) (-1).

Definition root_scope : BlockScope :=
  mkBlockScope ∅ ∅ {[buf_addr ReindexScenario.B2 := [block_sref]]} true.

Definition state : ScheduleState :=
  mkScheduleState 0
    {[19 := mkBlockInfo root_scope true true;
      21 := mkBlockInfo leaf_scope true true]}
    {[19 := root_sref; 30 := loop_i_sref; 31 := loop_j_sref; 21 := block_sref]}.

Definition world : World := mkWorld 100 state.

Definition GetScopeRoot (self : ScheduleState) (sref : StmtSRef) (b : bool) : Res StmtSRef :=
  Ok root_sref.

(** The variables the write [B[vi, 0]] covers, and the plan of [ReIndex] for
    it: the reindex buffer, the stage and the position behind the loop
    nest. *)
Definition covered : gset addr := ⋃ (map CollectVars ReindexScenario.indices).
Definition plan : CacheStageInfo :=
  Eval vm_compute in
    match fst ((let* reindex_buffer :=
                  CreateReindexBuffer ReindexScenario.B2
                                      (block_iter_vars ReindexScenario.block) covered in
                let info :=
                  set_loc None (ReIndex_loc_pos loop_i_sref kWrite)
                          (mkInfo reindex_buffer ReindexScenario.B2 reindex_buffer
                                  None 0 None [] []) in
                MakeReIndexStage ReindexScenario.block info covered
                                 ReindexScenario.indices 0 kWrite) 100) with
    | Ok (_, info) => info
    | Err _ => info_B
    end.

(** The two loops with the inner one in a sequence of one statement. *)
Definition seq_loop_i : Stmt := For 30 i (c 0) (c 16) kSerial (SeqStmt [loop_j]).
Definition seq_loop_i_sref : StmtSRef := mkSRef seq_loop_i (Some root_sref) (-1).
Definition seq_loop_j_sref : StmtSRef := mkSRef loop_j (Some seq_loop_i_sref) 0.

End ReindexRun.

(** * Properties *)

(** ** Stepping through the monad *)

Lemma bind_Ok {S A B} (m : M S A) (k : A -> M S B) s a s' :
  m s = (Ok a, s') -> bind m k s = k a s'.
Proof. intros E. unfold bind. rewrite E. reflexivity. Qed.

Lemma bind_Err {S A B} (m : M S A) (k : A -> M S B) s e s' :
  m s = (Err e, s') -> bind m k s = (Err e, s').
Proof. intros E. unfold bind. rewrite E. reflexivity. Qed.

Lemma bind_inv {S A B} (m : M S A) (k : A -> M S B) s b s' :
  bind m k s = (Ok b, s') -> exists a s1, m s = (Ok a, s1) /\ k a s1 = (Ok b, s').
Proof.
  unfold bind. destruct (m s) as [[a|e] s1]; intros H; [eauto | discriminate].
Qed.

Lemma lift_res_inv {S A} (r : Res A) (s : S) a s' :
  lift_res r s = (Ok a, s') -> r = Ok a /\ s' = s.
Proof. unfold lift_res. intros H. inversion H. auto. Qed.

Lemma ICHECK_inv {S} (b : bool) msg (s : S) u s' :
  ICHECK b msg s = (Ok u, s') -> b = true /\ s' = s.
Proof. unfold ICHECK. destruct b; cbn; intros H; inversion H; auto. Qed.

(** ** MakeCacheStage *)

Lemma cache_loop_vars_fold (region : list Range) :
  forall loop_vars iter_values (h : Heap),
  exists vs,
    foldM cache_loop_var_step region (loop_vars, iter_values) h
    = (Ok (loop_vars ++ vs, iter_values ++ zip_with cache_binding region vs),
       h + length region)
    /\ length vs = length region
    /\ map var_addr vs = seq h (length region).
Proof.
  induction region as [|r region IH]; intros lv iv h.
  - exists []. cbn. rewrite !app_nil_r, Nat.add_0_r. auto.
  - destruct (IH (lv ++ [mkVar ("ax" +:+ pretty (length lv)) (dtype_of (range_extent r)) h])
                 (iv ++ [cache_binding r (mkVar ("ax" +:+ pretty (length lv))
                                                (dtype_of (range_extent r)) h)])
                 (S h)) as (vs & E & L & A).
    exists (mkVar ("ax" +:+ pretty (length lv)) (dtype_of (range_extent r)) h :: vs).
    cbn [foldM]. cbn [foldM] in E.
    unfold bind at 1. cbn. rewrite E.
    rewrite <- !app_assoc. cbn. rewrite L, A.
    repeat split; f_equal; lia.
Qed.

Lemma cache_block_vars_fold (shape : list PrimExpr) :
  forall block_vars access_region access_indices (h : Heap),
  exists vs,
    foldM cache_block_var_step shape (block_vars, access_region, access_indices) h
    = (Ok (block_vars ++ zip_with cache_iter_var shape vs,
           access_region ++ point_region (map EVar vs),
           access_indices ++ map EVar vs),
       h + length shape)
    /\ length vs = length shape
    /\ map var_addr vs = seq h (length shape).
Proof.
  induction shape as [|d shape IH]; intros bv ar ai h.
  - exists []. cbn. rewrite !app_nil_r, Nat.add_0_r. auto.
  - destruct (IH (bv ++ [cache_iter_var d (mkVar ("v" +:+ pretty (length ai)) (dtype_of d) h)])
                 (ar ++ [FromMinExtent (EVar (mkVar ("v" +:+ pretty (length ai)) (dtype_of d) h))
                                       (make_const (dtype_of d) 1)])
                 (ai ++ [EVar (mkVar ("v" +:+ pretty (length ai)) (dtype_of d) h)])
                 (S h)) as (vs & E & L & A).
    exists (mkVar ("v" +:+ pretty (length ai)) (dtype_of d) h :: vs).
    cbn [foldM]. cbn [foldM] in E.
    unfold bind at 1. cbn. rewrite E.
    rewrite <- !app_assoc. cbn. rewrite L, A.
    repeat split; f_equal; lia.
Qed.

(** What [make_loops] builds, for a loop constructor that allocates one loop
    with the header [header l]. *)
Lemma loops_fold_peel {A} (mk : A -> Stmt -> M Heap Stmt)
    (header : A -> Var * PrimExpr * PrimExpr) :
  (forall l body h, exists a kind,
      mk l body h = (Ok (For a (header l).1.1 (header l).1.2 (header l).2 kind body), S h)) ->
  forall (l : list A) body (h : Heap),
  exists s,
    foldM (fun body x => mk x body) l body h = (Ok s, h + length l)
    /\ peel_loops s = (map header (rev l) ++ fst (peel_loops body), snd (peel_loops body)).
Proof.
  intros Hmk l. induction l as [|x l IH]; intros body h.
  - exists body. cbn. rewrite Nat.add_0_r. split; [reflexivity|].
    destruct (peel_loops body); reflexivity.
  - destruct (Hmk x body h) as (a & kind & E0).
    destruct (IH (For a (header x).1.1 (header x).1.2 (header x).2 kind body) (S h))
      as (s & E & P).
    exists s. cbn [foldM]. erewrite bind_Ok by exact E0. rewrite E.
    split; [f_equal; cbn; lia|].
    rewrite P. cbn. destruct (peel_loops body) as [ls inner]. cbn.
    rewrite map_app, <- app_assoc. cbn. destruct (header x) as [[v mn] ext]. reflexivity.
Qed.

Lemma make_loops_peel {A} (mk : A -> Stmt -> M Heap Stmt)
    (header : A -> Var * PrimExpr * PrimExpr) :
  (forall l body h, exists a kind,
      mk l body h = (Ok (For a (header l).1.1 (header l).1.2 (header l).2 kind body), S h)) ->
  forall (loops : list A) body (h : Heap),
  exists s,
    make_loops mk loops body h = (Ok s, h + length loops)
    /\ peel_loops s = (map header loops ++ fst (peel_loops body), snd (peel_loops body)).
Proof.
  intros Hmk loops body h. unfold make_loops.
  destruct (loops_fold_peel mk header Hmk (rev loops) body h) as (s & E & P).
  exists s. rewrite length_rev in E. rewrite rev_involutive in P. auto.
Qed.

Lemma cache_loop_spec (lr : Var * Range) body (h : Heap) :
  exists a kind,
    cache_loop lr body h
    = (Ok (For a (cache_loop_header lr).1.1 (cache_loop_header lr).1.2
               (cache_loop_header lr).2 kind body), S h).
Proof. destruct lr as [v r]. exists h, kSerial. reflexivity. Qed.

(** The sum [min + loop_var] for a loop variable: the variable alone when the
    minimum is the constant 0. *)
Lemma op_add_var (mn : PrimExpr) (v : Var) :
  op_add mn (EVar v)
  = match mn with
    | IntImm _ 0 => EVar v
    | _ => Add mn (EVar v)
    end.
Proof. destruct mn as [t [| |]| | | |]; reflexivity. Qed.

Lemma zip_with_lookup_Some {A B C} (f : A -> B -> C) (l : list A) (k : list B) i a b :
  l !! i = Some a -> k !! i = Some b -> zip_with f l k !! i = Some (f a b).
Proof.
  revert k i. induction l as [|x l IH]; intros [|y k] [|i]; cbn; try discriminate.
  - intros [= ->] [= ->]. reflexivity.
  - apply IH.
Qed.

(** What [MakeCacheStage] returns, for any region. *)
Lemma MakeCacheStage_spec
    (cache_region : BufferRegion) (info : CacheStageInfo) (storage_scope : string) (h : Heap) :
  exists block h' idx stage loop_vars,
    MakeCacheStage cache_region info storage_scope h
    = (Ok (block, set_cache_stage stage info), h')
    /\ block_body block
       = BufferStore (write_buffer info) (BufferLoad (read_buffer info) idx) idx
    /\ idx = map (fun iv => EVar (iv_var iv)) (block_iter_vars block)
    /\ block_reads block = [FromPoint (read_buffer info) idx]
    /\ block_writes block = [FromPoint (write_buffer info) idx]
    /\ peel_loops stage
       = (zip_with (fun v r => (v, IntImm (DInt 32) 0, range_extent r))
                   loop_vars (br_region cache_region),
          BlockRealize (zip_with cache_binding (br_region cache_region) loop_vars)
                       const_true block)
    /\ length loop_vars = length (br_region cache_region)
    /\ map var_addr loop_vars = seq h (length (br_region cache_region))
    /\ length (block_iter_vars block) = length (buf_shape (br_buffer cache_region))
    /\ map (fun iv => var_addr (iv_var iv)) (block_iter_vars block)
       = seq (h + length (br_region cache_region))
             (length (buf_shape (br_buffer cache_region))).
Proof.
  unfold MakeCacheStage.
  destruct (cache_loop_vars_fold (br_region cache_region) [] [] h) as (lvs & E1 & L1 & A1).
  destruct (cache_block_vars_fold (buf_shape (br_buffer cache_region)) [] [] []
              (h + length (br_region cache_region))) as (bvs & E2 & L2 & A2).
  cbn [app] in E1, E2.
  set (h2 := h + length (br_region cache_region) + length (buf_shape (br_buffer cache_region))) in *.
  set (block := mkBlock h2
         (zip_with cache_iter_var (buf_shape (br_buffer cache_region)) bvs)
         [mkBufferRegion (read_buffer info) (point_region (map EVar bvs))]
         [mkBufferRegion (write_buffer info) (point_region (map EVar bvs))]
         (buf_name (br_buffer cache_region) +:+ "_" +:+ storage_scope)
         (BufferStore (write_buffer info) (BufferLoad (read_buffer info) (map EVar bvs))
                      (map EVar bvs))
         None [] []).
  destruct (make_loops_peel cache_loop cache_loop_header cache_loop_spec
              (zip lvs (br_region cache_region))
              (BlockRealize (zip_with cache_binding (br_region cache_region) lvs)
                            const_true block) (S h2)) as (stage & E3 & P3).
  exists block, (S h2 + length (zip lvs (br_region cache_region))), (map EVar bvs), stage, lvs.
  assert (IV : map iv_var (zip_with cache_iter_var (buf_shape (br_buffer cache_region)) bvs)
               = bvs).
  { clear -L2. revert bvs L2.
    induction (buf_shape (br_buffer cache_region)) as [|d sh IH]; intros [|v vs] L;
      try discriminate; [reflexivity|]. cbn. f_equal. apply IH. cbn in L. lia. }
  assert (IVe : map (fun iv => EVar (iv_var iv))
                    (zip_with cache_iter_var (buf_shape (br_buffer cache_region)) bvs)
                = map EVar bvs).
  { rewrite <- IV at 2. rewrite map_map. reflexivity. }
  split.
  { erewrite bind_Ok by exact E1. cbn beta iota.
    erewrite bind_Ok by exact E2. cbn beta iota.
    erewrite bind_Ok by reflexivity.
    erewrite bind_Ok by exact E3. reflexivity. }
  split; [reflexivity|]. split; [cbn; symmetry; exact IVe|].
  split; [reflexivity|]. split; [reflexivity|].
  split.
  { rewrite P3. cbn. rewrite app_nil_r. f_equal.
    clear. revert lvs. induction (br_region cache_region) as [|r rs IH]; intros [|v vs];
      cbn; try reflexivity. f_equal. apply IH. }
  split; [exact L1|]. split; [exact A1|].
  split; [cbn; rewrite length_zip_with; lia|].
  cbn. rewrite <- A2. rewrite <- IV at 2. rewrite map_map. reflexivity.
Qed.

(** C1. Every stage built by [MakeCacheStage] for a buffer region (one range
    per dimension of its buffer) is an elementwise identity copy.  The block
    body is the single store [write_buffer[idx] = read_buffer[idx]] with the
    same index list [idx] on both sides: the block's own iteration variables,
    pairwise distinct new objects, one per dimension.  The declared read and
    write regions are the unit cells at [idx].  The block sits in a nest of
    exactly one loop per range of the cache region, from 0 over the range's
    extent, with pairwise distinct new loop variables, and the block realize
    binds the iteration variable, and so the access index, of dimension [i] to
    the sum of the minimum of range [i] and the loop variable of loop [i] and
    to nothing else: the loop variable itself when the minimum is the
    constant 0, the node [min + loop_var] otherwise. *)
Theorem MakeCacheStage_identity_copy
    (cache_region : BufferRegion) (info : CacheStageInfo) (storage_scope : string) (h : Heap) :
  length (br_region cache_region) = length (buf_shape (br_buffer cache_region)) ->
  exists block info' h' idx stage loop_vars iter_values,
    MakeCacheStage cache_region info storage_scope h = (Ok (block, info'), h')
    /\ block_body block
       = BufferStore (write_buffer info) (BufferLoad (read_buffer info) idx) idx
    /\ idx = map (fun iv => EVar (iv_var iv)) (block_iter_vars block)
    /\ length idx = length (buf_shape (br_buffer cache_region))
    /\ NoDup (map (fun iv => var_addr (iv_var iv)) (block_iter_vars block))
    /\ block_reads block = [FromPoint (read_buffer info) idx]
    /\ block_writes block = [FromPoint (write_buffer info) idx]
    /\ cache_stage info' = Some stage
    /\ peel_loops stage
       = (zip_with (fun v r => (v, IntImm (DInt 32) 0, range_extent r))
                   loop_vars (br_region cache_region),
          BlockRealize iter_values const_true block)
    /\ length loop_vars = length (br_region cache_region)
    /\ NoDup (map var_addr loop_vars)
    /\ Forall (fun v => h <= var_addr v) loop_vars
    /\ length iter_values = length (block_iter_vars block)
    /\ forall i r v,
        br_region cache_region !! i = Some r ->
        loop_vars !! i = Some v ->
        iter_values !! i
        = Some (match range_min r with
                | IntImm _ 0 => EVar v
                | _ => Add (range_min r) (EVar v)
                end).
Proof.
  intros WF.
  destruct (MakeCacheStage_spec cache_region info storage_scope h)
    as (block & h' & idx & stage & lvs & E & Hb & Hi & Hr & Hw & Hp & Hl & Ha & Hv & Hva).
  exists block, (set_cache_stage stage info), h', idx, stage, lvs,
         (zip_with cache_binding (br_region cache_region) lvs).
  split; [exact E|]. split; [exact Hb|]. split; [exact Hi|].
  split; [rewrite Hi, length_map; exact Hv|].
  split; [rewrite Hva; apply NoDup_seq|].
  split; [exact Hr|]. split; [exact Hw|]. split; [reflexivity|].
  split; [exact Hp|]. split; [exact Hl|].
  split; [rewrite Ha; apply NoDup_seq|].
  split.
  { apply Forall_forall. intros v Hin.
    assert (Hin' : var_addr v ∈ seq h (length (br_region cache_region))).
    { rewrite <- Ha. apply list_elem_of_fmap. eauto. }
    apply elem_of_seq in Hin'. lia. }
  split; [rewrite length_zip_with; lia|].
  intros i r v Hr' Hv'.
  rewrite (zip_with_lookup_Some _ _ _ _ _ _ Hr' Hv').
  unfold cache_binding. rewrite op_add_var. reflexivity.
Qed.

Lemma MakeCacheStage_identity_copy_witness :
  length (br_region (FullRegion Scenario.B)) = length (buf_shape (br_buffer (FullRegion Scenario.B)))
  /\ exists block info' h' idx stage loop_vars iter_values,
    MakeCacheStage (FullRegion Scenario.B) Scenario.info_B "local" 100 = (Ok (block, info'), h')
    /\ block_body block
       = BufferStore (write_buffer Scenario.info_B)
                     (BufferLoad (read_buffer Scenario.info_B) idx) idx
    /\ idx = map (fun iv => EVar (iv_var iv)) (block_iter_vars block)
    /\ length idx = length (buf_shape (br_buffer (FullRegion Scenario.B)))
    /\ NoDup (map (fun iv => var_addr (iv_var iv)) (block_iter_vars block))
    /\ block_reads block = [FromPoint (read_buffer Scenario.info_B) idx]
    /\ block_writes block = [FromPoint (write_buffer Scenario.info_B) idx]
    /\ cache_stage info' = Some stage
    /\ peel_loops stage
       = (zip_with (fun v r => (v, IntImm (DInt 32) 0, range_extent r))
                   loop_vars (br_region (FullRegion Scenario.B)),
          BlockRealize iter_values const_true block)
    /\ length loop_vars = length (br_region (FullRegion Scenario.B))
    /\ NoDup (map var_addr loop_vars)
    /\ Forall (fun v => 100 <= var_addr v) loop_vars
    /\ length iter_values = length (block_iter_vars block)
    /\ forall i r v,
        br_region (FullRegion Scenario.B) !! i = Some r ->
        loop_vars !! i = Some v ->
        iter_values !! i
        = Some (match range_min r with
                | IntImm _ 0 => EVar v
                | _ => Add (range_min r) (EVar v)
                end).
Proof.
  split; [reflexivity|].
  apply (MakeCacheStage_identity_copy (FullRegion Scenario.B) Scenario.info_B "local" 100).
  reflexivity.
Defined.

(** ** Lists with their positions *)

Lemma elem_of_enumerate {A} (l : list A) i x :
  (i, x) ∈ enumerate l -> l !! i = Some x.
Proof.
  unfold enumerate. intros H. apply list_elem_of_lookup in H as [j Hj].
  apply lookup_zip_with_Some in Hj as (a & b & Heq & Ha & Hb).
  inversion Heq; subst. apply lookup_seq in Ha as [-> _]. exact Hb.
Qed.

(** C3, at a failing input.  Reindexing the write [B[vi, 0]] of a block with
    the iteration variables [vi] and [vj], under the loops [i] and [j]: the
    steps of [ReIndex] before the commit return.  The variable [vj] is not in
    the indices.  The reindex buffer has the shape [[16]], with no dimension
    for [vj]; the block of the stage has one iteration variable; and the stage
    is a nest of a single loop, for [vi], over its 16 iterations.  No loop of
    extent one stands for [vj]. *)
Lemma ReIndex_stage_no_unit_loop :
  exists scope stage_block new_scope info w' stage,
    ReIndex_build ReindexRun.GetScopeRoot ReindexRun.ExprDeepEqual
                  ReindexRun.SimplifyNonTrivialExpr ReindexRun.ReplaceBufferRegion
                  ReindexRun.ReplaceBufferRegion_match
                  ReindexRun.block_sref 0 kWrite ReindexRun.world
    = (Ok (scope, stage_block, new_scope, info), w')
    /\ ReindexScenario.iter_j ∈ block_iter_vars ReindexScenario.block
    /\ (var_addr (iv_var ReindexScenario.iter_j)
        ∉ ((⋃ (map CollectVars ReindexScenario.indices)) : gset addr))
    /\ buf_shape (alloc info) = [Scenario.c 16]
    /\ length (block_iter_vars stage_block) = 1
    /\ cache_stage info = Some stage
    /\ length (peel_loops stage).1 = 1
    /\ ~ has_unit_loop stage.
Proof.
  do 6 eexists. split; [vm_compute; reflexivity|].
  split; [unfold ReindexScenario.block; cbn; set_solver|].
  split; [cbn; set_solver|].
  do 4 (split; [reflexivity|]).
  intros (loop & t & Hin & Hext). cbn in Hin.
  apply list_elem_of_singleton in Hin. subst loop. discriminate Hext.
Qed.

(** ** The insertion point when nothing depends on the block *)

Lemma to_int_small (z : Z) : (0 ≤ z < 2 ^ 31)%Z -> to_int z = z.
Proof.
  intros H. unfold to_int. rewrite Z.mod_small; lia.
Qed.

Lemma InsertCacheStage_at_end {S} (body stage : Stmt) (st : S) :
  InsertCacheStage body
                   (match body with SeqStmt seq => Z.of_nat (length seq) | _ => 1 end)
                   stage st
  = (Ok (SeqStmt (body_children body ++ [stage])), st).
Proof.
  destruct body; try reflexivity.
  cbn. unfold seq_insert. rewrite bool_decide_eq_true_2 by lia.
  rewrite Nat2Z.id, take_ge, drop_ge by lia. reflexivity.
Qed.

(** C4 (as amended). When the consumer list of the plan is empty and the
    scope records no read-after-write dependency from the block, [Detect]
    puts the insertion site at the scope root, at the position after the last
    child of its body: the length of the sequence, or 1 (not 0) when the body
    is not a sequence.  Inserting there appends the stage at the end of the
    body. *)
Theorem Detect_without_related_blocks {S} (self : ScheduleState)
    (block_sref scope_sref : StmtSRef) (info : CacheStageInfo)
    (scope_block : Block) (bi : BlockInfo) (st : S) :
  consumer_blocks info = [] ->
  sref_stmt scope_sref = BlockStmt scope_block ->
  block_info self !! sref_key scope_sref = Some bi ->
  (forall def, def ∈ GetDepsBySrc (bi_scope bi) block_sref -> dep_kind def <> kRAW) ->
  (Z.of_nat (length (body_children (block_body scope_block))) < 2 ^ 31)%Z ->
  exists info',
    Detect self block_sref scope_sref info st = (Ok info', st)
    /\ loc_sref info' = Some scope_sref
    /\ loc_pos info' = (if is_SeqStmt (block_body scope_block)
                        then Z.of_nat (length (body_children (block_body scope_block)))
                        else 1%Z)
    /\ forall stage,
        InsertCacheStage (block_body scope_block) (to_int (loc_pos info')) stage st
        = (Ok (SeqStmt (body_children (block_body scope_block) ++ [stage])), st).
Proof.
  intros Hc Hs Hbi Hdeps Hlen.
  set (pos := match block_body scope_block with
              | SeqStmt seq => Z.of_nat (length seq)
              | _ => 1%Z
              end).
  exists (set_loc (Some scope_sref) pos info).
  assert (Hfilter : filter (fun def => DepKind_eqb (dep_kind def) kRAW = true)
                           (GetDepsBySrc (bi_scope bi) block_sref) = []).
  { induction (GetDepsBySrc (bi_scope bi) block_sref) as [|d l IH]; [reflexivity|].
    rewrite filter_cons. rewrite decide_False.
    - apply IH. intros def Hin. apply Hdeps. right. exact Hin.
    - specialize (Hdeps d (list_elem_of_here _ _)).
      destruct (dep_kind d); cbn; congruence. }
  assert (Hpos : pos = if is_SeqStmt (block_body scope_block)
                       then Z.of_nat (length (body_children (block_body scope_block)))
                       else 1%Z).
  { unfold pos. destruct (block_body scope_block); reflexivity. }
  split.
  { unfold Detect. rewrite Hc. cbn [length bool_decide].
    rewrite bool_decide_eq_false_2 by (cbn; lia).
    unfold GetBlockScope, block_info_at. rewrite Hbi.
    erewrite bind_Ok by reflexivity. rewrite Hfilter. cbn [map].
    rewrite bool_decide_eq_true_2 by reflexivity. cbn [negb].
    unfold TVM_SREF_TO_BLOCK. rewrite Hs. reflexivity. }
  split; [reflexivity|]. split; [exact Hpos|].
  intros stage. cbn [loc_pos set_loc].
  rewrite to_int_small.
  - unfold pos. apply InsertCacheStage_at_end.
  - rewrite Hpos. destruct (is_SeqStmt (block_body scope_block)) eqn:E; [lia|].
    split; [lia|]. reflexivity.
Qed.

Lemma Detect_without_related_blocks_witness :
  exists info',
    Detect Scenario.state Scenario.D_sref Scenario.root_sref Scenario.info_B Scenario.world
    = (Ok info', Scenario.world)
    /\ loc_sref info' = Some Scenario.root_sref
    /\ loc_pos info' = (if is_SeqStmt (block_body Scenario.root)
                        then Z.of_nat (length (body_children (block_body Scenario.root)))
                        else 1%Z)
    /\ forall stage,
        InsertCacheStage (block_body Scenario.root) (to_int (loc_pos info')) stage Scenario.world
        = (Ok (SeqStmt (body_children (block_body Scenario.root) ++ [stage])), Scenario.world).
Proof.
  apply (Detect_without_related_blocks Scenario.state Scenario.D_sref Scenario.root_sref
           Scenario.info_B Scenario.root (mkBlockInfo Scenario.root_scope true true)).
  - reflexivity.
  - reflexivity.
  - reflexivity.
  - intros def Hin. vm_compute in Hin. inversion Hin.
  - vm_compute. reflexivity.
Defined.

(** C4, the claim as stated, fails on its last clause: the root of the
    scenario has a loop as its body, not a sequence; nothing depends on block
    [D]; and [Detect] puts the insertion position at 1, behind the loop, not
    at 0. *)
Lemma Detect_non_sequence_root_position :
  exists info',
    Detect Scenario.state Scenario.D_sref Scenario.root_sref Scenario.info_B Scenario.world
    = (Ok info', Scenario.world)
    /\ consumer_blocks Scenario.info_B = []
    /\ GetDepsBySrc Scenario.root_scope Scenario.D_sref = []
    /\ is_SeqStmt (block_body Scenario.root) = false
    /\ loc_sref info' = Some Scenario.root_sref
    /\ loc_pos info' = 1%Z
    /\ loc_pos info' <> 0%Z.
Proof.
  eexists. split; [vm_compute; reflexivity|].
  repeat split; discriminate.
Qed.

(** ** More than one writer *)

Lemma mapM_TVM_SREF_TO_BLOCK {S} (srefs : list StmtSRef) (blocks : list Block) (st : S) :
  Forall2 (fun r b => sref_stmt r = BlockStmt b) srefs blocks ->
  mapM TVM_SREF_TO_BLOCK srefs st = (Ok blocks, st).
Proof.
  induction 1 as [|r b srefs blocks Hr _ IH]; [reflexivity|].
  cbn [mapM]. erewrite bind_Ok; cycle 1.
  { unfold TVM_SREF_TO_BLOCK. rewrite Hr. reflexivity. }
  erewrite bind_Ok by exact IH. reflexivity.
Qed.

Lemma GetOnlyWriteBlock_two_writers {S} (self : ScheduleState) (scope_sref : StmtSRef)
    (buffer : Buffer) (bi : BlockInfo) (writers : list StmtSRef) (blocks : list Block)
    (st : S) :
  block_info self !! sref_key scope_sref = Some bi ->
  buffer_writers (bi_scope bi) !! buf_addr buffer = Some writers ->
  1 < length writers ->
  Forall2 (fun r b => sref_stmt r = BlockStmt b) writers blocks ->
  GetOnlyWriteBlock self scope_sref buffer st
  = (Err (NotSingleWriteBlock (st_mod self) buffer blocks), st).
Proof.
  intros Hbi Hw Hlen Hblocks. unfold GetOnlyWriteBlock, GetBlockScope, block_info_at.
  rewrite Hbi. erewrite bind_Ok by reflexivity. rewrite Hw.
  erewrite bind_Ok; cycle 1.
  { unfold ICHECK. rewrite bool_decide_eq_false_2; [reflexivity|].
    intros ->. cbn in Hlen. lia. }
  rewrite bool_decide_eq_true_2 by exact Hlen.
  unfold make_NotSingleWriteBlock.
  erewrite bind_Ok; cycle 1.
  { erewrite bind_Ok; cycle 1.
    { unfold ICHECK. rewrite bool_decide_eq_true_2 by exact Hlen. reflexivity. }
    erewrite bind_Ok by (apply mapM_TVM_SREF_TO_BLOCK; exact Hblocks). reflexivity. }
  reflexivity.
Qed.

Lemma CheckRegionCover_passes {S} (self : ScheduleState) (scope_root : StmtSRef)
    (bi : BlockInfo) (st : S) :
  block_info self !! sref_key scope_root = Some bi ->
  region_cover_holds self (bi_scope bi) ->
  CheckRegionCover self scope_root st = (Ok tt, st).
Proof.
  intros Hbi Hcover. unfold CheckRegionCover, GetBlockScope, block_info_at.
  rewrite Hbi. erewrite bind_Ok by reflexivity.
  assert (H : forall kv, kv ∈ map_to_list (dst2deps (bi_scope bi)) ->
                         exists i, block_info self !! kv.1 = Some i /\ region_cover i = true).
  { intros [k v] Hin. apply elem_of_map_to_list in Hin. eapply Hcover. exact Hin. }
  revert H. generalize (map_to_list (dst2deps (bi_scope bi))). intros l.
  induction l as [|kv l IH]; intros H; [reflexivity|].
  cbn [foldM]. destruct (H kv (list_elem_of_here _ _)) as (i & Hi & Hr).
  erewrite bind_Ok; cycle 1.
  { rewrite Hi, Hr. reflexivity. }
  apply IH. intros kv' Hin. apply H. right. exact Hin.
Qed.

Lemma GetNthAccessBuffer_nth {S} (self : ScheduleState) (block : Block) (n : Z)
    (index_type : BufferIndexType) (buffer : Buffer) (st : S) :
  nth_access_is (match index_type with
                 | kWrite => block_writes block
                 | kRead => block_reads block
                 end) n buffer ->
  GetNthAccessBuffer self block n index_type st = (Ok buffer, st).
Proof.
  intros [Hn Hl]. unfold GetNthAccessBuffer.
  set (l := match index_type with kWrite => _ | kRead => _ end) in *.
  destruct (l !! Z.to_nat n) as [r|] eqn:E; [|discriminate].
  cbn in Hl. inversion Hl; subst buffer.
  rewrite bool_decide_eq_true_2.
  - unfold Array_at. rewrite E. reflexivity.
  - apply lookup_lt_Some in E. lia.
Qed.

Section TwoWriters.

Variable GetBlockRealize : ScheduleState -> StmtSRef -> Res Realize.
Variable AnalyzeRegionUpperBound :
  BufferRegion -> PrimExpr -> StmtSRef -> option StmtSRef -> list IntSet.
Variable CheckStorageScope : ScheduleState -> string -> Res unit.
Variable GetScopeRoot : ScheduleState -> StmtSRef -> bool -> Res StmtSRef.
Variable Replace : ScheduleState -> StmtSRef -> Stmt -> list (Block * Block) -> ScheduleState.
Variable IsAffineBinding : Realize -> StmtSRef -> bool.

(** C2 (as amended). Let a buffer have two or more writer blocks in the
    scope of the block.  Once the checks that come first have passed (the
    storage scope, the lookup of the scope root and, for [CacheRead], the
    region-cover check of the scope), [CacheWrite] and [CacheRead] on that
    buffer fail with [NotSingleWriteBlock]; the locations of interest of the
    error are the blocks of the writers, in the order of the writer table; and
    the schedule state is the one the call started from. *)
Theorem two_writers_NotSingleWriteBlock
    (block_sref scope_sref : StmtSRef) (block : Block) (buffer_index : Z)
    (storage_scope : string) (consumer_blocks : list StmtSRef) (w : World)
    (buffer : Buffer) (scope_block : Block) (bi : BlockInfo)
    (writers : list StmtSRef) (blocks : list Block) :
  CheckStorageScope (w_self w) storage_scope = Ok tt ->
  sref_stmt block_sref = BlockStmt block ->
  GetScopeRoot (w_self w) block_sref false = Ok scope_sref ->
  sref_stmt scope_sref = BlockStmt scope_block ->
  block_info (w_self w) !! sref_key scope_sref = Some bi ->
  buffer_writers (bi_scope bi) !! buf_addr buffer = Some writers ->
  1 < length writers ->
  Forall2 (fun r b => sref_stmt r = BlockStmt b) writers blocks ->
  (nth_access_is (block_writes block) buffer_index buffer ->
   exists w',
     CacheWrite GetBlockRealize AnalyzeRegionUpperBound CheckStorageScope GetScopeRoot
                Replace IsAffineBinding block_sref buffer_index storage_scope w
     = (Err (NotSingleWriteBlock (st_mod (w_self w)) buffer blocks), w')
     /\ w_self w' = w_self w)
  /\ (nth_access_is (block_reads block) buffer_index buffer ->
      region_cover_holds (w_self w) (bi_scope bi) ->
      exists w',
        CacheRead GetBlockRealize AnalyzeRegionUpperBound CheckStorageScope GetScopeRoot
                  Replace IsAffineBinding block_sref buffer_index storage_scope
                  consumer_blocks w
        = (Err (NotSingleWriteBlock (st_mod (w_self w)) buffer blocks), w')
        /\ w_self w' = w_self w)
  /\ LocationsOfInterest (NotSingleWriteBlock (st_mod (w_self w)) buffer blocks) = blocks.
Proof.
  intros Hscope Hblock Hroot Hsb Hbi Hw Hlen Hblocks.
  destruct w as [h self]. cbn [w_self] in *.
  split; [|split; [|reflexivity]].
  - intros Hnth. exists (mkWorld (S (S h)) self). split; [|reflexivity].
    unfold CacheWrite. erewrite bind_Err; [reflexivity|].
    unfold CacheWrite_build.
    erewrite bind_Ok by reflexivity. cbn [w_self].
    rewrite Hscope. erewrite bind_Ok by reflexivity.
    erewrite bind_Ok by (unfold TVM_SREF_TO_BLOCK; rewrite Hblock; reflexivity).
    erewrite bind_Ok by (apply GetNthAccessBuffer_nth; exact Hnth).
    rewrite Hroot. erewrite bind_Ok by reflexivity.
    erewrite bind_Ok by reflexivity.
    erewrite bind_Err; [reflexivity|].
    eapply GetOnlyWriteBlock_two_writers; eassumption.
  - intros Hnth Hcover. exists (mkWorld (S (S h)) self). split; [|reflexivity].
    unfold CacheRead. erewrite bind_Err; [reflexivity|].
    unfold CacheRead_build.
    erewrite bind_Ok by reflexivity. cbn [w_self].
    rewrite Hscope. erewrite bind_Ok by reflexivity.
    erewrite bind_Ok by (unfold TVM_SREF_TO_BLOCK; rewrite Hblock; reflexivity).
    erewrite bind_Ok by (apply GetNthAccessBuffer_nth; exact Hnth).
    rewrite Hroot. erewrite bind_Ok by reflexivity.
    erewrite bind_Ok by (eapply CheckRegionCover_passes; eassumption).
    erewrite bind_Ok by (unfold TVM_SREF_TO_BLOCK; rewrite Hsb; reflexivity).
    erewrite bind_Ok by reflexivity.
    erewrite bind_Err; [reflexivity|].
    unfold CacheRead_update_info.
    erewrite bind_Err; [reflexivity|].
    eapply GetOnlyWriteBlock_two_writers; eassumption.
Qed.

End TwoWriters.

Lemma two_writers_NotSingleWriteBlock_witness :
  (exists w',
     CacheWrite Scenario.GetBlockRealize Scenario.AnalyzeRegionUpperBound
                Scenario.CheckStorageScope Scenario.GetScopeRoot Scenario.Replace
                Scenario.IsAffineBinding TwoWriters.C2_sref 0 "local" (TwoWriters.world true)
     = (Err (NotSingleWriteBlock 0 Scenario.B [Scenario.C; TwoWriters.C2]), w')
     /\ w_self w' = TwoWriters.state true)
  /\ (exists w',
        CacheRead Scenario.GetBlockRealize Scenario.AnalyzeRegionUpperBound
                  Scenario.CheckStorageScope Scenario.GetScopeRoot Scenario.Replace
                  Scenario.IsAffineBinding TwoWriters.C2_sref 0 "local" []
                  (TwoWriters.world true)
        = (Err (NotSingleWriteBlock 0 Scenario.B [Scenario.C; TwoWriters.C2]), w')
        /\ w_self w' = TwoWriters.state true)
  /\ LocationsOfInterest (NotSingleWriteBlock 0 Scenario.B [Scenario.C; TwoWriters.C2])
     = [Scenario.C; TwoWriters.C2].
Proof.
  destruct (two_writers_NotSingleWriteBlock
              Scenario.GetBlockRealize Scenario.AnalyzeRegionUpperBound
              Scenario.CheckStorageScope Scenario.GetScopeRoot Scenario.Replace
              Scenario.IsAffineBinding TwoWriters.C2_sref Scenario.root_sref TwoWriters.C2
              0 "local" [] (TwoWriters.world true) Scenario.B Scenario.root
              (mkBlockInfo TwoWriters.root_scope true true)
              [Scenario.C_sref; TwoWriters.C2_sref] [Scenario.C; TwoWriters.C2])
    as (HW & HR & HL).
  - reflexivity.
  - reflexivity.
  - reflexivity.
  - reflexivity.
  - reflexivity.
  - reflexivity.
  - cbn. lia.
  - repeat constructor.
  - split; [apply HW; split; [lia|reflexivity]|].
    split; [|exact HL].
    apply HR; [split; [lia|reflexivity]|].
    intros consumer deps H. cbn in H.
    apply lookup_singleton_Some in H as [<- _].
    eexists. split; reflexivity.
Defined.

(** C2, the claim as stated, fails for [CacheRead]: in a scope where two
    blocks write [B] and the consumer [D] of [B] has no region cover,
    [CacheRead] on the read of [B] by [D] stops at the region-cover check
    that precedes the writer lookup, and the error is the one of that check,
    raised on the scope root. *)
Lemma CacheRead_two_writers_region_cover :
  exists w',
    CacheRead Scenario.GetBlockRealize Scenario.AnalyzeRegionUpperBound
              Scenario.CheckStorageScope Scenario.GetScopeRoot Scenario.Replace
              Scenario.IsAffineBinding Scenario.D_sref 0 "shared" [] (TwoWriters.world false)
    = (Err (NotRegionCoverError 0 Scenario.root), w')
    /\ nth_access_is (block_reads Scenario.D) 0 Scenario.B
    /\ buffer_writers TwoWriters.root_scope !! buf_addr Scenario.B
       = Some [Scenario.C_sref; TwoWriters.C2_sref]
    /\ (forall mod_ buffer blocks,
          NotRegionCoverError 0 Scenario.root <> NotSingleWriteBlock mod_ buffer blocks).
Proof.
  eexists. split; [vm_compute; reflexivity|].
  split; [split; [lia|reflexivity]|].
  split; [reflexivity|]. discriminate.
Qed.

(** ** Region relaxation *)

Lemma mapM_inv {S A B} (f : A -> M S B) (l : list A) :
  forall (st st' : S) (r : list B),
    mapM f l st = (Ok r, st') ->
    Forall2 (fun x y => exists s s', f x s = (Ok y, s')) l r.
Proof.
  induction l as [|x l IH]; intros st st' r H.
  - cbn in H. inversion H. constructor.
  - cbn [mapM] in H. apply bind_inv in H as (y & s1 & Hx & H).
    apply bind_inv in H as (ys & s2 & Hl & H). inversion H; subst.
    constructor; [eauto | eapply IH; exact Hl].
Qed.

(** What the range cut out of an interval contains. *)
Lemma CoverRange_spec (s : IntSet) (max_range : Range) env x :
  in_range env (CoverRange s max_range) x
  <-> in_int_set env s x /\ in_range env max_range x.
Proof.
  unfold CoverRange, in_range, in_int_set, FromMinExtent.
  destruct s as [[lo|] [hi|]]; cbn; lia.
Qed.

(** The region [RelaxBufferRegion] returns, dimension by dimension. *)
Lemma RelaxBufferRegion_inv {S}
    (GetBlockRealize : ScheduleState -> StmtSRef -> Res Realize)
    (AnalyzeRegionUpperBound :
       BufferRegion -> PrimExpr -> StmtSRef -> option StmtSRef -> list IntSet)
    (self : ScheduleState) (buffer_region : BufferRegion) (block_sref low : StmtSRef)
    (high : option StmtSRef) (st st' : S) (result : BufferRegion) :
  RelaxBufferRegion GetBlockRealize AnalyzeRegionUpperBound self buffer_region
                    block_sref low high st = (Ok result, st') ->
  exists realize binding,
    GetBlockRealize self block_sref = Ok realize
    /\ GetBindings realize st = (Ok binding, st)
    /\ br_buffer result = br_buffer buffer_region
    /\ let int_sets :=
         AnalyzeRegionUpperBound
           (mkBufferRegion (br_buffer buffer_region)
                           (Substitute_region binding (br_region buffer_region)))
           (rl_predicate realize) low high in
       length int_sets = length (br_region buffer_region)
       /\ Forall2 (fun '(i, int_set) range =>
                     exists dim, buf_shape (br_buffer buffer_region) !! i = Some dim
                                 /\ range = CoverRange int_set
                                                       (FromMinExtent (IntImm (DInt 32) 0) dim))
                  (enumerate int_sets) (br_region result).
Proof.
  unfold RelaxBufferRegion. intros H.
  apply bind_inv in H as (realize & s1 & Hr & H). apply lift_res_inv in Hr as [Hr ->].
  apply bind_inv in H as (binding & s2 & Hb & H).
  assert (s2 = st) as ->.
  { unfold GetBindings in Hb. apply bind_inv in Hb as (u & s3 & Hc & Hb).
    apply ICHECK_inv in Hc as [_ ->]. inversion Hb. reflexivity. }
  apply bind_inv in H as (u & s3 & Hc & H). apply ICHECK_inv in Hc as [Hlen ->].
  apply bind_inv in H as (region & s4 & Hm & H). inversion H; subst. clear H.
  exists realize, binding. split; [exact Hr|]. split; [exact Hb|]. split; [reflexivity|].
  cbn zeta. split; [apply Nat.eqb_eq in Hlen; lia|].
  apply mapM_inv in Hm. cbn [br_region].
  eapply Forall2_impl; [exact Hm|].
  intros [i int_set] range (s & s' & Hf). cbn beta iota in Hf.
  apply bind_inv in Hf as (dim & s5 & Hd & Hf). inversion Hf; subst.
  exists dim. split; [|reflexivity].
  unfold Array_at in Hd. destruct (buf_shape (br_buffer buffer_region) !! i); inversion Hd.
  reflexivity.
Qed.

(** C5. The region [RelaxBufferRegion] returns is a region of the same
    buffer with one range per range of the region it was given, and whatever
    the bound analysis answered, the range of every dimension [i] lies inside
    [0, shape[i]): every value of the range, under every valuation of the
    variables, is at least 0 and less than the extent of the buffer in that
    dimension. *)
Theorem RelaxBufferRegion_within_buffer {S}
    (GetBlockRealize : ScheduleState -> StmtSRef -> Res Realize)
    (AnalyzeRegionUpperBound :
       BufferRegion -> PrimExpr -> StmtSRef -> option StmtSRef -> list IntSet)
    (self : ScheduleState) (buffer_region : BufferRegion) (block_sref low : StmtSRef)
    (high : option StmtSRef) (st st' : S) (result : BufferRegion) :
  RelaxBufferRegion GetBlockRealize AnalyzeRegionUpperBound self buffer_region
                    block_sref low high st = (Ok result, st') ->
  br_buffer result = br_buffer buffer_region
  /\ length (br_region result) = length (br_region buffer_region)
  /\ forall i range,
      br_region result !! i = Some range ->
      exists dim,
        buf_shape (br_buffer buffer_region) !! i = Some dim
        /\ forall env x, in_range env range x -> (0 ≤ x < eval env dim)%Z.
Proof.
  intros H. apply RelaxBufferRegion_inv in H as (realize & binding & _ & _ & Hb & Hlen & HF).
  cbn zeta in Hlen, HF. split; [exact Hb|]. split.
  { apply Forall2_length in HF. unfold enumerate in HF.
    rewrite length_zip_with, length_seq in HF. lia. }
  intros i range Hi.
  destruct (Forall2_lookup_r _ _ _ _ _ HF Hi) as ([j int_set] & Hj & dim & Hd & ->).
  assert (j = i) as ->.
  { unfold enumerate in Hj. apply lookup_zip_with_Some in Hj as (a & b & Heq & Ha & _).
    inversion Heq; subst. apply lookup_seq in Ha as [-> _]. reflexivity. }
  exists dim. split; [exact Hd|].
  intros env x Hx. apply CoverRange_spec in Hx as [_ Hx].
  unfold in_range in Hx. cbn in Hx. lia.
Qed.

Lemma mapM_pure {S A B} (f : A -> M S B) (g : A -> B) (l : list A) (st : S) :
  (forall x, x ∈ l -> f x st = (Ok (g x), st)) ->
  mapM f l st = (Ok (map g l), st).
Proof.
  induction l as [|x l IH]; intros H; [reflexivity|].
  cbn [mapM map]. erewrite bind_Ok by (apply H; left).
  erewrite bind_Ok by (apply IH; intros y Hy; apply H; right; exact Hy).
  reflexivity.
Qed.

(** [RelaxBufferRegion] returns a region whenever the block is found with as
    many bindings as iteration variables, the analysis answers with one
    interval per range, and the buffer has a dimension for each of them. *)
Lemma RelaxBufferRegion_returns {S}
    (GetBlockRealize : ScheduleState -> StmtSRef -> Res Realize)
    (AnalyzeRegionUpperBound :
       BufferRegion -> PrimExpr -> StmtSRef -> option StmtSRef -> list IntSet)
    (self : ScheduleState) (buffer_region : BufferRegion) (block_sref low : StmtSRef)
    (high : option StmtSRef) (st : S) (realize : Realize) :
  GetBlockRealize self block_sref = Ok realize ->
  length (block_iter_vars (rl_block realize)) = length (rl_iter_values realize) ->
  (forall region, length (AnalyzeRegionUpperBound region (rl_predicate realize) low high)
                  = length (br_region region)) ->
  length (br_region buffer_region) <= length (buf_shape (br_buffer buffer_region)) ->
  exists result,
    RelaxBufferRegion GetBlockRealize AnalyzeRegionUpperBound self buffer_region
                      block_sref low high st = (Ok result, st).
Proof.
  intros Hr Hiv Hsets Hshape. unfold RelaxBufferRegion. rewrite Hr.
  erewrite bind_Ok by reflexivity.
  erewrite bind_Ok; cycle 1.
  { unfold GetBindings. erewrite bind_Ok; [reflexivity|].
    unfold ICHECK. rewrite (proj2 (Nat.eqb_eq _ _) Hiv). reflexivity. }
  set (binding := foldl _ _ _).
  set (int_sets := AnalyzeRegionUpperBound _ _ _ _).
  assert (Hlen : length int_sets = length (br_region buffer_region)).
  { unfold int_sets. rewrite Hsets. cbn. unfold Substitute_region. apply length_map. }
  erewrite bind_Ok; cycle 1.
  { unfold ICHECK. rewrite (proj2 (Nat.eqb_eq _ _) (eq_sym Hlen)). reflexivity. }
  eexists. erewrite bind_Ok; [reflexivity|].
  apply (mapM_pure _ (fun '(i, int_set) =>
                        CoverRange int_set
                          (FromMinExtent (IntImm (DInt 32) 0)
                             (default (IntImm (DInt 32) 0)
                                      (buf_shape (br_buffer buffer_region) !! i))))).
  intros [i s] Hin. apply elem_of_enumerate in Hin.
  apply lookup_lt_Some in Hin.
  destruct (lookup_lt_is_Some_2 (buf_shape (br_buffer buffer_region)) i ltac:(lia)) as [d Hd].
  unfold Array_at. rewrite Hd. reflexivity.
Qed.

Lemma RelaxBufferRegion_within_buffer_witness :
  exists result,
    RelaxBufferRegion Scenario.GetBlockRealize Scenario.AnalyzeRegionUpperBound Scenario.state
                      (FromPoint Scenario.B [EVar Scenario.vi_C])
                      Scenario.C_sref Scenario.loop_sref (Some Scenario.root_sref)
                      Scenario.world
    = (Ok result, Scenario.world)
    /\ br_buffer result = Scenario.B
    /\ length (br_region result) = 1
    /\ forall i range,
        br_region result !! i = Some range ->
        exists dim,
          buf_shape Scenario.B !! i = Some dim
          /\ forall env x, in_range env range x -> (0 ≤ x < eval env dim)%Z.
Proof.
  eexists. split; [vm_compute; reflexivity|].
  eapply (RelaxBufferRegion_within_buffer
            Scenario.GetBlockRealize Scenario.AnalyzeRegionUpperBound Scenario.state
            (FromPoint Scenario.B [EVar Scenario.vi_C])
            Scenario.C_sref Scenario.loop_sref (Some Scenario.root_sref)
            Scenario.world Scenario.world).
  vm_compute. reflexivity.
Defined.

(** ** CacheRead of an input buffer *)

Lemma GetOnlyWriteBlock_no_writer {S} (self : ScheduleState) (scope_sref : StmtSRef)
    (buffer : Buffer) (bi : BlockInfo) (st : S) :
  block_info self !! sref_key scope_sref = Some bi ->
  buffer_writers (bi_scope bi) !! buf_addr buffer = None ->
  GetOnlyWriteBlock self scope_sref buffer st = (Ok None, st).
Proof.
  intros Hbi Hw. unfold GetOnlyWriteBlock, GetBlockScope, block_info_at.
  rewrite Hbi. erewrite bind_Ok by reflexivity. rewrite Hw. reflexivity.
Qed.

(** What [GetBufferRegionFromBuffer] has found when it returns: the one
    region of the buffer in the list, or nothing when the list has none. *)
Lemma GetBufferRegionFromBuffer_finds (buffer_regions : list BufferRegion) (buffer : Buffer) :
  match GetBufferRegionFromBuffer buffer_regions buffer with
  | Ok (Some region) => regions_of buffer buffer_regions = [region]
  | Ok None => regions_of buffer buffer_regions = []
  | Err _ => True
  end.
Proof.
  unfold GetBufferRegionFromBuffer, regions_of.
  induction buffer_regions as [|r l IH] using rev_ind; [reflexivity|].
  rewrite foldl_app, filter_app. cbn [foldl]. rewrite filter_cons, filter_nil.
  destruct (foldl _ (Ok None) l) as [[found|]|e]; [| |exact I].
  - destruct (buffer_same_as (br_buffer r) buffer) eqn:E; [exact I|].
    rewrite decide_False by discriminate. rewrite IH. reflexivity.
  - destruct (buffer_same_as (br_buffer r) buffer) eqn:E; cbn.
    + rewrite decide_True by reflexivity. rewrite IH. reflexivity.
    + rewrite decide_False by discriminate. rewrite IH. reflexivity.
Qed.

(** Step 3 of [CacheRead] when the scope has no writer of the buffer. *)
Lemma CacheRead_update_info_no_writer
    (GetBlockRealize : ScheduleState -> StmtSRef -> Res Realize)
    (AnalyzeRegionUpperBound :
       BufferRegion -> PrimExpr -> StmtSRef -> option StmtSRef -> list IntSet)
    (self : ScheduleState) (scope_sref : StmtSRef) (scope_block : Block)
    (read_buffer : Buffer) (info : CacheStageInfo) (bi : BlockInfo) (w : World) :
  block_info self !! sref_key scope_sref = Some bi ->
  buffer_writers (bi_scope bi) !! buf_addr read_buffer = None ->
  CacheRead_update_info GetBlockRealize AnalyzeRegionUpperBound self scope_sref scope_block
                        read_buffer info w
  = match GetBufferRegionFromBuffer (block_reads scope_block) read_buffer with
    | Ok (Some region) => (Ok (set_loc (Some scope_sref) 0 info, region), w)
    | Ok None => (Ok (set_loc (Some scope_sref) 0 info, FullRegion read_buffer), w)
    | Err e => (Err e, w)
    end.
Proof.
  intros Hbi Hw. unfold CacheRead_update_info.
  erewrite bind_Ok by (eapply GetOnlyWriteBlock_no_writer; eassumption).
  destruct (GetBufferRegionFromBuffer (block_reads scope_block) read_buffer)
    as [[region|]|e]; reflexivity.
Qed.

(** ** Induction on statements and blocks *)

Section Stmt_Block_ind.

Variable P : Stmt -> Prop.
Variable Q : Block -> Prop.

Hypothesis H_BufferStore : forall b v i, P (BufferStore b v i).
Hypothesis H_Evaluate : forall v, P (Evaluate v).
Hypothesis H_SeqStmt : forall seq, Forall P seq -> P (SeqStmt seq).
Hypothesis H_IfThenElse :
  forall c t e, P t -> match e with Some e' => P e' | None => True end ->
                P (IfThenElse c t e).
Hypothesis H_For : forall a v mn ext k body, P body -> P (For a v mn ext k body).
Hypothesis H_BlockRealize : forall vals pred b, Q b -> P (BlockRealize vals pred b).
Hypothesis H_BlockStmt : forall b, Q b -> P (BlockStmt b).
Hypothesis H_Block :
  forall a ivs rs ws n body init al mb,
    P body -> match init with Some i => P i | None => True end ->
    Q (mkBlock a ivs rs ws n body init al mb).

Fixpoint Stmt_ind_nested (s : Stmt) : P s :=
  match s with
  | BufferStore b v i => H_BufferStore b v i
  | Evaluate v => H_Evaluate v
  | SeqStmt seq =>
      H_SeqStmt seq
        ((fix all (l : list Stmt) : Forall P l :=
            match l with
            | [] => @List.Forall_nil _ P
            | x :: r => @List.Forall_cons _ P x r (Stmt_ind_nested x) (all r)
            end) seq)
  | IfThenElse c t e =>
      H_IfThenElse c t e (Stmt_ind_nested t)
        (match e return match e with Some e' => P e' | None => True end with
         | Some x => Stmt_ind_nested x
         | None => I
         end)
  | For a v mn ext k body => H_For a v mn ext k body (Stmt_ind_nested body)
  | BlockRealize vals pred b => H_BlockRealize vals pred b (Block_ind_nested b)
  | BlockStmt b => H_BlockStmt b (Block_ind_nested b)
  end
with Block_ind_nested (b : Block) : Q b :=
  match b with
  | mkBlock a ivs rs ws n body init al mb =>
      H_Block a ivs rs ws n body init al mb (Stmt_ind_nested body)
        (match init return match init with Some i => P i | None => True end with
         | Some x => Stmt_ind_nested x
         | None => I
         end)
  end.

Lemma Stmt_Block_ind : (forall s, P s) /\ (forall b, Q b).
Proof. split; [exact Stmt_ind_nested | exact Block_ind_nested]. Qed.

End Stmt_Block_ind.

(** ** Stepping through a rewriter *)

Lemma rw_alloc_inv (st st' : RewriterState) a :
  rw_alloc st = (Ok a, st') ->
  rw_info st' = rw_info st /\ rw_flag st' = rw_flag st.
Proof. unfold rw_alloc, zoom. cbn. intros H. inversion H. auto. Qed.

Ltac minv H :=
  cbv beta iota in H;
  lazymatch type of H with
  | bind _ _ _ = (Ok _, _) =>
      let a := fresh "a" in
      let s := fresh "s" in
      let H1 := fresh "H" in
      apply bind_inv in H as (a & s & H1 & H); minv H1; minv H
  | ret _ _ = (Ok _, _) => unfold ret in H; inversion H; subst; clear H
  | throw _ _ = (Ok _, _) => discriminate H
  | get _ = (Ok _, _) => unfold get in H; inversion H; subst; clear H
  | put _ _ = (Ok _, _) => unfold put in H; inversion H; subst; clear H
  | modify _ _ = (Ok _, _) => unfold modify in H; inversion H; subst; clear H
  | rw_expr _ _ = (Ok _, _) => unfold rw_expr in H; minv H
  | lift_res _ _ = (Ok _, _) => apply lift_res_inv in H as [H ->]
  | ICHECK _ _ _ = (Ok _, _) => apply ICHECK_inv in H as [H ->]
  | (let '(_, _) := ?x in _) _ = (Ok _, _) =>
      let E := fresh "E" in destruct x eqn:E; minv H
  | (if ?c then _ else _) _ = (Ok _, _) =>
      let E := fresh "E" in destruct c eqn:E; try discriminate E; minv H
  | (match ?x with Some _ => _ | None => _ end) _ = (Ok _, _) =>
      let E := fresh "E" in destruct x eqn:E; minv H
  | _ => idtac
  end.

(** ** What the rewriters leave alone *)

Lemma InsertCacheStage_inv {S} (body : Stmt) (pos : Z) (stage body' : Stmt) (st st' : S) :
  InsertCacheStage body pos stage st = (Ok body', st') ->
  st' = st
  /\ (forall B, B ∈ blocks_of body -> B ∈ blocks_of body')
  /\ (pos = 0%Z -> body' = SeqStmt (stage :: body_children body)).
Proof.
  unfold InsertCacheStage. intros H.
  assert (Hgen : forall s, (forall l, s <> SeqStmt l) ->
            (if (pos =? 0)%Z then ret (SeqStmt [stage; s])
             else ICHECK (pos =? 1)%Z "pos == 1" ;;; ret (SeqStmt [s; stage])) st
            = (Ok body', st') ->
            st' = st /\ (forall B, B ∈ blocks_of s -> B ∈ blocks_of body')
            /\ (pos = 0%Z -> body' = SeqStmt [stage; s])).
  { intros s Hs H'. destruct (pos =? 0)%Z eqn:E.
    - inversion H'; subst. split; [reflexivity|]. split; [|reflexivity].
      intros B HB. cbn. rewrite app_nil_r. apply elem_of_app. right. exact HB.
    - minv H'. split; [reflexivity|]. split; [|intros ->; discriminate].
      intros B HB. cbn. apply elem_of_app. left. exact HB. }
  destruct body; try (apply Hgen in H; [|discriminate];
                      destruct H as (? & ? & ?); repeat split; auto; fail).
  clear Hgen. minv H. unfold seq_insert in H0.
  destruct (bool_decide _) eqn:E in H0; minv H0.
  split; [reflexivity|]. split.
  - intros B HB. cbn in *. rewrite <- (take_drop (Z.to_nat pos) seq) in HB.
    rewrite map_app, concat_app in HB. rewrite map_app, concat_app. cbn.
    apply elem_of_app in HB as [HB|HB]; apply elem_of_app; [left; exact HB|right].
    apply elem_of_app. right. exact HB.
  - intros ->. reflexivity.
Qed.

Lemma copy_block_inv (b : Block) (f : Block -> Block) (st st' : RewriterState) (n : Block) :
  copy_block b f st = (Ok n, st') ->
  rw_info st' = rw_info st /\ rw_flag st' = rw_flag st
  /\ exists a, n = with_addr a (f b).
Proof.
  unfold copy_block. intros H. minv H. apply rw_alloc_inv in H0 as [Hi Hf]. eauto.
Qed.

Lemma rebuild_block_inv (old : Block) ivs rs ws mbs init body changed
    (st st' : RewriterState) (r : Block * bool) :
  rebuild_block old ivs rs ws mbs init body changed st = (Ok r, st') ->
  rw_info st' = rw_info st /\ rw_flag st' = rw_flag st
  /\ (r = (old, false)
      \/ exists a, r = (mkBlock a ivs rs ws (block_name_hint old) body init
                                (block_alloc_buffers old) mbs, true)).
Proof.
  unfold rebuild_block. intros H. destruct changed; minv H.
  - apply rw_alloc_inv in H0 as [Hi Hf]. eauto.
  - auto.
Qed.

Lemma record_block_reuse_inv (old new : Block) (st st' : RewriterState) u :
  record_block_reuse old new st = (Ok u, st') ->
  plan_of (rw_info st') = plan_of (rw_info st) /\ rw_flag st' = rw_flag st.
Proof. unfold record_block_reuse. intros H. minv H. split; reflexivity. Qed.

Lemma info_loc_stmt_inv {S} (info : CacheStageInfo) (st st' : S) p :
  info_loc_stmt info st = (Ok p, st') ->
  st' = st /\ exists r, loc_sref info = Some r /\ p = stmt_ptr (sref_stmt r).
Proof.
  unfold info_loc_stmt. destruct (loc_sref info); intros H; minv H. eauto.
Qed.

Lemma info_cache_stage_inv {S} (info : CacheStageInfo) (st st' : S) s :
  info_cache_stage info st = (Ok s, st') -> st' = st /\ cache_stage info = Some s.
Proof.
  unfold info_cache_stage. destruct (cache_stage info); intros H; minv H. eauto.
Qed.

Ltac prim_inv :=
  repeat match goal with
    | H : info_loc_stmt _ _ = (Ok _, _) |- _ =>
        apply info_loc_stmt_inv in H as (-> & ? & ? & ->)
    | H : info_cache_stage _ _ = (Ok _, _) |- _ =>
        apply info_cache_stage_inv in H as [-> ?]
    | H : rw_alloc _ = (Ok _, _) |- _ =>
        apply rw_alloc_inv in H as [? ?]
    | H : copy_block _ _ _ = (Ok _, _) |- _ =>
        apply copy_block_inv in H as (? & ? & ? & ->)
    | H : record_block_reuse _ _ _ = (Ok _, _) |- _ =>
        apply record_block_reuse_inv in H as [? ?]
    end.

(** The result of the check of the insertion point on a block: the block
    itself, or a copy with the stage inserted in its body. *)
Lemma insert_into_block_inv (a : addr) (stmt : Block * bool) (st st' : RewriterState)
    (r : Block * bool) :
  insert_into_block a stmt st = (Ok r, st') ->
  rw_info st' = rw_info st /\ rw_flag st' = rw_flag st
  /\ exists loc, loc_sref (rw_info st) = Some loc
     /\ ((ptr_eqb (PtrBlock a) (stmt_ptr (sref_stmt loc)) = false /\ r = stmt)
         \/ (ptr_eqb (PtrBlock a) (stmt_ptr (sref_stmt loc)) = true
             /\ exists stage body' a' (s0 : RewriterState),
                 cache_stage (rw_info st) = Some stage
                 /\ InsertCacheStage (block_body stmt.1) (to_int (loc_pos (rw_info st)))
                                     stage s0 = (Ok body', s0)
                 /\ r = (with_addr a' (with_body body' stmt.1), true))).
Proof.
  unfold insert_into_block. intros H. minv H; prim_inv.
  - match goal with
    | HI : InsertCacheStage _ _ _ _ = _ |- _ =>
        pose proof (InsertCacheStage_inv _ _ _ _ _ _ HI) as (-> & _)
    end.
    split; [assumption|]. split; [assumption|]. eexists. split; [eassumption|]. right.
    split; [assumption|]. eauto 10.
  - split; [reflexivity|]. split; [reflexivity|]. eexists. split; [eassumption|].
    left. auto.
Qed.

Lemma insert_into_loop_inv (a : addr) (stmt : Stmt * bool) (st st' : RewriterState)
    (r : Stmt * bool) :
  insert_into_loop a stmt st = (Ok r, st') ->
  rw_info st' = rw_info st /\ rw_flag st' = rw_flag st
  /\ (r = stmt
      \/ exists stage a0 v mn ext kind body body' a' (s0 : RewriterState),
          stmt.1 = For a0 v mn ext kind body
          /\ cache_stage (rw_info st) = Some stage
          /\ InsertCacheStage body (to_int (loc_pos (rw_info st))) stage s0 = (Ok body', s0)
          /\ r = (For a' v mn ext kind body', true)).
Proof.
  unfold insert_into_loop. intros H. minv H; prim_inv; [|auto].
  destruct stmt as [[] c]; cbn [fst] in H; minv H. prim_inv.
  match goal with
  | HI : InsertCacheStage _ _ _ _ = _ |- _ =>
      pose proof (InsertCacheStage_inv _ _ _ _ _ _ HI) as (-> & _)
  end.
  split; [assumption|]. split; [assumption|]. right.
  eexists _, _, _, _, _, _, _, _, _, _. split; [reflexivity|].
  split; [eassumption|]. split; [eassumption|reflexivity].
Qed.

Lemma foldM_stateless {S A B} (f : B -> A -> M S B) (l : list A) :
  (forall acc x s r s', f acc x s = (Ok r, s') -> s' = s) ->
  forall acc s r s', foldM f l acc s = (Ok r, s') -> s' = s.
Proof.
  intros Hf. induction l as [|x l IH]; intros acc s r s' H.
  - cbn in H. inversion H. reflexivity.
  - cbn [foldM] in H. apply bind_inv in H as (acc' & s1 & H1 & H).
    apply Hf in H1. subst s1. eapply IH. exact H.
Qed.

Lemma CacheRead_is_consumer_inv {S} (info : CacheStageInfo) (b : Block) (st st' : S) c :
  CacheRead_is_consumer info b st = (Ok c, st') -> st' = st.
Proof.
  unfold CacheRead_is_consumer. apply foldM_stateless.
  intros acc x s r s' H. minv H. unfold TVM_SREF_TO_BLOCK in H0.
  destruct (sref_stmt x); minv H0. reflexivity.
Qed.

Lemma elem_of_blocks_of_seq (B : Block) (seq : list Stmt) :
  B ∈ blocks_of (SeqStmt seq) <-> exists s, s ∈ seq /\ B ∈ blocks_of s.
Proof.
  cbn [blocks_of]. induction seq as [|x seq IH]; cbn.
  - split; [intros H; inversion H|]. intros (s & Hs & _). inversion Hs.
  - rewrite elem_of_app, IH. split.
    + intros [H|(s & Hs & H)]; [exists x; split; [left|exact H]|].
      exists s. split; [right; exact Hs|exact H].
    + intros (s & Hs & H). apply elem_of_cons in Hs as [->|Hs]; [left; exact H|].
      right. eauto.
Qed.

(** Visiting the children of a sequence, one after the other. *)
Lemma mapM_Forall_inv {S A B} (f : A -> M S B) (R : S -> S -> Prop)
    (G : A -> B -> S -> Prop) (l : list A) :
  (forall s, R s s) ->
  (forall s1 s2 s3, R s1 s2 -> R s2 s3 -> R s1 s3) ->
  Forall (fun x => forall s y s', f x s = (Ok y, s') -> R s s' /\ G x y s) l ->
  forall s ys s', mapM f l s = (Ok ys, s') ->
    R s s' /\ Forall2 (fun x y => exists s0, R s s0 /\ G x y s0) l ys.
Proof.
  intros Hrefl Htrans HF. induction HF as [|x l Hx _ IH]; intros s ys s' H.
  - cbn in H. inversion H; subst. split; [apply Hrefl|constructor].
  - cbn [mapM] in H. apply bind_inv in H as (y & s1 & H1 & H).
    apply bind_inv in H as (ys' & s2 & H2 & H). inversion H; subst. clear H.
    apply Hx in H1 as [HR HG]. apply IH in H2 as [HR2 HF2].
    split; [eapply Htrans; eassumption|].
    constructor; [exists s; split; [apply Hrefl|exact HG]|].
    eapply Forall2_impl; [exact HF2|]. intros a b (s0 & HR0 & HG0).
    exists s0. split; [eapply Htrans; eassumption|exact HG0].
Qed.

Lemma plan_of_read_buffer (i j : CacheStageInfo) :
  plan_of i = plan_of j -> read_buffer i = read_buffer j.
Proof. unfold plan_of. intros H. inversion H. reflexivity. Qed.

Lemma elem_of_blocks_of_map_fst (B : Block) (seq : list Stmt) (seq' : list (Stmt * bool))
    (G : Stmt -> Stmt * bool -> Prop) :
  Forall2 G seq seq' ->
  (forall x y, G x y -> B ∈ blocks_of x -> B ∈ blocks_of y.1) ->
  B ∈ blocks_of (SeqStmt seq) -> B ∈ blocks_of (SeqStmt (map fst seq')).
Proof.
  intros HF HG HB. apply elem_of_blocks_of_seq in HB as (x & Hx & HB).
  apply list_elem_of_lookup in Hx as [i Hi].
  destruct (Forall2_lookup_l _ _ _ _ _ HF Hi) as (y & Hy & Hxy).
  apply elem_of_blocks_of_seq. exists y.1. split.
  - apply list_elem_of_lookup. exists i. rewrite list_lookup_fmap, Hy. reflexivity.
  - eapply HG; eassumption.
Qed.

Lemma blocks_of_block_eq (b : Block) : blocks_of_block b = b :: child_blocks b.
Proof. destruct b. reflexivity. Qed.

Lemma rebuild_block_children (old : Block) ivs rs ws mbs init body changed
    (st st' : RewriterState) (r : Block * bool) :
  rebuild_block old ivs rs ws mbs init body changed st = (Ok r, st') ->
  rw_info st' = rw_info st /\ rw_flag st' = rw_flag st
  /\ forall B, B ∈ child_blocks old ->
               (B ∈ match init with Some i => blocks_of i | None => [] end ++ blocks_of body) ->
               B ∈ child_blocks r.1.
Proof.
  intros H. apply rebuild_block_inv in H as (Hi & Hf & [->|(a & ->)]);
    (split; [exact Hi|]); (split; [exact Hf|]); intros B H1 H2; [exact H1|exact H2].
Qed.

Lemma insert_into_block_children (a : addr) (stmt : Block * bool) (st st' : RewriterState)
    (r : Block * bool) :
  insert_into_block a stmt st = (Ok r, st') ->
  rw_info st' = rw_info st /\ rw_flag st' = rw_flag st
  /\ forall B, B ∈ child_blocks stmt.1 -> B ∈ child_blocks r.1.
Proof.
  intros H. apply insert_into_block_inv in H
    as (Hi & Hf & loc & Hloc & [[_ ->]|(_ & stage & body' & a' & s0 & Hs & Hins & ->)]);
    (split; [exact Hi|]); (split; [exact Hf|]); intros B HB; [exact HB|].
  apply InsertCacheStage_inv in Hins as (_ & Hins & _).
  unfold child_blocks in *. cbn [fst block_init block_body with_addr with_body] in *.
  apply elem_of_app in HB as [HB|HB]; apply elem_of_app; [left; exact HB|right; auto].
Qed.

Lemma copy_block_children (b : Block) (f : Block -> Block) (st st' : RewriterState)
    (n : Block) :
  block_init (f b) = block_init b -> block_body (f b) = block_body b ->
  copy_block b f st = (Ok n, st') ->
  rw_info st' = rw_info st /\ rw_flag st' = rw_flag st
  /\ child_blocks n = child_blocks b.
Proof.
  intros H1 H2 H. apply copy_block_inv in H as (Hi & Hf & a & ->).
  split; [exact Hi|]. split; [exact Hf|].
  unfold child_blocks. cbn [with_addr block_init block_body]. rewrite H1, H2. reflexivity.
Qed.

Section CacheRead_frame.

Variable scope_sref : StmtSRef.

Ltac use_IH :=
  repeat match goal with
    | IH : forall st r st', CacheRead_VisitStmt _ ?t st = (Ok r, st') -> _,
      H : CacheRead_VisitStmt _ ?t _ = (Ok _, _) |- _ =>
        apply IH in H as [? ?]
    | IH : forall st r st', CacheRead_VisitBlock _ ?t st = (Ok r, st') -> _,
      H : CacheRead_VisitBlock _ ?t _ = (Ok _, _) |- _ =>
        apply IH in H as [? ?]
    end.

Ltac plan_eqs :=
  repeat match goal with
    | H : plan_of (rw_info ?x) = plan_of (rw_info ?y) |- _ =>
        lazymatch goal with
        | _ : read_buffer (rw_info x) = read_buffer (rw_info y) |- _ => fail
        | _ => pose proof (plan_of_read_buffer _ _ H)
        end
    end.

Lemma CacheRead_rewriter_frame :
  (forall s st r st',
      CacheRead_VisitStmt scope_sref s st = (Ok r, st') ->
      plan_of (rw_info st') = plan_of (rw_info st)
      /\ forall B, B ∈ blocks_of s ->
                   is_producer scope_sref (read_buffer (rw_info st)) B ->
                   B ∈ blocks_of r.1)
  /\ (forall b st r st',
         CacheRead_VisitBlock scope_sref b st = (Ok r, st') ->
         plan_of (rw_info st') = plan_of (rw_info st)
         /\ forall B, B ∈ blocks_of_block b ->
                      is_producer scope_sref (read_buffer (rw_info st)) B ->
                      B ∈ blocks_of_block r.1).
Proof.
  apply Stmt_Block_ind.
  - (* BufferStore *)
    intros b v i st r st' H. cbn in H. minv H.
    split; [reflexivity|]. intros B HB. inversion HB.
  - (* Evaluate *)
    intros v st r st' H. cbn in H. minv H.
    split; [reflexivity|]. intros B HB. inversion HB.
  - (* SeqStmt *)
    intros seq IH st r st' H. cbn [CacheRead_VisitStmt] in H.
    apply bind_inv in H as (seq' & s1 & Hm & H). minv H.
    eapply (mapM_Forall_inv _
              (fun s s' => plan_of (rw_info s') = plan_of (rw_info s))
              (fun x y s0 => forall B, B ∈ blocks_of x ->
                                       is_producer scope_sref (read_buffer (rw_info s0)) B ->
                                       B ∈ blocks_of y.1)) in Hm as [HR HF];
      [| reflexivity | intros; congruence | exact IH].
    split; [exact HR|]. intros B HB HP.
    destruct (existsb snd seq'); cbn [fst]; [|exact HB].
    eapply elem_of_blocks_of_map_fst; [exact HF| |exact HB].
    intros x y (s0 & HR0 & HG) Hx. apply HG; [exact Hx|].
    rewrite (plan_of_read_buffer _ _ HR0). exact HP.
  - (* IfThenElse *)
    intros c t e IHt IHe st r st' H. cbn [CacheRead_VisitStmt] in H.
    minv H; use_IH; plan_eqs.
    + split; [congruence|]. intros B HB HP.
      destruct (_ || _ || _); cbn [fst]; [|exact HB].
      cbn [blocks_of] in *. apply elem_of_app in HB as [HB|HB]; apply elem_of_app.
      * left. eauto.
      * right. match goal with Hi : forall B, B ∈ blocks_of s3 -> _ |- _ =>
                                 apply Hi; [exact HB|congruence] end.
    + split; [congruence|]. intros B HB HP.
      destruct (_ || _ || _); cbn [fst]; [|exact HB].
      cbn [blocks_of] in *. rewrite app_nil_r in *. eauto.
  - (* For *)
    intros a v mn ext k body IH st r st' H. cbn [CacheRead_VisitStmt] in H.
    minv H; use_IH; prim_inv;
      match goal with
      | HI : insert_into_loop _ _ _ = _ |- _ =>
          apply insert_into_loop_inv in HI
            as (Hi & Hf & [-> | (stage & a0 & v' & mn' & ext' & kind' & body0 & body'
                                 & a' & s0' & Hstmt & Hstage & Hins & ->)])
      end;
      try (cbn [fst] in Hstmt; inversion Hstmt; subst;
           apply InsertCacheStage_inv in Hins as (_ & Hins & _));
      (split; [unfold plan_of in *; congruence|]);
      intros B HB HP; cbn [fst blocks_of] in *; eauto.
  - (* BlockRealize *)
    intros vals pred b IH st r st' H. cbn [CacheRead_VisitStmt] in H.
    minv H; use_IH.
    split; [congruence|]. intros B HB HP.
    destruct (_ || _ || _); cbn [fst blocks_of] in *; eauto.
  - (* BlockStmt *)
    intros b IH st r st' H. cbn [CacheRead_VisitStmt] in H.
    minv H; use_IH.
    split; [congruence|]. intros B HB HP. cbn [fst blocks_of] in *; eauto.
  - (* Block *)
    intros a ivs rs ws n body init al mb IHbody IHinit st r st' H.
    cbn [CacheRead_VisitBlock] in H.
    minv H;
      match goal with
      | Hc : CacheRead_is_consumer _ _ _ = _ |- _ =>
          apply CacheRead_is_consumer_inv in Hc; subst
      end.
    { (* the block generates the buffer: it is returned as it is *)
      split; [reflexivity|]. intros B HB _. exact HB. }
    all: use_IH;
      repeat match goal with
        | Hr : rebuild_block _ _ _ _ _ _ _ _ _ = _ |- _ =>
            apply rebuild_block_children in Hr as (? & ? & ?)
        | Hr : insert_into_block _ _ _ = _ |- _ =>
            apply insert_into_block_children in Hr as (? & ? & ?)
        | Hr : copy_block _ _ _ = _ |- _ =>
            apply copy_block_children in Hr as (? & ? & ?); [|reflexivity|reflexivity]
        | Hr : record_block_reuse _ _ _ = _ |- _ =>
            apply record_block_reuse_inv in Hr as (? & ?)
        end.
    all: try match goal with E : negb _ = _ |- _ => cbn in E; discriminate E end.
    all: cbn [rw_info set_rw_flag fst] in *; plan_eqs.
    all: split; [unfold plan_of in *; congruence|].
    all: intros B HB HP; rewrite blocks_of_block_eq in HB |- *;
      apply elem_of_cons in HB as [->|HB];
      [ exfalso; destruct HP as [Hns [region Hreg]];
        cbn [block_addr block_writes] in *;
        first [ congruence
              | match goal with
                | Hg : GetBufferRegionFromBuffer _ _ = Ok ?o, Eo : bool_decide (is_Some ?o) = false |- _ =>
                    rewrite Hreg in Hg; inversion Hg; subst;
                    apply bool_decide_eq_false in Eo; apply Eo; eexists; reflexivity
                end ]
      | apply elem_of_cons; right ].
    all: repeat match goal with
           | Hc : child_blocks _ = child_blocks _ |- _ => rewrite Hc; clear Hc
           end.
    all: repeat match goal with
           | Hi : forall B, B ∈ child_blocks _ -> B ∈ child_blocks ?x |- _ ∈ child_blocks ?x =>
               apply Hi
           | Hi : forall B, B ∈ child_blocks _ -> _ -> B ∈ child_blocks ?x |- _ ∈ child_blocks ?x =>
               apply Hi; [exact HB|]
           end.
    all: unfold child_blocks in HB; cbn [block_init block_body] in HB.
    all: apply elem_of_app in HB as [HB|HB]; apply elem_of_app;
      [ left | right ];
      try (inversion HB; fail);
      match goal with
      | Hi : forall B, B ∈ blocks_of ?x -> _ -> B ∈ blocks_of ?y |- _ ∈ blocks_of ?y =>
          apply Hi; [exact HB|congruence]
      end.
Qed.

(** The cache_read rewriter leaves the plan as it was, but for the reuse
    map. *)
Lemma CacheRead_VisitStmt_plan (s : Stmt) (st st' : RewriterState) r :
  CacheRead_VisitStmt scope_sref s st = (Ok r, st') ->
  plan_of (rw_info st') = plan_of (rw_info st).
Proof. intros H. apply (proj1 CacheRead_rewriter_frame) in H. tauto. Qed.

End CacheRead_frame.

(** C6. The cache_read rewriter leaves the producer alone.  A block other
    than the scope root whose write list has a region of the read buffer is
    returned as the same object, with no allocation and no new entry of the
    reuse map, as soon as the consumer test of the block has run: its body is
    not visited.  And whenever the rewriter returns a new scope subtree, every
    such block of the old subtree, at any depth, is a block of the new
    subtree, unchanged. *)
Theorem CacheRead_producer_unchanged (scope_sref : StmtSRef) :
  (forall (producer : Block) (st : RewriterState) (c : bool),
      is_producer scope_sref (read_buffer (rw_info st)) producer ->
      CacheRead_is_consumer (rw_info st) producer st = (Ok c, st) ->
      CacheRead_VisitBlock scope_sref producer st = (Ok (producer, false), set_rw_flag c st))
  /\ (forall (info info' : CacheStageInfo) (h h' : Heap) (new_scope : Stmt),
         CacheReadRewriter_Rewrite scope_sref info h = (Ok (new_scope, info'), h') ->
         forall producer,
           producer ∈ blocks_of (sref_stmt scope_sref) ->
           is_producer scope_sref (read_buffer info) producer ->
           producer ∈ blocks_of new_scope).
Proof.
  split.
  - intros [a ivs rs ws n body init al mb] st c [Hns [region Hreg]] Hc.
    cbn [block_addr block_writes] in *.
    cbn [CacheRead_VisitBlock].
    erewrite bind_Ok by reflexivity.
    erewrite bind_Ok by exact Hc.
    erewrite bind_Ok by reflexivity.
    rewrite Hns. cbn [negb]. rewrite Hreg.
    erewrite bind_Ok by reflexivity. reflexivity.
  - intros info info' h h' new_scope H producer Hin HP.
    unfold CacheReadRewriter_Rewrite in H.
    destruct (CacheRead_VisitStmt scope_sref (sref_stmt scope_sref) (mkRewriter h info false))
      as [[[stmt c]|e] st] eqn:E; inversion H; subst.
    apply (proj1 (CacheRead_rewriter_frame scope_sref)) in E as [_ E].
    apply (E producer Hin HP).
Qed.

Lemma CacheRead_producer_unchanged_witness :
  CacheRead_VisitBlock Scenario.root_sref Scenario.C (mkRewriter 200 Scenario.plan_B false)
  = (Ok (Scenario.C, false), mkRewriter 200 Scenario.plan_B true)
  /\ exists new_scope info' h',
      CacheReadRewriter_Rewrite Scenario.root_sref Scenario.plan_B 200
      = (Ok (new_scope, info'), h')
      /\ Scenario.C ∈ blocks_of new_scope.
Proof.
  assert (HP : is_producer Scenario.root_sref (read_buffer Scenario.plan_B) Scenario.C).
  { split; [reflexivity|]. eexists. vm_compute. reflexivity. }
  destruct (CacheRead_producer_unchanged Scenario.root_sref) as [Hlocal Hglobal].
  split.
  - apply (Hlocal Scenario.C (mkRewriter 200 Scenario.plan_B false) true HP). reflexivity.
  - do 3 eexists. split; [vm_compute; reflexivity|].
    eapply (Hglobal Scenario.plan_B _ 200 _ _).
    + vm_compute. reflexivity.
    + cbn. set_solver.
    + exact HP.
Defined.

(** ** The stage at the front of the scope *)

Lemma ptr_eqb_refl (p : StmtPtr) : p <> PtrOther -> ptr_eqb p p = true.
Proof. destruct p; cbn; intros H; [apply Nat.eqb_refl..|congruence]. Qed.

(** With the insertion site at the scope root, position 0, the cache_read
    rewriter returns a copy of the root whose body is a sequence that starts
    with the stage. *)
Lemma CacheReadRewriter_root_front (scope_sref : StmtSRef) (root : Block)
    (info info' : CacheStageInfo) (stage new_scope : Stmt) (h h' : Heap) :
  sref_stmt scope_sref = BlockStmt root ->
  loc_sref info = Some scope_sref ->
  loc_pos info = 0%Z ->
  cache_stage info = Some stage ->
  CacheReadRewriter_Rewrite scope_sref info h = (Ok (new_scope, info'), h') ->
  exists root' rest,
    new_scope = BlockStmt root'
    /\ block_body root' = SeqStmt (stage :: rest)
    /\ block_alloc_buffers root' = block_alloc_buffers root ++ [alloc info]
    /\ plan_of info' = plan_of info.
Proof.
  intros Hroot Hloc Hpos Hstage H.
  unfold CacheReadRewriter_Rewrite in H. rewrite Hroot in H.
  destruct (CacheRead_VisitStmt scope_sref (BlockStmt root) (mkRewriter h info false))
    as [[[stmt c]|e] st] eqn:E; inversion H; subst; clear H.
  pose proof (CacheRead_VisitStmt_plan _ _ _ _ _ E) as Hplan. cbn [rw_info] in Hplan.
  cut (exists root' rest,
          new_scope = BlockStmt root' /\ block_body root' = SeqStmt (stage :: rest)
          /\ block_alloc_buffers root' = block_alloc_buffers root ++ [alloc info]).
  { intros (root' & rest & ? & ? & ?). eauto 10. }
  clear Hplan.
  destruct root as [a ivs rs ws n body init al mb].
  cbn [CacheRead_VisitStmt] in E. minv E.
  assert (Hs : ptr_eqb (PtrBlock a) (stmt_ptr (sref_stmt scope_sref)) = true).
  { rewrite Hroot. cbn. apply Nat.eqb_refl. }
  cbn [CacheRead_VisitBlock] in H. rewrite Hs in H. cbn [negb] in H.
  minv H.
  all: repeat match goal with
         | Hc : CacheRead_is_consumer _ _ _ = (Ok _, _) |- _ =>
             apply CacheRead_is_consumer_inv in Hc; subst
         | Hv : CacheRead_VisitStmt _ _ _ = (Ok _, _) |- _ =>
             apply CacheRead_VisitStmt_plan in Hv
         | Hx : rebuild_block _ _ _ _ _ _ _ _ _ = (Ok _, _) |- _ =>
             apply rebuild_block_inv in Hx as (? & _ & Hr)
         | Hc : copy_block _ _ _ = (Ok _, _) |- _ =>
             apply copy_block_inv in Hc as (_ & _ & ? & ->)
         | Hx : insert_into_block _ _ _ = (Ok _, _) |- _ =>
             apply insert_into_block_inv in Hx as (_ & _ & loc & Hl & Hi)
         end.
  all: cbn [rw_info set_rw_flag fst] in *.
  all: match goal with
       | H1 : plan_of (rw_info ?s2) = plan_of (rw_info ?s0),
         H2 : plan_of (rw_info ?s0) = plan_of ?i,
         H3 : rw_info ?s5 = rw_info ?s2 |- _ =>
           assert (Hp : plan_of (rw_info s5) = plan_of i) by congruence
       | H1 : plan_of (rw_info ?s2) = plan_of ?i,
         H3 : rw_info ?s5 = rw_info ?s2 |- _ =>
           assert (Hp : plan_of (rw_info s5) = plan_of i) by congruence
       end.
  all: unfold plan_of in Hp; injection Hp as _ _ _ Hp1 Hp2 Hp3 _.
  all: rewrite Hp1, Hloc in Hl; injection Hl as <-.
  all: destruct Hi as [[Hi _]|(_ & stage' & body' & a' & s' & Hst & Hins & ->)];
    [congruence|].
  all: rewrite Hp3, Hstage in Hst; injection Hst as <-.
  all: rewrite Hp2, Hpos in Hins.
  all: apply InsertCacheStage_inv in Hins as (_ & _ & Hins).
  all: specialize (Hins eq_refl); subst body'.
  all: eexists _, _; split; [reflexivity|]; split; [reflexivity|].
  all: destruct Hr as [->|[? ->]]; reflexivity.
Qed.

Lemma on_heap_inv {A} (m : M Heap A) (w w' : World) (a : A) :
  on_heap m w = (Ok a, w') ->
  m (w_heap w) = (Ok a, w_heap w') /\ w_self w' = w_self w.
Proof.
  unfold on_heap, zoom. destruct (m (w_heap w)) as [r h] eqn:E.
  intros H. inversion H; subst. split; reflexivity.
Qed.

Section InputBuffer.

Variable GetBlockRealize : ScheduleState -> StmtSRef -> Res Realize.
Variable AnalyzeRegionUpperBound :
  BufferRegion -> PrimExpr -> StmtSRef -> option StmtSRef -> list IntSet.
Variable CheckStorageScope : ScheduleState -> string -> Res unit.
Variable GetScopeRoot : ScheduleState -> StmtSRef -> bool -> Res StmtSRef.
Variable Replace : ScheduleState -> StmtSRef -> Stmt -> list (Block * Block) -> ScheduleState.
Variable IsAffineBinding : Realize -> StmtSRef -> bool.

(** C8. Let [CacheRead] be called on a read of a buffer that no block of the
    enclosing scope writes, and let the steps before the commit return.  Then
    the plan has its insertion site at the scope root, position 0; the new
    scope subtree is a copy of the root block whose body is a sequence with
    the copy stage as its first child, the loop nest around the stage block;
    and this subtree is the one [CacheRead] hands over to [Replace]. *)
Theorem CacheRead_input_buffer_front
    (block_sref scope_sref : StmtSRef) (block scope_block : Block) (read_buffer_index : Z)
    (storage_scope : string) (consumer_blocks : list StmtSRef) (w w' : World)
    (buffer : Buffer) (bi : BlockInfo)
    (scope : StmtSRef) (cache_read_stage : Block) (new_scope : Stmt) (info : CacheStageInfo) :
  sref_stmt block_sref = BlockStmt block ->
  nth_access_is (block_reads block) read_buffer_index buffer ->
  GetScopeRoot (w_self w) block_sref false = Ok scope_sref ->
  sref_stmt scope_sref = BlockStmt scope_block ->
  block_info (w_self w) !! sref_key scope_sref = Some bi ->
  buffer_writers (bi_scope bi) !! buf_addr buffer = None ->
  CacheRead_build GetBlockRealize AnalyzeRegionUpperBound CheckStorageScope GetScopeRoot
                  block_sref read_buffer_index storage_scope consumer_blocks w
  = (Ok (scope, cache_read_stage, new_scope, info), w') ->
  scope = scope_sref
  /\ loc_sref info = Some scope_sref
  /\ loc_pos info = 0%Z
  /\ (exists root' stage rest,
         new_scope = BlockStmt root'
         /\ block_body root' = SeqStmt (stage :: rest)
         /\ cache_stage info = Some stage
         /\ exists bindings,
             (peel_loops stage).2 = BlockRealize bindings const_true cache_read_stage)
  /\ CacheRead GetBlockRealize AnalyzeRegionUpperBound CheckStorageScope GetScopeRoot
                Replace IsAffineBinding block_sref read_buffer_index storage_scope
                consumer_blocks w
     = ReplaceAndUpdateFlags GetBlockRealize Replace IsAffineBinding
                             scope_sref new_scope info cache_read_stage w'.
Proof.
  intros Hblock Hnth Hroot Hsb Hbi Hw H.
  assert (HC : CacheRead GetBlockRealize AnalyzeRegionUpperBound CheckStorageScope GetScopeRoot
                Replace IsAffineBinding block_sref read_buffer_index storage_scope
                consumer_blocks w
     = ReplaceAndUpdateFlags GetBlockRealize Replace IsAffineBinding
                             scope new_scope info cache_read_stage w').
  { unfold CacheRead. erewrite bind_Ok by exact H. reflexivity. }
  unfold CacheRead_build in H. minv H.
  assert (scope = scope_sref) as -> by congruence.
  unfold TVM_SREF_TO_BLOCK in *.
  rewrite Hblock in *. rewrite Hsb in *.
  repeat match goal with
         | Hx : ret _ _ = (Ok _, _) |- _ => minv Hx
         end.
  match goal with
  | Hx : GetNthAccessBuffer _ _ _ _ _ = _ |- _ =>
      rewrite (GetNthAccessBuffer_nth _ _ _ kRead _ _ Hnth) in Hx; inversion Hx; subst
  end.
  match goal with
  | Hx : CacheRead_update_info _ _ _ _ _ _ _ _ = _ |- _ =>
      unfold CacheRead_update_info in Hx;
      apply bind_inv in Hx as (o & sx & Hg & Hu);
      rewrite (GetOnlyWriteBlock_no_writer _ _ _ _ _ Hbi Hw) in Hg;
      inversion Hg; subst o sx; clear Hg; minv Hu
  end.
  all: match goal with
       | Hx : on_heap (MakeCacheStage ?r ?i ?sc) ?s5 = _ |- _ =>
           apply on_heap_inv in Hx as [Hm _];
           destruct (MakeCacheStage_spec r i sc (w_heap s5))
             as (blk & hs & idx & stage & lvs & Em & _ & _ & _ & _ & Hpeel & _);
           rewrite Em in Hm; inversion Hm; subst; clear Hm
       end.
  all: match goal with
       | Hx : on_heap (CacheReadRewriter_Rewrite _ _) _ = _ |- _ =>
           apply on_heap_inv in Hx as [Hrw _];
           eapply CacheReadRewriter_root_front in Hrw
             as (root' & rest & -> & Hbody & _ & Hplan);
           [|exact Hsb|reflexivity|reflexivity|reflexivity]
       end.
  all: unfold plan_of in Hplan; injection Hplan as _ _ _ Hp1 Hp2 Hp3 _.
  all: cbn in Hp1, Hp2, Hp3.
  all: split; [reflexivity|]; do 2 (split; [assumption|]).
  all: split; [|exact HC].
  all: exists root', stage, rest; do 3 (split; [first [reflexivity|assumption]|]).
  all: rewrite Hpeel; eexists; reflexivity.
Qed.

(** C10. Let [CacheRead] be called on a read of a buffer that no block of
    the enclosing scope writes, and let the steps before the commit return.
    The region cached is the one region of the buffer that the scope root
    declares among its reads, when it declares one, and otherwise the full
    region of the buffer, every dimension from 0 over its whole extent; with
    two or more such regions declared the call does not return.  It is the
    region the stage copies: the stage is a nest of one loop per range of that
    region, over the extent of the range, whose loop variable plus the minimum
    of the range is bound to the block of the stage.  Nothing is detected and
    nothing relaxed: the insertion site is the scope root, position 0, and
    step 3 gives the same result whatever the bound analysis and the block
    lookup are. *)
Theorem CacheRead_input_buffer_region
    (block_sref scope_sref : StmtSRef) (block scope_block : Block) (read_buffer_index : Z)
    (storage_scope : string) (consumer_blocks : list StmtSRef) (w w' : World)
    (buffer : Buffer) (bi : BlockInfo)
    (scope : StmtSRef) (cache_read_stage : Block) (new_scope : Stmt) (info : CacheStageInfo) :
  sref_stmt block_sref = BlockStmt block ->
  nth_access_is (block_reads block) read_buffer_index buffer ->
  GetScopeRoot (w_self w) block_sref false = Ok scope_sref ->
  sref_stmt scope_sref = BlockStmt scope_block ->
  block_info (w_self w) !! sref_key scope_sref = Some bi ->
  buffer_writers (bi_scope bi) !! buf_addr buffer = None ->
  CacheRead_build GetBlockRealize AnalyzeRegionUpperBound CheckStorageScope GetScopeRoot
                  block_sref read_buffer_index storage_scope consumer_blocks w
  = (Ok (scope, cache_read_stage, new_scope, info), w') ->
  exists cache_region stage loop_vars,
    match regions_of buffer (block_reads scope_block) with
    | [] =>
        br_buffer cache_region = buffer
        /\ map range_extent (br_region cache_region) = buf_shape buffer
        /\ Forall (fun r => exists t, range_min r = IntImm t 0) (br_region cache_region)
    | [region] => cache_region = region
    | _ :: _ :: _ => False
    end
    /\ cache_stage info = Some stage
    /\ peel_loops stage
       = (zip_with (fun v r => (v, IntImm (DInt 32) 0, range_extent r))
                   loop_vars (br_region cache_region),
          BlockRealize (zip_with (fun r v => op_add (range_min r) (EVar v))
                                 (br_region cache_region) loop_vars)
                       const_true cache_read_stage)
    /\ length loop_vars = length (br_region cache_region)
    /\ loc_sref info = Some scope_sref
    /\ loc_pos info = 0%Z
    /\ forall GetBlockRealize' AnalyzeRegionUpperBound' info0 (w0 : World),
        CacheRead_update_info GetBlockRealize' AnalyzeRegionUpperBound' (w_self w)
                              scope_sref scope_block buffer info0 w0
        = CacheRead_update_info GetBlockRealize AnalyzeRegionUpperBound (w_self w)
                                scope_sref scope_block buffer info0 w0.
Proof.
  intros Hblock Hnth Hroot Hsb Hbi Hw H.
  unfold CacheRead_build in H. minv H.
  assert (scope = scope_sref) as -> by congruence.
  unfold TVM_SREF_TO_BLOCK in *.
  rewrite Hblock in *. rewrite Hsb in *.
  repeat match goal with
         | Hx : ret _ _ = (Ok _, _) |- _ => minv Hx
         end.
  match goal with
  | Hx : GetNthAccessBuffer _ _ _ _ _ = _ |- _ =>
      rewrite (GetNthAccessBuffer_nth _ _ _ kRead _ _ Hnth) in Hx;
      injection Hx as <- <-
  end.
  match goal with
  | Hx : CacheRead_update_info _ _ _ _ _ _ _ _ = _ |- _ =>
      rewrite (CacheRead_update_info_no_writer _ _ _ _ _ _ _ _ _ Hbi Hw) in Hx
  end.
  match goal with
  | Hx : context [GetBufferRegionFromBuffer ?l ?b] |- _ =>
      pose proof (GetBufferRegionFromBuffer_finds l b) as Hfind;
      destruct (GetBufferRegionFromBuffer l b) as [[region|]|e0];
      [| |discriminate Hx]; rewrite Hfind; clear Hfind
  end.
  all: match goal with
  | Hx : on_heap (MakeCacheStage ?r ?i ?sc) ?s5 = _ |- _ =>
      apply on_heap_inv in Hx as [Hm _];
      destruct (MakeCacheStage_spec r i sc (w_heap s5))
        as (blk & hs & idx & stage & lvs & Em & _ & _ & _ & _ & Hpeel & Hlen & _);
      rewrite Em in Hm; inversion Hm; subst; clear Hm
  end.
  all: match goal with
  | Hx : on_heap (CacheReadRewriter_Rewrite _ _) _ = _ |- _ =>
      apply on_heap_inv in Hx as [Hrw _]; unfold CacheReadRewriter_Rewrite in Hrw
  end.
  all: match type of Hrw with
  | (let '(_, _) := ?v in _) = _ => destruct v as [[[stmt ch]|e] st1] eqn:Ev
  end; inversion Hrw; subst; clear Hrw.
  all: apply CacheRead_VisitStmt_plan in Ev; cbn [rw_info] in Ev.
  all: unfold plan_of in Ev; injection Ev as _ _ _ Hp1 Hp2 Hp3 _.
  all: match goal with
       | Hx : _ = (Ok (?i, ?r), _) |- _ => exists r, stage, lvs; inversion Hx; subst
       end.
  all: split;
    [ first [ reflexivity
            | unfold FullRegion; cbn [br_buffer br_region];
              split; [reflexivity|]; split;
              [ rewrite map_map; cbn; apply map_id
              | apply Forall_forall; intros r Hr;
                apply list_elem_of_fmap in Hr as (dim & -> & _); eexists; reflexivity ] ]
    | ].
  all: split; [rewrite Hp3; reflexivity|].
  all: split; [exact Hpeel|]; split; [exact Hlen|].
  all: split; [exact Hp1|]; split; [exact Hp2|].
  all: intros G' A' info0 w0;
    rewrite !(CacheRead_update_info_no_writer _ _ _ _ _ _ _ _ _ Hbi Hw); reflexivity.
Qed.

End InputBuffer.

Lemma CacheRead_input_buffer_front_witness :
  exists w' cache_read_stage root' stage rest info,
    CacheRead_build Scenario.GetBlockRealize Scenario.AnalyzeRegionUpperBound
                    Scenario.CheckStorageScope Scenario.GetScopeRoot
                    Scenario.C_sref 0 "shared" [] Scenario.world
    = (Ok (Scenario.root_sref, cache_read_stage, BlockStmt root', info), w')
    /\ block_body root' = SeqStmt (stage :: rest)
    /\ cache_stage info = Some stage
    /\ loc_pos info = 0%Z
    /\ length rest = 1.
Proof.
  destruct (CacheRead_build Scenario.GetBlockRealize Scenario.AnalyzeRegionUpperBound
              Scenario.CheckStorageScope Scenario.GetScopeRoot
              Scenario.C_sref 0 "shared" [] Scenario.world)
    as [[[[[scope cache_read_stage] new_scope] info]|e] w'] eqn:E; [|vm_compute in E; discriminate E].
  destruct (CacheRead_input_buffer_front
              Scenario.GetBlockRealize Scenario.AnalyzeRegionUpperBound
              Scenario.CheckStorageScope Scenario.GetScopeRoot Scenario.Replace
              Scenario.IsAffineBinding Scenario.C_sref Scenario.root_sref Scenario.C
              Scenario.root 0 "shared" [] Scenario.world w' Scenario.A
              (mkBlockInfo Scenario.root_scope true true)
              scope cache_read_stage new_scope info)
    as (-> & _ & Hpos & (root' & stage & rest & -> & Hbody & Hstage & _) & _).
  - reflexivity.
  - split; [lia|reflexivity].
  - reflexivity.
  - reflexivity.
  - reflexivity.
  - reflexivity.
  - exact E.
  - exists w', cache_read_stage, root', stage, rest, info.
    do 4 (split; [first [reflexivity|assumption]|]).
    vm_compute in E. inversion E; subst. cbn in Hbody. inversion Hbody. reflexivity.
Defined.

Lemma CacheRead_input_buffer_region_witness :
  (exists w' cache_read_stage new_scope info stage loop_vars,
      CacheRead_build Scenario.GetBlockRealize Scenario.AnalyzeRegionUpperBound
                      Scenario.CheckStorageScope InputRegion.GetScopeRoot
                      InputRegion.C_sref 0 "shared" [] InputRegion.world
      = (Ok (InputRegion.root_sref, cache_read_stage, new_scope, info), w')
      /\ cache_stage info = Some stage
      /\ (peel_loops stage).1
         = zip_with (fun v r => (v, IntImm (DInt 32) 0, range_extent r))
                    loop_vars (br_region InputRegion.A_front)
      /\ length loop_vars = 1
      /\ loc_pos info = 0%Z)
  /\ (exists w' cache_read_stage new_scope info stage loop_vars,
         CacheRead_build Scenario.GetBlockRealize Scenario.AnalyzeRegionUpperBound
                         Scenario.CheckStorageScope Scenario.GetScopeRoot
                         Scenario.C_sref 0 "shared" [] Scenario.world
         = (Ok (Scenario.root_sref, cache_read_stage, new_scope, info), w')
         /\ cache_stage info = Some stage
         /\ (peel_loops stage).1
            = zip_with (fun v r => (v, IntImm (DInt 32) 0, range_extent r))
                       loop_vars [mkRange (Scenario.c 0) (Scenario.c 16)]
         /\ length loop_vars = 1
         /\ loc_pos info = 0%Z).
Proof.
  split.
  - destruct (CacheRead_build Scenario.GetBlockRealize Scenario.AnalyzeRegionUpperBound
                Scenario.CheckStorageScope InputRegion.GetScopeRoot
                InputRegion.C_sref 0 "shared" [] InputRegion.world)
      as [[[[[scope cache_read_stage] new_scope] info]|e] w'] eqn:E;
      [|vm_compute in E; discriminate E].
    assert (scope = InputRegion.root_sref) as ->.
    { vm_compute in E. inversion E. reflexivity. }
    destruct (CacheRead_input_buffer_region
                Scenario.GetBlockRealize Scenario.AnalyzeRegionUpperBound
                Scenario.CheckStorageScope InputRegion.GetScopeRoot
                InputRegion.C_sref InputRegion.root_sref Scenario.C
                InputRegion.root 0 "shared" [] InputRegion.world w' Scenario.A
                (mkBlockInfo InputRegion.root_scope true true)
                InputRegion.root_sref cache_read_stage new_scope info)
      as (region & stage & lvs & Hregion & Hstage & Hpeel & Hlen & _ & Hpos & _).
    + reflexivity.
    + split; [lia|reflexivity].
    + reflexivity.
    + reflexivity.
    + reflexivity.
    + reflexivity.
    + exact E.
    + vm_compute in Hregion. subst region.
      exists w', cache_read_stage, new_scope, info, stage, lvs.
      split; [reflexivity|]. split; [exact Hstage|].
      split; [rewrite Hpeel; reflexivity|]. split; [exact Hlen|exact Hpos].
  - destruct (CacheRead_build Scenario.GetBlockRealize Scenario.AnalyzeRegionUpperBound
                Scenario.CheckStorageScope Scenario.GetScopeRoot
                Scenario.C_sref 0 "shared" [] Scenario.world)
      as [[[[[scope cache_read_stage] new_scope] info]|e] w'] eqn:E;
      [|vm_compute in E; discriminate E].
    assert (scope = Scenario.root_sref) as ->.
    { vm_compute in E. inversion E. reflexivity. }
    destruct (CacheRead_input_buffer_region
                Scenario.GetBlockRealize Scenario.AnalyzeRegionUpperBound
                Scenario.CheckStorageScope Scenario.GetScopeRoot
                Scenario.C_sref Scenario.root_sref Scenario.C
                Scenario.root 0 "shared" [] Scenario.world w' Scenario.A
                (mkBlockInfo Scenario.root_scope true true)
                Scenario.root_sref cache_read_stage new_scope info)
      as (region & stage & lvs & Hregion & Hstage & Hpeel & Hlen & _ & Hpos & _).
    + reflexivity.
    + split; [lia|reflexivity].
    + reflexivity.
    + reflexivity.
    + reflexivity.
    + reflexivity.
    + exact E.
    + cbn in Hregion. destruct Hregion as (_ & Hext & _).
      exists w', cache_read_stage, new_scope, info, stage, lvs.
      split; [reflexivity|]. split; [exact Hstage|].
      split; [|split; [|exact Hpos]].
      * rewrite Hpeel. cbn [fst]. clear -Hext Hlen. rewrite <- (length_map range_extent), Hext in Hlen.
        destruct (br_region region) as [|r [|r' rest]]; try discriminate.
        destruct lvs as [|v [|v' lvs]]; try discriminate.
        cbn in Hext. injection Hext as Hext. cbn. rewrite Hext. reflexivity.
      * rewrite Hlen, <- (length_map range_extent), Hext. reflexivity.
Defined.

(** ** What the cache_write rewriter changes and what it leaves alone *)

Lemma elem_of_concat_map {A B} (f : A -> list B) (l : list A) (b : B) :
  b ∈ concat (map f l) <-> exists x, x ∈ l /\ b ∈ f x.
Proof.
  induction l as [|x l IH]; cbn.
  - split; [intros H; inversion H|]. intros (s & Hs & _). inversion Hs.
  - rewrite elem_of_app, IH. split.
    + intros [H|(s & Hs & H)]; [exists x; split; [left|exact H]|].
      exists s. split; [right; exact Hs|exact H].
    + intros (s & Hs & H). apply elem_of_cons in Hs as [->|Hs]; [left; exact H|].
      right. eauto.
Qed.

(** A block outside the writer is a block of the statement. *)
Lemma blocks_outside_blocks_of (writer : StmtPtr) :
  (forall s B, B ∈ blocks_outside writer s -> B ∈ blocks_of s)
  /\ (forall b B, B ∈ blocks_outside_block writer b -> B ∈ blocks_of_block b).
Proof.
  apply Stmt_Block_ind.
  - intros b v i B H. inversion H.
  - intros v B H. inversion H.
  - intros seq IH B H. cbn [blocks_outside blocks_of] in *.
    apply elem_of_concat_map in H as (x & Hx & H). apply elem_of_concat_map.
    exists x. split; [exact Hx|]. rewrite Forall_forall in IH. apply (IH x Hx), H.
  - intros c t e IHt IHe B H. cbn [blocks_outside blocks_of] in *.
    apply elem_of_app in H as [H|H]; apply elem_of_app; [left; auto|right].
    destruct e; [auto|inversion H].
  - intros a v mn ext k body IH B H. cbn [blocks_outside blocks_of] in *. auto.
  - intros vals pred b IH B H. cbn [blocks_outside blocks_of] in *. auto.
  - intros b IH B H. cbn [blocks_outside blocks_of] in *. auto.
  - intros a ivs rs ws n body init al mb IHbody IHinit B H.
    cbn [blocks_outside_block blocks_of_block] in *.
    destruct (ptr_eqb _ _); [inversion H|].
    apply elem_of_cons in H as [->|H]; [left|right].
    apply elem_of_app in H as [H|H]; apply elem_of_app; [left|right; auto].
    destruct init; [auto|inversion H].
Qed.

Lemma retarget_plan (i j : CacheStageInfo) :
  plan_of i = plan_of j -> retarget i = retarget j.
Proof. unfold plan_of, retarget. intros H. inversion H. reflexivity. Qed.

Lemma plan_of_loc_sref (i j : CacheStageInfo) :
  plan_of i = plan_of j -> loc_sref i = loc_sref j.
Proof. unfold plan_of. intros H. inversion H. reflexivity. Qed.

Lemma site_outside_plan (i j : CacheStageInfo) (s : Stmt) :
  plan_of i = plan_of j -> site_outside j s -> site_outside i s.
Proof.
  unfold plan_of, site_outside. intros H Hs loc Hloc. inversion H. apply Hs. congruence.
Qed.

(** Off the insertion site, the checks of the insertion point change
    nothing. *)
Lemma insert_into_loop_miss (a : addr) (stmt : Stmt * bool) (st st' : RewriterState)
    (r : Stmt * bool) :
  insert_into_loop a stmt st = (Ok r, st') ->
  (forall loc, loc_sref (rw_info st) = Some loc ->
               ptr_eqb (PtrFor a) (stmt_ptr (sref_stmt loc)) = false) ->
  r = stmt /\ st' = st.
Proof.
  unfold insert_into_loop. intros H Hsite.
  apply bind_inv in H as (st0 & s0 & Hg & H). minv Hg.
  apply bind_inv in H as (loc & s1 & Hl & H).
  apply info_loc_stmt_inv in Hl as (-> & l & Hl & ->).
  rewrite (Hsite l Hl) in H. minv H. split; reflexivity.
Qed.

Lemma insert_into_block_miss (a : addr) (stmt : Block * bool) (st st' : RewriterState)
    (r : Block * bool) :
  insert_into_block a stmt st = (Ok r, st') ->
  (forall loc, loc_sref (rw_info st) = Some loc ->
               ptr_eqb (PtrBlock a) (stmt_ptr (sref_stmt loc)) = false) ->
  r = stmt /\ st' = st.
Proof.
  unfold insert_into_block. intros H Hsite.
  apply bind_inv in H as (st0 & s0 & Hg & H). minv Hg.
  apply bind_inv in H as (loc & s1 & Hl & H).
  apply info_loc_stmt_inv in Hl as (-> & l & Hl & ->).
  rewrite (Hsite l Hl) in H. minv H. split; reflexivity.
Qed.

(** The children of a sequence none of which is flagged as changed. *)
Lemma map_fst_unchanged (seq : list Stmt) (seq' : list (Stmt * bool)) :
  Forall2 (fun x y => y.2 = false -> y.1 = x) seq seq' ->
  existsb snd seq' = false ->
  map fst seq' = seq.
Proof.
  induction 1 as [|x y seq seq' Hxy _ IH]; [reflexivity|].
  cbn. intros H. apply orb_false_elim in H as [H1 H2].
  rewrite (Hxy H1), (IH H2). reflexivity.
Qed.

Lemma store_targets_seq (g : Buffer -> Buffer) (seq seq' : list Stmt) :
  Forall2 (fun x y => store_targets y = map g (store_targets x)) seq seq' ->
  store_targets (SeqStmt seq') = map g (store_targets (SeqStmt seq)).
Proof.
  cbn [store_targets]. induction 1 as [|x y seq seq' Hxy _ IH]; [reflexivity|].
  cbn. rewrite map_app, Hxy, IH. reflexivity.
Qed.

Lemma rebuild_block_cases (old : Block) ivs rs ws mbs init body changed
    (st st' : RewriterState) (r : Block * bool) :
  rebuild_block old ivs rs ws mbs init body changed st = (Ok r, st') ->
  (changed = false /\ r = (old, false))
  \/ (changed = true
      /\ exists a, r = (mkBlock a ivs rs ws (block_name_hint old) body init
                                (block_alloc_buffers old) mbs, true)).
Proof.
  unfold rebuild_block. intros H. destruct changed; minv H; eauto.
Qed.

Lemma site_outside_seq (info : CacheStageInfo) (seq : list Stmt) (x : Stmt) :
  site_outside info (SeqStmt seq) -> x ∈ seq -> site_outside info x.
Proof.
  intros H Hx loc Hl. specialize (H loc Hl). cbn [contains_node] in H.
  destruct (contains_node _ x) eqn:E; [|reflexivity].
  rewrite <- H. symmetry. apply existsb_exists. exists x.
  split; [apply list_elem_of_In; exact Hx|exact E].
Qed.

Section CacheWrite_frame.

Variable scope_sref : StmtSRef.
Variable writer_block_sref : StmtSRef.

Ltac use_IH :=
  repeat match goal with
    | IH : forall st r st', CacheWrite_VisitStmt _ _ ?t st = (Ok r, st') -> _,
      H : CacheWrite_VisitStmt _ _ ?t _ = (Ok _, _) |- _ =>
        apply IH in H as (? & ? & ?)
    | IH : forall st r st', CacheWrite_VisitBlock _ _ ?t st = (Ok r, st') -> _,
      H : CacheWrite_VisitBlock _ _ ?t _ = (Ok _, _) |- _ =>
        apply IH in H as (? & ? & ?)
    end.

(** The state after a visit: the plan and the flag are the ones before, and a
    result that is flagged as the same object is the statement visited. *)
Lemma CacheWrite_rewriter_state :
  (forall s st r st',
      CacheWrite_VisitStmt scope_sref writer_block_sref s st = (Ok r, st') ->
      plan_of (rw_info st') = plan_of (rw_info st)
      /\ rw_flag st' = rw_flag st
      /\ (r.2 = false -> r.1 = s))
  /\ (forall b st r st',
         CacheWrite_VisitBlock scope_sref writer_block_sref b st = (Ok r, st') ->
         plan_of (rw_info st') = plan_of (rw_info st)
         /\ rw_flag st' = rw_flag st
         /\ (r.2 = false -> r.1 = b)).
Proof.
  apply Stmt_Block_ind.
  - (* BufferStore *)
    intros b v i st r st' H. cbn in H. minv H.
    + repeat split; cbn; discriminate.
    + repeat split. destruct (_ || _); cbn; [discriminate|reflexivity].
  - (* Evaluate *)
    intros v st r st' H. cbn in H. minv H.
    repeat split. destruct b; cbn; [discriminate|reflexivity].
  - (* SeqStmt *)
    intros seq IH st r st' H. cbn [CacheWrite_VisitStmt] in H.
    apply bind_inv in H as (seq' & s1 & Hm & H). minv H.
    eapply (mapM_Forall_inv _
              (fun s s' => plan_of (rw_info s') = plan_of (rw_info s)
                           /\ rw_flag s' = rw_flag s)
              (fun x y s0 => y.2 = false -> y.1 = x)) in Hm as [[HR1 HR2] HF];
      [| split; reflexivity | intros ? ? ? [? ?] [? ?]; split; congruence | ].
    + split; [exact HR1|]. split; [exact HR2|].
      destruct (existsb snd seq'); cbn; [discriminate|reflexivity].
    + eapply Forall_impl; [exact IH|]. cbn. intros x Hx s y s' Hv.
      apply Hx in Hv as (? & ? & ?). auto.
  - (* IfThenElse *)
    intros c t e IHt IHe st r st' H. cbn [CacheWrite_VisitStmt] in H.
    minv H; use_IH.
    all: split; [congruence|]; split; [congruence|].
    all: destruct (_ || _ || _); cbn; [discriminate|reflexivity].
  - (* For *)
    intros a v mn ext k body IH st r st' H. cbn [CacheWrite_VisitStmt] in H.
    minv H; use_IH; prim_inv;
      match goal with
      | HI : insert_into_loop _ _ _ = _ |- _ =>
          apply insert_into_loop_inv in HI
            as (Hi & Hf & [-> | (stage & a0 & v' & mn' & ext' & kind' & body0 & body'
                                 & a' & s0' & Hstmt & Hstage & Hins & ->)])
      end.
    all: cbn [rw_info rw_flag set_rw_flag fst snd] in *.
    all: split; [unfold plan_of in *; congruence|]; split; [congruence|].
    all: cbn; first [discriminate|reflexivity].
  - (* BlockRealize *)
    intros vals pred b IH st r st' H. cbn [CacheWrite_VisitStmt] in H.
    fold (CacheWrite_VisitBlock scope_sref writer_block_sref) in H.
    minv H; use_IH.
    split; [congruence|]; split; [congruence|].
    destruct (_ || _ || _); cbn; [discriminate|reflexivity].
  - (* BlockStmt *)
    intros b IH st r st' H. cbn [CacheWrite_VisitStmt] in H.
    fold (CacheWrite_VisitBlock scope_sref writer_block_sref) in H.
    minv H; use_IH.
    split; [congruence|]; split; [congruence|].
    cbn in *. intros Hc. f_equal. auto.
  - (* Block *)
    intros a ivs rs ws n body init al mb IHbody IHinit st r st' H.
    cbn [CacheWrite_VisitBlock] in H.
    fold (CacheWrite_VisitStmt scope_sref writer_block_sref) in H.
    minv H.
    { repeat split. }
    all: cbn beta iota in IHinit; use_IH;
      repeat match goal with
        | Hr : rebuild_block _ _ _ _ _ _ _ _ _ = _ |- _ =>
            apply rebuild_block_inv in Hr as (? & ? & Hrb)
        | Hr : insert_into_block _ _ _ = _ |- _ =>
            apply insert_into_block_inv in Hr as (? & ? & ? & ? & Hib)
        | Hr : copy_block _ _ _ = _ |- _ =>
            apply copy_block_inv in Hr as (? & ? & ? & ?)
        | Hr : record_block_reuse _ _ _ = _ |- _ =>
            apply record_block_reuse_inv in Hr as (? & ?)
        end.
    all: cbn [rw_info rw_flag set_rw_flag fst snd] in *.
    all: split; [unfold plan_of in *; congruence|]; split; [congruence|].
    all: try (cbn; discriminate).
    all: destruct Hib as [[_ ->]|(_ & ? & ? & ? & ? & _ & _ & ->)]; [|cbn; discriminate].
    all: destruct Hrb as [->|[? ->]]; cbn; [reflexivity|discriminate].
Qed.

Ltac use_state :=
  repeat match goal with
    | H : CacheWrite_VisitStmt _ _ _ ?s0 = (Ok _, ?s1) |- _ =>
        lazymatch goal with
        | _ : plan_of (rw_info s1) = plan_of (rw_info s0) |- _ => fail
        | _ => pose proof (proj1 CacheWrite_rewriter_state _ _ _ _ H) as (? & ? & ?)
        end
    | H : CacheWrite_VisitBlock _ _ _ ?s0 = (Ok _, ?s1) |- _ =>
        lazymatch goal with
        | _ : plan_of (rw_info s1) = plan_of (rw_info s0) |- _ => fail
        | _ => pose proof (proj2 CacheWrite_rewriter_state _ _ _ _ H) as (? & ? & ?)
        end
    end.

Ltac use_IH1 :=
  repeat match goal with
    | IH : forall st r st', CacheWrite_VisitStmt _ _ ?t st = (Ok r, st') -> _,
      H : CacheWrite_VisitStmt _ _ ?t _ = (Ok _, _) |- _ =>
        let H' := fresh "Hv" in pose proof (IH _ _ _ H) as H'; clear H
    | IH : forall st r st', CacheWrite_VisitBlock _ _ ?t st = (Ok r, st') -> _,
      H : CacheWrite_VisitBlock _ _ ?t _ = (Ok _, _) |- _ =>
        let H' := fresh "Hv" in pose proof (IH _ _ _ H) as H'; clear H
    end.

Ltac by_IH :=
  match goal with
  | Hv : _ -> forall B, _ -> _ -> B ∈ ?l |- _ ∈ ?l =>
      apply Hv; [congruence|eassumption|eassumption]
  end.

(** Outside the writer, the cache_write rewriter returns every block but the
    scope root as it found it. *)
Lemma CacheWrite_rewriter_frame :
  (forall s st r st',
      CacheWrite_VisitStmt scope_sref writer_block_sref s st = (Ok r, st') ->
      rw_flag st = false ->
      forall B, B ∈ blocks_outside (stmt_ptr (sref_stmt writer_block_sref)) s ->
                ptr_eqb (PtrBlock (block_addr B)) (stmt_ptr (sref_stmt scope_sref)) = false ->
                B ∈ blocks_of r.1)
  /\ (forall b st r st',
         CacheWrite_VisitBlock scope_sref writer_block_sref b st = (Ok r, st') ->
         rw_flag st = false ->
         forall B, B ∈ blocks_outside_block (stmt_ptr (sref_stmt writer_block_sref)) b ->
                   ptr_eqb (PtrBlock (block_addr B)) (stmt_ptr (sref_stmt scope_sref)) = false ->
                   B ∈ blocks_of_block r.1).
Proof.
  apply Stmt_Block_ind.
  - (* BufferStore *)
    intros b v i st r st' H Hf B HB. inversion HB.
  - (* Evaluate *)
    intros v st r st' H Hf B HB. inversion HB.
  - (* SeqStmt *)
    intros seq IH st r st' H Hf B HB Hns. cbn [CacheWrite_VisitStmt] in H.
    apply bind_inv in H as (seq' & s1 & Hm & H). minv H.
    eapply (mapM_Forall_inv _
              (fun s s' => rw_flag s' = rw_flag s)
              (fun x y s0 =>
                 rw_flag s0 = false ->
                 forall B, B ∈ blocks_outside (stmt_ptr (sref_stmt writer_block_sref)) x ->
                           ptr_eqb (PtrBlock (block_addr B)) (stmt_ptr (sref_stmt scope_sref))
                           = false ->
                           B ∈ blocks_of y.1)) in Hm as [HR HF];
      [| reflexivity | intros; congruence | ].
    + destruct (existsb snd seq'); cbn [fst];
        [|apply (proj1 (blocks_outside_blocks_of _)) in HB; exact HB].
      cbn [blocks_outside] in HB. apply elem_of_concat_map in HB as (x & Hx & HB).
      apply list_elem_of_lookup in Hx as [i Hi].
      destruct (Forall2_lookup_l _ _ _ _ _ HF Hi) as (y & Hy & s0 & HR0 & HG).
      apply elem_of_blocks_of_seq. exists y.1. split.
      * apply list_elem_of_lookup. exists i. rewrite list_lookup_fmap, Hy. reflexivity.
      * apply HG; [congruence|exact HB|exact Hns].
    + eapply Forall_impl; [exact IH|]. cbn. intros x Hx s y s' Hv.
      split; [apply (proj1 CacheWrite_rewriter_state) in Hv; tauto|].
      apply (Hx _ _ _ Hv).
  - (* IfThenElse *)
    intros c t e IHt IHe st r st' H Hf B HB Hns. cbn [CacheWrite_VisitStmt] in H.
    minv H; use_state; use_IH1; cbn [fst snd] in *.
    + destruct (_ || _ || _); cbn [fst];
        [|apply (proj1 (blocks_outside_blocks_of _)) in HB; exact HB].
      cbn [blocks_outside blocks_of] in *.
      apply elem_of_app in HB as [HB|HB]; apply elem_of_app; [left|right]; by_IH.
    + destruct (_ || _ || _); cbn [fst];
        [|apply (proj1 (blocks_outside_blocks_of _)) in HB; exact HB].
      cbn [blocks_outside blocks_of] in *. rewrite app_nil_r in *. by_IH.
  - (* For *)
    intros a v mn ext k body IH st r st' H Hf B HB Hns. cbn [CacheWrite_VisitStmt] in H.
    minv H; use_state; use_IH1; prim_inv;
      match goal with
      | HI : insert_into_loop _ _ _ = _ |- _ =>
          apply insert_into_loop_inv in HI
            as (Hi & Hfl & [-> | (stage & a0 & v' & mn' & ext' & kind' & body0 & body'
                                 & a' & s0' & Hstmt & Hstage & Hins & ->)])
      end;
      try (cbn [fst] in Hstmt; inversion Hstmt; subst;
           apply InsertCacheStage_inv in Hins as (_ & Hins & _)).
    all: cbn [fst snd blocks_outside blocks_of] in *.
    all: try (apply Hins).
    all: first [by_IH | apply (proj1 (blocks_outside_blocks_of _)) in HB; exact HB].
  - (* BlockRealize *)
    intros vals pred b IH st r st' H Hf B HB Hns. cbn [CacheWrite_VisitStmt] in H.
    fold (CacheWrite_VisitBlock scope_sref writer_block_sref) in H.
    minv H; use_state; use_IH1; cbn [fst snd] in *.
    destruct (_ || _ || _); cbn [fst];
      [|apply (proj1 (blocks_outside_blocks_of _)) in HB; exact HB].
    cbn [blocks_outside blocks_of] in *. by_IH.
  - (* BlockStmt *)
    intros b IH st r st' H Hf B HB Hns. cbn [CacheWrite_VisitStmt] in H.
    fold (CacheWrite_VisitBlock scope_sref writer_block_sref) in H.
    minv H; use_state; use_IH1; cbn [fst snd] in *.
    cbn [blocks_outside blocks_of] in *. by_IH.
  - (* Block *)
    intros a ivs rs ws n body init al mb IHbody IHinit st r st' H Hf B HB Hns.
    cbn [CacheWrite_VisitBlock] in H.
    fold (CacheWrite_VisitStmt scope_sref writer_block_sref) in H.
    cbn [blocks_outside_block] in HB.
    destruct (ptr_eqb (PtrBlock a) (stmt_ptr (sref_stmt writer_block_sref))) eqn:Ew;
      [inversion HB|].
    minv H.
    { cbn [fst].
      apply (proj2 (blocks_outside_blocks_of (stmt_ptr (sref_stmt writer_block_sref)))).
      cbn [blocks_outside_block]. rewrite Ew. exact HB. }
    all: rewrite Hf in *; cbn [negb andb orb] in *.
    all: try discriminate.
    all: cbn beta iota in IHinit; use_state; use_IH1.
    all: repeat match goal with
        | Hr : rebuild_block _ _ _ _ _ _ _ _ _ = _ |- _ =>
            apply rebuild_block_children in Hr as (? & ? & ?)
        | Hr : insert_into_block _ _ _ = _ |- _ =>
            apply insert_into_block_children in Hr as (? & ? & ?)
        | Hr : copy_block _ _ _ = _ |- _ =>
            apply copy_block_children in Hr as (? & ? & ?); [|reflexivity|reflexivity]
        end.
    all: cbn [rw_info rw_flag set_rw_flag fst snd] in *.
    all: rewrite blocks_of_block_eq;
      apply elem_of_cons in HB as [->|HB];
      [ cbn [block_addr] in Hns; congruence | apply elem_of_cons; right ].
    all: repeat match goal with
           | Hc : child_blocks _ = child_blocks _ |- _ => rewrite Hc; clear Hc
           end.
    all: repeat match goal with
           | Hi : forall B, B ∈ child_blocks _ -> B ∈ child_blocks ?x |- _ ∈ child_blocks ?x =>
               apply Hi
           | Hi : forall B, B ∈ child_blocks _ -> _ -> B ∈ child_blocks ?x |- _ ∈ child_blocks ?x =>
               apply Hi;
               [ unfold child_blocks; cbn [block_init block_body];
                 apply elem_of_app in HB as [HB|HB]; apply elem_of_app; [left|right];
                 try (inversion HB; fail);
                 apply (proj1 (blocks_outside_blocks_of _)) in HB; exact HB |]
           end.
    all: apply elem_of_app in HB as [HB|HB]; apply elem_of_app; [left|right];
      try (inversion HB; fail); by_IH.
Qed.

Ltac site_child Hs :=
  let loc := fresh "loc" in
  let Hl := fresh "Hl" in
  intros loc Hl; specialize (Hs loc Hl);
  simpl in Hs;
  repeat match goal with
    | Ho : _ || _ = false |- _ => apply orb_false_elim in Ho as [? ?]
    end;
  assumption.

Ltac miss_site :=
  match goal with
  | Hs : site_outside (rw_info ?s) _ |- forall loc, loc_sref (rw_info ?sx) = Some loc -> _ =>
      let loc := fresh "loc" in
      let Hl := fresh "Hl" in
      let Hq := fresh "Hq" in
      intros loc Hl;
      assert (Hq : plan_of (rw_info sx) = plan_of (rw_info s))
        by (cbn [rw_info set_rw_flag] in *; unfold plan_of in *; congruence);
      rewrite (plan_of_loc_sref _ _ Hq) in Hl;
      specialize (Hs loc Hl); simpl in Hs;
      repeat match goal with
        | Ho : _ || _ = false |- _ => apply orb_false_elim in Ho as [? ?]
        end;
      assumption
  end.

Ltac fire_IH :=
  repeat match goal with
    | Hs : site_outside (rw_info ?s) _,
      Hv : _ = true -> site_outside (rw_info ?s0) ?x -> _ |- _ =>
        let Hp := fresh "Hp" in
        assert (Hp : plan_of (rw_info s0) = plan_of (rw_info s))
          by (cbn [rw_info set_rw_flag] in *; congruence);
        specialize (Hv ltac:(cbn [rw_flag set_rw_flag] in *; congruence)
                       (site_outside_plan (rw_info s0) (rw_info s) x Hp
                                          ltac:(site_child Hs)));
        try rewrite (retarget_plan _ _ Hp) in Hv
    end.

Ltac unchanged Ec :=
  repeat match goal with
    | Ho : _ || _ = false |- _ => apply orb_false_elim in Ho as [? ?]
    end;
  subst;
  repeat match goal with
    | Hu : false = false -> _ |- _ => specialize (Hu eq_refl)
    end;
  subst.

(** The cache_write rewriter, on every statement it visits under the writer
    and off the insertion site, keeps each store in its place and retargets
    it. *)
Lemma CacheWrite_rewriter_stores :
  (forall s st r st',
      CacheWrite_VisitStmt scope_sref writer_block_sref s st = (Ok r, st') ->
      rw_flag st = true ->
      site_outside (rw_info st) s ->
      store_targets r.1 = map (retarget (rw_info st)) (store_targets s))
  /\ (forall b st r st',
         CacheWrite_VisitBlock scope_sref writer_block_sref b st = (Ok r, st') ->
         rw_flag st || ptr_eqb (PtrBlock (block_addr b)) (stmt_ptr (sref_stmt writer_block_sref))
         = true ->
         site_outside (rw_info st) (BlockStmt b) ->
         store_targets_block r.1 = map (retarget (rw_info st)) (store_targets_block b)).
Proof.
  apply Stmt_Block_ind.
  - (* BufferStore *)
    intros b v i st r st' H Hf Hs. cbn in H. minv H; cbn; unfold retarget.
    all: try destruct (_ || _); cbn.
    all: match goal with E : buffer_same_as _ _ = _ |- _ => rewrite E end; reflexivity.
  - (* Evaluate *)
    intros v st r st' H Hf Hs. cbn in H. minv H. destruct b; reflexivity.
  - (* SeqStmt *)
    intros seq IH st r st' H Hf Hs. cbn [CacheWrite_VisitStmt] in H.
    apply bind_inv in H as (seq' & s1 & Hm & H). minv H.
    eapply (mapM_Forall_inv _
              (fun s s' => plan_of (rw_info s') = plan_of (rw_info s)
                           /\ rw_flag s' = rw_flag s)
              (fun x y s0 =>
                 (y.2 = false -> y.1 = x)
                 /\ (rw_flag s0 = true ->
                     plan_of (rw_info s0) = plan_of (rw_info st) ->
                     store_targets y.1 = map (retarget (rw_info st)) (store_targets x))))
      in Hm as [_ HF];
      [| split; reflexivity | intros ? ? ? [? ?] [? ?]; split; congruence | ].
    + assert (HF' : Forall2 (fun x y => (y.2 = false -> y.1 = x)
                                        /\ store_targets y.1
                                           = map (retarget (rw_info st)) (store_targets x))
                            seq seq').
      { eapply Forall2_impl; [exact HF|]. cbn.
        intros x y (s0 & [HR1 HR2] & HG1 & HG2). split; [exact HG1|].
        apply HG2; congruence. }
      assert (E : store_targets (SeqStmt (map fst seq'))
                  = map (retarget (rw_info st)) (store_targets (SeqStmt seq))).
      { apply store_targets_seq. apply Forall2_fmap_r.
        eapply Forall2_impl; [exact HF'|]. cbn. tauto. }
      destruct (existsb snd seq') eqn:Ec; cbn [fst]; [exact E|].
      rewrite (map_fst_unchanged seq seq') in E; [exact E| |exact Ec].
      eapply Forall2_impl; [exact HF'|]. cbn. tauto.
    + apply Forall_forall. intros x Hx s y s' Hv.
      rewrite Forall_forall in IH. specialize (IH x Hx _ _ _ Hv).
      apply (proj1 CacheWrite_rewriter_state) in Hv as (Hp & Hfl & Hu).
      split; [split; assumption|]. split; [exact Hu|].
      intros Hf' Hp'. rewrite IH; [|exact Hf'|].
      * rewrite (retarget_plan _ _ Hp'). reflexivity.
      * eapply site_outside_plan; [exact Hp'|]. eapply site_outside_seq; eassumption.
  - (* IfThenElse *)
    intros c t e IHt IHe st r st' H Hf Hs. cbn [CacheWrite_VisitStmt] in H.
    minv H; use_state; use_IH1; cbn [fst snd] in *.
    all: fire_IH.
    all: destruct (_ || _ || _) eqn:Ec; cbn [fst]; [|unchanged Ec].
    all: cbn [store_targets]; rewrite ?map_app; cbn [map]; congruence.
  - (* For *)
    intros a v mn ext k body IH st r st' H Hf Hs. cbn [CacheWrite_VisitStmt] in H.
    minv H; use_state; use_IH1; cbn [fst snd] in *; fire_IH; prim_inv.
    all: match goal with
         | HI : insert_into_loop _ _ _ = _ |- _ =>
             apply insert_into_loop_miss in HI as [-> ->]; [|miss_site]
         end.
    all: cbn [fst store_targets]; assumption || (unchanged E; assumption).
  - (* BlockRealize *)
    intros vals pred b IH st r st' H Hf Hs. cbn [CacheWrite_VisitStmt] in H.
    fold (CacheWrite_VisitBlock scope_sref writer_block_sref) in H.
    minv H; use_state; use_IH1; cbn [fst snd] in *.
    specialize (Hv ltac:(rewrite Hf; reflexivity) Hs).
    destruct (_ || _ || _) eqn:Ec; cbn [fst]; [|unchanged Ec]; exact Hv.
  - (* BlockStmt *)
    intros b IH st r st' H Hf Hs. cbn [CacheWrite_VisitStmt] in H.
    fold (CacheWrite_VisitBlock scope_sref writer_block_sref) in H.
    minv H; use_state; use_IH1; cbn [fst snd] in *.
    apply (Hv ltac:(rewrite Hf; reflexivity) Hs).
  - (* Block *)
    intros a ivs rs ws n body init al mb IHbody IHinit st r st' H Hf Hs.
    cbn [CacheWrite_VisitBlock] in H.
    fold (CacheWrite_VisitStmt scope_sref writer_block_sref) in H.
    cbn [block_addr] in Hf.
    minv H.
    { exfalso. apply andb_prop in E as [E E3]. apply andb_prop in E as [E1 E2].
      apply negb_true_iff in E1, E3. rewrite E1, E3 in Hf. discriminate Hf. }
    all: cbn beta iota in IHinit; use_state; use_IH1.
    all: match goal with
         | Hx : context [set_rw_flag ?u _] |- _ =>
             lazymatch u with
             | _ || _ => assert (Hu : u = true) by exact Hf; rewrite Hu in *; clear Hu
             end
         end.
    all: cbn [rw_info rw_flag set_rw_flag fst snd] in *; fire_IH.
    all: repeat match goal with
        | Hr : rebuild_block _ _ _ _ _ _ _ _ _ = _ |- _ =>
            pose proof (rebuild_block_cases _ _ _ _ _ _ _ _ _ _ _ Hr) as Hrb;
            apply rebuild_block_inv in Hr as (? & ? & _)
        | Hr : insert_into_block _ _ _ = _ |- _ =>
            apply insert_into_block_miss in Hr as [-> ->]; [|miss_site]
        | Hr : copy_block _ _ _ = _ |- _ =>
            apply copy_block_inv in Hr as (? & ? & ? & ->)
        end.
    all: destruct Hrb as [[Ec ->]|[_ [? ->]]]; [unchanged Ec|].
    all: cbn [fst store_targets_block with_addr with_alloc_pushed with_accesses
                  block_init block_body];
      rewrite ?map_app; cbn [map]; congruence.
Qed.

(** A block of the scope is a block of the statement. *)
Lemma scope_blocks_blocks_of (s : Stmt) :
  forall B, B ∈ scope_blocks s -> B ∈ blocks_of s.
Proof.
  apply (Stmt_ind_nested (fun s => forall B, B ∈ scope_blocks s -> B ∈ blocks_of s)
                         (fun _ => True)); try (intros; exact I).
  - intros b v i B H. inversion H.
  - intros v B H. inversion H.
  - intros seq IH B H. cbn [scope_blocks] in H.
    apply elem_of_concat_map in H as (x & Hx & H). apply elem_of_blocks_of_seq.
    exists x. split; [exact Hx|]. rewrite Forall_forall in IH. apply (IH x Hx), H.
  - intros c t e IHt IHe B H. cbn [scope_blocks blocks_of] in *.
    apply elem_of_app in H as [H|H]; apply elem_of_app; [left; auto|right].
    destruct e; [auto|inversion H].
  - intros a v mn ext k body IH B H. cbn [scope_blocks blocks_of] in *. auto.
  - intros vals pred b _ B H. apply list_elem_of_singleton in H. subst B.
    cbn [blocks_of]. rewrite blocks_of_block_eq. left.
  - intros b _ B H. apply list_elem_of_singleton in H. subst B.
    cbn [blocks_of]. rewrite blocks_of_block_eq. left.
Qed.

(** The rewriter keeps the name of a block. *)
Lemma CacheWrite_VisitBlock_name_hint (b : Block) st r st' :
  CacheWrite_VisitBlock scope_sref writer_block_sref b st = (Ok r, st') ->
  block_name_hint r.1 = block_name_hint b.
Proof.
  destruct b as [a ivs rs ws n body init al mb]. intros H.
  cbn [CacheWrite_VisitBlock] in H.
  fold (CacheWrite_VisitStmt scope_sref writer_block_sref) in H.
  minv H; [reflexivity|..].
  all: repeat match goal with
         | Hr : rebuild_block _ _ _ _ _ _ _ _ _ = _ |- _ =>
             apply rebuild_block_inv in Hr as (_ & _ & Hrb)
         | Hr : insert_into_block _ _ _ = _ |- _ =>
             apply insert_into_block_inv in Hr as (_ & _ & ? & _ & Hib)
         | Hr : copy_block _ _ _ = _ |- _ =>
             apply copy_block_inv in Hr as (_ & _ & ? & ->)
         end.
  all: cbn [fst].
  all: destruct Hib as [[_ ->]|(_ & ? & ? & ? & ? & _ & _ & ->)];
    destruct Hrb as [->|[? ->]]; reflexivity.
Qed.

(** The visit of a statement outside the writer reaches every block of the
    scope that is the writer: the statement returned holds a block of the
    writer's name in which each store of the writer is in its place,
    retargeted. *)
Lemma CacheWrite_reaches_writer :
  forall s st r st',
    CacheWrite_VisitStmt scope_sref writer_block_sref s st = (Ok r, st') ->
    rw_flag st = false ->
    forall W,
      W ∈ scope_blocks s ->
      ptr_eqb (PtrBlock (block_addr W)) (stmt_ptr (sref_stmt writer_block_sref)) = true ->
      site_outside (rw_info st) (BlockStmt W) ->
      exists W',
        W' ∈ blocks_of r.1
        /\ block_name_hint W' = block_name_hint W
        /\ store_targets_block W' = map (retarget (rw_info st)) (store_targets_block W).
Proof.
  apply (Stmt_ind_nested
           (fun s => forall st r st',
                CacheWrite_VisitStmt scope_sref writer_block_sref s st = (Ok r, st') ->
                rw_flag st = false ->
                forall W,
                  W ∈ scope_blocks s ->
                  ptr_eqb (PtrBlock (block_addr W)) (stmt_ptr (sref_stmt writer_block_sref))
                  = true ->
                  site_outside (rw_info st) (BlockStmt W) ->
                  exists W',
                    W' ∈ blocks_of r.1
                    /\ block_name_hint W' = block_name_hint W
                    /\ store_targets_block W'
                       = map (retarget (rw_info st)) (store_targets_block W))
           (fun _ => True)); try (intros; exact I).
  - (* BufferStore *)
    intros b v i st r st' H Hf W HW. inversion HW.
  - (* Evaluate *)
    intros v st r st' H Hf W HW. inversion HW.
  - (* SeqStmt *)
    intros seq IH st r st' H Hf W HW Hw Hs. cbn [CacheWrite_VisitStmt] in H.
    apply bind_inv in H as (seq' & s1 & Hm & H). minv H.
    eapply (mapM_Forall_inv _
              (fun s s' => plan_of (rw_info s') = plan_of (rw_info s)
                           /\ rw_flag s' = rw_flag s)
              (fun x y s0 =>
                 (y.2 = false -> y.1 = x)
                 /\ (rw_flag s0 = false ->
                     forall W,
                       W ∈ scope_blocks x ->
                       ptr_eqb (PtrBlock (block_addr W))
                               (stmt_ptr (sref_stmt writer_block_sref)) = true ->
                       site_outside (rw_info s0) (BlockStmt W) ->
                       exists W',
                         W' ∈ blocks_of y.1
                         /\ block_name_hint W' = block_name_hint W
                         /\ store_targets_block W'
                            = map (retarget (rw_info s0)) (store_targets_block W))))
      in Hm as [_ HF];
      [| split; reflexivity | intros ? ? ? [? ?] [? ?]; split; congruence | ].
    + assert (Hseq : blocks_of (if existsb snd seq' then (SeqStmt (map fst seq'), true)
                                else (SeqStmt seq, false)).1
                     = blocks_of (SeqStmt (map fst seq'))).
      { destruct (existsb snd seq') eqn:Ec; [reflexivity|]. cbn [fst].
        rewrite (map_fst_unchanged seq seq'); [reflexivity| |exact Ec].
        eapply Forall2_impl; [exact HF|]. cbn. intros x y (s0 & _ & Hu & _). exact Hu. }
      rewrite Hseq. cbn [scope_blocks] in HW.
      apply elem_of_concat_map in HW as (x & Hx & HW).
      apply list_elem_of_lookup in Hx as [i Hi].
      destruct (Forall2_lookup_l _ _ _ _ _ HF Hi) as (y & Hy & s0 & [HR1 HR2] & _ & HG).
      destruct (HG ltac:(congruence) W HW Hw) as (W' & HW' & Hn & Ht).
      { eapply site_outside_plan; [exact HR1|exact Hs]. }
      exists W'. split; [|split; [exact Hn|]].
      * apply elem_of_blocks_of_seq. exists y.1. split; [|exact HW'].
        apply list_elem_of_lookup. exists i. rewrite list_lookup_fmap, Hy. reflexivity.
      * rewrite Ht, (retarget_plan _ _ HR1). reflexivity.
    + apply Forall_forall. intros x Hx s y s' Hv.
      rewrite Forall_forall in IH. specialize (IH x Hx _ _ _ Hv).
      apply (proj1 CacheWrite_rewriter_state) in Hv as (Hp & Hfl & Hu).
      split; [split; assumption|]. split; [exact Hu|]. exact IH.
  - (* IfThenElse *)
    intros c t e IHt IHe st r st' H Hf W HW Hw Hs. cbn [CacheWrite_VisitStmt] in H.
    cbn [scope_blocks] in HW.
    minv H; use_state; cbn [fst snd] in *.
    all: apply elem_of_app in HW as [HW|HW]; [|try (inversion HW; fail)].
    all: match goal with
         | Hv : CacheWrite_VisitStmt _ _ ?x ?s0 = (Ok _, _), HW : ?w ∈ scope_blocks ?x |- _ =>
             first [ destruct (IHt _ _ _ Hv ltac:(cbn [rw_flag] in *; congruence) w HW Hw)
                       as (W' & HW' & Hn & Ht)
                   | destruct (IHe _ _ _ Hv ltac:(cbn [rw_flag] in *; congruence) w HW Hw)
                       as (W' & HW' & Hn & Ht) ];
             [ eapply site_outside_plan; [|exact Hs];
               cbn [rw_info] in *; unfold plan_of in *; congruence
             | exists W'; split; [|split; [exact Hn|]] ]
         end.
    all: try (rewrite Ht; f_equal; apply retarget_plan;
              cbn [rw_info] in *; unfold plan_of in *; congruence).
    all: destruct (_ || _ || _) eqn:Ec; cbn [fst blocks_of]; [|unchanged Ec].
    all: cbn [fst snd blocks_of] in *; apply elem_of_app; auto.
  - (* For *)
    intros a v mn ext k body IH st r st' H Hf W HW Hw Hs. cbn [CacheWrite_VisitStmt] in H.
    cbn [scope_blocks] in HW.
    minv H; use_state; prim_inv.
    all: match goal with
         | Hv : CacheWrite_VisitStmt _ _ _ ?s0 = (Ok _, _), HW : ?w ∈ scope_blocks _ |- _ =>
             destruct (IH _ _ _ Hv ltac:(cbn [rw_flag] in *; congruence) w HW Hw)
               as (W' & HW' & Hn & Ht);
             [ eapply site_outside_plan; [|exact Hs];
               cbn [rw_info] in *; unfold plan_of in *; congruence | ]
         end.
    all: exists W'; split; [|split; [exact Hn|]];
      [| rewrite Ht; f_equal; apply retarget_plan;
         cbn [rw_info] in *; unfold plan_of in *; congruence ].
    all: match goal with
         | HI : insert_into_loop _ _ _ = _ |- _ =>
             apply insert_into_loop_inv in HI
               as (_ & _ & [-> | (stage & a0' & v' & mn' & ext' & kind' & body0 & body'
                                  & a' & s0' & Hstmt & Hstage & Hins & ->)])
         end.
    all: try (cbn [fst] in Hstmt; inversion Hstmt; subst;
              apply InsertCacheStage_inv in Hins as (_ & Hins & _)).
    all: cbn [fst snd blocks_of] in *.
    all: repeat match goal with
           | Ho : _ || _ = false |- _ => apply orb_false_elim in Ho as [? ?]
           end;
      subst;
      repeat match goal with
        | Hu : false = false -> _ |- _ => specialize (Hu eq_refl)
        end;
      subst.
    all: first [exact HW' | apply Hins; exact HW'].
  - (* BlockRealize *)
    intros vals pred b _ st r st' H Hf W HW Hw Hs. cbn [CacheWrite_VisitStmt] in H.
    fold (CacheWrite_VisitBlock scope_sref writer_block_sref) in H.
    apply list_elem_of_singleton in HW. subst W.
    minv H; use_state; cbn [fst snd] in *.
    match goal with
    | Hv : CacheWrite_VisitBlock _ _ _ ?s0 = (Ok ?y, _) |- _ =>
        exists y.1; split; [|split; [exact (CacheWrite_VisitBlock_name_hint _ _ _ _ Hv)|]];
        [| apply (proj2 CacheWrite_rewriter_stores _ _ _ _ Hv);
           [rewrite Hw; apply orb_true_r|exact Hs] ]
    end.
    destruct (_ || _ || _) eqn:Ec; cbn [fst blocks_of]; [|unchanged Ec].
    all: cbn [fst snd] in *; rewrite blocks_of_block_eq; left.
  - (* BlockStmt *)
    intros b _ st r st' H Hf W HW Hw Hs. cbn [CacheWrite_VisitStmt] in H.
    fold (CacheWrite_VisitBlock scope_sref writer_block_sref) in H.
    apply list_elem_of_singleton in HW. subst W.
    minv H; cbn [fst snd] in *.
    match goal with
    | Hv : CacheWrite_VisitBlock _ _ _ ?s0 = (Ok ?y, _) |- _ =>
        exists y.1; split; [|split; [exact (CacheWrite_VisitBlock_name_hint _ _ _ _ Hv)|]];
        [| apply (proj2 CacheWrite_rewriter_stores _ _ _ _ Hv);
           [rewrite Hw; apply orb_true_r|exact Hs] ]
    end.
    cbn [fst blocks_of]. rewrite blocks_of_block_eq. left.
Qed.

(** The visit of the scope root, a block other than the writer: its body is
    visited outside the writer, and the blocks of the body returned are blocks
    of the new root. *)
Lemma CacheWrite_root_visit (root : Block) st r st' :
  ptr_eqb (PtrBlock (block_addr root)) (stmt_ptr (sref_stmt scope_sref)) = true ->
  ptr_eqb (PtrBlock (block_addr root)) (stmt_ptr (sref_stmt writer_block_sref)) = false ->
  rw_flag st = false ->
  CacheWrite_VisitBlock scope_sref writer_block_sref root st = (Ok r, st') ->
  exists st0 body' st1,
    plan_of (rw_info st0) = plan_of (rw_info st)
    /\ rw_flag st0 = false
    /\ CacheWrite_VisitStmt scope_sref writer_block_sref (block_body root) st0
       = (Ok body', st1)
    /\ forall B, B ∈ blocks_of body'.1 -> B ∈ blocks_of_block r.1.
Proof.
  destruct root as [a ivs rs ws n body init al mb]. cbn [block_addr block_body].
  intros Hsc Hwr Hf H.
  cbn [CacheWrite_VisitBlock] in H.
  fold (CacheWrite_VisitStmt scope_sref writer_block_sref) in H.
  minv H.
  { rewrite Hsc in E. cbn [negb] in E. rewrite andb_false_r in E. discriminate E. }
  all: cbn [ptr_eqb] in Hwr; rewrite Hwr, Hf in *; cbn [orb] in *.
  all: use_state.
  all: match goal with
       | Hv : CacheWrite_VisitStmt _ _ ?x ?s0 = (Ok ?y, ?s1)
         |- exists _ _ _, _ /\ _ /\ CacheWrite_VisitStmt _ _ ?x _ = _ /\ _ =>
           exists s0, y, s1; split; [|split; [|split; [exact Hv|]]]
       end.
  all: try (cbn [rw_info rw_flag set_rw_flag] in *; unfold plan_of in *; congruence).
  all: repeat match goal with
         | Hr : rebuild_block _ _ _ _ _ _ _ _ _ = _ |- _ =>
             pose proof (rebuild_block_cases _ _ _ _ _ _ _ _ _ _ _ Hr) as Hrb;
             apply rebuild_block_inv in Hr as (_ & _ & _)
         | Hr : insert_into_block _ _ _ = _ |- _ =>
             apply insert_into_block_inv in Hr as (_ & _ & ? & _ & Hib)
         | Hr : copy_block _ _ _ = _ |- _ =>
             apply copy_block_inv in Hr as (_ & _ & ? & ->)
         end.
  all: intros B HB; rewrite blocks_of_block_eq; right; unfold child_blocks.
  all: cbn [fst with_addr with_alloc_pushed block_init block_body].
  all: apply elem_of_app; right.
  all: destruct Hib as [[_ ->]|(_ & ? & ? & ? & ? & _ & Hins & ->)];
    [|apply InsertCacheStage_inv in Hins as (_ & Hins & _); apply Hins];
    cbn [fst with_addr with_body block_body].
  all: cbn [fst snd] in *.
  all: destruct Hrb as [[Ec ->]|[_ [? ->]]]; cbn [fst block_body]; [unchanged Ec|]; exact HB.
Qed.

End CacheWrite_frame.


(** ** CacheWrite and the writer's subtree *)

Lemma Detect_inv {S} (self : ScheduleState) (block_sref scope_sref : StmtSRef)
    (info info' : CacheStageInfo) (st st' : S) :
  Detect self block_sref scope_sref info st = (Ok info', st') ->
  exists r p, info' = set_loc r p info.
Proof.
  unfold Detect. intros H.
  apply bind_inv in H as (related & s1 & _ & H).
  destruct (negb _).
  - destruct (detector_VisitStmt _ _ _ _ _ _) as [res d]. minv H. eauto.
  - minv H. eauto.
Qed.

Lemma WithScope_inv (buffer new_buffer : Buffer) (scope : string) (w w' : World) :
  on_heap (WithScope buffer scope) w = (Ok new_buffer, w') ->
  buf_scope new_buffer = scope
  /\ buf_shape new_buffer = buf_shape buffer
  /\ buf_dtype new_buffer = buf_dtype buffer.
Proof.
  intros H. apply on_heap_inv in H as [H _].
  unfold WithScope, new_addr, new_Var in H. cbn in H. inversion H. auto.
Qed.

Section WriterSubtree.

Variable GetBlockRealize : ScheduleState -> StmtSRef -> Res Realize.
Variable AnalyzeRegionUpperBound :
  BufferRegion -> PrimExpr -> StmtSRef -> option StmtSRef -> list IntSet.
Variable CheckStorageScope : ScheduleState -> string -> Res unit.
Variable GetScopeRoot : ScheduleState -> StmtSRef -> bool -> Res StmtSRef.

(** C7 (as amended). Let the steps of [CacheWrite] before the commit return,
    for the write of [buffer] by the block at [block_sref].  The plan then
    writes [buffer] through a new buffer of the same shape in the storage
    scope asked for.  Every block of the old scope subtree that is not the
    writer, does not lie inside the writer and is not the scope root is a
    block of the new subtree, the same object with the accesses it had.  And
    when the writer is a block of the scope, in the body of the scope root
    outside any other block, with the insertion site outside of it, the new
    subtree holds a block of the writer's name in which every store of the
    writer is in its place and retargeted: a store to [buffer] has become a
    store to the cache buffer, any other store keeps its target. *)
Theorem CacheWrite_writer_subtree_only
    (block_sref scope_sref : StmtSRef) (block : Block) (write_buffer_index : Z)
    (storage_scope : string) (w w' : World) (buffer : Buffer)
    (cache_write_stage : Block) (new_scope : Stmt) (info : CacheStageInfo) :
  sref_stmt block_sref = BlockStmt block ->
  nth_access_is (block_writes block) write_buffer_index buffer ->
  CacheWrite_build GetBlockRealize AnalyzeRegionUpperBound CheckStorageScope GetScopeRoot
                   block_sref write_buffer_index storage_scope w
  = (Ok (scope_sref, cache_write_stage, new_scope, info), w') ->
  (write_buffer info = buffer
   /\ buf_scope (read_buffer info) = storage_scope
   /\ buf_shape (read_buffer info) = buf_shape buffer
   /\ retarget info buffer = read_buffer info)
  /\ (forall B,
         B ∈ blocks_outside (stmt_ptr (sref_stmt block_sref)) (sref_stmt scope_sref) ->
         ptr_eqb (PtrBlock (block_addr B)) (stmt_ptr (sref_stmt scope_sref)) = false ->
         B ∈ blocks_of new_scope)
  /\ (forall root,
         sref_stmt scope_sref = BlockStmt root ->
         block_addr root <> block_addr block ->
         block ∈ scope_blocks (block_body root) ->
         site_outside info (BlockStmt block) ->
         exists block',
           block' ∈ blocks_of new_scope
           /\ block_name_hint block' = block_name_hint block
           /\ store_targets_block block'
              = map (retarget info) (store_targets_block block)).
Proof.
  intros Hblock Hnth H.
  unfold CacheWrite_build in H. minv H.
  unfold TVM_SREF_TO_BLOCK in *. rewrite Hblock in *.
  repeat match goal with
         | Hx : ret _ _ = (Ok _, _) |- _ => minv Hx
         end.
  match goal with
  | Hx : GetNthAccessBuffer _ _ _ _ _ = _ |- _ =>
      rewrite (GetNthAccessBuffer_nth _ _ _ kWrite _ _ Hnth) in Hx;
      injection Hx as <- <-
  end.
  match goal with
  | Hx : on_heap (WithScope _ _) _ = _ |- _ =>
      apply WithScope_inv in Hx as (Hsc & Hsh & _)
  end.
  match goal with
  | Hx : Detect _ _ _ _ _ = _ |- _ => apply Detect_inv in Hx as (loc & pos & ->)
  end.
  match goal with
  | Hx : on_heap (MakeCacheStage ?r ?i ?sc) ?s5 = _ |- _ =>
      apply on_heap_inv in Hx as [Hm _];
      destruct (MakeCacheStage_spec r i sc (w_heap s5))
        as (blk & hs & idx & stage & lvs & Em & _);
      rewrite Em in Hm; inversion Hm; subst; clear Hm Em
  end.
  match goal with
  | Hx : on_heap (CacheWriteRewriter_Rewrite _ _ _) _ = _ |- _ =>
      apply on_heap_inv in Hx as [Hrw _]; unfold CacheWriteRewriter_Rewrite in Hrw
  end.
  match type of Hrw with
  | (let '(_, _) := ?v in _) = _ => destruct v as [[[stmt ch]|e] st1] eqn:Ev
  end; inversion Hrw; subst; clear Hrw.
  pose proof (proj1 (CacheWrite_rewriter_state scope_sref block_sref) _ _ _ _ Ev)
    as (Hplan & _ & _).
  cbn [rw_info] in Hplan.
  assert (Hbuf : read_buffer (rw_info st1) = a3 /\ write_buffer (rw_info st1) = buffer).
  { unfold plan_of in Hplan. inversion Hplan. cbn. auto. }
  destruct Hbuf as [Hrb Hwb].
  split; [|split].
  - rewrite Hrb. do 3 (split; [first [assumption|reflexivity]|]).
    unfold retarget. rewrite Hwb, Hrb. unfold buffer_same_as. rewrite Nat.eqb_refl.
    reflexivity.
  - intros B HB Hns. rewrite <- Hblock in HB.
    apply (proj1 (CacheWrite_rewriter_frame scope_sref block_sref) _ _ _ _ Ev eq_refl B HB Hns).
  - intros root Hroot Hne Hin Hsite.
    rewrite Hroot in Ev. cbn [CacheWrite_VisitStmt] in Ev.
    fold (CacheWrite_VisitBlock scope_sref block_sref) in Ev.
    apply bind_inv in Ev as ([root' c] & sr & Hv & Er). minv Er.
    eapply CacheWrite_root_visit in Hv as (st0 & body' & sb & Hp0 & Hf0 & Hvb & Hsub);
      [| rewrite Hroot; cbn; apply Nat.eqb_refl
       | rewrite Hblock; cbn; apply Nat.eqb_neq; exact Hne
       | reflexivity ].
    cbn [rw_info] in Hp0.
    assert (Hpi : plan_of (rw_info st0) = plan_of (rw_info st1)) by congruence.
    eapply CacheWrite_reaches_writer in Hvb as (W' & HW' & Hn & Ht);
      [| exact Hf0 | exact Hin
       | rewrite Hblock; cbn; apply Nat.eqb_refl
       | eapply site_outside_plan; [exact Hpi|exact Hsite] ].
    exists W'. split; [|split; [exact Hn|]].
    + cbn [blocks_of fst]. apply Hsub, HW'.
    + rewrite Ht, (retarget_plan _ _ Hpi). reflexivity.
Qed.

End WriterSubtree.

Lemma CacheWrite_writer_subtree_only_witness :
  exists w' stage new_scope info block',
    CacheWrite_build Scenario.GetBlockRealize Scenario.AnalyzeRegionUpperBound
                     Scenario.CheckStorageScope Scenario.GetScopeRoot
                     Scenario.C_sref 0 "local" Scenario.world
    = (Ok (Scenario.root_sref, stage, new_scope, info), w')
    /\ write_buffer info = Scenario.B
    /\ buf_scope (read_buffer info) = "local"
    /\ Scenario.D ∈ blocks_of new_scope
    /\ block' ∈ blocks_of new_scope
    /\ block_name_hint block' = "C"
    /\ store_targets_block block' = [read_buffer info].
Proof.
  destruct (CacheWrite_build Scenario.GetBlockRealize Scenario.AnalyzeRegionUpperBound
              Scenario.CheckStorageScope Scenario.GetScopeRoot
              Scenario.C_sref 0 "local" Scenario.world)
    as [[[[[scope stage] new_scope] info]|e] w'] eqn:E; [|vm_compute in E; discriminate E].
  assert (scope = Scenario.root_sref) as ->.
  { vm_compute in E. inversion E. reflexivity. }
  destruct (CacheWrite_writer_subtree_only
              Scenario.GetBlockRealize Scenario.AnalyzeRegionUpperBound
              Scenario.CheckStorageScope Scenario.GetScopeRoot
              Scenario.C_sref Scenario.root_sref Scenario.C 0 "local" Scenario.world w'
              Scenario.B stage new_scope info)
    as ((Hwb & Hsc & _ & Hre) & Hframe & Hwriter).
  - reflexivity.
  - split; [lia|reflexivity].
  - exact E.
  - assert (Hloc : loc_sref info = Some Scenario.loop_sref).
    { vm_compute in E. inversion E. reflexivity. }
    destruct (Hwriter Scenario.root) as (block' & Hin & Hn & Ht).
    + reflexivity.
    + cbn. lia.
    + cbn. set_solver.
    + intros loc Hl. rewrite Hloc in Hl. injection Hl as <-. reflexivity.
    + exists w', stage, new_scope, info, block'.
      do 3 (split; [first [reflexivity|assumption]|]).
      split; [apply Hframe; [cbn; set_solver|reflexivity]|].
      split; [exact Hin|]. split; [exact Hn|].
      rewrite Ht. cbn [Scenario.C store_targets_block store_targets app map]. rewrite Hre.
      reflexivity.
Defined.

(** C7, the claim as stated, fails: it has the accesses outside the writer's
    subtree unchanged.  Put a guard [0 < B[i]] on the consumer [D], as the
    predicate of its block realize: a load of [B] outside the writer [C] and
    outside any block but the scope root.  [CacheWrite] of [B] at [C] returns
    a scope subtree in which the block [D] is the same object, and the guard
    on it loads from the cache buffer, a buffer other than [B]. *)
Lemma CacheWrite_retargets_guard_outside_writer :
  exists w' stage root' info,
    CacheWrite_build GuardedConsumer.GetBlockRealize Scenario.AnalyzeRegionUpperBound
                     Scenario.CheckStorageScope GuardedConsumer.GetScopeRoot
                     GuardedConsumer.C_sref 0 "local" GuardedConsumer.world
    = (Ok (GuardedConsumer.root_sref, stage, BlockStmt root', info), w')
    /\ write_buffer info = Scenario.B
    /\ buffer_same_as (read_buffer info) Scenario.B = false
    /\ Scenario.D ∈ blocks_outside (stmt_ptr (sref_stmt GuardedConsumer.C_sref))
                                   (sref_stmt GuardedConsumer.root_sref)
    /\ ([EVar Scenario.i],
        Bin OpLT (IntImm Scenario.f32 0) (BufferLoad Scenario.B [EVar Scenario.i]),
        Scenario.D) ∈ scope_realizes (block_body GuardedConsumer.root)
    /\ ([EVar Scenario.i],
        Bin OpLT (IntImm Scenario.f32 0) (BufferLoad (read_buffer info) [EVar Scenario.i]),
        Scenario.D) ∈ scope_realizes (block_body root').
Proof.
  destruct (CacheWrite_build GuardedConsumer.GetBlockRealize Scenario.AnalyzeRegionUpperBound
              Scenario.CheckStorageScope GuardedConsumer.GetScopeRoot
              GuardedConsumer.C_sref 0 "local" GuardedConsumer.world)
    as [[[[[scope stage] new_scope] info]|e] w'] eqn:E; vm_compute in E; [|discriminate E].
  inversion E; subst; clear E.
  do 4 eexists. split; [reflexivity|].
  split; [reflexivity|]. split; [reflexivity|].
  split; [cbn; set_solver|].
  split; [cbn; set_solver|].
  cbn. set_solver.
Qed.

(** * Further properties of the code *)

(** ** GetBufferRegionFromBuffer *)

(** X1. [GetBufferRegionFromBuffer] finds the region of the buffer when the
    list has exactly one, finds nothing when the list has none, and fails its
    check when the list has two or more regions of the buffer. *)
Theorem GetBufferRegionFromBuffer_cases (buffer_regions : list BufferRegion) (buffer : Buffer) :
  GetBufferRegionFromBuffer buffer_regions buffer
  = match regions_of buffer buffer_regions with
    | [] => Ok None
    | [region] => Ok (Some region)
    | _ :: _ :: _ => Err (InternalError "!res.defined()")
    end.
Proof.
  unfold GetBufferRegionFromBuffer, regions_of.
  set (f := fun (res : Res (option BufferRegion)) (region : BufferRegion) => _).
  set (sel := fun l : list BufferRegion =>
                match l with
                | [] => Ok None
                | [region] => Ok (Some region)
                | _ :: _ :: _ => Err (InternalError "!res.defined()")
                end).
  change (foldl f (sel []) buffer_regions
          = sel ([] ++ filter (fun region => buffer_same_as (br_buffer region) buffer = true)
                              buffer_regions)).
  generalize (@nil BufferRegion) as pre.
  induction buffer_regions as [|x l IH]; intros pre.
  - cbn. rewrite app_nil_r. reflexivity.
  - cbn [foldl]. rewrite filter_cons.
    destruct (decide (buffer_same_as (br_buffer x) buffer = true)) as [E|E].
    + replace (f (sel pre) x) with (sel (pre ++ [x])).
      * rewrite IH, <- app_assoc. reflexivity.
      * subst f sel. cbn beta. destruct pre as [|a [|b pre]]; cbn; rewrite ?E; reflexivity.
    + replace (f (sel pre) x) with (sel pre).
      * apply IH.
      * apply not_true_is_false in E. subst f sel. cbn beta.
        destruct pre as [|a [|b pre]]; cbn; rewrite ?E; reflexivity.
Qed.

(** ** InsertCacheStage *)

(** X2. [InsertCacheStage] at a position from 0 to the number of children of
    the statement (its elements when it is a sequence, the statement alone
    otherwise) returns a sequence with one more child: the stage stands at the
    position, and taking it out again gives the children back, in their
    order.  On a statement that is not a sequence, any position other than 0
    and 1 fails the check [pos == 1]. *)
Theorem InsertCacheStage_inserts {S} (stmt stage : Stmt) (pos : Z) (st : S) :
  ((0 ≤ pos ≤ Z.of_nat (length (body_children stmt)))%Z ->
   exists result,
     InsertCacheStage stmt pos stage st = (Ok (SeqStmt result), st)
     /\ length result = length (body_children stmt) + 1
     /\ result !! Z.to_nat pos = Some stage
     /\ delete (Z.to_nat pos) result = body_children stmt)
  /\ (is_SeqStmt stmt = false -> pos <> 0%Z -> pos <> 1%Z ->
      InsertCacheStage stmt pos stage st = (Err (InternalError "pos == 1"), st)).
Proof.
  split.
  - intros Hpos.
    exists (take (Z.to_nat pos) (body_children stmt)
            ++ stage :: drop (Z.to_nat pos) (body_children stmt)).
    assert (Hlen : length (take (Z.to_nat pos) (body_children stmt)) = Z.to_nat pos).
    { rewrite length_take. lia. }
    split; [|split; [|split]].
    + destruct stmt; cbn [InsertCacheStage body_children] in *;
        try (cbn [length] in Hpos; assert (pos = 0 \/ pos = 1)%Z as [-> | ->] by lia;
             reflexivity).
      unfold seq_insert. rewrite bool_decide_eq_true_2 by exact Hpos. reflexivity.
    + rewrite length_app. cbn [length]. rewrite length_take, length_drop. lia.
    + rewrite lookup_app_r by lia. rewrite Hlen, Nat.sub_diag. reflexivity.
    + rewrite <- Hlen at 1. rewrite delete_middle. apply take_drop.
  - intros Hseq H0 H1. destruct stmt; try discriminate Hseq.
    all: cbn [InsertCacheStage].
    all: destruct (Z.eqb_spec pos 0); [contradiction|].
    all: destruct (Z.eqb_spec pos 1); [contradiction|reflexivity].
Qed.

Lemma InsertCacheStage_inserts_witness :
  exists result,
    InsertCacheStage Scenario.loop_body 1 (Evaluate (Scenario.c 0)) Scenario.world
    = (Ok (SeqStmt result), Scenario.world)
    /\ length result = 3
    /\ result !! 1 = Some (Evaluate (Scenario.c 0))
    /\ delete 1 result = body_children Scenario.loop_body.
Proof.
  destruct (InsertCacheStage_inserts Scenario.loop_body (Evaluate (Scenario.c 0)) 1
                                     Scenario.world) as [H _].
  apply H. cbn. lia.
Defined.

(** ** The position between the detector, the plan and the insertion *)

(** X3. The position found by the detector is an [int], the plan keeps it as
    a [size_t] and [InsertCacheStage] takes it as an [int] again: the two
    conversions give back every [int], the value -1 of a position never
    assigned included. *)
Theorem loc_pos_round_trip (pos : Z) :
  (- 2 ^ 31 ≤ pos < 2 ^ 31)%Z -> to_int (to_size_t pos) = pos.
Proof.
  intros H. unfold to_int, to_size_t.
  assert (E : ((pos mod 2 ^ 64 + 2 ^ 31) mod 2 ^ 32 = pos + 2 ^ 31)%Z); [|lia].
  destruct (Z_lt_le_dec pos 0) as [Hn|Hp].
  - assert (E1 : (pos mod 2 ^ 64 = pos + 2 ^ 64)%Z).
    { symmetry. apply Z.mod_unique with (q := (-1)%Z); lia. }
    rewrite E1. symmetry. apply Z.mod_unique with (q := (2 ^ 32)%Z); lia.
  - rewrite (Z.mod_small pos) by lia. apply Z.mod_small. lia.
Qed.

Lemma loc_pos_round_trip_witness : to_int (to_size_t (-1)) = (-1)%Z.
Proof. apply loc_pos_round_trip. lia. Defined.

(** ** CheckRegionCover *)

(** X4. On a scope root that is a block, with every consumer of the scope
    known to the schedule state, [CheckRegionCover] passes when every
    consumer has its region-cover flag set, and fails otherwise: the error is
    [NotRegionCoverError] on the block of the scope root, whichever consumer
    lacks the flag.  Either way the state is the one it started from. *)
Theorem CheckRegionCover_decides {S} (self : ScheduleState) (scope_root : StmtSRef)
    (bi : BlockInfo) (scope_block : Block) (st : S) :
  block_info self !! sref_key scope_root = Some bi ->
  sref_stmt scope_root = BlockStmt scope_block ->
  (forall consumer deps,
      dst2deps (bi_scope bi) !! consumer = Some deps ->
      is_Some (block_info self !! consumer)) ->
  (region_cover_holds self (bi_scope bi) ->
   CheckRegionCover self scope_root st = (Ok tt, st))
  /\ (~ region_cover_holds self (bi_scope bi) ->
      CheckRegionCover self scope_root st
      = (Err (NotRegionCoverError (st_mod self) scope_block), st)).
Proof.
  intros Hbi Hblock Hknown. split.
  - intros Hcover. eapply CheckRegionCover_passes; eassumption.
  - intros Hnot. unfold CheckRegionCover, GetBlockScope, block_info_at.
    rewrite Hbi. erewrite bind_Ok by reflexivity.
    assert (Hk : forall kv, kv ∈ map_to_list (dst2deps (bi_scope bi)) ->
                            is_Some (block_info self !! kv.1)).
    { intros [k v] Hin. apply elem_of_map_to_list in Hin. eapply Hknown. exact Hin. }
    assert (Hn : ~ forall kv, kv ∈ map_to_list (dst2deps (bi_scope bi)) ->
                              exists i, block_info self !! kv.1 = Some i
                                        /\ region_cover i = true).
    { intros Hall. apply Hnot. intros consumer deps Hd.
      apply (Hall (consumer, deps)). apply elem_of_map_to_list. exact Hd. }
    revert Hk Hn. generalize (map_to_list (dst2deps (bi_scope bi))). intros l.
    induction l as [|kv l IH]; intros Hk Hn.
    + exfalso. apply Hn. intros kv Hin. inversion Hin.
    + cbn [foldM]. destruct (Hk kv (list_elem_of_here _ _)) as [i Hi].
      destruct (region_cover i) eqn:Hr.
      * erewrite bind_Ok; cycle 1.
        { rewrite Hi, Hr. reflexivity. }
        apply IH.
        -- intros kv' Hin. apply Hk. right. exact Hin.
        -- intros Hall. apply Hn. intros kv' Hin.
           apply elem_of_cons in Hin as [->|Hin]; [eauto|apply Hall; exact Hin].
      * erewrite bind_Err; [reflexivity|].
        rewrite Hi, Hr. cbn [negb]. unfold TVM_SREF_TO_BLOCK. rewrite Hblock. reflexivity.
Qed.

Lemma CheckRegionCover_decides_witness :
  CheckRegionCover (TwoWriters.state true) Scenario.root_sref Scenario.world
  = (Ok tt, Scenario.world)
  /\ CheckRegionCover (TwoWriters.state false) Scenario.root_sref Scenario.world
     = (Err (NotRegionCoverError 0 Scenario.root), Scenario.world).
Proof.
  assert (Hknown : forall cover consumer deps,
             dst2deps TwoWriters.root_scope !! consumer = Some deps ->
             is_Some (block_info (TwoWriters.state cover) !! consumer)).
  { intros cover consumer deps H. cbn in H.
    apply lookup_singleton_Some in H as [<- _]. eexists. reflexivity. }
  split.
  - apply (CheckRegionCover_decides (TwoWriters.state true) Scenario.root_sref
             (mkBlockInfo TwoWriters.root_scope true true) Scenario.root Scenario.world
             eq_refl eq_refl (Hknown true)).
    intros consumer deps H. cbn in H.
    apply lookup_singleton_Some in H as [<- _]. eexists. split; reflexivity.
  - apply (CheckRegionCover_decides (TwoWriters.state false) Scenario.root_sref
             (mkBlockInfo TwoWriters.root_scope true true) Scenario.root Scenario.world
             eq_refl eq_refl (Hknown false)).
    intros Hcover. destruct (Hcover 22 [Scenario.dep_C_D] eq_refl) as (i & Hi & Hr).
    vm_compute in Hi. inversion Hi; subst. discriminate Hr.
Defined.

(** ** CacheWrite on a block that is not the writer of the buffer *)

Section NotTheWriter.

Variable GetBlockRealize : ScheduleState -> StmtSRef -> Res Realize.
Variable AnalyzeRegionUpperBound :
  BufferRegion -> PrimExpr -> StmtSRef -> option StmtSRef -> list IntSet.
Variable CheckStorageScope : ScheduleState -> string -> Res unit.
Variable GetScopeRoot : ScheduleState -> StmtSRef -> bool -> Res StmtSRef.
Variable Replace : ScheduleState -> StmtSRef -> Stmt -> list (Block * Block) -> ScheduleState.
Variable IsAffineBinding : Realize -> StmtSRef -> bool.

(** X5. [CacheWrite] asks for the block to be the one writer of the buffer
    in its scope.  When the scope's writer table has no entry for the buffer,
    or has a single writer that is another block, the call fails the check of
    step 3, before anything is detected or rewritten, and the schedule state
    is the one the call started from. *)
Theorem CacheWrite_not_the_writer
    (block_sref scope_sref : StmtSRef) (block : Block) (write_buffer_index : Z)
    (storage_scope : string) (w : World) (buffer : Buffer) (bi : BlockInfo) :
  CheckStorageScope (w_self w) storage_scope = Ok tt ->
  sref_stmt block_sref = BlockStmt block ->
  nth_access_is (block_writes block) write_buffer_index buffer ->
  GetScopeRoot (w_self w) block_sref false = Ok scope_sref ->
  block_info (w_self w) !! sref_key scope_sref = Some bi ->
  (buffer_writers (bi_scope bi) !! buf_addr buffer = None
   \/ exists writer,
       buffer_writers (bi_scope bi) !! buf_addr buffer = Some [writer]
       /\ sref_same block_sref writer = false) ->
  exists w',
    CacheWrite GetBlockRealize AnalyzeRegionUpperBound CheckStorageScope GetScopeRoot
               Replace IsAffineBinding block_sref write_buffer_index storage_scope w
    = (Err (InternalError "block_sref.get() == GetOnlyWriteBlock(...).get()"), w')
    /\ w_self w' = w_self w.
Proof.
  intros Hscope Hblock Hnth Hroot Hbi Hw.
  destruct w as [h self]. cbn [w_self] in *.
  exists (mkWorld (S (S h)) self). split; [|reflexivity].
  unfold CacheWrite. erewrite bind_Err; [reflexivity|].
  unfold CacheWrite_build.
  erewrite bind_Ok by reflexivity. cbn [w_self].
  rewrite Hscope. erewrite bind_Ok by reflexivity.
  erewrite bind_Ok by (unfold TVM_SREF_TO_BLOCK; rewrite Hblock; reflexivity).
  erewrite bind_Ok by (apply GetNthAccessBuffer_nth; exact Hnth).
  rewrite Hroot. erewrite bind_Ok by reflexivity.
  erewrite bind_Ok by reflexivity.
  destruct Hw as [Hw|(writer & Hw & Hne)].
  - erewrite bind_Ok by (eapply GetOnlyWriteBlock_no_writer; eassumption).
    reflexivity.
  - erewrite bind_Ok; cycle 1.
    { unfold GetOnlyWriteBlock, GetBlockScope, block_info_at.
      rewrite Hbi. erewrite bind_Ok by reflexivity. rewrite Hw. reflexivity. }
    cbn beta iota. rewrite Hne. reflexivity.
Qed.

End NotTheWriter.

Lemma CacheWrite_not_the_writer_witness :
  exists w',
    CacheWrite Scenario.GetBlockRealize Scenario.AnalyzeRegionUpperBound
               Scenario.CheckStorageScope Scenario.GetScopeRoot Scenario.Replace
               Scenario.IsAffineBinding TwoWriters.C2_sref 0 "local" Scenario.world
    = (Err (InternalError "block_sref.get() == GetOnlyWriteBlock(...).get()"), w')
    /\ w_self w' = Scenario.state.
Proof.
  apply (CacheWrite_not_the_writer
           Scenario.GetBlockRealize Scenario.AnalyzeRegionUpperBound
           Scenario.CheckStorageScope Scenario.GetScopeRoot Scenario.Replace
           Scenario.IsAffineBinding TwoWriters.C2_sref Scenario.root_sref TwoWriters.C2
           0 "local" Scenario.world Scenario.B
           (mkBlockInfo Scenario.root_scope true true)).
  - reflexivity.
  - reflexivity.
  - split; [lia|reflexivity].
  - reflexivity.
  - reflexivity.
  - right. exists Scenario.C_sref. split; reflexivity.
Defined.

(** ** The commit and the flags of the stage block *)

Section Commit.

Variable GetBlockRealize : ScheduleState -> StmtSRef -> Res Realize.
Variable Replace : ScheduleState -> StmtSRef -> Stmt -> list (Block * Block) -> ScheduleState.
Variable IsAffineBinding : Realize -> StmtSRef -> bool.


End Commit.


(** ** The detector assigns its findings once *)

Lemma assigned_once_refl (d : DetectorState) : assigned_once d d.
Proof. unfold assigned_once. auto. Qed.

Lemma assigned_once_trans (d1 d2 d3 : DetectorState) :
  assigned_once d1 d2 -> assigned_once d2 d3 -> assigned_once d1 d3.
Proof.
  intros (A1 & A2 & A3) (B1 & B2 & B3). split; [|split].
  - intros H. rewrite B1; [auto|]. rewrite A1; auto.
  - intros H. rewrite B2; [auto|]. rewrite A2; auto.
  - auto.
Qed.

Lemma set_loc_sref_once (r : StmtSRef) (d : DetectorState) :
  negb (bool_decide (is_Some (loc_sref_ d))) = true -> assigned_once d (set_loc_sref_ r d).
Proof.
  intros H. apply negb_true_iff, bool_decide_eq_false in H.
  split; [reflexivity|]. split; [intros Hs; contradiction|auto].
Qed.

Lemma set_loc_pos_once (p : Z) (d : DetectorState) :
  (loc_pos_ d =? -1)%Z = true -> assigned_once d (set_loc_pos_ p d).
Proof.
  intros H. apply Z.eqb_eq in H.
  split; [intros Hp; contradiction|]. split; auto.
Qed.

Lemma set_visited_block_once (b : bool) (d : DetectorState) :
  assigned_once d (set_visited_block b d).
Proof. unfold assigned_once. cbn. auto. Qed.

Lemma set_visited_related_once (d : DetectorState) :
  assigned_once d (set_visited_related true d).
Proof. unfold assigned_once. cbn. auto. Qed.

Section AssignedOnce.

Variable self : ScheduleState.
Variable block_sref scope_sref : StmtSRef.
Variable related_blocks : list StmtSRef.

Lemma detector_seq_loop_once (VisitStmt : Stmt -> M DetectorState unit)
    (previous_visited_block : bool) (seq : list Stmt) :
  Forall (fun s => forall d u d', VisitStmt s d = (Ok u, d') -> assigned_once d d') seq ->
  forall i d u d',
    detector_seq_loop VisitStmt previous_visited_block seq i d = (Ok u, d') ->
    assigned_once d d'.
Proof.
  induction 1 as [|s seq Hs _ IH]; intros i d u d' H.
  - cbn in H. inversion H. apply assigned_once_refl.
  - cbn [detector_seq_loop] in H. minv H.
    + apply assigned_once_refl.
    + match goal with Hv : VisitStmt _ _ = _ |- _ => apply Hs in Hv as (A1 & A2 & A3) end.
      apply negb_false_iff, Z.eqb_eq in E.
      split; [intros Hp; contradiction|]. split; [exact A2|exact A3].
    + match goal with Hv : VisitStmt _ _ = _ |- _ => apply Hs in Hv as (A1 & A2 & A3) end.
      split; [exact A1|]. split; [exact A2|exact A3].
    + match goal with Hv : VisitStmt _ _ = _ |- _ => apply Hs in Hv end.
      match goal with Hl : detector_seq_loop _ _ _ _ _ = _ |- _ => apply IH in Hl end.
      eapply assigned_once_trans; eassumption.
Qed.

Lemma detector_once_mutual :
  (forall s d d' u,
      detector_VisitStmt self block_sref scope_sref related_blocks s d = (Ok u, d') ->
      assigned_once d d')
  /\ (forall b d d' u,
         detector_VisitBlock self block_sref scope_sref related_blocks b d = (Ok u, d') ->
         assigned_once d d').
Proof.
  apply Stmt_Block_ind.
  - (* BufferStore *)
    intros b v i d d' u H. cbn in H. inversion H. apply assigned_once_refl.
  - (* Evaluate *)
    intros v d d' u H. cbn in H. inversion H. apply assigned_once_refl.
  - (* SeqStmt *)
    intros seq IH d d' u H. cbn [detector_VisitStmt] in H.
    fold (detector_VisitStmt self block_sref scope_sref related_blocks) in H.
    minv H.
    eapply detector_seq_loop_once in H.
    + destruct H as (A1 & A2 & A3). split; [exact A1|]. split; [exact A2|exact A3].
    + eapply Forall_impl; [exact IH|]. cbn. intros x Hx d0 u0 d0'. apply Hx.
  - (* IfThenElse *)
    intros c t e IHt IHe d d' u H. cbn [detector_VisitStmt] in H.
    minv H.
    + eapply assigned_once_trans; [eapply IHt|eapply IHe]; eassumption.
    + eapply IHt; eassumption.
  - (* For *)
    intros a v mn ext k body IH d d' u H. cbn [detector_VisitStmt] in H.
    minv H.
    + eapply assigned_once_trans; [eapply IH; eassumption|].
      apply set_loc_sref_once.
      apply andb_prop in E as [E _]. apply andb_prop in E as [_ E]. exact E.
    + eapply IH; eassumption.
  - (* BlockRealize *)
    intros vals pred b IH d d' u H. cbn [detector_VisitStmt] in H.
    fold (detector_VisitBlock self block_sref scope_sref related_blocks) in H.
    eapply IH; eassumption.
  - (* BlockStmt *)
    intros b IH d d' u H. cbn [detector_VisitStmt] in H.
    fold (detector_VisitBlock self block_sref scope_sref related_blocks) in H.
    eapply IH; eassumption.
  - (* Block *)
    intros a ivs rs ws n body init al mb IHbody IHinit d d' u H.
    cbn [detector_VisitBlock] in H.
    fold (detector_VisitStmt self block_sref scope_sref related_blocks) in H.
    cbn beta iota in IHinit.
    minv H.
    all: repeat match goal with
           | Hv : detector_VisitStmt _ _ _ _ ?t _ = _,
             IH : forall d d' u, detector_VisitStmt _ _ _ _ ?t d = _ -> _ |- _ =>
               apply IH in Hv
           end.
    all: repeat (eapply assigned_once_trans; [eassumption|]).
    all: try apply assigned_once_refl.
    all: try apply set_visited_block_once.
    all: try apply set_visited_related_once.
    all: repeat match goal with
           | Hc : _ && _ = true |- _ => apply andb_prop in Hc as [? ?]
           end.
    all: try (apply set_loc_sref_once; assumption).
    all: eapply assigned_once_trans; [apply set_loc_sref_once; eassumption|].
    all: apply set_loc_pos_once; assumption.
Qed.

(** X8. Whatever statement the detector visits, it assigns its findings at
    most once: a position [loc_pos_] other than -1 and a site [loc_sref_]
    that is defined are the same after the visit, and a related block that
    was seen stays seen. *)
Theorem detector_assigns_once (s : Stmt) (d d' : DetectorState) (u : unit) :
  detector_VisitStmt self block_sref scope_sref related_blocks s d = (Ok u, d') ->
  (loc_pos_ d <> (-1)%Z -> loc_pos_ d' = loc_pos_ d)
  /\ (is_Some (loc_sref_ d) -> loc_sref_ d' = loc_sref_ d)
  /\ (visited_related_ d = true -> visited_related_ d' = true).
Proof. intros H. apply (proj1 detector_once_mutual) in H. exact H. Qed.

End AssignedOnce.

Lemma detector_assigns_once_witness :
  exists d',
    detector_VisitStmt Scenario.state Scenario.C_sref Scenario.root_sref [Scenario.D_sref]
                       (BlockStmt Scenario.root)
                       (mkDetector false false (Some Scenario.loop_sref) 1)
    = (Ok tt, d')
    /\ loc_pos_ d' = 1%Z
    /\ loc_sref_ d' = Some Scenario.loop_sref.
Proof.
  eexists. split; [vm_compute; reflexivity|].
  destruct (detector_assigns_once Scenario.state Scenario.C_sref Scenario.root_sref
              [Scenario.D_sref] (BlockStmt Scenario.root)
              (mkDetector false false (Some Scenario.loop_sref) 1) _ tt
              ltac:(vm_compute; reflexivity)) as (Hp & Hs & _).
  split; [apply Hp; discriminate|apply Hs; eexists; reflexivity].
Defined.

(** ** Where the detector puts the stage in a sequence of blocks *)

Section FlatSequence.

Variable self : ScheduleState.
Variable block_sref scope_sref : StmtSRef.
Variable related_blocks : list StmtSRef.

Abbreviation role := (detector_role block_sref scope_sref related_blocks).
Abbreviation visit := (detector_VisitStmt self block_sref scope_sref related_blocks).

Lemma visit_plain (s : Stmt) (d : DetectorState) :
  role s = Some RolePlain -> visit s d = (Ok tt, d).
Proof.
  unfold detector_role. intros H.
  destruct s as [| | | | |vals pred [a ivs rs ws n body init al mb]
                   |[a ivs rs ws n body init al mb]]; try discriminate H.
  all: cbn [block_addr] in H; cbn [detector_VisitStmt detector_VisitBlock].
  all: destruct (ptr_eqb (PtrBlock a) _); [discriminate H|].
  all: destruct (ptr_eqb _ (PtrBlock a)); [discriminate H|].
  all: destruct (existsb _ _); [discriminate H|reflexivity].
Qed.

Lemma visit_block (s : Stmt) (d : DetectorState) :
  role s = Some RoleBlock -> visit s d = (Ok tt, set_visited_block true d).
Proof.
  unfold detector_role. intros H.
  destruct s as [| | | | |vals pred [a ivs rs ws n body init al mb]
                   |[a ivs rs ws n body init al mb]]; try discriminate H.
  all: cbn [block_addr] in H; cbn [detector_VisitStmt detector_VisitBlock].
  all: destruct (ptr_eqb (PtrBlock a) _); [discriminate H|].
  all: destruct (ptr_eqb _ (PtrBlock a)); [reflexivity|].
  all: destruct (existsb _ _); discriminate H.
Qed.

Lemma visit_related (s : Stmt) (d : DetectorState) :
  role s = Some RoleRelated -> visit s d = (Ok tt, set_visited_related true d).
Proof.
  unfold detector_role. intros H.
  destruct s as [| | | | |vals pred [a ivs rs ws n body init al mb]
                   |[a ivs rs ws n body init al mb]]; try discriminate H.
  all: cbn [block_addr] in H; cbn [detector_VisitStmt detector_VisitBlock].
  all: destruct (ptr_eqb (PtrBlock a) _); [discriminate H|].
  all: destruct (ptr_eqb _ (PtrBlock a)); [discriminate H|].
  all: destruct (existsb _ _); [reflexivity|discriminate H].
Qed.

Lemma detector_seq_loop_cons (VisitStmt : Stmt -> M DetectorState unit) (previous : bool)
    (s : Stmt) (rest : list Stmt) (i : Z) :
  detector_seq_loop VisitStmt previous (s :: rest) i
  = (let* d := get in
     if negb (loc_pos_ d =? -1)%Z then ret tt
     else
       VisitStmt s ;;;
       let* d := get in
       if visited_block_ d && visited_related_ d && (loc_pos_ d =? -1)%Z then
         put (set_loc_pos_ i d)
       else if visited_related_ d then
         put (set_visited_block (visited_block_ d || previous) d)
       else detector_seq_loop VisitStmt previous rest (i + 1)%Z).
Proof. reflexivity. Qed.

(** The loop over a sequence passes over the blocks that are nothing to the
    detector, as long as no related block was seen. *)
Lemma seq_loop_plain (previous : bool) (pre rest : list Stmt) :
  Forall (fun s => role s = Some RolePlain) pre ->
  forall i d,
    loc_pos_ d = (-1)%Z ->
    visited_related_ d = false ->
    detector_seq_loop visit previous (pre ++ rest) i d
    = detector_seq_loop visit previous rest (i + Z.of_nat (length pre)) d.
Proof.
  induction 1 as [|s pre Hs _ IH]; intros i d Hp Hr.
  - cbn. rewrite Z.add_0_r. reflexivity.
  - cbn [app]. rewrite detector_seq_loop_cons.
    erewrite bind_Ok by reflexivity. cbv beta. rewrite Hp.
    change ((-1 =? -1)%Z) with true. cbn [negb].
    erewrite bind_Ok by (apply visit_plain; exact Hs).
    erewrite bind_Ok by reflexivity. cbv beta.
    rewrite Hr, andb_false_r. cbn [andb].
    rewrite IH by assumption. f_equal. cbn [length]. lia.
Qed.


End FlatSequence.


(** ** The reuse map covers the blocks that were replaced *)

Lemma keys_le_refl (st : RewriterState) : keys_le st st.
Proof. intros k H. exact H. Qed.

Lemma keys_le_trans (s1 s2 s3 : RewriterState) : keys_le s1 s2 -> keys_le s2 s3 -> keys_le s1 s3.
Proof. intros H1 H2 k H. apply H2, H1, H. Qed.

Lemma keys_le_info (st st' : RewriterState) : rw_info st' = rw_info st -> keys_le st st'.
Proof. intros H k Hk. unfold reuse_keys in *. rewrite H. exact Hk. Qed.

Lemma record_block_reuse_keys (old new : Block) (st st' : RewriterState) u :
  record_block_reuse old new st = (Ok u, st') ->
  keys_le st st'
  /\ block_addr old ∈ reuse_keys (rw_info st')
  /\ exists rest, block_reuse (rw_info st') = (old, new) :: rest.
Proof.
  unfold record_block_reuse. intros H. minv H.
  cbn [rw_info set_rw_info]. unfold reuse_keys, block_reuse_Set. cbn [block_reuse map fst].
  split; [|split; [left|eexists; reflexivity]].
  intros k Hk. cbn [rw_info set_rw_info block_reuse map fst].
  destruct (decide (k = block_addr old)) as [->|Hne]; [left|right].
  apply list_elem_of_fmap in Hk as (kv & -> & Hkv).
  apply list_elem_of_fmap. exists kv. split; [reflexivity|].
  apply list_elem_of_filter. split; [|exact Hkv].
  apply Is_true_true. apply negb_true_iff. apply Nat.eqb_neq. exact Hne.
Qed.

(** Visiting the children of a sequence, one after the other, with what each
    visit tells about the state it leaves. *)
Lemma mapM_Forall_states {S A B} (f : A -> M S B) (R : S -> S -> Prop)
    (G : A -> B -> S -> Prop) (l : list A) :
  (forall s, R s s) ->
  (forall s1 s2 s3, R s1 s2 -> R s2 s3 -> R s1 s3) ->
  Forall (fun x => forall s y s', f x s = (Ok y, s') -> R s s' /\ G x y s') l ->
  forall s ys s', mapM f l s = (Ok ys, s') ->
    R s s' /\ Forall2 (fun x y => exists s1, R s1 s' /\ G x y s1) l ys.
Proof.
  intros Hrefl Htrans HF. induction HF as [|x l Hx _ IH]; intros s ys s' H.
  - cbn in H. inversion H; subst. split; [apply Hrefl|constructor].
  - cbn [mapM] in H. apply bind_inv in H as (y & s1 & H1 & H).
    apply bind_inv in H as (ys' & s2 & H2 & H). inversion H; subst. clear H.
    apply Hx in H1 as [HR HG]. apply IH in H2 as [HR2 HF2].
    split; [eapply Htrans; eassumption|].
    constructor; [exists s1; split; assumption|exact HF2].
Qed.

(** Closes a goal [keys_le s s'] from the steps in the context. *)
Ltac keys_chain :=
  repeat match goal with
    | H : rw_info ?a = rw_info ?b |- _ => apply keys_le_info in H
    end;
  cbn [rw_info set_rw_flag] in *;
  repeat first [ assumption | apply keys_le_refl
               | eapply keys_le_trans; [eassumption|] ].

(** Splits on what the visit of the child that holds [B] says. *)
Ltac by_child :=
  match goal with
  | Hc : forall B, B ∈ ?l -> _ \/ _, HB : ?B ∈ ?l |- _ =>
      let Hin := fresh "Hin" in
      let Hk := fresh "Hk" in
      destruct (Hc B HB) as [Hin|Hk];
      [ left
      | right;
        lazymatch type of Hk with
        | _ ∈ reuse_keys (rw_info ?s1) =>
            lazymatch goal with
            | |- _ ∈ reuse_keys (rw_info ?s2) =>
                cut (keys_le s1 s2); [intros Hle; apply Hle, Hk | keys_chain]
            end
        end ]
  end.

Section CacheRead_reuse.

Variable scope_sref : StmtSRef.

Ltac use_IH :=
  repeat match goal with
    | IH : forall st r st', CacheRead_VisitStmt _ ?t st = (Ok r, st') -> _,
      H : CacheRead_VisitStmt _ ?t _ = (Ok _, _) |- _ =>
        apply IH in H as [? ?]
    | IH : forall st r st', CacheRead_VisitBlock _ ?t st = (Ok r, st') -> _,
      H : CacheRead_VisitBlock _ ?t _ = (Ok _, _) |- _ =>
        apply IH in H as [? ?]
    end.

Lemma CacheRead_reuse_mutual :
  (forall s st r st',
      CacheRead_VisitStmt scope_sref s st = (Ok r, st') ->
      keys_le st st'
      /\ forall B, B ∈ blocks_of s ->
                   B ∈ blocks_of r.1 \/ block_addr B ∈ reuse_keys (rw_info st'))
  /\ (forall b st r st',
         CacheRead_VisitBlock scope_sref b st = (Ok r, st') ->
         keys_le st st'
         /\ forall B, B ∈ blocks_of_block b ->
                      B ∈ blocks_of_block r.1 \/ block_addr B ∈ reuse_keys (rw_info st')).
Proof.
  apply Stmt_Block_ind.
  - (* BufferStore *)
    intros b v i st r st' H. cbn in H. minv H.
    split; [apply keys_le_refl|]. intros B HB. inversion HB.
  - (* Evaluate *)
    intros v st r st' H. cbn in H. minv H.
    split; [apply keys_le_refl|]. intros B HB. inversion HB.
  - (* SeqStmt *)
    intros seq IH st r st' H. cbn [CacheRead_VisitStmt] in H.
    apply bind_inv in H as (seq' & s1 & Hm & H). minv H.
    eapply (mapM_Forall_states _ keys_le
              (fun x y s1 => forall B, B ∈ blocks_of x ->
                                       B ∈ blocks_of y.1
                                       \/ block_addr B ∈ reuse_keys (rw_info s1)))
      in Hm as [HR HF];
      [| apply keys_le_refl | apply keys_le_trans | exact IH].
    split; [exact HR|]. intros B HB.
    destruct (existsb snd seq'); cbn [fst]; [|left; exact HB].
    apply elem_of_blocks_of_seq in HB as (x & Hx & HB).
    apply list_elem_of_lookup in Hx as [i Hi].
    destruct (Forall2_lookup_l _ _ _ _ _ HF Hi) as (y & Hy & s1 & Hle & HG).
    destruct (HG B HB) as [Hin|Hk]; [left|right; apply Hle, Hk].
    apply elem_of_blocks_of_seq. exists y.1. split; [|exact Hin].
    apply list_elem_of_lookup. exists i. rewrite list_lookup_fmap, Hy. reflexivity.
  - (* IfThenElse *)
    intros c t e IHt IHe st r st' H. cbn [CacheRead_VisitStmt] in H.
    minv H; use_IH; cbn [fst snd] in *.
    all: split; [keys_chain|]; intros B HB.
    all: destruct (_ || _ || _); cbn [fst]; [|left; exact HB].
    all: cbn [blocks_of] in *; rewrite ?app_nil_r in *.
    + apply elem_of_app in HB as [HB|HB]; by_child; apply elem_of_app; auto.
    + by_child. exact Hin.
  - (* For *)
    intros a v mn ext k body IH st r st' H. cbn [CacheRead_VisitStmt] in H.
    minv H; use_IH; prim_inv;
      match goal with
      | HI : insert_into_loop _ _ _ = _ |- _ =>
          apply insert_into_loop_inv in HI
            as (Hi & Hf & [-> | (stage & a0 & v' & mn' & ext' & kind' & body0 & body'
                                 & a' & s0' & Hstmt & Hstage & Hins & ->)])
      end;
      try (cbn [fst] in Hstmt; inversion Hstmt; subst;
           apply InsertCacheStage_inv in Hins as (_ & Hins & _)).
    all: cbn [fst snd] in *.
    all: split; [keys_chain|]; intros B HB.
    all: cbn [blocks_of] in *.
    all: first [ by_child; first [exact Hin | apply Hins; exact Hin]
               | left; first [exact HB | apply Hins; exact HB] ].
  - (* BlockRealize *)
    intros vals pred b IH st r st' H. cbn [CacheRead_VisitStmt] in H.
    minv H; use_IH; cbn [fst snd] in *.
    split; [keys_chain|]; intros B HB.
    destruct (_ || _ || _); cbn [fst]; [|left; exact HB].
    cbn [blocks_of] in *. by_child. exact Hin.
  - (* BlockStmt *)
    intros b IH st r st' H. cbn [CacheRead_VisitStmt] in H.
    minv H; use_IH; cbn [fst snd] in *.
    split; [keys_chain|]; intros B HB.
    cbn [blocks_of] in *. by_child. exact Hin.
  - (* Block *)
    intros a ivs rs ws n body init al mb IHbody IHinit st r st' H.
    cbn [CacheRead_VisitBlock] in H.
    minv H;
      match goal with
      | Hc : CacheRead_is_consumer _ _ _ = _ |- _ =>
          apply CacheRead_is_consumer_inv in Hc; subst
      end.
    { (* the block generates the buffer: it is returned as it is *)
      split; [intros k Hk; exact Hk|]. intros B HB. left. exact HB. }
    all: use_IH;
      repeat match goal with
        | Hr : rebuild_block _ _ _ _ _ _ _ _ _ = _ |- _ =>
            apply rebuild_block_children in Hr as (? & ? & ?)
        | Hr : insert_into_block _ _ _ = _ |- _ =>
            apply insert_into_block_children in Hr as (? & ? & ?)
        | Hr : copy_block _ _ _ = _ |- _ =>
            apply copy_block_children in Hr as (? & ? & ?); [|reflexivity|reflexivity]
        | Hr : record_block_reuse _ _ _ = _ |- _ =>
            apply record_block_reuse_keys in Hr as (? & Hkey & _)
        end.
    all: cbn [fst snd] in *.
    all: split; [keys_chain|]; intros B HB.
    all: rewrite blocks_of_block_eq in HB |- *;
      apply elem_of_cons in HB as [->|HB]; [right; exact Hkey|].
    all: try match goal with E : negb _ = _ |- _ => cbn in E; discriminate E end.
    all: pose proof HB as HB0; unfold child_blocks in HB;
      cbn [block_init block_body] in HB;
      apply elem_of_app in HB as [HB|HB]; try (inversion HB; fail).
    all: by_child.
    all: apply elem_of_cons; right.
    all: repeat match goal with
           | Hc : child_blocks _ = child_blocks _ |- _ => rewrite Hc; clear Hc
           end.
    all: repeat match goal with
           | Hi : forall B, B ∈ child_blocks _ -> B ∈ child_blocks ?x |- _ ∈ child_blocks ?x =>
               apply Hi
           | Hi : forall B, B ∈ child_blocks _ -> _ -> B ∈ child_blocks ?x |- _ ∈ child_blocks ?x =>
               apply Hi; [exact HB0|]
           end.
    all: apply elem_of_app; first [left; exact Hin | right; exact Hin].
Qed.

(** X10. When the cache_read rewriter returns the new scope subtree, every
    block of the old subtree either is a block of the new subtree, the same
    object, or is a key of the reuse map handed to [Replace]; and when the
    scope root is a block, the new subtree is a block too and the map sends
    the old root to it. *)
Theorem CacheRead_block_reuse_covers
    (info info' : CacheStageInfo) (h h' : Heap) (new_scope : Stmt) :
  CacheReadRewriter_Rewrite scope_sref info h = (Ok (new_scope, info'), h') ->
  (forall B, B ∈ blocks_of (sref_stmt scope_sref) ->
             B ∈ blocks_of new_scope \/ block_addr B ∈ reuse_keys info')
  /\ (forall root, sref_stmt scope_sref = BlockStmt root ->
                   exists root' rest,
                     new_scope = BlockStmt root'
                     /\ block_reuse info' = (root, root') :: rest).
Proof.
  intros H. unfold CacheReadRewriter_Rewrite in H.
  destruct (CacheRead_VisitStmt scope_sref (sref_stmt scope_sref) (mkRewriter h info false))
    as [[[stmt c]|e] st] eqn:E; inversion H; subst; clear H.
  split.
  - apply (proj1 CacheRead_reuse_mutual) in E as [_ E]. exact E.
  - intros root Hroot. rewrite Hroot in E.
    destruct root as [a ivs rs ws n body init al mb].
    cbn [CacheRead_VisitStmt] in E. minv E.
    assert (Hs : ptr_eqb (PtrBlock a) (stmt_ptr (sref_stmt scope_sref)) = true).
    { rewrite Hroot. cbn. apply Nat.eqb_refl. }
    match goal with
    | Hv : CacheRead_VisitBlock _ _ _ = _ |- _ =>
        cbn [CacheRead_VisitBlock] in Hv; rewrite Hs in Hv; cbn [negb] in Hv; minv Hv
    end.
    all: match goal with
         | Hr : record_block_reuse _ _ _ = _ |- _ =>
             apply record_block_reuse_keys in Hr as (_ & _ & rest & Hr)
         end.
    all: cbn [fst] in *; eauto.
Qed.

End CacheRead_reuse.

Lemma CacheRead_block_reuse_covers_witness :
  exists new_scope info' h',
    CacheReadRewriter_Rewrite Scenario.root_sref Scenario.plan_B 200
    = (Ok (new_scope, info'), h')
    /\ (Scenario.D ∈ blocks_of new_scope \/ block_addr Scenario.D ∈ reuse_keys info')
    /\ exists root' rest,
        new_scope = BlockStmt root' /\ block_reuse info' = (Scenario.root, root') :: rest.
Proof.
  destruct (CacheReadRewriter_Rewrite Scenario.root_sref Scenario.plan_B 200)
    as [[[new_scope info']|e] h'] eqn:E; [|vm_compute in E; discriminate E].
  exists new_scope, info', h'. split; [reflexivity|].
  destruct (CacheRead_block_reuse_covers Scenario.root_sref Scenario.plan_B info' 200 h'
              new_scope E) as [Hcover Hroot].
  split.
  - apply Hcover. cbn. set_solver.
  - apply Hroot. reflexivity.
Defined.

Section CacheWrite_reuse.

Variable scope_sref : StmtSRef.
Variable writer_block_sref : StmtSRef.

Ltac use_IH :=
  repeat match goal with
    | IH : forall st r st', CacheWrite_VisitStmt _ _ ?t st = (Ok r, st') -> _,
      H : CacheWrite_VisitStmt _ _ ?t _ = (Ok _, _) |- _ =>
        apply IH in H as [? ?]
    | IH : forall st r st', CacheWrite_VisitBlock _ _ ?t st = (Ok r, st') -> _,
      H : CacheWrite_VisitBlock _ _ ?t _ = (Ok _, _) |- _ =>
        apply IH in H as [? ?]
    end.

Lemma CacheWrite_reuse_mutual :
  (forall s st r st',
      CacheWrite_VisitStmt scope_sref writer_block_sref s st = (Ok r, st') ->
      keys_le st st'
      /\ forall B, B ∈ blocks_of s ->
                   B ∈ blocks_of r.1 \/ block_addr B ∈ reuse_keys (rw_info st'))
  /\ (forall b st r st',
         CacheWrite_VisitBlock scope_sref writer_block_sref b st = (Ok r, st') ->
         keys_le st st'
         /\ forall B, B ∈ blocks_of_block b ->
                      B ∈ blocks_of_block r.1 \/ block_addr B ∈ reuse_keys (rw_info st')).
Proof.
  apply Stmt_Block_ind.
  - (* BufferStore *)
    intros b v i st r st' H. cbn in H. minv H.
    all: split; [apply keys_le_refl|]; intros B HB; inversion HB.
  - (* Evaluate *)
    intros v st r st' H. cbn in H. minv H.
    split; [apply keys_le_refl|]. intros B HB. inversion HB.
  - (* SeqStmt *)
    intros seq IH st r st' H. cbn [CacheWrite_VisitStmt] in H.
    apply bind_inv in H as (seq' & s1 & Hm & H). minv H.
    eapply (mapM_Forall_states _ keys_le
              (fun x y s1 => forall B, B ∈ blocks_of x ->
                                       B ∈ blocks_of y.1
                                       \/ block_addr B ∈ reuse_keys (rw_info s1)))
      in Hm as [HR HF];
      [| apply keys_le_refl | apply keys_le_trans | exact IH].
    split; [exact HR|]. intros B HB.
    destruct (existsb snd seq'); cbn [fst]; [|left; exact HB].
    apply elem_of_blocks_of_seq in HB as (x & Hx & HB).
    apply list_elem_of_lookup in Hx as [i Hi].
    destruct (Forall2_lookup_l _ _ _ _ _ HF Hi) as (y & Hy & s1 & Hle & HG).
    destruct (HG B HB) as [Hin|Hk]; [left|right; apply Hle, Hk].
    apply elem_of_blocks_of_seq. exists y.1. split; [|exact Hin].
    apply list_elem_of_lookup. exists i. rewrite list_lookup_fmap, Hy. reflexivity.
  - (* IfThenElse *)
    intros c t e IHt IHe st r st' H. cbn [CacheWrite_VisitStmt] in H.
    minv H; use_IH; cbn [fst snd] in *.
    all: split; [keys_chain|]; intros B HB.
    all: destruct (_ || _ || _); cbn [fst]; [|left; exact HB].
    all: cbn [blocks_of] in *; rewrite ?app_nil_r in *.
    + apply elem_of_app in HB as [HB|HB]; by_child; apply elem_of_app; auto.
    + by_child. exact Hin.
  - (* For *)
    intros a v mn ext k body IH st r st' H. cbn [CacheWrite_VisitStmt] in H.
    minv H; use_IH; prim_inv;
      match goal with
      | HI : insert_into_loop _ _ _ = _ |- _ =>
          apply insert_into_loop_inv in HI
            as (Hi & Hf & [-> | (stage & a0 & v' & mn' & ext' & kind' & body0 & body'
                                 & a' & s0' & Hstmt & Hstage & Hins & ->)])
      end;
      try (cbn [fst] in Hstmt; inversion Hstmt; subst;
           apply InsertCacheStage_inv in Hins as (_ & Hins & _)).
    all: cbn [fst snd] in *.
    all: split; [keys_chain|]; intros B HB.
    all: cbn [blocks_of] in *.
    all: first [ by_child; first [exact Hin | apply Hins; exact Hin]
               | left; first [exact HB | apply Hins; exact HB] ].
  - (* BlockRealize *)
    intros vals pred b IH st r st' H. cbn [CacheWrite_VisitStmt] in H.
    fold (CacheWrite_VisitBlock scope_sref writer_block_sref) in H.
    minv H; use_IH; cbn [fst snd] in *.
    split; [keys_chain|]; intros B HB.
    destruct (_ || _ || _); cbn [fst]; [|left; exact HB].
    cbn [blocks_of] in *. by_child. exact Hin.
  - (* BlockStmt *)
    intros b IH st r st' H. cbn [CacheWrite_VisitStmt] in H.
    fold (CacheWrite_VisitBlock scope_sref writer_block_sref) in H.
    minv H; use_IH; cbn [fst snd] in *.
    split; [keys_chain|]; intros B HB.
    cbn [blocks_of] in *. by_child. exact Hin.
  - (* Block *)
    intros a ivs rs ws n body init al mb IHbody IHinit st r st' H.
    cbn [CacheWrite_VisitBlock] in H.
    fold (CacheWrite_VisitStmt scope_sref writer_block_sref) in H.
    cbn beta iota in IHinit.
    minv H.
    { (* neither the writer nor the scope nor under the writer *)
      split; [intros k Hk; exact Hk|]. intros B HB. left. exact HB. }
    all: use_IH;
      repeat match goal with
        | Hr : rebuild_block _ _ _ _ _ _ _ _ _ = _ |- _ =>
            apply rebuild_block_children in Hr as (? & ? & ?)
        | Hr : insert_into_block _ _ _ = _ |- _ =>
            apply insert_into_block_children in Hr as (? & ? & ?)
        | Hr : copy_block _ _ _ = _ |- _ =>
            apply copy_block_children in Hr as (? & ? & ?); [|reflexivity|reflexivity]
        | Hr : record_block_reuse _ _ _ = _ |- _ =>
            apply record_block_reuse_keys in Hr as (? & Hkey & _)
        end.
    all: cbn [fst snd] in *.
    all: split; [keys_chain|]; intros B HB.
    all: rewrite blocks_of_block_eq in HB |- *;
      apply elem_of_cons in HB as [->|HB]; [right; exact Hkey|].
    all: pose proof HB as HB0; unfold child_blocks in HB;
      cbn [block_init block_body] in HB;
      apply elem_of_app in HB as [HB|HB]; try (inversion HB; fail).
    all: by_child.
    all: apply elem_of_cons; right.
    all: repeat match goal with
           | Hc : child_blocks _ = child_blocks _ |- _ => rewrite Hc; clear Hc
           end.
    all: repeat match goal with
           | Hi : forall B, B ∈ child_blocks _ -> B ∈ child_blocks ?x |- _ ∈ child_blocks ?x =>
               apply Hi
           | Hi : forall B, B ∈ child_blocks _ -> _ -> B ∈ child_blocks ?x |- _ ∈ child_blocks ?x =>
               apply Hi; [exact HB0|]
           end.
    all: apply elem_of_app; first [left; exact Hin | right; exact Hin].
Qed.

(** X11. When the cache_write rewriter returns the new scope subtree, every
    block of the old subtree either is a block of the new subtree, the same
    object, or is a key of the reuse map handed to [Replace]; and when the
    scope root is a block, the new subtree is a block too and the map sends
    the old root to it. *)
Theorem CacheWrite_block_reuse_covers
    (info info' : CacheStageInfo) (h h' : Heap) (new_scope : Stmt) :
  CacheWriteRewriter_Rewrite scope_sref writer_block_sref info h
  = (Ok (new_scope, info'), h') ->
  (forall B, B ∈ blocks_of (sref_stmt scope_sref) ->
             B ∈ blocks_of new_scope \/ block_addr B ∈ reuse_keys info')
  /\ (forall root, sref_stmt scope_sref = BlockStmt root ->
                   exists root' rest,
                     new_scope = BlockStmt root'
                     /\ block_reuse info' = (root, root') :: rest).
Proof.
  intros H. unfold CacheWriteRewriter_Rewrite in H.
  destruct (CacheWrite_VisitStmt scope_sref writer_block_sref (sref_stmt scope_sref)
              (mkRewriter h info false))
    as [[[stmt c]|e] st] eqn:E; inversion H; subst; clear H.
  split.
  - apply (proj1 CacheWrite_reuse_mutual) in E as [_ E]. exact E.
  - intros root Hroot. rewrite Hroot in E.
    destruct root as [a ivs rs ws n body init al mb].
    cbn [CacheWrite_VisitStmt] in E.
    fold (CacheWrite_VisitBlock scope_sref writer_block_sref) in E.
    minv E.
    assert (Hs : ptr_eqb (PtrBlock a) (stmt_ptr (sref_stmt scope_sref)) = true).
    { rewrite Hroot. cbn. apply Nat.eqb_refl. }
    { (* the scope root is never skipped *)
      rewrite Hs in E0. cbn [negb] in E0. rewrite andb_false_r in E0. discriminate E0. }
    all: match goal with
         | Hr : record_block_reuse _ _ _ = _ |- _ =>
             apply record_block_reuse_keys in Hr as (_ & _ & rest & Hr)
         end.
    all: cbn [fst] in *; eauto.
Qed.

End CacheWrite_reuse.

Lemma CacheWrite_block_reuse_covers_witness :
  exists new_scope info' h',
    CacheWriteRewriter_Rewrite Scenario.root_sref Scenario.C_sref Scenario.plan_B 200
    = (Ok (new_scope, info'), h')
    /\ (Scenario.D ∈ blocks_of new_scope \/ block_addr Scenario.D ∈ reuse_keys info')
    /\ exists root' rest,
        new_scope = BlockStmt root' /\ block_reuse info' = (Scenario.root, root') :: rest.
Proof.
  destruct (CacheWriteRewriter_Rewrite Scenario.root_sref Scenario.C_sref Scenario.plan_B 200)
    as [[[new_scope info']|e] h'] eqn:E; [|vm_compute in E; discriminate E].
  exists new_scope, info', h'. split; [reflexivity|].
  destruct (CacheWrite_block_reuse_covers Scenario.root_sref Scenario.C_sref
              Scenario.plan_B info' 200 h' new_scope E) as [Hcover Hroot].
  split.
  - apply Hcover. cbn. set_solver.
  - apply Hroot. reflexivity.
Defined.

(** ** The collector of ReIndex *)

(** Induction on expressions, with the operands of loads and calls. *)
Section PrimExpr_ind_nested.

Variable P : PrimExpr -> Prop.

Hypothesis H_IntImm : forall t v, P (IntImm t v).
Hypothesis H_EVar : forall v, P (EVar v).
Hypothesis H_Bin : forall op a b, P a -> P b -> P (Bin op a b).
Hypothesis H_BufferLoad : forall buffer indices, Forall P indices -> P (BufferLoad buffer indices).
Hypothesis H_Call : forall t op args, Forall P args -> P (Call t op args).

Fixpoint PrimExpr_ind_nested (e : PrimExpr) : P e :=
  match e with
  | IntImm t v => H_IntImm t v
  | EVar v => H_EVar v
  | Bin op a b => H_Bin op a b (PrimExpr_ind_nested a) (PrimExpr_ind_nested b)
  | BufferLoad buffer indices =>
      H_BufferLoad buffer indices
        ((fix all (l : list PrimExpr) : Forall P l :=
            match l with
            | [] => @List.Forall_nil _ P
            | x :: r => @List.Forall_cons _ P x r (PrimExpr_ind_nested x) (all r)
            end) indices)
  | Call t op args =>
      H_Call t op args
        ((fix all (l : list PrimExpr) : Forall P l :=
            match l with
            | [] => @List.Forall_nil _ P
            | x :: r => @List.Forall_cons _ P x r (PrimExpr_ind_nested x) (all r)
            end) args)
  end.

End PrimExpr_ind_nested.

Lemma forallb_false_elem {A} (f : A -> bool) (l : list A) :
  forallb f l = false -> exists x, x ∈ l /\ f x = false.
Proof.
  induction l as [|x r IH]; [discriminate|]. cbn [forallb].
  destruct (f x) eqn:Hx.
  - intros H. destruct (IH H) as (y & Hin & Hy). exists y. split; [right; exact Hin|exact Hy].
  - intros _. exists x. split; [left|exact Hx].
Qed.

Section Collector.

Variable ExprDeepEqual : PrimExpr -> PrimExpr -> bool.
Variable mod_ : IRModule.
Variable buffer : Buffer.
Variable block : Block.

Local Abbreviation run := (collector_run ExprDeepEqual mod_ buffer block).
Local Abbreviation absorb' := (absorb ExprDeepEqual).

Lemma absorb_app held a b :
  absorb' held (a ++ b)
  = match absorb' held a with
    | Some held' => absorb' held' b
    | None => None
    end.
Proof.
  revert held. induction a as [|idx a IH]; intros held; [reflexivity|].
  cbn [app absorb]. destruct held as [value|]; [|apply IH].
  destruct (std_equal ExprDeepEqual value idx); [apply IH|reflexivity].
Qed.

Lemma absorb_held value accesses :
  absorb' (Some value) accesses
  = if forallb (std_equal ExprDeepEqual value) accesses then Some (Some value) else None.
Proof.
  induction accesses as [|idx rest IH]; [reflexivity|].
  cbn [absorb forallb]. destruct (std_equal ExprDeepEqual value idx); [exact IH|reflexivity].
Qed.

Lemma run_ret {A} (a : A) : run false [] [] (ret a).
Proof. intros held. cbn. auto. Qed.

Lemma run_bind {A B} (m : M _ A) (k : A -> M _ B) m1 a1 b1 m2 a2 b2 :
  run m1 a1 b1 m -> (forall x, run m2 a2 b2 (k x)) ->
  run (m1 || m2) (a1 ++ a2) (b1 ++ b2) (bind m k).
Proof.
  intros Hm Hk held. unfold bind. specialize (Hm held).
  destruct (m held) as [[x|e] held1].
  - destruct Hm as (-> & -> & Ha). specialize (Hk x held1).
    rewrite absorb_app, Ha. cbn [orb app].
    destruct (k x held1) as [[y|e] held2]; exact Hk.
  - destruct Hm as [[-> ->]|[[-> Ha]|[-> Hb]]].
    + left. auto.
    + right. left. rewrite absorb_app, Ha. auto.
    + right. right. split; [reflexivity|]. destruct b1; [congruence|discriminate].
Qed.

Lemma run_mapM {A} (f : A -> M _ unit) (mentions : A -> bool)
    (accesses : A -> list (list PrimExpr)) (blocks : A -> list Block) (l : list A) :
  Forall (fun x => run (mentions x) (accesses x) (blocks x) (f x)) l ->
  run (existsb mentions l) (concat (map accesses l)) (concat (map blocks l)) (mapM f l).
Proof.
  induction 1 as [|x r Hx _ IH]; [apply run_ret|].
  cbn [mapM existsb map concat]. fold (mapM f).
  apply run_bind; [exact Hx|]. intros y.
  rewrite <- (orb_false_r (existsb mentions r)),
          <- (app_nil_r (concat (map accesses r))),
          <- (app_nil_r (concat (map blocks r))).
  apply run_bind; [exact IH|]. intros ys. apply run_ret.
Qed.

Lemma run_check indices :
  run false [indices] [] (CheckAndUpdateBufferAccessIndices ExprDeepEqual mod_ buffer block indices).
Proof.
  intros held. unfold CheckAndUpdateBufferAccessIndices, bind, get. cbn [absorb].
  destruct held as [value|]; [|cbn; auto].
  destruct (std_equal ExprDeepEqual value indices); cbn; auto.
Qed.

Lemma run_weaken {A} (m : M _ A) m1 a1 b1 m2 a2 b2 :
  m1 = m2 -> a1 = a2 -> b1 = b2 -> run m1 a1 b1 m -> run m2 a2 b2 m.
Proof. intros -> -> ->. auto. Qed.

Lemma collector_VisitExpr_run (e : PrimExpr) :
  run (expr_mentions (buf_data buffer) e) (expr_accesses buffer e) []
      (collector_VisitExpr ExprDeepEqual mod_ buffer block e).
Proof.
  induction e as [t v|v|op a b IHa IHb|b indices IH|t op args IH] using PrimExpr_ind_nested.
  - apply run_ret.
  - cbn [collector_VisitExpr expr_mentions expr_accesses].
    destruct (var_same_as v (buf_data buffer)); [|apply run_ret].
    intros held. cbn. auto.
  - cbn [collector_VisitExpr expr_mentions expr_accesses].
    eapply run_weaken; [| | |apply run_bind; [exact IHa|intros _; exact IHb]]; reflexivity.
  - cbn [collector_VisitExpr expr_mentions expr_accesses].
    eapply run_weaken;
      [| | |apply run_bind;
            [apply (run_mapM _ (expr_mentions (buf_data buffer)) (expr_accesses buffer)
                             (fun _ => [])); exact IH|]].
    4: { intros _. instantiate (1 := []).
         instantiate (1 := if buffer_same_as b buffer then [indices] else []).
         instantiate (1 := false).
         destruct (buffer_same_as b buffer); [apply run_check|apply run_ret]. }
    + apply orb_false_r.
    + reflexivity.
    + rewrite app_nil_r. clear. induction indices; [reflexivity|assumption].
  - cbn [collector_VisitExpr expr_mentions expr_accesses].
    eapply run_weaken;
      [| | |apply run_bind;
            [apply (run_mapM _ (expr_mentions (buf_data buffer)) (expr_accesses buffer)
                             (fun _ => [])); exact IH|intros _; apply run_ret]].
    + apply orb_false_r.
    + apply app_nil_r.
    + rewrite app_nil_r. clear. induction args; [reflexivity|assumption].
Qed.

Lemma run_access (b : Buffer) indices :
  run false (if buffer_same_as b buffer then [indices] else []) []
      (if buffer_same_as b buffer
       then CheckAndUpdateBufferAccessIndices ExprDeepEqual mod_ buffer block indices
       else ret tt).
Proof. destruct (buffer_same_as b buffer); [apply run_check|apply run_ret]. Qed.

Lemma run_not_leaf {A} mentions accesses blocks :
  blocks <> [] ->
  run mentions accesses blocks (throw (A := A) (NotLeafBlockError mod_ block)).
Proof. intros H held. cbn. auto. Qed.

Lemma run_exprs (l : list PrimExpr) :
  run (existsb (expr_mentions (buf_data buffer)) l)
      (concat (map (expr_accesses buffer) l)) []
      (mapM (collector_VisitExpr ExprDeepEqual mod_ buffer block) l).
Proof.
  eapply run_weaken;
    [| | |apply (run_mapM _ (expr_mentions (buf_data buffer)) (expr_accesses buffer)
                          (fun _ => []))]; try reflexivity.
  - clear. induction l; [reflexivity|assumption].
  - apply Forall_forall. intros e _. apply collector_VisitExpr_run.
Qed.

Lemma run_seq {A B} (m : M _ A) (k : A -> M _ B) m1 a1 b1 m2 a2 b2 mm aa bb :
  run m1 a1 b1 m -> (forall x, run m2 a2 b2 (k x)) ->
  mm = m1 || m2 -> aa = a1 ++ a2 -> bb = b1 ++ b2 ->
  run mm aa bb (bind m k).
Proof. intros Hm Hk -> -> ->. apply run_bind; assumption. Qed.

Lemma blocks_of_block_not_nil (b : Block) : blocks_of_block b <> [].
Proof. destruct b. discriminate. Qed.

Lemma run_option (e : option Stmt) :
  match e with
  | Some e' =>
      run (stmt_mentions (buf_data buffer) e') (stmt_accesses buffer e') (blocks_of e')
          (collector_VisitStmt ExprDeepEqual mod_ buffer block e')
  | None => True
  end ->
  run (match e with Some e' => stmt_mentions (buf_data buffer) e' | None => false end)
      (match e with Some e' => stmt_accesses buffer e' | None => [] end)
      (match e with Some e' => blocks_of e' | None => [] end)
      (match e with
       | Some e' => collector_VisitStmt ExprDeepEqual mod_ buffer block e'
       | None => ret tt
       end).
Proof. destruct e; [auto|intros _; apply run_ret]. Qed.

Lemma collector_VisitStmt_run (s : Stmt) :
  run (stmt_mentions (buf_data buffer) s) (stmt_accesses buffer s) (blocks_of s)
      (collector_VisitStmt ExprDeepEqual mod_ buffer block s).
Proof.
  revert s.
  apply (Stmt_ind_nested
           (fun s => run (stmt_mentions (buf_data buffer) s) (stmt_accesses buffer s)
                         (blocks_of s)
                         (collector_VisitStmt ExprDeepEqual mod_ buffer block s))
           (fun _ => True)).
  all: cbn [collector_VisitStmt stmt_mentions stmt_accesses blocks_of]; auto.
  - (* BufferStore *)
    intros b v i.
    eapply run_seq.
    { apply collector_VisitExpr_run. }
    { intros _. eapply run_seq; [apply run_exprs|intros _; apply run_access|reflexivity..]. }
    all: rewrite ?orb_false_r; reflexivity.
  - (* Evaluate *)
    intros v. apply collector_VisitExpr_run.
  - (* SeqStmt *)
    intros seq IH.
    eapply run_seq.
    { apply (run_mapM _ (stmt_mentions (buf_data buffer)) (stmt_accesses buffer) blocks_of).
      exact IH. }
    { intros _. apply run_ret. }
    all: rewrite ?orb_false_r, ?app_nil_r; reflexivity.
  - (* IfThenElse *)
    intros c t e IHt IHe.
    eapply run_seq.
    { apply collector_VisitExpr_run. }
    { intros _. eapply run_seq; [exact IHt|intros _; apply (run_option e IHe)|reflexivity..]. }
    all: rewrite ?orb_assoc; reflexivity.
  - (* For *)
    intros a v mn ext k body IH.
    eapply run_seq.
    { apply collector_VisitExpr_run. }
    { intros _.
      eapply run_seq; [apply collector_VisitExpr_run|intros _; exact IH|reflexivity..]. }
    all: rewrite ?orb_assoc; reflexivity.
  - (* BlockRealize *)
    intros vals pred b _.
    eapply run_seq.
    { apply run_exprs. }
    { intros _.
      eapply run_seq;
        [apply collector_VisitExpr_run
        |intros _; apply (run_not_leaf false [] (blocks_of_block b)), blocks_of_block_not_nil
        |reflexivity..]. }
    all: rewrite ?orb_false_r, ?app_nil_r; reflexivity.
  - (* BlockStmt *)
    intros b _. apply run_not_leaf, blocks_of_block_not_nil.
Qed.

(** X12. The collector of [ReIndex] returns an index list exactly when the
    body of the block has no block below it, the data variable of the buffer
    does not occur in it as a variable, and the body accesses the buffer at
    least once with every access agreeing, under [ExprDeepEqual] element by
    element and in length, with the first; the list returned is that of the
    first access in the order of the traversal. *)
Theorem Collect_returns_iff (indices : list PrimExpr) :
  ReIndexCollector_Collect ExprDeepEqual mod_ buffer block = Ok indices
  <-> blocks_of (block_body block) = []
      /\ stmt_mentions (buf_data buffer) (block_body block) = false
      /\ exists rest,
          stmt_accesses buffer (block_body block) = indices :: rest
          /\ Forall (fun other => std_equal ExprDeepEqual indices other = true) rest.
Proof.
  pose proof (collector_VisitStmt_run (block_body block) None) as H.
  unfold ReIndexCollector_Collect.
  destruct (collector_VisitStmt ExprDeepEqual mod_ buffer block (block_body block) None)
    as [[[]|e] held'].
  - destruct H as (Hm & Hb & Ha).
    destruct (stmt_accesses buffer (block_body block)) as [|first rest].
    + cbn in Ha. inversion Ha; subst. split; [discriminate|].
      intros (_ & _ & rest & Hr & _). discriminate Hr.
    + cbn [absorb] in Ha. rewrite absorb_held in Ha.
      destruct (forallb (std_equal ExprDeepEqual first) rest) eqn:Hf; [|discriminate Ha].
      inversion Ha; subst. split.
      * intros Hi. inversion Hi; subst. do 2 (split; [assumption|]).
        exists rest. split; [reflexivity|].
        apply Forall_forall. intros other Hin.
        apply (proj1 (forallb_forall _ _) Hf). apply list_elem_of_In, Hin.
      * intros (_ & _ & rest' & Hr & _). inversion Hr. reflexivity.
  - split; [discriminate|]. intros (Hb & Hm & rest & Hr & Hf).
    destruct H as [[_ Hm']|[[_ Ha]|[_ Hb']]]; [congruence| |contradiction].
    rewrite Hr in Ha. cbn [absorb] in Ha. rewrite absorb_held in Ha.
    replace (forallb (std_equal ExprDeepEqual indices) rest) with true in Ha;
      [discriminate Ha|].
    symmetry. apply forallb_forall. intros other Hin.
    apply (proj1 (Forall_forall _ _) Hf). apply list_elem_of_In, Hin.
Qed.

(** X13. Every failure of the collector of [ReIndex] is a schedule error
    located at the block being reindexed, whichever node caused it: the
    not-a-leaf error only when the body has a block below it, the
    opaque-access error only when the data variable of the buffer occurs as a
    variable, the non-unique-access error only when some access disagrees with
    the first, and the no-access error only when the body does not access the
    buffer. *)
Theorem Collect_fails_at_target (e : Error) :
  ReIndexCollector_Collect ExprDeepEqual mod_ buffer block = Err e ->
  LocationsOfInterest e = [block]
  /\ match e with
     | NotLeafBlockError m _ => m = mod_ /\ blocks_of (block_body block) <> []
     | InvalidBufferAccessError m b _ kNoAccess =>
         m = mod_ /\ b = buffer /\ stmt_accesses buffer (block_body block) = []
     | InvalidBufferAccessError m b _ kOpaqueAccess =>
         m = mod_ /\ b = buffer /\ stmt_mentions (buf_data buffer) (block_body block) = true
     | InvalidBufferAccessError m b _ kNonUniqueAccess =>
         m = mod_ /\ b = buffer
         /\ exists first rest other,
             stmt_accesses buffer (block_body block) = first :: rest
             /\ other ∈ rest
             /\ std_equal ExprDeepEqual first other = false
     | _ => False
     end.
Proof.
  pose proof (collector_VisitStmt_run (block_body block) None) as H.
  unfold ReIndexCollector_Collect.
  destruct (collector_VisitStmt ExprDeepEqual mod_ buffer block (block_body block) None)
    as [[[]|e'] held'].
  - destruct H as (Hm & Hb & Ha). destruct held' as [value|]; [discriminate|].
    intros He. inversion He; subst. split; [reflexivity|]. do 2 (split; [reflexivity|]).
    destruct (stmt_accesses buffer (block_body block)) as [|first rest]; [reflexivity|].
    cbn [absorb] in Ha. rewrite absorb_held in Ha.
    destruct (forallb (std_equal ExprDeepEqual first) rest); discriminate Ha.
  - intros He. inversion He; subst.
    destruct H as [[-> Hm]|[[-> Ha]|[-> Hb]]]; (split; [reflexivity|]); auto.
    do 2 (split; [reflexivity|]).
    destruct (stmt_accesses buffer (block_body block)) as [|first rest]; [discriminate Ha|].
    cbn [absorb] in Ha. rewrite absorb_held in Ha.
    destruct (forallb (std_equal ExprDeepEqual first) rest) eqn:Hf; [discriminate Ha|].
    apply forallb_false_elem in Hf as (other & Hin & Hne).
    exists first, rest, other. auto.
Qed.

End Collector.

Lemma Collect_fails_at_target_witness :
  ReIndexCollector_Collect ReindexRun.ExprDeepEqual 0 Scenario.B Scenario.root
  = Err (NotLeafBlockError 0 Scenario.root)
  /\ LocationsOfInterest (NotLeafBlockError 0 Scenario.root) = [Scenario.root]
  /\ blocks_of (block_body Scenario.root) <> [].
Proof.
  split; [reflexivity|].
  destruct (Collect_fails_at_target ReindexRun.ExprDeepEqual 0 Scenario.B Scenario.root
              (NotLeafBlockError 0 Scenario.root) eq_refl) as (Hl & _ & Hb).
  split; assumption.
Defined.

(** ** The loops between a reindexed block and its scope *)

(** Induction on a reference, with its parent. *)
Section StmtSRef_ind_parent.

Variable P : StmtSRef -> Prop.

Hypothesis H_mkSRef :
  forall stmt parent seq_index,
    match parent with Some p => P p | None => True end ->
    P (mkSRef stmt parent seq_index).

Fixpoint StmtSRef_ind_parent (r : StmtSRef) : P r :=
  match r with
  | mkSRef stmt parent seq_index =>
      H_mkSRef stmt parent seq_index
        (match parent return match parent with Some p => P p | None => True end with
         | Some p => StmtSRef_ind_parent p
         | None => I
         end)
  end.

End StmtSRef_ind_parent.

Lemma ReIndex_chain_state {S} (scope_sref loop : StmtSRef) (st : S) :
  (ReIndex_chain scope_sref loop st).2 = st.
Proof.
  revert st.
  induction loop as [inner parent seq_index IH] using StmtSRef_ind_parent.
  intros st. cbn [ReIndex_chain]. destruct parent as [p|]; [|reflexivity].
  destruct (sref_same p scope_sref); [reflexivity|]. cbn [negb].
  unfold bind, ICHECK.
  destruct (is_For (sref_stmt p) && is_For inner); [|reflexivity].
  cbn. destruct (body_is (sref_stmt p) inner); [|reflexivity].
  cbn. apply IH.
Qed.

Lemma ReIndex_chain_inv {S} (scope_sref loop top : StmtSRef) (st st' : S) :
  ReIndex_chain scope_sref loop st = (Ok top, st') ->
  exists below,
    sref_chain loop = below ++ sref_chain top
    /\ Forall (chain_step scope_sref) below
    /\ exists p, sref_parent top = Some p /\ sref_same p scope_sref = true.
Proof.
  revert st st'.
  induction loop as [inner parent seq_index IH] using StmtSRef_ind_parent.
  intros st st' H. cbn [ReIndex_chain] in H. destruct parent as [p|]; [|discriminate H].
  destruct (sref_same p scope_sref) eqn:Hsame; cbn [negb] in H.
  - inversion H; subst. exists []. split; [reflexivity|]. split; [constructor|].
    exists p. auto.
  - unfold bind, ICHECK in H.
    destruct (is_For (sref_stmt p) && is_For inner) eqn:Hfor; [|discriminate H].
    cbn in H. destruct (body_is (sref_stmt p) inner) eqn:Hbody; [|discriminate H].
    cbn in H. apply IH in H as (below & Hchain & Hsteps & Htop).
    apply andb_prop in Hfor as [Ho Hi].
    exists (mkSRef inner (Some p) seq_index :: below). split; [|split; [|exact Htop]].
    + cbn [sref_chain app]. f_equal. destruct p. exact Hchain.
    + constructor; [|exact Hsteps]. exists p. auto.
Qed.

(** X14. When the walk of step 3 of [ReIndex] returns a reference, that
    reference is a child of the scope on the path from the starting reference
    to the root, and every reference passed on the way is a loop whose parent
    is a loop, is not the scope, and has that loop, the very node, for its
    body. *)
Theorem ReIndex_chain_of_loops {S} (scope_sref loop top : StmtSRef) (st st' : S) :
  ReIndex_chain scope_sref loop st = (Ok top, st') ->
  st' = st
  /\ exists below,
      sref_chain loop = below ++ sref_chain top
      /\ Forall (chain_step scope_sref) below
      /\ exists p, sref_parent top = Some p /\ sref_same p scope_sref = true.
Proof.
  intros H. split.
  - pose proof (ReIndex_chain_state scope_sref loop st) as Hs. rewrite H in Hs. exact Hs.
  - eapply ReIndex_chain_inv, H.
Qed.

Lemma ReIndex_chain_of_loops_witness :
  ReIndex_chain ReindexRun.root_sref ReindexRun.loop_j_sref tt
  = (Ok ReindexRun.loop_i_sref, tt)
  /\ exists below,
      sref_chain ReindexRun.loop_j_sref = below ++ sref_chain ReindexRun.loop_i_sref
      /\ Forall (chain_step ReindexRun.root_sref) below
      /\ exists p, sref_parent ReindexRun.loop_i_sref = Some p
                   /\ sref_same p ReindexRun.root_sref = true.
Proof.
  split; [reflexivity|].
  exact (proj2 (ReIndex_chain_of_loops (S := unit) ReindexRun.root_sref ReindexRun.loop_j_sref
                  ReindexRun.loop_i_sref tt tt eq_refl)).
Defined.

(** X15. The walk of step 3 of [ReIndex] does not pass a loop whose body is
    a sequence, be it a sequence of one statement: when the parent of the
    reference it stands on is such a loop and is not the scope, the walk stops
    on a failed check. *)
Theorem ReIndex_chain_rejects_sequence {S} (scope_sref loop outer_sref : StmtSRef)
    (a : addr) (v : Var) (mn ext : PrimExpr) (kind : ForKind) (seq : list Stmt) (st : S) :
  sref_parent loop = Some outer_sref ->
  sref_same outer_sref scope_sref = false ->
  sref_stmt outer_sref = For a v mn ext kind (SeqStmt seq) ->
  exists msg, ReIndex_chain scope_sref loop st = (Err (InternalError msg), st).
Proof.
  intros Hp Hs Ho. destruct loop as [inner parent seq_index]. cbn in Hp. subst parent.
  cbn [ReIndex_chain]. rewrite Hs. cbn [negb]. unfold bind, ICHECK.
  destruct (is_For (sref_stmt outer_sref) && is_For inner) eqn:Hfor; [|cbn; eauto].
  cbn. rewrite Ho. cbn [body_is]. unfold stmt_same. cbn [stmt_ptr ptr_eqb].
  cbn. eauto.
Qed.

Lemma ReIndex_chain_rejects_sequence_witness :
  exists msg,
    ReIndex_chain ReindexRun.root_sref ReindexRun.seq_loop_j_sref tt
    = (Err (InternalError msg), tt).
Proof.
  apply (ReIndex_chain_rejects_sequence (S := unit) ReindexRun.root_sref
           ReindexRun.seq_loop_j_sref ReindexRun.seq_loop_i_sref
           30 Scenario.i (Scenario.c 0) (Scenario.c 16) kSerial [ReindexRun.loop_j]);
    reflexivity.
Defined.

(** ** The rewriter of ReIndex *)

Lemma ri_lift_inv {A} (m : M RewriterState A) (st st' : ReIndexState) (a : A) :
  ri_lift m st = (Ok a, st') ->
  exists rw', m (ri_rw st) = (Ok a, rw')
              /\ st' = mkReIndex rw' (ri_indices st) (ri_region st).
Proof.
  unfold ri_lift, zoom. destruct (m (ri_rw st)) as [[x|e] rw'] eqn:E; intros H; inversion H.
  subst. eauto.
Qed.

Lemma ri_alloc_inv st st' a :
  ri_lift rw_alloc st = (Ok a, st') ->
  rw_info (ri_rw st') = rw_info (ri_rw st) /\ rw_flag (ri_rw st') = rw_flag (ri_rw st)
  /\ ri_indices st' = ri_indices st.
Proof.
  intros H. apply ri_lift_inv in H as (rw & H & ->). apply rw_alloc_inv in H as [? ?]. auto.
Qed.

(** Stepping through the reindex rewriter. *)
Ltac rinv H :=
  cbv beta iota in H;
  lazymatch type of H with
  | bind _ _ _ = (Ok _, _) =>
      let a := fresh "a" in
      let s := fresh "s" in
      let H1 := fresh "H" in
      apply bind_inv in H as (a & s & H1 & H); rinv H1; rinv H
  | ret _ _ = (Ok _, _) => unfold ret in H; inversion H; subst; clear H
  | throw _ _ = (Ok _, _) => discriminate H
  | get _ = (Ok _, _) => unfold get in H; inversion H; subst; clear H
  | modify _ _ = (Ok _, _) => unfold modify in H; inversion H; subst; clear H
  | ri_expr _ _ _ = (Ok _, _) => unfold ri_expr in H; rinv H
  | ri_lift rw_alloc _ = (Ok _, _) => apply ri_alloc_inv in H as (? & ? & ?)
  | (let '(_, _) := ?x in _) _ = (Ok _, _) =>
      let E := fresh "E" in destruct x eqn:E; rinv H
  | (if ?c then _ else _) _ = (Ok _, _) =>
      let E := fresh "E" in destruct c eqn:E; try discriminate E; rinv H
  | (match ?x with Some _ => _ | None => _ end) _ = (Ok _, _) =>
      let E := fresh "E" in destruct x eqn:E; rinv H
  | _ => idtac
  end.

Lemma mapM_Forall_pre {S A B} (f : A -> M S B) (I : S -> Prop) (R : S -> S -> Prop)
    (G : A -> B -> Prop) (l : list A) :
  (forall s, R s s) ->
  (forall s1 s2 s3, R s1 s2 -> R s2 s3 -> R s1 s3) ->
  Forall (fun x => forall s y s', I s -> f x s = (Ok y, s') -> I s' /\ R s s' /\ G x y) l ->
  forall s ys s', I s -> mapM f l s = (Ok ys, s') ->
    I s' /\ R s s' /\ Forall2 G l ys.
Proof.
  intros Hrefl Htrans. induction 1 as [|x r Hx _ IH]; intros s ys s' Hi H.
  - cbn in H. inversion H; subst. auto.
  - cbn [mapM] in H. fold (mapM f) in H.
    apply bind_inv in H as (y & s1 & Hy & H).
    apply bind_inv in H as (ys' & s2 & Hys & H).
    unfold ret in H. inversion H; subst.
    destruct (Hx _ _ _ Hi Hy) as (Hi1 & HR1 & HG).
    destruct (IH _ _ _ Hi1 Hys) as (Hi2 & HR2 & HF).
    split; [exact Hi2|]. split; [eapply Htrans; eassumption|].
    constructor; assumption.
Qed.

Lemma ri_rebuild_children (old : Block) ivs rs ws mbs init body changed
    (st st' : ReIndexState) (r : Block * bool) :
  ri_lift (rebuild_block old ivs rs ws mbs init body changed) st = (Ok r, st') ->
  rw_info (ri_rw st') = rw_info (ri_rw st) /\ rw_flag (ri_rw st') = rw_flag (ri_rw st)
  /\ forall B, B ∈ child_blocks old ->
               (B ∈ match init with Some i => blocks_of i | None => [] end ++ blocks_of body) ->
               B ∈ child_blocks r.1.
Proof.
  intros H. apply ri_lift_inv in H as (rw & H & ->).
  apply rebuild_block_children in H. exact H.
Qed.

Lemma ri_copy_children (b : Block) (f : Block -> Block) (st st' : ReIndexState) (n : Block) :
  block_init (f b) = block_init b -> block_body (f b) = block_body b ->
  ri_lift (copy_block b f) st = (Ok n, st') ->
  rw_info (ri_rw st') = rw_info (ri_rw st) /\ rw_flag (ri_rw st') = rw_flag (ri_rw st)
  /\ child_blocks n = child_blocks b.
Proof.
  intros Hi Hb H. apply ri_lift_inv in H as (rw & H & ->).
  apply copy_block_children in H; assumption.
Qed.

Lemma ri_record_block_reuse (old new : Block) (st st' : ReIndexState) u :
  ri_lift (record_block_reuse old new) st = (Ok u, st') ->
  rw_flag (ri_rw st') = rw_flag (ri_rw st)
  /\ (forall kv, kv ∈ block_reuse (rw_info (ri_rw st')) ->
                 kv = (old, new) \/ kv ∈ block_reuse (rw_info (ri_rw st)))
  /\ exists rest,
      block_reuse (rw_info (ri_rw st')) = (old, new) :: rest
      /\ forall kv, kv ∈ rest -> kv ∈ block_reuse (rw_info (ri_rw st)).
Proof.
  intros H. apply ri_lift_inv in H as (rw & H & ->).
  unfold record_block_reuse, modify in H. inversion H; subst. cbn.
  split; [reflexivity|]. split.
  - intros kv Hin. apply elem_of_cons in Hin as [->|Hin]; [left; reflexivity|].
    right. apply list_elem_of_filter in Hin as [_ Hin]. exact Hin.
  - eexists. split; [reflexivity|].
    intros kv Hin. apply list_elem_of_filter in Hin as [_ Hin]. exact Hin.
Qed.

Lemma foldl_reindex_push_rw (covered : gset addr) (ivs : list IterVar) (st : ReIndexState) :
  ri_rw (foldl (reindex_push covered) st ivs) = ri_rw st.
Proof.
  revert st. induction ivs as [|iv ivs IH]; intros st; [reflexivity|].
  cbn [foldl]. rewrite IH. unfold reindex_push.
  destruct (covered_count covered (iv_var iv)); reflexivity.
Qed.

Lemma delete_take_insert {A} (l : list A) (x : A) (n : nat) :
  n <= length l -> delete n (take n l ++ x :: drop n l) = l.
Proof.
  revert n. induction l as [|y r IH]; intros [|n] Hn; cbn in *; try lia; try reflexivity.
  f_equal. apply IH. lia.
Qed.

Lemma InsertCacheStage_Ok_inv {S} (stmt : Stmt) (pos : Z) (stage r : Stmt) (st st' : S) :
  InsertCacheStage stmt pos stage st = (Ok r, st') ->
  (0 <= pos <= Z.of_nat (length (body_children stmt)))%Z
  /\ r = SeqStmt (take (Z.to_nat pos) (body_children stmt)
                  ++ stage :: drop (Z.to_nat pos) (body_children stmt)).
Proof.
  intros H.
  assert (Hseq : forall seq, seq_insert (S := S) seq pos stage st = (Ok (body_children r), st') ->
                             (0 <= pos <= Z.of_nat (length seq))%Z
                             /\ body_children r
                                = take (Z.to_nat pos) seq ++ stage :: drop (Z.to_nat pos) seq).
  { intros seq Hs. unfold seq_insert in Hs.
    destruct (bool_decide (0 ≤ pos ≤ Z.of_nat (length seq))%Z) eqn:Hb; [|discriminate Hs].
    apply bool_decide_eq_true in Hb. inversion Hs. auto. }
  destruct stmt; cbn [InsertCacheStage body_children] in *.
  3: { apply bind_inv in H as (result & s1 & Hi & H). unfold ret in H. inversion H; subst.
       cbn [body_children] in Hseq. apply Hseq in Hi as [Hp ->]. auto. }
  all: destruct (pos =? 0)%Z eqn:Hp;
    [apply Z.eqb_eq in Hp; subst; unfold ret in H; inversion H; subst;
     split; [cbn; lia|reflexivity]|].
  all: apply bind_inv in H as (u & s1 & Hi & H); apply ICHECK_inv in Hi as [Hi ->];
    apply Z.eqb_eq in Hi; subst; unfold ret in H; inversion H; subst;
    split; [cbn; lia|reflexivity].
Qed.

Section ReIndex_rewriter.

Variable ReplaceBufferRegion :
  list BufferRegion -> Buffer -> BufferRegion -> list BufferRegion * bool.
Variable ReplaceBufferRegion_match :
  list MatchBufferRegion -> Buffer -> BufferRegion -> list MatchBufferRegion * bool.
Variable block_sref : StmtSRef.
Variable covered : gset addr.
Variable old_buffer new_buffer : Buffer.

Local Abbreviation VisitStmt :=
  (ReIndex_VisitStmt ReplaceBufferRegion ReplaceBufferRegion_match block_sref covered
                     old_buffer new_buffer).
Local Abbreviation VisitBlock :=
  (ReIndex_VisitBlock ReplaceBufferRegion ReplaceBufferRegion_match block_sref covered
                      old_buffer new_buffer).

Local Abbreviation target := (is_target block_sref).
Local Abbreviation from_target := (entries_from_target block_sref).

Lemma from_target_refl st : from_target st st.
Proof. intros kv H. auto. Qed.

Lemma from_target_trans s1 s2 s3 : from_target s1 s2 -> from_target s2 s3 -> from_target s1 s3.
Proof. intros H1 H2 kv H. destruct (H2 kv H) as [H'|H']; auto. Qed.

Lemma from_target_info st st' :
  rw_info (ri_rw st') = rw_info (ri_rw st) -> from_target st st'.
Proof. intros E kv H. rewrite E in H. auto. Qed.

Ltac ri_use_IH :=
  repeat match goal with
    | IH : forall st r st', _ -> VisitStmt ?t st = (Ok r, st') -> _,
      H : VisitStmt ?t _ = (Ok _, _) |- _ =>
        apply IH in H as (? & ? & ?);
        [|first [assumption|congruence|rewrite foldl_reindex_push_rw; assumption]]
    | IH : forall st r st', _ -> VisitBlock ?t st = (Ok r, st') -> _,
      H : VisitBlock ?t _ = (Ok _, _) |- _ =>
        apply IH in H as (? & ? & ?); [|first [assumption|congruence]]
    end.

Lemma from_target_push st ivs : from_target st (foldl (reindex_push covered) st ivs).
Proof. apply from_target_info. rewrite foldl_reindex_push_rw. reflexivity. Qed.

Lemma from_target_record st1 st2 st3 (old new : Block) :
  from_target st1 st2 ->
  (forall kv, kv ∈ block_reuse (rw_info (ri_rw st3)) ->
              kv = (old, new) \/ kv ∈ block_reuse (rw_info (ri_rw st2))) ->
  target old ->
  from_target st1 st3.
Proof.
  intros H12 Hrec Ht kv Hkv. destruct (Hrec _ Hkv) as [->|Hkv']; [right; exact Ht|].
  apply H12, Hkv'.
Qed.

(** Closes a goal [from_target s s'] from the steps in the context. *)
Ltac ri_chain :=
  repeat match goal with
    | H : rw_info (ri_rw ?b) = rw_info (ri_rw ?a) |- _ =>
        apply from_target_info in H
    end;
  repeat first
    [ apply from_target_refl
    | assumption
    | eapply from_target_trans; [eassumption|] ].

(** Follows a block of a child through the visit of the child. *)
Ltac ri_by_child :=
  match goal with
  | Hc : forall B, B ∈ blocks_of ?t -> _, HB : _ ∈ blocks_of ?t |- _ =>
      let Hin := fresh "Hin" in
      let Hk := fresh "Hk" in
      destruct (Hc _ HB) as [Hin|Hk]; [left|right; exact Hk]
  | Hc : forall B, B ∈ blocks_of_block ?t -> _, HB : _ ∈ blocks_of_block ?t |- _ =>
      let Hin := fresh "Hin" in
      let Hk := fresh "Hk" in
      destruct (Hc _ HB) as [Hin|Hk]; [left|right; exact Hk]
  end.

Lemma ReIndex_rewriter_mutual :
  (forall s st r st',
      rw_flag (ri_rw st) = false ->
      VisitStmt s st = (Ok r, st') ->
      rw_flag (ri_rw st') = false
      /\ from_target st st'
      /\ forall B, B ∈ blocks_of s -> B ∈ blocks_of r.1 \/ target B)
  /\ (forall b st r st',
         rw_flag (ri_rw st) = false ->
         VisitBlock b st = (Ok r, st') ->
         rw_flag (ri_rw st') = false
         /\ from_target st st'
         /\ forall B, B ∈ blocks_of_block b -> B ∈ blocks_of_block r.1 \/ target B).
Proof.
  apply Stmt_Block_ind.
  - (* BufferStore *)
    intros b v i st r st' Hf H. cbn in H. rinv H.
    all: split; [assumption|]; split; [apply from_target_refl|]; intros B HB; inversion HB.
  - (* Evaluate *)
    intros v st r st' Hf H. cbn in H. rinv H.
    split; [assumption|]. split; [apply from_target_refl|]. intros B HB. inversion HB.
  - (* SeqStmt *)
    intros seq IH st r st' Hf H. cbn [ReIndex_VisitStmt] in H.
    apply bind_inv in H as (seq' & s1 & Hm & H). rinv H.
    eapply (mapM_Forall_pre _ (fun st => rw_flag (ri_rw st) = false) from_target
              (fun x y => forall B, B ∈ blocks_of x -> B ∈ blocks_of y.1 \/ target B))
      in Hm as (Hf' & HR & HF);
      [| apply from_target_refl | apply from_target_trans | exact IH | exact Hf].
    split; [exact Hf'|]. split; [exact HR|]. intros B HB.
    destruct (existsb snd seq'); cbn [fst]; [|left; exact HB].
    apply elem_of_blocks_of_seq in HB as (x & Hx & HB).
    apply list_elem_of_lookup in Hx as [i Hi].
    destruct (Forall2_lookup_l _ _ _ _ _ HF Hi) as (y & Hy & HG).
    destruct (HG B HB) as [Hin|Hk]; [left|right; exact Hk].
    apply elem_of_blocks_of_seq. exists y.1. split; [|exact Hin].
    apply list_elem_of_lookup. exists i. rewrite list_lookup_fmap, Hy. reflexivity.
  - (* IfThenElse *)
    intros c t e IHt IHe st r st' Hf H. cbn [ReIndex_VisitStmt] in H.
    rinv H; ri_use_IH; cbn [fst snd] in *.
    all: split; [assumption|]; split; [ri_chain|]; intros B HB.
    all: destruct (_ || _ || _); cbn [fst]; [|left; exact HB].
    all: cbn [blocks_of] in *; rewrite ?app_nil_r in *.
    + apply elem_of_app in HB as [HB|HB]; ri_by_child; apply elem_of_app; auto.
    + ri_by_child. exact Hin.
  - (* For *)
    intros a v mn ext k body IH st r st' Hf H. cbn [ReIndex_VisitStmt] in H.
    rinv H; ri_use_IH; cbn [fst snd] in *.
    all: split; [congruence|]; split; [ri_chain|]; intros B HB.
    all: cbn [blocks_of] in *.
    all: first [ri_by_child; exact Hin | left; exact HB].
  - (* BlockRealize *)
    intros vals pred b IH st r st' Hf H. cbn [ReIndex_VisitStmt] in H.
    fold VisitBlock in H.
    rinv H; ri_use_IH; cbn [fst snd] in *.
    split; [assumption|]. split; [ri_chain|]. intros B HB.
    destruct (_ || _ || _); cbn [fst]; [|left; exact HB].
    cbn [blocks_of] in *. ri_by_child. exact Hin.
  - (* BlockStmt *)
    intros b IH st r st' Hf H. cbn [ReIndex_VisitStmt] in H.
    fold VisitBlock in H.
    rinv H; ri_use_IH; cbn [fst snd] in *.
    split; [assumption|]. split; [ri_chain|]. intros B HB.
    cbn [blocks_of] in *. ri_by_child. exact Hin.
  - (* Block *)
    intros a ivs rs ws n body init al mb IHbody IHinit st r st' Hf H.
    cbn [ReIndex_VisitBlock] in H.
    fold VisitStmt in H.
    cbn beta iota in IHinit.
    rinv H; try congruence.
    5: { (* any other block *)
         split; [assumption|]. split; [apply from_target_refl|]. intros B HB. left. exact HB. }
    all: ri_use_IH.
    all: repeat match goal with
           | Hr : ri_lift (rebuild_block _ _ _ _ _ _ _ _) _ = _ |- _ =>
               apply ri_rebuild_children in Hr as (? & ? & ?)
           | Hr : ri_lift (copy_block _ _) _ = _ |- _ =>
               apply ri_copy_children in Hr as (? & ? & ?); [|reflexivity|reflexivity]
           | Hr : ri_lift (record_block_reuse _ _) _ = _ |- _ =>
               apply ri_record_block_reuse in Hr as (? & Hrec & _)
           end.
    all: cbn [fst snd] in *.
    all: match goal with
         | _ : context [foldl (reindex_push covered) ?s0 ?l] |- _ =>
             pose proof (from_target_push s0 l)
         end.
    all: split; [congruence|]; split.
    all: try (eapply from_target_record; [|exact Hrec|exact E0]; ri_chain).
    all: intros B HB; rewrite blocks_of_block_eq in HB |- *;
      apply elem_of_cons in HB as [->|HB]; [right; exact E0|].
    all: pose proof HB as HB0; unfold child_blocks in HB;
      cbn [block_init block_body] in HB;
      apply elem_of_app in HB as [HB|HB]; try (inversion HB; fail).
    all: ri_by_child.
    all: apply elem_of_cons; right.
    all: repeat match goal with
           | Hc : child_blocks _ = child_blocks _ |- _ => rewrite Hc; clear Hc
           end.
    all: repeat match goal with
           | Hi : forall B, B ∈ child_blocks _ -> _ -> B ∈ child_blocks ?x |- _ ∈ child_blocks ?x =>
               apply Hi; [exact HB0|]
           end.
    all: apply elem_of_app; first [left; exact Hin | right; exact Hin].
Qed.




Lemma ReIndex_VisitStmt_shape (s : Stmt) st r st' :
  VisitStmt s st = (Ok r, st') ->
  length (body_children r.1) = length (body_children s).
Proof.
  intros H. destruct s; cbn [ReIndex_VisitStmt] in H.
  3: { apply bind_inv in H as (seq' & s1 & Hm & H). rinv H.
       destruct (existsb snd seq'); cbn [fst body_children]; [|reflexivity].
       apply mapM_inv in Hm. apply Forall2_length in Hm. rewrite length_map. auto. }
  all: try fold VisitBlock in H.
  all: rinv H; cbn [fst body_children]; try reflexivity.
  all: repeat match goal with
         | |- context [if ?c then _ else _] => destruct c
         end; reflexivity.
Qed.

Lemma ReIndex_root_body (root : Block) st r st' :
  rw_flag (ri_rw st) = true ->
  VisitBlock root st = (Ok r, st') ->
  let info := rw_info (ri_rw st) in
  let pos := to_int (loc_pos info) in
  exists stage children,
    cache_stage info = Some stage
    /\ length children = length (body_children (block_body root))
    /\ (0 <= pos <= Z.of_nat (length children))%Z
    /\ block_body r.1
       = SeqStmt (take (Z.to_nat pos) children ++ stage :: drop (Z.to_nat pos) children)
    /\ block_alloc_buffers r.1 = block_alloc_buffers root ++ [alloc info].
Proof.
  intros Hf H. destruct root as [a ivs rs ws n body init al mb].
  cbn [ReIndex_VisitBlock] in H. fold VisitStmt in H.
  rinv H; try congruence.
  all: repeat match goal with
         | Hr : ri_lift (rebuild_block _ _ _ _ _ _ _ _) _ = _ |- _ =>
             apply ri_lift_inv in Hr as (? & Hr & ->);
             apply rebuild_block_inv in Hr as (_ & _ & Hr)
         | Hr : info_cache_stage _ _ = (Ok _, _) |- _ =>
             apply info_cache_stage_inv in Hr as [? ?]
         | Hr : InsertCacheStage _ _ _ _ = (Ok _, _) |- _ =>
             apply InsertCacheStage_Ok_inv in Hr as (? & ?)
         | Hv : VisitStmt ?t _ = (Ok _, _) |- _ =>
             apply ReIndex_VisitStmt_shape in Hv
         end.
  all: subst; cbn [fst snd] in *.
  all: match goal with
       | Hr : _ \/ _ |- _ => destruct Hr as [->|[a' ->]]
       end.
  all: cbn [fst block_body block_alloc_buffers with_addr with_alloc_pushed with_body] in *.
  all: eexists _, _; split; [eassumption|];
    (split; [|split; [eassumption|split; reflexivity]]); congruence.
Qed.

Lemma ReIndex_root_visit (root : Block) st r st' :
  rw_flag (ri_rw st) = true ->
  VisitBlock root st = (Ok r, st') ->
  (exists rest,
      block_reuse (rw_info (ri_rw st')) = (root, r.1) :: rest
      /\ forall kv, kv ∈ rest -> kv ∈ block_reuse (rw_info (ri_rw st)) \/ target kv.1)
  /\ (forall B, B ∈ blocks_of_block root ->
                B = root \/ target B \/ B ∈ blocks_of_block r.1).
Proof.
  intros Hf H. destruct root as [a ivs rs ws n body init al mb].
  cbn [ReIndex_VisitBlock] in H. fold VisitStmt in H.
  rinv H; try congruence.
  all: repeat match goal with
         | IH : VisitStmt ?t _ = (Ok _, _) |- _ =>
             apply (proj1 ReIndex_rewriter_mutual) in IH as (? & ? & ?);
             [|first [reflexivity|assumption]]
         end.
  all: repeat match goal with
         | Hr : ri_lift (rebuild_block _ _ _ _ _ _ _ _) _ = _ |- _ =>
             apply ri_rebuild_children in Hr as (? & ? & ?)
         | Hr : ri_lift (record_block_reuse _ _) _ = _ |- _ =>
             apply ri_record_block_reuse in Hr as (_ & _ & rest & Hrec & Hrest)
         | Hr : info_cache_stage _ _ = (Ok _, _) |- _ =>
             apply info_cache_stage_inv in Hr as [? ?]
         | Hr : InsertCacheStage _ _ _ _ = (Ok _, _) |- _ =>
             apply InsertCacheStage_inv in Hr as (? & Hins & _)
         end.
  all: subst; cbn [fst snd] in *.
  all: split;
    [exists rest; split; [exact Hrec|];
     intros kv Hkv; apply Hrest in Hkv; revert kv Hkv;
     match goal with
     | |- forall kv, kv ∈ block_reuse (rw_info (ri_rw ?x)) ->
                     kv ∈ block_reuse (rw_info (ri_rw ?y)) \/ _ =>
         change (from_target (set_ri_is_scope false y) x)
     end; ri_chain|].
  all: intros B HB; rewrite blocks_of_block_eq in HB;
    apply elem_of_cons in HB as [->|HB]; [left; reflexivity|right].
  all: pose proof HB as HB0; unfold child_blocks in HB;
    cbn [block_init block_body] in HB;
    apply elem_of_app in HB as [HB|HB]; try (inversion HB; fail).
  all: match goal with
       | Hc : forall B, B ∈ blocks_of ?t -> _, HB : _ ∈ blocks_of ?t |- _ =>
           destruct (Hc _ HB) as [Hin|Hk]; [right|left; exact Hk]
       end.
  all: rewrite blocks_of_block_eq; apply elem_of_cons; right.
  all: match goal with
       | Hi : forall B, B ∈ child_blocks _ -> _ -> B ∈ child_blocks ?x |- _ =>
           assert (Hc : B ∈ child_blocks x)
             by (apply Hi; [exact HB0|apply elem_of_app; first [left; exact Hin|right; exact Hin]])
       end.
  all: unfold child_blocks in Hc |- *; destruct a0 as [[] ?]; cbn in Hc, Hins |- *.
  all: apply elem_of_app in Hc as [Hc|Hc]; apply elem_of_app; auto.
Qed.

End ReIndex_rewriter.

Section ReIndex_rewriter_root.

Variable ReplaceBufferRegion :
  list BufferRegion -> Buffer -> BufferRegion -> list BufferRegion * bool.
Variable ReplaceBufferRegion_match :
  list MatchBufferRegion -> Buffer -> BufferRegion -> list MatchBufferRegion * bool.
Variable scope_sref block_sref : StmtSRef.
Variable covered : gset addr.

(** X16. The rewriter of [ReIndex] makes new objects of two blocks only.
    When the scope root is a block and the rewriter returns, the new subtree
    is a new root block, which the reuse map it hands to [Replace] maps the
    old root to in its first entry; every other entry it has added maps the
    block being reindexed; and every other block of the old subtree is a block
    of the new one, the same object. *)
Theorem ReIndex_rewrites_two_blocks
    (info info' : CacheStageInfo) (h h' : Heap) (new_scope : Stmt) (root : Block) :
  sref_stmt scope_sref = BlockStmt root ->
  ReIndexRewriter_Rewrite ReplaceBufferRegion ReplaceBufferRegion_match
                          scope_sref block_sref info covered h
  = (Ok (new_scope, info'), h') ->
  exists root' rest,
    new_scope = BlockStmt root'
    /\ block_reuse info' = (root, root') :: rest
    /\ (forall kv, kv ∈ rest -> kv ∈ block_reuse info \/ is_target block_sref kv.1)
    /\ (forall B, B ∈ blocks_of (BlockStmt root) ->
                  B = root \/ is_target block_sref B \/ B ∈ blocks_of new_scope).
Proof.
  intros Hroot H. unfold ReIndexRewriter_Rewrite in H. rewrite Hroot in H.
  match type of H with
  | context [ReIndex_VisitStmt ?rb ?rbm ?bs ?cv ?ob ?nb _ ?st0] =>
      destruct (ReIndex_VisitStmt rb rbm bs cv ob nb (BlockStmt root) st0)
        as [[[stmt c]|e] st] eqn:E; inversion H; subst; clear H
  end.
  cbn [ReIndex_VisitStmt] in E.
  apply bind_inv in E as ([root' c'] & s1 & Hv & E).
  unfold ret in E. inversion E; subst; clear E.
  eapply ReIndex_root_visit in Hv as ((rest & Hrec & Hrest) & Hblocks); [|reflexivity].
  exists root', rest. cbn [fst blocks_of] in *. auto.
Qed.

(** X17. The stage of [ReIndex] goes into the body of the scope root, next
    to the child the block lies in.  Let the plan hold the position that
    step 3 computes from the reference of that child, whose sequence index is
    -1 or an [int] below its maximum, and let [index] be that sequence index,
    or 0 for -1.  When the rewriter returns, the body of the new root is a
    sequence that has the stage at position [index] for a read, before that
    child, and at position [index + 1] for a write, behind it; without the
    stage it has as many statements as the old body had children.  The new root
    also allocates the reindex buffer, after the buffers of the old root. *)
Theorem ReIndex_stage_position
    (info info' : CacheStageInfo) (h h' : Heap) (new_scope : Stmt) (root : Block)
    (loop : StmtSRef) (buffer_index_type : BufferIndexType) :
  sref_stmt scope_sref = BlockStmt root ->
  loc_pos info = ReIndex_loc_pos loop buffer_index_type ->
  (-1 <= sref_seq_index loop < 2 ^ 31 - 1)%Z ->
  ReIndexRewriter_Rewrite ReplaceBufferRegion ReplaceBufferRegion_match
                          scope_sref block_sref info covered h
  = (Ok (new_scope, info'), h') ->
  let index := if (sref_seq_index loop =? -1)%Z then 0%Z else sref_seq_index loop in
  let p := Z.to_nat (match buffer_index_type with
                     | kRead => index
                     | kWrite => index + 1
                     end) in
  exists root' stage result,
    new_scope = BlockStmt root'
    /\ cache_stage info = Some stage
    /\ block_body root' = SeqStmt result
    /\ result !! p = Some stage
    /\ length (delete p result) = length (body_children (block_body root))
    /\ block_alloc_buffers root' = block_alloc_buffers root ++ [alloc info].
Proof.
  intros Hroot Hpos Hrange H index p.
  unfold ReIndexRewriter_Rewrite in H. rewrite Hroot in H.
  match type of H with
  | context [ReIndex_VisitStmt ?rb ?rbm ?bs ?cv ?ob ?nb _ ?st0] =>
      destruct (ReIndex_VisitStmt rb rbm bs cv ob nb (BlockStmt root) st0)
        as [[[stmt c]|e] st] eqn:E; inversion H; subst; clear H
  end.
  cbn [ReIndex_VisitStmt] in E.
  apply bind_inv in E as ([root' c'] & s1 & Hv & E).
  unfold ret in E. inversion E; subst; clear E.
  eapply ReIndex_root_body in Hv as (stage & children & Hstage & Hlen & Hp & Hbody & Halloc);
    [|reflexivity].
  cbn [fst ri_rw rw_info] in *.
  assert (Hto : Z.to_nat (to_int (loc_pos info)) = p).
  { rewrite Hpos. unfold ReIndex_loc_pos, p. fold index.
    assert (Hi : (0 <= index < 2 ^ 31 - 1)%Z).
    { unfold index. destruct (sref_seq_index loop =? -1)%Z eqn:Hi; [lia|].
      apply Z.eqb_neq in Hi. lia. }
    assert (Hs : to_size_t index = index) by (unfold to_size_t; apply Z.mod_small; lia).
    rewrite Hs. destruct buffer_index_type.
    - rewrite to_int_small by lia. reflexivity.
    - assert (Hs' : to_size_t (index + 1) = (index + 1)%Z)
        by (unfold to_size_t; apply Z.mod_small; lia).
      rewrite Hs', to_int_small by lia. reflexivity. }
  rewrite Hto in Hbody.
  assert (Hple : p <= length children) by lia.
  exists root', stage, (take p children ++ stage :: drop p children).
  do 3 (split; [first [reflexivity|assumption]|]).
  split; [|split; [|exact Halloc]].
  - rewrite lookup_app_r by (rewrite length_take; lia).
    rewrite length_take. replace (p - p `min` length children) with 0 by lia. reflexivity.
  - rewrite delete_take_insert by exact Hple. exact Hlen.
Qed.

End ReIndex_rewriter_root.

Lemma ReIndex_rewrites_two_blocks_witness :
  exists new_scope info' h' root' rest,
    ReIndexRewriter_Rewrite ReindexRun.ReplaceBufferRegion ReindexRun.ReplaceBufferRegion_match
                            ReindexRun.root_sref ReindexRun.block_sref ReindexRun.plan
                            ReindexRun.covered 200
    = (Ok (new_scope, info'), h')
    /\ new_scope = BlockStmt root'
    /\ block_reuse info' = (ReindexRun.root, root') :: rest
    /\ (forall kv, kv ∈ rest ->
                   kv ∈ block_reuse ReindexRun.plan \/ is_target ReindexRun.block_sref kv.1).
Proof.
  destruct (ReIndexRewriter_Rewrite ReindexRun.ReplaceBufferRegion
              ReindexRun.ReplaceBufferRegion_match ReindexRun.root_sref ReindexRun.block_sref
              ReindexRun.plan ReindexRun.covered 200)
    as [[[new_scope info']|e] h'] eqn:E; [|vm_compute in E; discriminate E].
  destruct (ReIndex_rewrites_two_blocks ReindexRun.ReplaceBufferRegion
              ReindexRun.ReplaceBufferRegion_match ReindexRun.root_sref ReindexRun.block_sref
              ReindexRun.covered ReindexRun.plan info' 200 h' new_scope ReindexRun.root
              eq_refl E) as (root' & rest & Hs & Hr & Hrest & _).
  exists new_scope, info', h', root', rest. auto.
Defined.

Lemma ReIndex_stage_position_witness :
  exists new_scope info' h' root' stage result,
    ReIndexRewriter_Rewrite ReindexRun.ReplaceBufferRegion ReindexRun.ReplaceBufferRegion_match
                            ReindexRun.root_sref ReindexRun.block_sref ReindexRun.plan
                            ReindexRun.covered 200
    = (Ok (new_scope, info'), h')
    /\ new_scope = BlockStmt root'
    /\ cache_stage ReindexRun.plan = Some stage
    /\ block_body root' = SeqStmt result
    /\ result !! 1 = Some stage
    /\ length (delete 1 result) = 1
    /\ block_alloc_buffers root' = [alloc ReindexRun.plan].
Proof.
  destruct (ReIndexRewriter_Rewrite ReindexRun.ReplaceBufferRegion
              ReindexRun.ReplaceBufferRegion_match ReindexRun.root_sref ReindexRun.block_sref
              ReindexRun.plan ReindexRun.covered 200)
    as [[[new_scope info']|e] h'] eqn:E; [|vm_compute in E; discriminate E].
  destruct (ReIndex_stage_position ReindexRun.ReplaceBufferRegion
              ReindexRun.ReplaceBufferRegion_match ReindexRun.root_sref ReindexRun.block_sref
              ReindexRun.covered ReindexRun.plan info' 200 h' new_scope ReindexRun.root
              ReindexRun.loop_i_sref kWrite eq_refl eq_refl ltac:(cbn; lia) E)
    as (root' & stage & result & H1 & H2 & H3 & H4 & H5 & H6).
  exists new_scope, info', h', root', stage, result. auto 10.
Defined.

(** ** The accesses of the reindexed block *)

Lemma concat_nil_Forall {A} (ls : list (list A)) :
  concat ls = [] <-> Forall (fun l => l = []) ls.
Proof.
  induction ls as [|l ls IH]; cbn; [split; auto|].
  split.
  - intros H. apply app_eq_nil in H as [-> H]. constructor; [reflexivity|]. apply IH, H.
  - intros H. inversion H; subst. cbn. apply IH. assumption.
Qed.

Lemma Forall_concat {A} (P : A -> Prop) (ls : list (list A)) :
  Forall (Forall P) ls -> Forall P (concat ls).
Proof.
  induction 1 as [|l ls Hl _ IH]; cbn; [constructor|]. apply Forall_app. auto.
Qed.

Section ReIndex_accesses.

Variable old_buffer new_buffer : Buffer.
Variable indices_ : list PrimExpr.

Hypothesis Hdistinct : buffer_same_as new_buffer old_buffer = false.
Hypothesis Hvars : Forall (fun e => forall b, expr_accesses b e = []) indices_.

Local Abbreviation VisitExpr := (ReIndex_VisitExpr old_buffer new_buffer indices_).

Lemma ReIndex_VisitExpr_same (e : PrimExpr) :
  (VisitExpr e).2 = false -> (VisitExpr e).1 = e.
Proof.
  destruct e; cbn [ReIndex_VisitExpr]; try reflexivity.
  - destruct (VisitExpr e1) as [a' ca], (VisitExpr e2) as [b' cb].
    destruct (ca || cb); [discriminate|reflexivity].
  - unfold Mutate_exprs. destruct (buffer_same_as buffer old_buffer); [discriminate|].
    destruct (existsb _ indices); [discriminate|reflexivity].
  - unfold Mutate_exprs. destruct (existsb _ args); [discriminate|reflexivity].
Qed.

Lemma Mutate_exprs_same (l : list PrimExpr) :
  (Mutate_exprs VisitExpr l).2 = false -> (Mutate_exprs VisitExpr l).1 = l.
Proof.
  unfold Mutate_exprs. cbn [fst snd]. induction l as [|x r IH]; [reflexivity|].
  cbn [existsb map]. intros H. apply orb_false_elim in H as [Hx Hr].
  rewrite ReIndex_VisitExpr_same by exact Hx. rewrite IH by exact Hr. reflexivity.
Qed.

Lemma indices_no_access (b : Buffer) : concat (map (expr_accesses b) indices_) = [].
Proof.
  apply concat_nil_Forall, Forall_map. eapply Forall_impl; [exact Hvars|].
  intros e He. apply He.
Qed.

Lemma ReIndex_VisitExpr_Bin op a b :
  (VisitExpr (Bin op a b)).1 = Bin op (VisitExpr a).1 (VisitExpr b).1.
Proof.
  cbn [ReIndex_VisitExpr].
  pose proof (ReIndex_VisitExpr_same a) as Ha. pose proof (ReIndex_VisitExpr_same b) as Hb.
  destruct (VisitExpr a) as [a' ca], (VisitExpr b) as [b' cb]. cbn [fst snd] in *.
  destruct ca, cb; cbn; try reflexivity. rewrite Ha, Hb; reflexivity.
Qed.

Lemma ReIndex_VisitExpr_BufferLoad buffer indices :
  (VisitExpr (BufferLoad buffer indices)).1
  = if buffer_same_as buffer old_buffer
    then BufferLoad new_buffer indices_
    else BufferLoad buffer (map (fun e => (VisitExpr e).1) indices).
Proof.
  cbn [ReIndex_VisitExpr].
  pose proof (Mutate_exprs_same indices) as Hi. unfold Mutate_exprs in *. cbn [fst snd] in *.
  destruct (buffer_same_as buffer old_buffer); [reflexivity|].
  destruct (existsb _ indices); [reflexivity|]. rewrite Hi; reflexivity.
Qed.

Lemma ReIndex_VisitExpr_Call t op args :
  (VisitExpr (Call t op args)).1 = Call t op (map (fun e => (VisitExpr e).1) args).
Proof.
  cbn [ReIndex_VisitExpr].
  pose proof (Mutate_exprs_same args) as Hi. unfold Mutate_exprs in *. cbn [fst snd] in *.
  destruct (existsb _ args); [reflexivity|]. rewrite Hi; reflexivity.
Qed.

Local Abbreviation retargeted' := (retargeted indices_).

Lemma retargeted_nil n : retargeted' ([], n) ([], n).
Proof.
  split; [reflexivity|]. cbn. split; [intros ->; constructor|congruence].
Qed.

Lemma retargeted_keep (c : bool) (x y : list PrimExpr) :
  retargeted' ([], if c then [x] else []) ([], if c then [y] else []).
Proof.
  split; [reflexivity|]. cbn. split; [|congruence].
  destruct c; [discriminate|constructor].
Qed.

Lemma retargeted_app o1 n1 o1' n1' o2 n2 o2' n2' :
  retargeted' (o1, n1) (o1', n1') -> retargeted' (o2, n2) (o2', n2') ->
  retargeted' (o1 ++ o2, n1 ++ n2) (o1' ++ o2', n1' ++ n2').
Proof.
  intros (E1 & F1 & N1) (E2 & F2 & N2). cbn [fst snd] in *. subst.
  split; [reflexivity|]. cbn [fst snd]. split.
  - intros H. apply app_eq_nil in H as [-> ->]. apply Forall_app. auto.
  - intros H Hn. apply app_eq_nil in Hn as [-> ->].
    destruct o1; [destruct o2; [cbn in H; congruence|]|].
    + apply N2; [discriminate|reflexivity].
    + apply N1; [discriminate|reflexivity].
Qed.

Lemma retargeted_concat {A} (f g : A -> A) (o n : A -> list (list PrimExpr)) (l : list A) :
  Forall (fun x => retargeted' (o x, n x) (o (f x), n (f x))) l ->
  retargeted' (concat (map o l), concat (map n l))
              (concat (map o (map f l)), concat (map n (map f l))).
Proof.
  induction 1 as [|x r Hx _ IH]; [apply retargeted_nil|].
  cbn [map concat]. apply retargeted_app; assumption.
Qed.

Lemma retargeted_concat2 {A B} (o n : A -> list (list PrimExpr))
    (o' n' : B -> list (list PrimExpr)) (l : list A) (l' : list B) :
  Forall2 (fun x y => retargeted' (o x, n x) (o' y, n' y)) l l' ->
  retargeted' (concat (map o l), concat (map n l))
              (concat (map o' l'), concat (map n' l')).
Proof.
  induction 1 as [|x y r r' Hx _ IH]; [apply retargeted_nil|].
  cbn [map concat]. apply retargeted_app; assumption.
Qed.

Lemma ReIndex_VisitExpr_retargets (e : PrimExpr) :
  retargeted' (expr_accesses old_buffer e, expr_accesses new_buffer e)
              (expr_accesses old_buffer (VisitExpr e).1,
               expr_accesses new_buffer (VisitExpr e).1).
Proof.
  induction e as [t v|v|op a b IHa IHb|b indices IH|t op args IH] using PrimExpr_ind_nested.
  - apply retargeted_nil.
  - apply retargeted_nil.
  - rewrite ReIndex_VisitExpr_Bin. cbn [expr_accesses]. apply retargeted_app; assumption.
  - rewrite ReIndex_VisitExpr_BufferLoad. cbn [expr_accesses].
    destruct (buffer_same_as b old_buffer) eqn:Hb.
    + cbn [expr_accesses]. rewrite !indices_no_access, Hdistinct.
      assert (Hn : buffer_same_as new_buffer new_buffer = true) by apply Nat.eqb_refl.
      rewrite Hn. cbn [app]. split; [reflexivity|]. cbn [fst snd].
      split; [intros _; repeat constructor|discriminate].
    + cbn [expr_accesses]. rewrite Hb.
      apply retargeted_app; [|apply retargeted_keep].
      apply (retargeted_concat (fun e => (VisitExpr e).1) (fun e => (VisitExpr e).1)), IH.
  - rewrite ReIndex_VisitExpr_Call. cbn [expr_accesses].
    apply (retargeted_concat (fun e => (VisitExpr e).1) (fun e => (VisitExpr e).1)), IH.
Qed.

Lemma retargeted_hit o n : retargeted' (o, n) ([], [indices_]).
Proof.
  split; [reflexivity|]. cbn. split; [intros _; repeat constructor|discriminate].
Qed.

Lemma retargeted_exprs (l : list PrimExpr) :
  retargeted' (concat (map (expr_accesses old_buffer) l),
               concat (map (expr_accesses new_buffer) l))
              (concat (map (expr_accesses old_buffer) (Mutate_exprs VisitExpr l).1),
               concat (map (expr_accesses new_buffer) (Mutate_exprs VisitExpr l).1)).
Proof.
  unfold Mutate_exprs. cbn [fst].
  apply (retargeted_concat (fun e => (VisitExpr e).1) (fun e => (VisitExpr e).1)).
  apply Forall_forall. intros e _. apply ReIndex_VisitExpr_retargets.
Qed.

Lemma ReIndex_VisitExpr_unchanged (e p : PrimExpr) :
  VisitExpr e = (p, false) -> p = e.
Proof.
  intros E. pose proof (ReIndex_VisitExpr_same e) as H. rewrite E in H. apply H. reflexivity.
Qed.

Lemma Mutate_exprs_unchanged (l l' : list PrimExpr) :
  Mutate_exprs VisitExpr l = (l', false) -> l' = l.
Proof.
  intros E. pose proof (Mutate_exprs_same l) as H. rewrite E in H. apply H. reflexivity.
Qed.

Lemma retargets_expr (e p : PrimExpr) (c : bool) :
  VisitExpr e = (p, c) ->
  retargeted' (expr_accesses old_buffer e, expr_accesses new_buffer e)
              (expr_accesses old_buffer p, expr_accesses new_buffer p).
Proof.
  intros E. pose proof (ReIndex_VisitExpr_retargets e) as H. rewrite E in H. exact H.
Qed.

Lemma retargets_exprs (l l' : list PrimExpr) (c : bool) :
  Mutate_exprs VisitExpr l = (l', c) ->
  retargeted' (concat (map (expr_accesses old_buffer) l),
               concat (map (expr_accesses new_buffer) l))
              (concat (map (expr_accesses old_buffer) l'),
               concat (map (expr_accesses new_buffer) l')).
Proof.
  intros E. pose proof (retargeted_exprs l) as H. rewrite E in H. exact H.
Qed.

End ReIndex_accesses.

Section ReIndex_leaf.

Variable old_buffer new_buffer : Buffer.
Hypothesis Hdistinct : buffer_same_as new_buffer old_buffer = false.

Variable ReplaceBufferRegion :
  list BufferRegion -> Buffer -> BufferRegion -> list BufferRegion * bool.
Variable ReplaceBufferRegion_match :
  list MatchBufferRegion -> Buffer -> BufferRegion -> list MatchBufferRegion * bool.
Variable block_sref : StmtSRef.
Variable covered : gset addr.

Local Abbreviation VisitStmt :=
  (ReIndex_VisitStmt ReplaceBufferRegion ReplaceBufferRegion_match block_sref covered
                     old_buffer new_buffer).

Local Abbreviation accesses :=
  (fun s => (stmt_accesses old_buffer s, stmt_accesses new_buffer s)).

Local Abbreviation no_access :=
  (Forall (fun e : PrimExpr => forall b, expr_accesses b e = [])).

(** Closes a goal [retargeted] part by part. *)
Ltac pieces Hv :=
  repeat first
    [ apply retargeted_nil
    | apply retargeted_keep
    | apply retargeted_hit
    | eapply (retargets_expr old_buffer new_buffer _ Hdistinct Hv); eassumption
    | eapply (retargets_exprs old_buffer new_buffer _ Hdistinct Hv); eassumption
    | assumption
    | apply retargeted_app ].

(** What a visit that reports no change returned. *)
Ltac unchanged_parts :=
  repeat match goal with
    | H : _ || _ = false |- _ => apply orb_false_elim in H as [? ?]
    end;
  subst;
  repeat match goal with
    | E : ReIndex_VisitExpr _ _ _ ?e = (?p, false) |- _ =>
        lazymatch p with
        | e => fail
        | _ => pose proof (ReIndex_VisitExpr_unchanged _ _ _ _ _ E); subst p
        end
    | E : Mutate_exprs _ ?l = (?l', false) |- _ =>
        lazymatch l' with
        | l => fail
        | _ => pose proof (Mutate_exprs_unchanged _ _ _ _ _ E); subst l'
        end
    end.

Lemma ReIndex_VisitStmt_leaf (s : Stmt) :
  blocks_of s = [] ->
  forall st r st',
    no_access (ri_indices st) ->
    VisitStmt s st = (Ok r, st') ->
    ri_indices st' = ri_indices st
    /\ (r.2 = false -> r.1 = s)
    /\ retargeted (ri_indices st) (accesses s) (accesses r.1).
Proof.
  revert s.
  apply (Stmt_ind_nested
           (fun s => blocks_of s = [] ->
                     forall st r st',
                       no_access (ri_indices st) ->
                       VisitStmt s st = (Ok r, st') ->
                       ri_indices st' = ri_indices st
                       /\ (r.2 = false -> r.1 = s)
                       /\ retargeted (ri_indices st) (accesses s) (accesses r.1))
           (fun _ => True)).
  all: auto.
  - (* BufferStore *)
    intros b v i _ st r st' Hv H. cbn [ReIndex_VisitStmt] in H. rinv H.
    all: split; [reflexivity|].
    + split; [discriminate|]. cbn [fst snd stmt_accesses].
      rewrite !(indices_no_access _ Hv), Hdistinct.
      assert (Hn : buffer_same_as new_buffer new_buffer = true) by apply Nat.eqb_refl.
      rewrite Hn. cbn [app].
      apply retargeted_app; [pieces Hv|].
      rewrite <- (app_nil_l [ri_indices st']). apply retargeted_hit.
    + destruct (b0 || b1) eqn:Hc; cbn [fst snd].
      * split; [discriminate|]. cbn [stmt_accesses]. rewrite E1. pieces Hv.
      * split; [reflexivity|]. unchanged_parts. cbn [stmt_accesses]. rewrite E1.
        pieces Hv.
  - (* Evaluate *)
    intros v _ st r st' Hv H. cbn [ReIndex_VisitStmt] in H. rinv H.
    split; [reflexivity|]. destruct b; cbn [fst snd].
    + split; [discriminate|]. cbn [stmt_accesses]. pieces Hv.
    + split; [reflexivity|]. unchanged_parts. cbn [stmt_accesses]. pieces Hv.
  - (* SeqStmt *)
    intros seq IH Hl st r st' Hv H. cbn [ReIndex_VisitStmt] in H.
    apply bind_inv in H as (seq' & s1 & Hm & H). rinv H.
    cbn [blocks_of] in Hl. apply concat_nil_Forall, Forall_map in Hl.
    eapply (mapM_Forall_pre _ (fun s => ri_indices s = ri_indices st) (fun _ _ => True)
              (fun x y => (y.2 = false -> y.1 = x)
                          /\ retargeted (ri_indices st) (accesses x) (accesses y.1)))
      in Hm as (Hi & _ & HF); [| auto | auto | | reflexivity].
    2: { apply Forall_forall. intros x Hx s0 y s0' Hs0 Hy.
         rewrite Forall_forall in IH, Hl.
         assert (Hv0 : no_access (ri_indices s0)) by (rewrite Hs0; exact Hv).
         destruct (IH x Hx (Hl x Hx) _ _ _ Hv0 Hy) as (Hi0 & Hs & Hr).
         rewrite Hs0 in *. auto. }
    split; [exact Hi|].
    assert (Hsame : existsb snd seq' = false -> map fst seq' = seq).
    { clear -HF. induction HF as [|x y r r' [Hx _] _ IH]; [reflexivity|].
      cbn [existsb map]. intros H. apply orb_false_elim in H as [Hy Hr].
      rewrite Hx by exact Hy. rewrite IH by exact Hr. reflexivity. }
    assert (Hacc : retargeted (ri_indices st) (accesses (SeqStmt seq))
                              (accesses (SeqStmt (map fst seq')))).
    { cbn [stmt_accesses]. rewrite !map_map.
      apply (retargeted_concat2 _ (stmt_accesses old_buffer) (stmt_accesses new_buffer)
               (fun y => stmt_accesses old_buffer y.1) (fun y => stmt_accesses new_buffer y.1)).
      eapply Forall2_impl; [exact HF|]. intros x y [_ Hr]. exact Hr. }
    destruct (existsb snd seq') eqn:Hc; cbn [fst snd].
    + split; [discriminate|exact Hacc].
    + split; [reflexivity|]. rewrite Hsame in Hacc by reflexivity. exact Hacc.
  - (* IfThenElse *)
    intros c t e IHt IHe Hl st r st' Hv H. cbn [ReIndex_VisitStmt] in H.
    cbn [blocks_of] in Hl. apply app_eq_nil in Hl as [Hlt Hle].
    rinv H.
    all: match goal with
         | Ht : VisitStmt ?x _ = (Ok _, _) |- _ =>
             constr_eq x t; destruct (IHt Hlt _ _ _ Hv Ht) as (Hi1 & Hs1 & Hr1)
         end.
    all: try match goal with
         | He : VisitStmt ?e0 ?s0 = (Ok _, _) |- _ =>
             assert (Hv0 : no_access (ri_indices s0)) by (rewrite Hi1; exact Hv);
             destruct (IHe Hle _ _ _ Hv0 He) as (Hi2 & Hs2 & Hr2);
             rewrite Hi1 in Hr2
         end.
    all: cbn [fst snd] in *.
    all: split; [congruence|].
    all: match goal with
         | |- context [if ?f then _ else _] => destruct f eqn:Hc
         end; cbn [fst snd].
    all: (split; [first [discriminate|reflexivity]|]).
    all: unchanged_parts; rewrite ?Hs1, ?Hs2 in * by reflexivity.
    all: cbn [stmt_accesses]; pieces Hv.
  - (* For *)
    intros a v mn ext k body IH Hl st r st' Hv H. cbn [ReIndex_VisitStmt] in H.
    cbn [blocks_of] in Hl.
    rinv H.
    all: match goal with
         | Ht : VisitStmt ?x _ = (Ok _, _) |- _ =>
             destruct (IH Hl _ _ _ Hv Ht) as (Hi1 & Hs1 & Hr1)
         end.
    all: cbn [fst snd] in *.
    all: split; [congruence|].
    all: (split; [first [discriminate|reflexivity]|]).
    all: unchanged_parts; rewrite ?Hs1 in * by reflexivity.
    all: cbn [stmt_accesses]; pieces Hv.
  - (* BlockRealize *)
    intros vals pred b _ Hl. cbn [blocks_of] in Hl. destruct b. discriminate Hl.
  - (* BlockStmt *)
    intros b _ Hl. cbn [blocks_of] in Hl. destruct b. discriminate Hl.
Qed.

Lemma foldl_reindex_push_indices (ivs : list IterVar) (st : ReIndexState) :
  ri_indices (foldl (reindex_push covered) st ivs)
  = ri_indices st ++ map (fun iter => EVar (iv_var iter)) (covered_iters covered ivs).
Proof.
  revert st. induction ivs as [|iv ivs IH]; intros st; [cbn; rewrite app_nil_r; reflexivity|].
  cbn [foldl]. rewrite IH. unfold covered_iters. rewrite filter_cons. unfold reindex_push.
  destruct (covered_count covered (iv_var iv)) eqn:Hc.
  - rewrite decide_True by reflexivity. cbn [ri_indices map]. rewrite <- app_assoc. reflexivity.
  - rewrite decide_False by discriminate. reflexivity.
Qed.

(** X18. The visit of the block being reindexed redirects its accesses.
    Let the old and the new buffer be different objects, and let the block,
    with no block below it, be visited after the scope root and with no
    indices collected yet.  Then the body of the block returned has no load and
    no store of the old buffer left; its loads and stores of the new buffer,
    when the old body had none, are all at the variables of the covered block
    iters, in the order of the iters; and it has such an access when the old
    body accessed the old buffer. *)
Theorem ReIndex_redirects_accesses (b b' : Block) (c : bool) (st st' : ReIndexState) :
  is_target block_sref b ->
  rw_flag (ri_rw st) = false ->
  ri_indices st = [] ->
  child_blocks b = [] ->
  ReIndex_VisitBlock ReplaceBufferRegion ReplaceBufferRegion_match block_sref covered
                     old_buffer new_buffer b st = (Ok (b', c), st') ->
  let indices := map (fun iter => EVar (iv_var iter))
                     (covered_iters covered (block_iter_vars b)) in
  stmt_accesses old_buffer (block_body b') = []
  /\ (stmt_accesses new_buffer (block_body b) = [] ->
      Forall (fun access => access = indices) (stmt_accesses new_buffer (block_body b')))
  /\ (stmt_accesses old_buffer (block_body b) <> [] ->
      stmt_accesses new_buffer (block_body b') <> []).
Proof.
  intros Ht Hf Hi Hl H indices.
  change (retargeted indices (accesses (block_body b)) (accesses (block_body b'))).
  destruct b as [a ivs rs ws n body init al mb].
  unfold child_blocks in Hl. cbn [block_init block_body block_iter_vars] in *.
  apply app_eq_nil in Hl as [Hli Hlb].
  unfold is_target in Ht. cbn [block_addr] in Ht.
  cbn [ReIndex_VisitBlock] in H. fold VisitStmt in H.
  rinv H; try congruence.
  all: assert (Hidx : forall x, ri_indices x = [] ->
                                ri_indices (foldl (reindex_push covered) x ivs) = indices)
         by (intros x Hx; rewrite foldl_reindex_push_indices, Hx; reflexivity).
  all: assert (Hno : no_access indices)
         by (apply Forall_map, Forall_forall; intros iter _ buffer; reflexivity).
  all: repeat match goal with
         | Hv : VisitStmt _ _ = (Ok _, _) |- _ =>
             let Hi0 := fresh "Hi0" in
             let Hs0 := fresh "Hsame" in
             let Hr0 := fresh "Hr0" in
             apply ReIndex_VisitStmt_leaf in Hv as (Hi0 & Hs0 & Hr0);
             [rewrite ?Hi0, ?Hidx in * by assumption
             |assumption
             |rewrite ?Hidx by assumption; first [exact Hno|congruence]]
         end.
  all: repeat match goal with
         | Hr : ri_lift (rebuild_block _ _ _ _ _ _ _ _) _ = _ |- _ =>
             apply ri_lift_inv in Hr as (? & Hr & ->);
             apply rebuild_block_cases in Hr as [[Hc Hr]|[_ [? Hr]]];
             inversion Hr; subst; clear Hr
         | Hr : ri_lift (copy_block _ _) _ = _ |- _ =>
             apply ri_lift_inv in Hr as (? & Hr & ->);
             apply copy_block_inv in Hr as (_ & _ & ? & ->)
         end.
  all: cbn [fst snd block_body with_addr with_accesses] in *.
  all: repeat match goal with
         | Hc : _ || _ = false |- _ => apply orb_false_elim in Hc as [? Hc]
         end.
  all: repeat match goal with
         | Hs : ?f = false -> _ = _, Hc : ?f = false |- _ => specialize (Hs Hc)
         end.
  all: subst; rewrite ?Hi0 in *.
  all: assumption.
Qed.

End ReIndex_leaf.

Lemma ReIndex_redirects_accesses_witness :
  exists b' c st',
    ReIndex_VisitBlock ReindexRun.ReplaceBufferRegion ReindexRun.ReplaceBufferRegion_match
                       ReindexRun.block_sref ReindexRun.covered
                       ReindexScenario.B2 (alloc ReindexRun.plan) ReindexScenario.block
                       (mkReIndex (mkRewriter 200 ReindexRun.plan false) [] [])
    = (Ok (b', c), st')
    /\ stmt_accesses ReindexScenario.B2 (block_body b') = []
    /\ stmt_accesses (alloc ReindexRun.plan) (block_body b') <> [].
Proof.
  destruct (ReIndex_VisitBlock ReindexRun.ReplaceBufferRegion
              ReindexRun.ReplaceBufferRegion_match ReindexRun.block_sref ReindexRun.covered
              ReindexScenario.B2 (alloc ReindexRun.plan) ReindexScenario.block
              (mkReIndex (mkRewriter 200 ReindexRun.plan false) [] []))
    as [[[b' c]|e] st'] eqn:E; [|vm_compute in E; discriminate E].
  destruct (ReIndex_redirects_accesses ReindexScenario.B2 (alloc ReindexRun.plan) eq_refl
              ReindexRun.ReplaceBufferRegion ReindexRun.ReplaceBufferRegion_match
              ReindexRun.block_sref ReindexRun.covered ReindexScenario.block b' c
              (mkReIndex (mkRewriter 200 ReindexRun.plan false) [] []) st'
              eq_refl eq_refl eq_refl eq_refl E) as (H1 & _ & H3).
  exists b', c, st'. split; [reflexivity|]. split; [exact H1|].
  apply H3. discriminate.
Defined.

(** ** The loads of a consumer block *)

Section CacheRead_loads.

Variable info : CacheStageInfo.
Hypothesis Hdistinct : buffer_same_as (write_buffer info) (read_buffer info) = false.

Local Abbreviation VisitExpr := (CacheRead_VisitExpr info true).
Local Abbreviation redirected' := (redirected (read_buffer info)).
Local Abbreviation accesses_of :=
  (fun e => (expr_accesses (read_buffer info) e, expr_accesses (write_buffer info) e)).

Lemma redirected_nil : redirected' ([], []) ([], []).
Proof. intros _ _. auto. Qed.

Lemma redirected_app o1 n1 o1' n1' o2 n2 o2' n2' :
  redirected' (o1, n1) (o1', n1') -> redirected' (o2, n2) (o2', n2') ->
  redirected' (o1 ++ o2, n1 ++ n2) (o1' ++ o2', n1' ++ n2').
Proof.
  unfold redirected. cbn [fst snd]. intros H1 H2 Hf Hn.
  apply Forall_app in Hf as [Hf1 Hf2]. apply app_eq_nil in Hn as [Hn1 Hn2].
  destruct (H1 Hf1 Hn1) as [-> ->], (H2 Hf2 Hn2) as [-> ->]. auto.
Qed.

Lemma redirected_concat2 {A B} (o n : A -> list (list PrimExpr))
    (o' n' : B -> list (list PrimExpr)) (l : list A) (l' : list B) :
  Forall2 (fun x y => redirected' (o x, n x) (o' y, n' y)) l l' ->
  redirected' (concat (map o l), concat (map n l))
              (concat (map o' l'), concat (map n' l')).
Proof.
  induction 1 as [|x y r r' Hx _ IH]; [apply redirected_nil|].
  cbn [map concat]. apply redirected_app; assumption.
Qed.

Lemma redirected_concat {A} (o n o' n' : A -> list (list PrimExpr)) (l : list A) :
  Forall (fun x => redirected' (o x, n x) (o' x, n' x)) l ->
  redirected' (concat (map o l), concat (map n l))
              (concat (map o' l), concat (map n' l)).
Proof.
  induction 1 as [|x r Hx _ IH]; [apply redirected_nil|].
  cbn [map concat]. apply redirected_app; assumption.
Qed.

Lemma redirected_swap o n o' n1 n2 :
  redirected' (o, n) (o', n1) -> (n = [] -> n1 = n2) -> redirected' (o, n) (o', n2).
Proof.
  unfold redirected. cbn [fst snd]. intros H Hn Hf Hw. rewrite <- (Hn Hw). auto.
Qed.

Lemma redirected_keep (c : bool) (x y : list PrimExpr) :
  redirected' ([], if c then [x] else []) ([], if c then [y] else []).
Proof. intros _ Hn. cbn in *. destruct c; [discriminate|auto]. Qed.

(** A visit that reports no change returned an expression with the accesses
    of the one visited. *)
Lemma CacheRead_VisitExpr_same (e : PrimExpr) (b : Buffer) :
  (VisitExpr e).2 = false -> expr_accesses b (VisitExpr e).1 = expr_accesses b e.
Proof.
  destruct e; cbn [CacheRead_VisitExpr]; try reflexivity.
  - destruct (var_same_as v (buf_data (read_buffer info))); reflexivity.
  - destruct (VisitExpr e1) as [a' ca], (VisitExpr e2) as [b' cb].
    destruct (ca || cb); [discriminate|reflexivity].
  - destruct (buffer_same_as buffer (read_buffer info) && true); [discriminate|].
    unfold Mutate_exprs. destruct (existsb _ indices); [discriminate|reflexivity].
  - unfold Mutate_exprs. destruct (existsb _ args); [discriminate|reflexivity].
Qed.

Lemma CacheRead_exprs_same (l : list PrimExpr) (b : Buffer) :
  (Mutate_exprs VisitExpr l).2 = false ->
  map (expr_accesses b) (Mutate_exprs VisitExpr l).1 = map (expr_accesses b) l.
Proof.
  unfold Mutate_exprs. cbn [fst snd]. induction l as [|x r IH]; [reflexivity|].
  cbn [existsb map]. intros H. apply orb_false_elim in H as [Hx Hr].
  rewrite CacheRead_VisitExpr_same by exact Hx. rewrite IH by exact Hr. reflexivity.
Qed.

Lemma CacheRead_VisitExpr_redirects (e : PrimExpr) :
  redirected' (accesses_of e) (accesses_of (VisitExpr e).1).
Proof.
  induction e as [t v|v|op a b IHa IHb|b indices IH|t op args IH] using PrimExpr_ind_nested.
  - apply redirected_nil.
  - cbn [CacheRead_VisitExpr].
    destruct (var_same_as v (buf_data (read_buffer info))); apply redirected_nil.
  - cbn [CacheRead_VisitExpr].
    pose proof (CacheRead_VisitExpr_same a) as Sa.
    pose proof (CacheRead_VisitExpr_same b) as Sb.
    destruct (VisitExpr a) as [a' ca], (VisitExpr b) as [b' cb]. cbn [fst snd] in *.
    assert (Hn : redirected' (accesses_of (Bin op a b)) (accesses_of (Bin op a' b')))
      by (cbn [expr_accesses]; apply redirected_app; assumption).
    destruct ca, cb; cbn [orb fst]; try exact Hn.
    cbn [expr_accesses] in *. rewrite !Sa, !Sb in Hn by reflexivity. exact Hn.
  - cbn [CacheRead_VisitExpr]. rewrite andb_true_r.
    destruct (buffer_same_as b (read_buffer info)) eqn:Hb.
    + cbn [fst expr_accesses]. rewrite Hb, Hdistinct.
      assert (Hw : buffer_same_as (write_buffer info) (write_buffer info) = true)
        by apply Nat.eqb_refl.
      rewrite Hw. intros Hf Hn. cbn [fst snd] in *.
      apply Forall_app in Hf as [_ Hf]. inversion Hf as [|? ? Hi _]; subst.
      apply app_eq_nil in Hn as [Hn _].
      rewrite Hi, Hn, !app_nil_r. auto.
    + pose proof (CacheRead_exprs_same indices) as Si.
      assert (Hn : redirected' (accesses_of (BufferLoad b indices))
                               (accesses_of (BufferLoad b (Mutate_exprs VisitExpr indices).1))).
      { cbn [expr_accesses]. rewrite Hb. apply redirected_app; [|apply redirected_keep].
        unfold Mutate_exprs. cbn [fst]. rewrite !map_map.
        apply (redirected_concat _ _ (fun e => expr_accesses (read_buffer info) (VisitExpr e).1)
                 (fun e => expr_accesses (write_buffer info) (VisitExpr e).1)).
        exact IH. }
      destruct (Mutate_exprs VisitExpr indices) as [indices' c] eqn:Em. cbn [fst snd] in *.
      destruct c; cbn [fst]; [exact Hn|].
      intros Hf Hw. specialize (Hn Hf Hw). cbn [expr_accesses fst snd] in *.
      rewrite Hb in *. rewrite !Si in Hn by reflexivity.
      destruct (buffer_same_as b (write_buffer info)); [|exact Hn].
      apply app_eq_nil in Hw as [_ Hw]. discriminate Hw.
  - cbn [CacheRead_VisitExpr].
    pose proof (CacheRead_exprs_same args) as Si.
    assert (Hn : redirected' (accesses_of (Call t op args))
                             (accesses_of (Call t op (Mutate_exprs VisitExpr args).1))).
    { cbn [expr_accesses]. unfold Mutate_exprs. cbn [fst]. rewrite !map_map.
      apply (redirected_concat _ _ (fun e => expr_accesses (read_buffer info) (VisitExpr e).1)
               (fun e => expr_accesses (write_buffer info) (VisitExpr e).1)).
      exact IH. }
    destruct (Mutate_exprs VisitExpr args) as [args' c] eqn:Em. cbn [fst snd] in *.
    destruct c; cbn [fst]; [exact Hn|].
    cbn [expr_accesses] in *. rewrite !Si in Hn by reflexivity. exact Hn.
Qed.

Lemma CacheRead_redirects_expr (e p : PrimExpr) (c : bool) :
  VisitExpr e = (p, c) -> redirected' (accesses_of e) (accesses_of p).
Proof.
  intros E. pose proof (CacheRead_VisitExpr_redirects e) as H. rewrite E in H. exact H.
Qed.

Lemma CacheRead_redirects_exprs (l l' : list PrimExpr) (c : bool) :
  Mutate_exprs VisitExpr l = (l', c) ->
  redirected' (concat (map (expr_accesses (read_buffer info)) l),
               concat (map (expr_accesses (write_buffer info)) l))
              (concat (map (expr_accesses (read_buffer info)) l'),
               concat (map (expr_accesses (write_buffer info)) l')).
Proof.
  intros E. unfold Mutate_exprs in E. inversion E; subst. rewrite !map_map.
  apply (redirected_concat _ _ (fun e => expr_accesses (read_buffer info) (VisitExpr e).1)
           (fun e => expr_accesses (write_buffer info) (VisitExpr e).1)).
  apply Forall_forall. intros e _. apply CacheRead_VisitExpr_redirects.
Qed.

Lemma CacheRead_expr_unchanged (e p : PrimExpr) (b : Buffer) :
  VisitExpr e = (p, false) -> expr_accesses b p = expr_accesses b e.
Proof.
  intros E. pose proof (CacheRead_VisitExpr_same e b) as H. rewrite E in H. apply H. reflexivity.
Qed.

Lemma CacheRead_exprs_unchanged (l l' : list PrimExpr) (b : Buffer) :
  Mutate_exprs VisitExpr l = (l', false) ->
  map (expr_accesses b) l' = map (expr_accesses b) l.
Proof.
  intros E. pose proof (CacheRead_exprs_same l b) as H. rewrite E in H. apply H. reflexivity.
Qed.

End CacheRead_loads.

Section CacheRead_consumer.

Variable scope_sref : StmtSRef.

Local Abbreviation VisitStmt := (CacheRead_VisitStmt scope_sref).

Local Abbreviation accesses_in :=
  (fun (info : CacheStageInfo) (s : Stmt) =>
     (stmt_accesses (read_buffer info) s, stmt_accesses (write_buffer info) s)).

(** No store of the statement writes the buffer. *)
Local Abbreviation no_store_to :=
  (fun (buffer : Buffer) (s : Stmt) =>
     Forall (fun target => buffer_same_as target buffer = false) (store_targets s)).

(** Closes a goal [redirected] part by part. *)
Ltac rd_pieces Hd :=
  repeat first
    [ apply redirected_nil
    | apply redirected_keep
    | eapply (CacheRead_redirects_expr _ Hd); eassumption
    | eapply (CacheRead_redirects_exprs _ Hd); eassumption
    | assumption
    | apply redirected_app ].

(** The accesses of the parts that a visit reporting no change returned. *)
Ltac rd_unchanged :=
  repeat match goal with
    | H : _ || _ = false |- _ => apply orb_false_elim in H as [? ?]
    end;
  subst;
  repeat match goal with
    | E : CacheRead_VisitExpr _ _ _ = (_, false) |- _ =>
        rewrite !(CacheRead_expr_unchanged _ _ _ _ E) in *; clear E
    | E : Mutate_exprs _ _ = (_, false) |- _ =>
        rewrite !(CacheRead_exprs_unchanged _ _ _ _ E) in *; clear E
    end.

Lemma CacheRead_VisitStmt_leaf (s : Stmt) :
  blocks_of s = [] ->
  forall st r st',
    rw_flag st = true ->
    buffer_same_as (write_buffer (rw_info st)) (read_buffer (rw_info st)) = false ->
    site_outside (rw_info st) s ->
    no_store_to (read_buffer (rw_info st)) s ->
    VisitStmt s st = (Ok r, st') ->
    rw_flag st' = true
    /\ rw_info st' = rw_info st
    /\ (r.2 = false -> r.1 = s)
    /\ redirected (read_buffer (rw_info st)) (accesses_in (rw_info st) s)
                  (accesses_in (rw_info st) r.1).
Proof.
  revert s.
  apply (Stmt_ind_nested
           (fun s =>
              blocks_of s = [] ->
              forall st r st',
                rw_flag st = true ->
                buffer_same_as (write_buffer (rw_info st)) (read_buffer (rw_info st)) = false ->
                site_outside (rw_info st) s ->
                no_store_to (read_buffer (rw_info st)) s ->
                VisitStmt s st = (Ok r, st') ->
                rw_flag st' = true
                /\ rw_info st' = rw_info st
                /\ (r.2 = false -> r.1 = s)
                /\ redirected (read_buffer (rw_info st)) (accesses_in (rw_info st) s)
                              (accesses_in (rw_info st) r.1))
           (fun _ => True)).
  all: auto.
  - (* BufferStore *)
    intros b v i _ st r st' Hf Hd Hs Hn H. cbn [CacheRead_VisitStmt] in H. minv H.
    rewrite Hf in *.
    do 2 (split; [first [assumption|reflexivity]|]).
    inversion Hn as [|? ? Hb _]; subst.
    assert (Hnorm : redirected (read_buffer (rw_info st'))
                               (accesses_in (rw_info st') (BufferStore b v i))
                               (accesses_in (rw_info st') (BufferStore b p l))).
    { cbn [stmt_accesses]. rewrite Hb. rd_pieces Hd. }
    destruct (b0 || b1) eqn:Hc; cbn [fst snd].
    + split; [discriminate|exact Hnorm].
    + split; [reflexivity|]. cbn [stmt_accesses] in *. rewrite Hb in *.
      rd_unchanged. eapply redirected_swap; [exact Hnorm|]. intros Hw.
      destruct (buffer_same_as b (write_buffer (rw_info st'))); [|reflexivity].
      apply app_eq_nil in Hw as [_ Hw]. apply app_eq_nil in Hw as [_ Hw]. discriminate Hw.
  - (* Evaluate *)
    intros v _ st r st' Hf Hd Hs Hn H. cbn [CacheRead_VisitStmt] in H. minv H.
    rewrite Hf in *.
    do 2 (split; [first [assumption|reflexivity]|]).
    assert (Hnorm : redirected (read_buffer (rw_info st'))
                               (accesses_in (rw_info st') (Evaluate v))
                               (accesses_in (rw_info st') (Evaluate p))).
    { cbn [stmt_accesses]. rd_pieces Hd. }
    destruct b; cbn [fst snd].
    + split; [discriminate|exact Hnorm].
    + split; [reflexivity|]. cbn [stmt_accesses] in *. rd_unchanged. exact Hnorm.
  - (* SeqStmt *)
    intros seq IH Hl st r st' Hf Hd Hs Hn H. cbn [CacheRead_VisitStmt] in H.
    apply bind_inv in H as (seq' & s1 & Hm & H). minv H.
    cbn [blocks_of] in Hl. apply concat_nil_Forall, Forall_map in Hl.
    cbn [store_targets] in Hn.
    eapply (mapM_Forall_pre _
              (fun s => rw_flag s = true /\ rw_info s = rw_info st) (fun _ _ => True)
              (fun x y => (y.2 = false -> y.1 = x)
                          /\ redirected (read_buffer (rw_info st)) (accesses_in (rw_info st) x)
                                        (accesses_in (rw_info st) y.1)))
      in Hm as ((Hf' & Hi') & _ & HF); [| auto | auto | | auto].
    2: { apply Forall_forall. intros x Hx s0 y s0' [Hf0 Hi0] Hy.
         rewrite Forall_forall in IH, Hl.
         assert (Hn0 : no_store_to (read_buffer (rw_info s0)) x).
         { rewrite Hi0. apply Forall_forall. intros t Ht.
           apply (proj1 (Forall_forall _ _) Hn).
           apply elem_of_concat_map. exists x. auto. }
         assert (Hs0 : site_outside (rw_info s0) x).
         { rewrite Hi0. eapply site_outside_seq; eassumption. }
         rewrite <- Hi0 in Hd.
         destruct (IH x Hx (Hl x Hx) _ _ _ Hf0 Hd Hs0 Hn0 Hy) as (Hf1 & Hi1 & Hsm & Hr).
         rewrite Hi0 in *. split; [split; congruence|]. auto. }
    do 2 (split; [assumption|]).
    assert (Hsame : existsb snd seq' = false -> map fst seq' = seq).
    { clear -HF. induction HF as [|x y r r' [Hx _] _ IH]; [reflexivity|].
      cbn [existsb map]. intros H. apply orb_false_elim in H as [Hy Hr].
      rewrite Hx by exact Hy. rewrite IH by exact Hr. reflexivity. }
    assert (Hacc : redirected (read_buffer (rw_info st)) (accesses_in (rw_info st) (SeqStmt seq))
                              (accesses_in (rw_info st) (SeqStmt (map fst seq')))).
    { cbn [stmt_accesses]. rewrite !map_map.
      apply (redirected_concat2 _ (stmt_accesses (read_buffer (rw_info st)))
               (stmt_accesses (write_buffer (rw_info st)))
               (fun y => stmt_accesses (read_buffer (rw_info st)) y.1)
               (fun y => stmt_accesses (write_buffer (rw_info st)) y.1)).
      eapply Forall2_impl; [exact HF|]. intros x y [_ Hr]. exact Hr. }
    destruct (existsb snd seq') eqn:Hc; cbn [fst snd].
    + split; [discriminate|exact Hacc].
    + split; [reflexivity|]. rewrite Hsame in Hacc by reflexivity. exact Hacc.
  - (* IfThenElse *)
    intros c t e IHt IHe Hl st r st' Hf Hd Hs Hn H. cbn [CacheRead_VisitStmt] in H.
    cbn [blocks_of] in Hl. apply app_eq_nil in Hl as [Hlt Hle].
    cbn [store_targets] in Hn. apply Forall_app in Hn as [Hnt Hne].
    assert (Hst : site_outside (rw_info st) t).
    { intros loc Hloc. specialize (Hs loc Hloc). cbn [contains_node] in Hs.
      apply orb_false_elim in Hs as [Hs _]. exact Hs. }
    assert (Hse : match e with Some e' => site_outside (rw_info st) e' | None => True end).
    { destruct e; [|exact I]. intros loc Hloc. specialize (Hs loc Hloc).
      cbn [contains_node] in Hs. apply orb_false_elim in Hs as [_ Hs]. exact Hs. }
    minv H; rewrite Hf in *.
    all: match goal with
         | Ht : VisitStmt ?x _ = (Ok _, _) |- _ =>
             constr_eq x t;
             destruct (IHt Hlt _ _ _ Hf Hd Hst Hnt Ht) as (Hf1 & Hi1 & Hs1 & Hr1)
         end.
    all: try match goal with
         | He : VisitStmt ?e0 ?s0 = (Ok _, _) |- _ =>
             rewrite <- Hi1 in Hd, Hse, Hne;
             destruct (IHe Hle _ _ _ Hf1 Hd Hse Hne He) as (Hf2 & Hi2 & Hs2 & Hr2);
             rewrite Hi1 in *
         end.
    all: cbn [fst snd] in *.
    all: split; [assumption|]; split; [congruence|].
    all: match goal with
         | |- context [if _ then (IfThenElse ?p ?t' ?e', true) else (?orig, false)] =>
             match type of Hd with
             | buffer_same_as (write_buffer ?i) _ = false =>
                 assert (Hnorm : redirected (read_buffer i)
                                            (accesses_in i orig)
                                            (accesses_in i (IfThenElse p t' e')))
                   by (cbn [stmt_accesses]; rd_pieces Hd)
             end
         end.
    all: match goal with
         | |- context [if ?f then _ else _] => destruct f eqn:Hc
         end; cbn [fst snd].
    all: (split; [first [discriminate|reflexivity]|]); try exact Hnorm.
    all: cbn [stmt_accesses] in *; rd_unchanged;
      rewrite ?Hs1, ?Hs2 in * by reflexivity; exact Hnorm.
  - (* For *)
    intros a v mn ext k body IH Hl st r st' Hf Hd Hs Hn H. cbn [CacheRead_VisitStmt] in H.
    cbn [blocks_of] in Hl. cbn [store_targets] in Hn.
    assert (Hsb : site_outside (rw_info st) body).
    { intros loc Hloc. specialize (Hs loc Hloc). cbn [contains_node] in Hs.
      apply orb_false_elim in Hs as [_ Hs]. exact Hs. }
    assert (Hsa : forall loc, loc_sref (rw_info st) = Some loc ->
                              ptr_eqb (PtrFor a) (stmt_ptr (sref_stmt loc)) = false).
    { intros loc Hloc. specialize (Hs loc Hloc). cbn [contains_node] in Hs.
      apply orb_false_elim in Hs as [Hs _]. exact Hs. }
    minv H; rewrite Hf in *.
    all: match goal with
         | Ht : VisitStmt _ _ = (Ok _, _) |- _ =>
             destruct (IH Hl _ _ _ Hf Hd Hsb Hn Ht) as (Hf1 & Hi1 & Hs1 & Hr1)
         end.
    all: try match goal with
         | Ha : rw_alloc _ = (Ok _, _) |- _ => apply rw_alloc_inv in Ha as [Hia Hfa]
         end.
    all: match goal with
         | Hins : insert_into_loop _ _ _ = (Ok _, _) |- _ =>
             apply insert_into_loop_miss in Hins as [-> ->];
             [|intros loc Hloc; apply Hsa; congruence]
         end.
    all: cbn [fst snd] in *.
    all: split; [congruence|]; split; [congruence|].
    all: (split; [first [discriminate|reflexivity]|]).
    all: match type of Hd with
         | buffer_same_as (write_buffer ?i) _ = false =>
             match goal with
             | E1 : CacheRead_VisitExpr _ _ ?m1 = (?p, _),
               E2 : CacheRead_VisitExpr _ _ ?m2 = (?q, _),
               Hr : redirected _ _ (stmt_accesses _ ?body', _) |- _ =>
                 constr_eq m1 mn; constr_eq m2 ext;
                 assert (Hnorm : forall a', redirected (read_buffer i)
                                              (accesses_in i (For a v mn ext k body))
                                              (accesses_in i (For a' v p q k body')))
                   by (intros a'; cbn [stmt_accesses]; rd_pieces Hd)
             end
         end.
    all: try (apply Hnorm).
    all: specialize (Hnorm a); cbn [stmt_accesses] in *; rd_unchanged;
      rewrite ?Hs1 in * by reflexivity; exact Hnorm.
  - (* BlockRealize *)
    intros vals pred b _ Hl. cbn [blocks_of] in Hl. destruct b. discriminate Hl.
  - (* BlockStmt *)
    intros b _ Hl. cbn [blocks_of] in Hl. destruct b. discriminate Hl.
Qed.

(** X21. A consumer block of cache_read reads the cache.  Let the cache
    buffer and the buffer read be different objects.  Take a block with no
    block below it that is neither the scope root nor a block that declares a
    write of the buffer read, that is a consumer, that does not hold the
    insertion site and that stores nothing to the buffer read.  When the loads
    of the buffer read in its body have no such load among their indices and
    the body does not access the cache buffer, the body of the block the
    rewriter returns has no load of the buffer read left, and its accesses to
    the cache buffer are the loads there were of the buffer read, at the same
    indices and in the same order. *)
Theorem CacheRead_consumer_reads_cache (b b' : Block) (c : bool) (st st' : RewriterState) :
  let info := rw_info st in
  child_blocks b = [] ->
  ptr_eqb (PtrBlock (block_addr b)) (stmt_ptr (sref_stmt scope_sref)) = false ->
  GetBufferRegionFromBuffer (block_writes b) (read_buffer info) = Ok None ->
  CacheRead_is_consumer info b st = (Ok true, st) ->
  site_outside info (BlockStmt b) ->
  buffer_same_as (write_buffer info) (read_buffer info) = false ->
  Forall (fun target => buffer_same_as target (read_buffer info) = false)
         (store_targets_block b) ->
  flat_accesses (read_buffer info) (stmt_accesses (read_buffer info) (block_body b)) ->
  stmt_accesses (write_buffer info) (block_body b) = [] ->
  CacheRead_VisitBlock scope_sref b st = (Ok (b', c), st') ->
  stmt_accesses (read_buffer info) (block_body b') = []
  /\ stmt_accesses (write_buffer info) (block_body b')
     = stmt_accesses (read_buffer info) (block_body b).
Proof.
  intros info Hl Hscope Hprod Hcons Hsite Hd Hstores Hflat Hnone H.
  destruct b as [a ivs rs ws n body init al mb].
  unfold child_blocks in Hl. cbn [block_init block_body block_addr block_writes] in *.
  apply app_eq_nil in Hl as [Hli Hlb].
  cbn [store_targets_block] in Hstores. apply Forall_app in Hstores as [Hsi Hsb].
  assert (Hsite_b : site_outside info body).
  { intros loc Hloc. specialize (Hsite loc Hloc). cbn [contains_node contains_node_block] in Hsite.
    apply orb_false_elim in Hsite as [_ Hs]. exact Hs. }
  assert (Hsite_i : match init with Some i => site_outside info i | None => True end).
  { destruct init; [|exact I]. intros loc Hloc. specialize (Hsite loc Hloc).
    cbn [contains_node contains_node_block] in Hsite.
    apply orb_false_elim in Hsite as [Hs _]. apply orb_false_elim in Hs as [_ Hs]. exact Hs. }
  assert (Hsite_a : forall loc, loc_sref info = Some loc ->
                                ptr_eqb (PtrBlock a) (stmt_ptr (sref_stmt loc)) = false).
  { intros loc Hloc. specialize (Hsite loc Hloc).
    cbn [contains_node contains_node_block] in Hsite.
    apply orb_false_elim in Hsite as [Hs _]. apply orb_false_elim in Hs as [Hs _]. exact Hs. }
  cbn [CacheRead_VisitBlock] in H. fold VisitStmt in H.
  apply bind_inv in H as (st0 & s0 & Hg & H). unfold get in Hg. inversion Hg; subst st0 s0.
  fold info in H. cbv beta zeta in H.
  apply bind_inv in H as (is_consumer & s1 & Hc & H).
  rewrite Hcons in Hc. inversion Hc; subst is_consumer s1. clear Hc.
  rewrite Hscope in H. cbn [negb] in H. rewrite Hprod in H.
  minv H.
  { match goal with
    | Hr : Ok None = Ok _ |- _ => inversion Hr; subst
    end.
    match goal with
    | Hb : bool_decide _ = true |- _ =>
        apply bool_decide_eq_true in Hb; destruct Hb as [? Hb]; discriminate Hb
    end. }
  all: try match goal with
         | Hv : VisitStmt _ (set_rw_flag true _) = (Ok _, ?s) |- _ =>
             lazymatch goal with
             | Hbody : VisitStmt _ s = (Ok _, _) |- _ =>
                 apply CacheRead_VisitStmt_leaf in Hv as (Hf1 & Hi1 & _ & _);
                 [|assumption|reflexivity|exact Hd|exact Hsite_i|exact Hsi];
                 cbn [rw_info set_rw_flag] in Hi1
             end
         end.
  all: match goal with
       | Hv : VisitStmt _ ?s = (Ok _, _) |- _ =>
           assert (Hfs : rw_flag s = true) by first [assumption|reflexivity];
           assert (His : rw_info s = info) by first [assumption|reflexivity];
           apply CacheRead_VisitStmt_leaf in Hv as (Hf2 & Hi2 & Hsame & Hred);
           [|assumption|exact Hfs|rewrite His; exact Hd|rewrite His; exact Hsite_b
            |rewrite His; exact Hsb];
           rewrite His in Hred, Hi2
       end.
  all: cbn [fst snd] in *.
  all: specialize (Hred Hflat Hnone) as [Hread Hwrite]; cbn [fst snd] in *.
  all: match goal with
       | Hr : rebuild_block _ _ _ _ _ _ _ _ _ = _ |- _ =>
           pose proof (rebuild_block_inv _ _ _ _ _ _ _ _ _ _ _ Hr) as (Hi3 & _ & _);
           apply rebuild_block_cases in Hr as [[Hc Hr]|[_ [? Hr]]];
           inversion Hr; subst; clear Hr
       end.
  all: match goal with
       | Hins : insert_into_block _ _ _ = (Ok _, _) |- _ =>
           apply insert_into_block_miss in Hins as [Hins ->];
           [inversion Hins; subst; clear Hins
           |intros loc Hloc; apply Hsite_a; rewrite <- Hi2, <- Hi3; exact Hloc]
       end.
  all: repeat match goal with
         | Hcp : copy_block _ _ _ = (Ok _, _) |- _ =>
             apply copy_block_inv in Hcp as (_ & _ & ? & ->)
         | Hc : _ || _ = false |- _ => apply orb_false_elim in Hc as [? Hc]
         end.
  all: cbn [fst snd block_body with_addr with_reads_match] in *.
  all: subst.
  all: repeat match goal with
         | Hs : false = false -> _ |- _ => specialize (Hs eq_refl)
         end.
  all: subst; auto.
Qed.

End CacheRead_consumer.

Lemma CacheRead_consumer_reads_cache_witness :
  exists b' c st',
    CacheRead_VisitBlock Scenario.root_sref Scenario.D
                         (mkRewriter 200 Scenario.plan_B false) = (Ok (b', c), st')
    /\ stmt_accesses Scenario.B (block_body b') = []
    /\ stmt_accesses Scenario.B_local (block_body b') = [[EVar Scenario.vi_D]].
Proof.
  destruct (CacheRead_VisitBlock Scenario.root_sref Scenario.D
              (mkRewriter 200 Scenario.plan_B false))
    as [[[b' c]|e] st'] eqn:E; [|vm_compute in E; discriminate E].
  exists b', c, st'. split; [reflexivity|].
  apply (CacheRead_consumer_reads_cache Scenario.root_sref Scenario.D b' c
           (mkRewriter 200 Scenario.plan_B false) st').
  - reflexivity.
  - reflexivity.
  - reflexivity.
  - reflexivity.
  - intros loc Hloc. inversion Hloc. reflexivity.
  - reflexivity.
  - repeat constructor.
  - repeat constructor.
  - reflexivity.
  - exact E.
Defined.
